(** * Driver topology runtime: [Node], [DriverComponent] and [DriverRunner]

    A shallow embedding of [src/devices/bin/driver_manager/driver_runner.cc].

    Objects live in a store indexed by their address: [Node]s in [heap],
    [DriverComponent]s in [drivers_].  A raw pointer is an address, [nullptr]
    and an empty [std::optional] are [None], a [std::weak_ptr] is an optional
    address which locks as long as the store still holds the object.  Member
    functions take the address of [this] and thread the store.  A function
    whose C++ behaviour is undefined on some input (null dereference,
    [erase(end())], a use of an invalidated iterator) returns [Undefined]
    there; recursion that C++ does not bound takes fuel.

    Outgoing FIDL calls and the unlinking steps of [Node::Remove] are recorded
    in [trace], in the order in which they happen.  Logging is not modelled.
    The store never frees an object by itself: destruction through the last
    [shared_ptr] is the environment's step [free_node]. *)

From Stdlib Require Import Ascii String.
From stdpp Require Import gmap strings list pretty.

Local Open Scope string_scope.
Local Open Scope list_scope.

(** ** Addresses, handles and status codes *)

Definition ptr := positive.      (* Node* *)
Definition cptr := positive.     (* DriverComponent* *)
Definition hptr := positive.     (* DriverHostComponent* *)
Definition channel := positive.  (* a channel end or a server binding on it *)
Definition koid := N.            (* zx_koid_t *)

(** [zx_status_t] is a signed integer.  The values are those of
    [<zircon/errors.h>], which is not among the sources. *)
Definition zx_status_t := Z.
Definition ZX_OK : zx_status_t := 0%Z.
Definition ZX_ERR_INVALID_ARGS : zx_status_t := (-10)%Z.
Definition ZX_ERR_UNAVAILABLE : zx_status_t := (-28)%Z.
Definition ZX_ERR_NEXT : zx_status_t := (-61)%Z.

(** [zx::status<T>] *)
Inductive status (A : Type) : Type :=
| ok (a : A)
| error (s : zx_status_t).
Arguments ok {A} a.
Arguments error {A} s.

Definition is_error {A} (r : status A) : bool :=
  match r with ok _ => false | error _ => true end.

(** [fdf::wire::NodeError], the members this file replies with. *)
Inductive NodeError :=
| kNodeRemoved
| kNameMissing
| kNameInvalid
| kNameAlreadyExists
| kOfferSourceNameMissing
| kOfferRefExists
| kSymbolNameMissing
| kSymbolAddressMissing
| kSymbolAlreadyExists.

Inductive Collection := kNone | kHost | kBoot | kPackage.

Global Instance Collection_eq_dec : EqDecision Collection.
Proof. solve_decision. Defined.

(** ** Outcomes of running a member function *)

Inductive Fault :=
| NullDereference        (* [p->f] with [p == nullptr] *)
| DanglingPointer        (* the address holds no object *)
| EraseAtEnd             (* [children.erase(children.end())] *)
| IteratorInvalidated    (* the element an iterator designates went away *)
| BadOptionalAccess.     (* [*opt] on an empty optional *)

Inductive Outcome (A : Type) : Type :=
| Done (a : A)
| Undefined (f : Fault)
| OutOfFuel.
Arguments Done {A} a.
Arguments Undefined {A} f.
Arguments OutOfFuel {A}.

Global Instance Outcome_bind : MBind Outcome := λ A B k m,
  match m with
  | Done a => k a
  | Undefined f => Undefined f
  | OutOfFuel => OutOfFuel
  end.

Global Instance Outcome_ret : MRet Outcome := λ A a, Done a.

(** ** FIDL tables *)

(** [fdecl::wire::ChildRef] *)
Record ChildRef := mkChildRef {
  ref_name : string;
  ref_collection : string;
}.

(** [fdecl::wire::Ref]; only [WithChild] is built here. *)
Inductive Ref :=
| RefParent
| RefSelf
| RefChild (c : ChildRef)
| RefFramework.

(** The fields which the seven offer declarations have in common. *)
Record OfferDecl := mkOfferDecl {
  source : option Ref;
  source_name : option string;
  target : option Ref;
  target_name : option string;
}.

(** [fdecl::wire::Offer], a tagged union. *)
Inductive Offer :=
| OfferService (d : OfferDecl)
| OfferProtocol (d : OfferDecl)
| OfferDirectory (d : OfferDecl)
| OfferStorage (d : OfferDecl)
| OfferRunner (d : OfferDecl)
| OfferResolver (d : OfferDecl)
| OfferEvent (d : OfferDecl)
| OfferUnknown.

Record NodeSymbol := mkNodeSymbol {
  symbol_name : option string;
  symbol_address : option N;
}.

Record NodeProperty := mkNodeProperty {
  property_key : option N;
  property_value : option N;
}.

(** [fdf::wire::NodeAddArgs] *)
Record NodeAddArgs := mkNodeAddArgs {
  args_name : option string;
  args_offers : option (list Offer);
  args_properties : option (list NodeProperty);
  args_symbols : option (list NodeSymbol);
}.

(** ** Objects *)

(** [DriverBinder*]: the only binder is the runner itself. *)
Inductive DriverBinder := TheDriverRunner.

Record Node := mkNode {
  name_ : string;
  parents_ : list ptr;                     (* std::vector<Node*> *)
  children_ : list ptr;                    (* std::list<std::shared_ptr<Node>> *)
  driver_binder_ : option DriverBinder;    (* None is nullptr *)
  driver_host_ : option hptr;
  driver_component_ : option cptr;
  collection_ : Collection;
  removal_in_progress_ : bool;
  controller_ref_ : option channel;
  node_ref_ : option channel;
  offers_ : list Offer;
  properties_ : list NodeProperty;
  symbols_ : list NodeSymbol;
}.

Record DriverComponent := mkDriverComponent {
  url_ : string;
  node_ : ptr;
  driver_ref_ : option channel;
  stop_in_progress_ : bool;
}.

(** What the runner sends out, and the unlinking steps of [Node::Remove]. *)
Inductive Event :=
| EvDriverStop (d : cptr)                        (* driver_->Stop() *)
| EvChildErased (parent child : ptr)             (* parent->children_.erase(child) *)
| EvParentRemove (child parent : ptr)            (* parent->Remove() from the child *)
| EvOnBind (node : ptr)                          (* NodeController.OnBind *)
| EvCreateChild (collection name url : string) (offers : option (list Offer))
                (token : option koid)            (* realm_->CreateChild *)
| EvHostStart (host : hptr) (node : ptr) (symbols : list NodeSymbol)
| EvClose (s : zx_status_t).                     (* epitaph on a ComponentController *)

(** A pending set of a composite driver: one weak reference per slot. *)
Definition CompositeArgs := list (option ptr).

Record World := mkWorld {
  heap : gmap ptr Node;
  drivers_ : gmap cptr DriverComponent;
  root_node_ : ptr;
  orphaned_nodes_ : list ptr;                       (* weak references *)
  composite_args_ : list (string * CompositeArgs);  (* a multimap, by URL *)
  driver_args_ : gmap koid ptr;
  driver_hosts_ : list hptr;
  next_driver_host_id_ : N;
  match_requests_ : list (ptr * NodeAddArgs);       (* MatchDriver calls in flight *)
  trace : list Event;
}.

(** ** Store access *)

Definition node_at (n : ptr) (w : World) : Outcome Node :=
  match heap w !! n with
  | Some nd => Done nd
  | None => Undefined DanglingPointer
  end.

Definition driver_at (d : cptr) (w : World) : Outcome DriverComponent :=
  match drivers_ w !! d with
  | Some dc => Done dc
  | None => Undefined DanglingPointer
  end.

Definition with_heap (h : gmap ptr Node) (w : World) : World :=
  {| heap := h; drivers_ := drivers_ w; root_node_ := root_node_ w;
     orphaned_nodes_ := orphaned_nodes_ w; composite_args_ := composite_args_ w;
     driver_args_ := driver_args_ w; driver_hosts_ := driver_hosts_ w;
     next_driver_host_id_ := next_driver_host_id_ w;
     match_requests_ := match_requests_ w; trace := trace w |}.

Definition with_drivers (ds : gmap cptr DriverComponent) (w : World) : World :=
  {| heap := heap w; drivers_ := ds; root_node_ := root_node_ w;
     orphaned_nodes_ := orphaned_nodes_ w; composite_args_ := composite_args_ w;
     driver_args_ := driver_args_ w; driver_hosts_ := driver_hosts_ w;
     next_driver_host_id_ := next_driver_host_id_ w;
     match_requests_ := match_requests_ w; trace := trace w |}.

Definition with_trace (t : list Event) (w : World) : World :=
  {| heap := heap w; drivers_ := drivers_ w; root_node_ := root_node_ w;
     orphaned_nodes_ := orphaned_nodes_ w; composite_args_ := composite_args_ w;
     driver_args_ := driver_args_ w; driver_hosts_ := driver_hosts_ w;
     next_driver_host_id_ := next_driver_host_id_ w;
     match_requests_ := match_requests_ w; trace := t |}.

Definition put_node (n : ptr) (nd : Node) (w : World) : World :=
  with_heap (<[n := nd]> (heap w)) w.

Definition put_driver (d : cptr) (dc : DriverComponent) (w : World) : World :=
  with_drivers (<[d := dc]> (drivers_ w)) w.

Definition emit (e : Event) (w : World) : World :=
  with_trace (trace w ++ [e]) w.

(** Field updates of a [Node]. *)
Definition set_children (cs : list ptr) (nd : Node) : Node :=
  mkNode (name_ nd) (parents_ nd) cs (driver_binder_ nd) (driver_host_ nd)
    (driver_component_ nd) (collection_ nd) (removal_in_progress_ nd)
    (controller_ref_ nd) (node_ref_ nd) (offers_ nd) (properties_ nd) (symbols_ nd).

Definition begin_removal (nd : Node) : Node :=
  mkNode (name_ nd) (parents_ nd) (children_ nd) None (driver_host_ nd)
    (driver_component_ nd) (collection_ nd) true
    (controller_ref_ nd) (node_ref_ nd) (offers_ nd) (properties_ nd) (symbols_ nd).

Definition finish_removal (nd : Node) : Node :=
  mkNode (name_ nd) [] (children_ nd) (driver_binder_ nd) (driver_host_ nd)
    (driver_component_ nd) (collection_ nd) (removal_in_progress_ nd)
    None None (offers_ nd) (properties_ nd) (symbols_ nd).

Definition set_stop_in_progress (dc : DriverComponent) : DriverComponent :=
  mkDriverComponent (url_ dc) (node_ dc) (driver_ref_ dc) true.

(** ** [std::list] and [std::vector] operations on children and parents *)

(** [std::find] followed by [erase]: the first occurrence goes; [None] when
    [find] returns [end()]. *)
Fixpoint erase_first (c : ptr) (l : list ptr) : option (list ptr) :=
  match l with
  | [] => None
  | x :: l' =>
      if decide (x = c) then Some l'
      else match erase_first c l' with
           | Some r => Some (x :: r)
           | None => None
           end
  end.

(** [++it] for an iterator at the element [c]: the element that follows it,
    [None] for [end()].  A list iterator is identified with the element it
    designates, which names one cell as long as the list holds every child
    once. *)
Fixpoint list_next (c : ptr) (l : list ptr) : option ptr :=
  match l with
  | [] => None
  | x :: l' => if decide (x = c) then head l' else list_next c l'
  end.

(** An iterator stays valid while its element stays in the list; [end()]
    always does. *)
Definition iterator_valid (it : option ptr) (l : list ptr) : bool :=
  match it with
  | None => true
  | Some c => bool_decide (c ∈ l)
  end.

Definition empty {A} (l : list A) : bool :=
  match l with [] => true | _ => false end.

(** ** [DriverComponent::StopDriver] *)

Definition StopDriver (d : cptr) (w : World) : Outcome World :=
  dc ← driver_at d w;
  if stop_in_progress_ dc then Done w
  else Done (put_driver d (set_stop_in_progress dc) (emit (EvDriverStop d) w)).

(** ** [Node::Remove] *)

Section Remove.

(** The recursive calls [child->Remove()] and [parent->Remove()]. *)
Variable self : ptr → World → Outcome World.

(** The loop over [children_]: the iterator is advanced before the call, and
    must still be valid after it.  [steps] bounds the iterations; the list
    only shrinks during the loop, so its length at the start is enough. *)
Fixpoint remove_children (n : ptr) (steps : nat) (it : option ptr) (w : World)
    : Outcome World :=
  match it with
  | None => Done w
  | Some child =>
      match steps with
      | O => OutOfFuel
      | S steps' =>
          nd ← node_at n w;
          let it' := list_next child (children_ nd) in
          w1 ← self child w;
          nd1 ← node_at n w1;
          if iterator_valid it' (children_ nd1)
          then remove_children n steps' it' w1
          else Undefined IteratorInvalidated
      end
  end.

(** One turn of the loop over [parents_]. *)
Definition unlink_from_parent (n parent : ptr) (w : World) : Outcome World :=
  pd ← node_at parent w;
  match erase_first n (children_ pd) with
  | None => Undefined EraseAtEnd
  | Some cs =>
      let w1 := emit (EvChildErased parent n) (put_node parent (set_children cs pd) w) in
      nd ← node_at n w1;
      if (removal_in_progress_ pd && empty cs) || (1 <? length (parents_ nd))%nat
      then self parent (emit (EvParentRemove n parent) w1)
      else Done w1
  end.

(** The range-for over [parents_]: [ps] is what is left of the vector [all]
    the loop started on.  [parents_] must not change under the loop. *)
Fixpoint unlink_from_parents (n : ptr) (all ps : list ptr) (w : World)
    : Outcome World :=
  match ps with
  | [] => Done w
  | parent :: ps' =>
      w1 ← unlink_from_parent n parent w;
      nd ← node_at n w1;
      if decide (parents_ nd = all)
      then unlink_from_parents n all ps' w1
      else Undefined IteratorInvalidated
  end.

(** The first phase: the flag, the binder, and the children. *)
Definition remove_phase_children (n : ptr) (w : World) : Outcome World :=
  nd ← node_at n w;
  let w1 := put_node n (begin_removal nd) w in
  remove_children n (length (children_ nd)) (head (children_ nd)) w1.

(** What follows once [children_] is empty. *)
Definition remove_phase_unlink (n : ptr) (w : World) : Outcome World :=
  nd ← node_at n w;
  match driver_component_ nd with
  | Some d => StopDriver d w
  | None =>
      w1 ← unlink_from_parents n (parents_ nd) (parents_ nd) w;
      nd1 ← node_at n w1;
      Done (put_node n (finish_removal nd1) w1)
  end.

Definition Remove_body (n : ptr) (w : World) : Outcome World :=
  w1 ← remove_phase_children n w;
  nd ← node_at n w1;
  if negb (empty (children_ nd)) then Done w1
  else remove_phase_unlink n w1.

End Remove.

(** [Node::Remove].  The store keeps a node to which the call drops the last
    [shared_ptr] (the entry in the children of its last parent, the server
    bindings): the node stays, detached, where the code destroys it.  What
    the code does with a node after its destruction is not defined; the
    result here tells what the call does to the lists and flags of the nodes
    up to there. *)
Fixpoint Remove (fuel : nat) (n : ptr) (w : World) : Outcome World :=
  match fuel with
  | O => OutOfFuel
  | S fuel' => Remove_body (Remove fuel') n w
  end.

(** [DriverComponent::~DriverComponent], followed by the release of the
    object. *)
Definition set_driver_component (dc : option cptr) (nd : Node) : Node :=
  mkNode (name_ nd) (parents_ nd) (children_ nd) (driver_binder_ nd) (driver_host_ nd)
    dc (collection_ nd) (removal_in_progress_ nd)
    (controller_ref_ nd) (node_ref_ nd) (offers_ nd) (properties_ nd) (symbols_ nd).

Definition DriverComponent_destroy (fuel : nat) (d : cptr) (w : World) : Outcome World :=
  dc ← driver_at d w;
  nd ← node_at (node_ dc) w;
  w1 ← Remove fuel (node_ dc) (put_node (node_ dc) (set_driver_component None nd) w);
  Done (with_drivers (delete d (drivers_ w1)) w1).

(** [DriverComponent::RequestDriverStop], behind [Stop] and [Kill]. *)
Definition RequestDriverStop (fuel : nat) (d : cptr) (w : World) : Outcome World :=
  dc ← driver_at d w;
  Remove fuel (node_ dc) w.

(** ** Helpers of the anonymous namespace *)

(** [VisitOffer]: [apply] on the declaration of a known kind of offer. *)
Definition VisitOffer {R} (offer : Offer) (apply : OfferDecl → R) : option R :=
  match offer with
  | OfferService d | OfferProtocol d | OfferDirectory d | OfferStorage d
  | OfferRunner d | OfferResolver d | OfferEvent d => Some (apply d)
  | OfferUnknown => None
  end.

(** The same visit with an [apply] that changes the declaration in place. *)
Definition VisitOffer_mut (offer : Offer) (apply : OfferDecl → OfferDecl) : Offer :=
  match offer with
  | OfferService d => OfferService (apply d)
  | OfferProtocol d => OfferProtocol (apply d)
  | OfferDirectory d => OfferDirectory (apply d)
  | OfferStorage d => OfferStorage (apply d)
  | OfferRunner d => OfferRunner (apply d)
  | OfferResolver d => OfferResolver (apply d)
  | OfferEvent d => OfferEvent (apply d)
  | OfferUnknown => OfferUnknown
  end.

Definition value_or {A} (o : option A) (d : A) : A := default d o.

Definition CollectionName (collection : Collection) : string :=
  match collection with
  | kNone => EmptyString
  | kHost => "driver-hosts"
  | kBoot => "boot-drivers"
  | kPackage => "pkg-drivers"
  end.

Definition PrimaryParent (parents : list ptr) : option ptr := head parents.

Definition kBootScheme : string := "fuchsia-boot://".

(** [PA_HND] and [PA_USER0] of [<zircon/processargs.h>], which is not among
    the sources. *)
Definition PA_USER0 : Z := 240.
Definition PA_HND (type arg : Z) : Z :=
  Z.lor (Z.land type 255) (Z.shiftl (Z.land arg 65535) 16).
Definition kTokenId : Z := PA_HND PA_USER0 0.

(** ** [Node]: construction and accessors *)

(** [Node::Node]: a node starts in the driver host of its primary parent. *)
Definition new_Node (name : string) (parents : list ptr)
    (driver_binder : option DriverBinder) (w : World) : Outcome Node :=
  match PrimaryParent parents with
  | Some primary_parent =>
      pd ← node_at primary_parent w;
      Done (mkNode name parents [] driver_binder (driver_host_ pd) None kNone false
              None None [] [] [])
  | None =>
      Done (mkNode name parents [] driver_binder None None kNone false
              None None [] [] [])
  end.

(** [std::make_shared<Node>]: the object gets an address not in use. *)
Definition fresh_node (w : World) : ptr := fresh (dom (heap w)).

(** [Node::symbols] *)
Definition symbols (n : ptr) (w : World) : Outcome (list NodeSymbol) :=
  nd ← node_at n w;
  match PrimaryParent (parents_ nd) with
  | Some primary_parent =>
      pd ← node_at primary_parent w;
      if decide (driver_host_ pd = driver_host_ nd)
      then Done (if (1 <? length (parents_ nd))%nat then symbols_ pd else symbols_ nd)
      else Done []
  | None => Done []
  end.

(** [Node::driver_host]: [*driver_host_]. *)
Definition driver_host (n : ptr) (w : World) : Outcome hptr :=
  nd ← node_at n w;
  match driver_host_ nd with
  | Some h => Done h
  | None => Undefined BadOptionalAccess
  end.

Definition set_collection (c : Collection) (nd : Node) : Node :=
  mkNode (name_ nd) (parents_ nd) (children_ nd) (driver_binder_ nd) (driver_host_ nd)
    (driver_component_ nd) c (removal_in_progress_ nd)
    (controller_ref_ nd) (node_ref_ nd) (offers_ nd) (properties_ nd) (symbols_ nd).

Definition set_driver_host (h : hptr) (nd : Node) : Node :=
  mkNode (name_ nd) (parents_ nd) (children_ nd) (driver_binder_ nd) (Some h)
    (driver_component_ nd) (collection_ nd) (removal_in_progress_ nd)
    (controller_ref_ nd) (node_ref_ nd) (offers_ nd) (properties_ nd) (symbols_ nd).

Definition set_controller_ref (c : channel) (nd : Node) : Node :=
  mkNode (name_ nd) (parents_ nd) (children_ nd) (driver_binder_ nd) (driver_host_ nd)
    (driver_component_ nd) (collection_ nd) (removal_in_progress_ nd)
    (Some c) (node_ref_ nd) (offers_ nd) (properties_ nd) (symbols_ nd).

Definition set_node_ref (c : channel) (nd : Node) : Node :=
  mkNode (name_ nd) (parents_ nd) (children_ nd) (driver_binder_ nd) (driver_host_ nd)
    (driver_component_ nd) (collection_ nd) (removal_in_progress_ nd)
    (controller_ref_ nd) (Some c) (offers_ nd) (properties_ nd) (symbols_ nd).

Definition set_offers (os : list Offer) (nd : Node) : Node :=
  mkNode (name_ nd) (parents_ nd) (children_ nd) (driver_binder_ nd) (driver_host_ nd)
    (driver_component_ nd) (collection_ nd) (removal_in_progress_ nd)
    (controller_ref_ nd) (node_ref_ nd) os (properties_ nd) (symbols_ nd).

Definition set_properties (ps : list NodeProperty) (nd : Node) : Node :=
  mkNode (name_ nd) (parents_ nd) (children_ nd) (driver_binder_ nd) (driver_host_ nd)
    (driver_component_ nd) (collection_ nd) (removal_in_progress_ nd)
    (controller_ref_ nd) (node_ref_ nd) (offers_ nd) ps (symbols_ nd).

Definition set_symbols (ss : list NodeSymbol) (nd : Node) : Node :=
  mkNode (name_ nd) (parents_ nd) (children_ nd) (driver_binder_ nd) (driver_host_ nd)
    (driver_component_ nd) (collection_ nd) (removal_in_progress_ nd)
    (controller_ref_ nd) (node_ref_ nd) (offers_ nd) (properties_ nd) ss.

(** The walks along primary parents stop at a node without parents.  A walk
    which does not repeat a node visits at most as many nodes as the store
    holds, so that many steps are allowed; a walk in a cycle never ends. *)
Definition walk_fuel (w : World) : nat := S (size (heap w)).

(** [Node::TopoName] *)
Fixpoint topo_names (fuel : nat) (node : option ptr) (w : World) (names : list string)
    : Outcome (list string) :=
  match node with
  | None => Done names
  | Some n =>
      match fuel with
      | O => OutOfFuel
      | S fuel' =>
          nd ← node_at n w;
          topo_names fuel' (PrimaryParent (parents_ nd)) w (name_ nd :: names)
      end
  end.

Definition JoinStrings (strings : list string) (separator : string) : string :=
  String.concat separator strings.

Definition TopoName (n : ptr) (w : World) : Outcome string :=
  names ← topo_names (walk_fuel w) (Some n) w [];
  Done (JoinStrings names ".").

(** [Node::AddToParents] *)
Definition push_child (c : ptr) (nd : Node) : Node :=
  set_children (children_ nd ++ [c]) nd.

Fixpoint add_to_parents (this_node : ptr) (parents : list ptr) (w : World)
    : Outcome World :=
  match parents with
  | [] => Done w
  | parent :: parents' =>
      pd ← node_at parent w;
      add_to_parents this_node parents' (put_node parent (push_child this_node pd) w)
  end.

Definition AddToParents (n : ptr) (w : World) : Outcome World :=
  nd ← node_at n w;
  add_to_parents n (parents_ nd) w.

(** ** [Node::CreateOffers] *)

(** The search for a parent node with a collection.  The loop condition reads
    [source_node->collection_] before it compares [source_node] with
    [nullptr]. *)
Fixpoint find_source (fuel : nat) (source_node : option ptr) (w : World) : Outcome ptr :=
  match fuel with
  | O => OutOfFuel
  | S fuel' =>
      match source_node with
      | None => Undefined NullDereference
      | Some s =>
          nd ← node_at s w;
          if decide (collection_ nd = kNone)
          then find_source fuel' (PrimaryParent (parents_ nd)) w
          else Done s
      end
  end.

Definition set_source (r : Ref) (d : OfferDecl) : OfferDecl :=
  mkOfferDecl (Some r) (source_name d) (target d) (target_name d).

(** The lambda given to [VisitOffer]: it runs for the known kinds only. *)
Definition assign_source (source_node : ptr) (w : World) (offer : Offer) : Outcome Offer :=
  match offer with
  | OfferUnknown => Done OfferUnknown
  | _ =>
      name ← TopoName source_node w;
      nd ← node_at source_node w;
      let source_ref := mkChildRef name (CollectionName (collection_ nd)) in
      Done (VisitOffer_mut offer (set_source (RefChild source_ref)))
  end.

Fixpoint assign_sources (source_node : ptr) (w : World) (offers : list Offer)
    : Outcome (list Offer) :=
  match offers with
  | [] => Done []
  | offer :: offers' =>
      o ← assign_source source_node w offer;
      os ← assign_sources source_node w offers';
      Done (o :: os)
  end.

(** The body of the loop over [parents_].  The offers are rewritten where
    they are stored (in this node, or in the parent of a composite node) and
    copied to the result. *)
Definition create_offers_of (n : ptr) (parent : ptr) (acc : list Offer * World)
    : Outcome (list Offer * World) :=
  let '(node_offers, w) := acc in
  source_node ← find_source (walk_fuel w) (Some parent) w;
  nd ← node_at n w;
  let owner := if decide (length (parents_ nd) = 1%nat) then n else parent in
  od ← node_at owner w;
  parent_offers ← assign_sources source_node w (offers_ od);
  Done (node_offers ++ parent_offers, put_node owner (set_offers parent_offers od) w).

Fixpoint create_offers_loop (n : ptr) (parents : list ptr) (acc : list Offer * World)
    : Outcome (list Offer * World) :=
  match parents with
  | [] => Done acc
  | parent :: parents' =>
      acc' ← create_offers_of n parent acc;
      create_offers_loop n parents' acc'
  end.

Definition CreateOffers (n : ptr) (w : World) : Outcome (list Offer * World) :=
  nd ← node_at n w;
  create_offers_loop n (parents_ nd) ([], w).

(** [Node::CreateAddArgs] *)
Definition CreateAddArgs (n : ptr) (w : World) : Outcome (NodeAddArgs * World) :=
  nd ← node_at n w;
  '(offers, w1) ← CreateOffers n w;
  Done (mkNodeAddArgs (Some (name_ nd)) (Some offers) (Some (properties_ nd))
          (Some (symbols_ nd)), w1).

(** [Node::OnBind] *)
Definition OnBind (n : ptr) (w : World) : Outcome World :=
  nd ← node_at n w;
  match controller_ref_ nd with
  | Some _ => Done (emit (EvOnBind n) w)
  | None => Done w
  end.

(** ** The runner's own fields *)

Definition with_orphaned_nodes (l : list ptr) (w : World) : World :=
  {| heap := heap w; drivers_ := drivers_ w; root_node_ := root_node_ w;
     orphaned_nodes_ := l; composite_args_ := composite_args_ w;
     driver_args_ := driver_args_ w; driver_hosts_ := driver_hosts_ w;
     next_driver_host_id_ := next_driver_host_id_ w;
     match_requests_ := match_requests_ w; trace := trace w |}.

Definition with_composite_args (l : list (string * CompositeArgs)) (w : World) : World :=
  {| heap := heap w; drivers_ := drivers_ w; root_node_ := root_node_ w;
     orphaned_nodes_ := orphaned_nodes_ w; composite_args_ := l;
     driver_args_ := driver_args_ w; driver_hosts_ := driver_hosts_ w;
     next_driver_host_id_ := next_driver_host_id_ w;
     match_requests_ := match_requests_ w; trace := trace w |}.

Definition with_driver_args (m : gmap koid ptr) (w : World) : World :=
  {| heap := heap w; drivers_ := drivers_ w; root_node_ := root_node_ w;
     orphaned_nodes_ := orphaned_nodes_ w; composite_args_ := composite_args_ w;
     driver_args_ := m; driver_hosts_ := driver_hosts_ w;
     next_driver_host_id_ := next_driver_host_id_ w;
     match_requests_ := match_requests_ w; trace := trace w |}.

Definition with_driver_hosts (l : list hptr) (next : N) (w : World) : World :=
  {| heap := heap w; drivers_ := drivers_ w; root_node_ := root_node_ w;
     orphaned_nodes_ := orphaned_nodes_ w; composite_args_ := composite_args_ w;
     driver_args_ := driver_args_ w; driver_hosts_ := l;
     next_driver_host_id_ := next;
     match_requests_ := match_requests_ w; trace := trace w |}.

Definition with_match_requests (l : list (ptr * NodeAddArgs)) (w : World) : World :=
  {| heap := heap w; drivers_ := drivers_ w; root_node_ := root_node_ w;
     orphaned_nodes_ := orphaned_nodes_ w; composite_args_ := composite_args_ w;
     driver_args_ := driver_args_ w; driver_hosts_ := driver_hosts_ w;
     next_driver_host_id_ := next_driver_host_id_ w;
     match_requests_ := l; trace := trace w |}.

(** [std::weak_ptr]: the reference of the object at an address, or the empty
    one. *)
Definition lock (weak : option ptr) (w : World) : option ptr :=
  match weak with
  | Some p => match heap w !! p with Some _ => Some p | None => None end
  | None => None
  end.

Definition expired (weak : option ptr) (w : World) : bool :=
  match lock weak w with Some _ => false | None => true end.

(** The last [shared_ptr] to a node goes away. *)
Definition free_node (n : ptr) (w : World) : World :=
  with_heap (delete n (heap w)) w.

(** [DriverRunner::Bind]: the match request goes out, and its callback keeps
    a weak reference to the node until the answer comes in. *)
Definition Bind (node : ptr) (args : NodeAddArgs) (w : World) : World :=
  with_match_requests (match_requests_ w ++ [(node, args)]) w.

(** [DriverRunner::DriverRunner]: the root node is all there is. *)
Definition root_address : ptr := 1%positive.

Definition new_DriverRunner : World :=
  mkWorld {[ root_address := mkNode "root" [] [] (Some TheDriverRunner) None None kNone
                               false None None [] [] [] ]}
    ∅ root_address [] [] ∅ [] 0%N [] [].

(** ** [Node::AddChild] *)

Record AddChildRequest := mkAddChildRequest {
  request_args : NodeAddArgs;
  request_controller : channel;
  request_node : option channel;      (* [None] is the invalid handle *)
}.

Inductive Reply :=
| ReplySuccess
| ReplyError (e : NodeError).

Definition has {A} (field : option A) : bool :=
  match field with Some _ => true | None => false end.

(** [name.find(c) != npos] *)
Fixpoint contains_char (c : ascii) (s : string) : bool :=
  match s with
  | EmptyString => false
  | String a s' => if decide (a = c) then true else contains_char c s'
  end.

(** The search for a child of the same name. *)
Fixpoint name_among (name : string) (children : list ptr) (w : World) : Outcome bool :=
  match children with
  | [] => Done false
  | child :: children' =>
      cd ← node_at child w;
      if decide (name_ cd = name) then Done true
      else name_among name children' w
  end.

(** The loop over the offers of the request, with the offers taken so far. *)
Fixpoint check_offers (offers stored : list Offer) : NodeError + list Offer :=
  match offers with
  | [] => inr stored
  | offer :: offers' =>
      let has_source_name := VisitOffer offer (λ decl, has (source_name decl)) in
      if negb (value_or has_source_name false) then inl kOfferSourceNameMissing
      else
        let has_ref := VisitOffer offer (λ decl, has (source decl) || has (target decl)) in
        if value_or has_ref false then inl kOfferRefExists
        else check_offers offers' (stored ++ [offer])
  end.

Definition copy_property (property : NodeProperty) : NodeProperty :=
  mkNodeProperty (property_key property) (property_value property).

(** The loop over the symbols of the request, with the names seen so far. *)
Fixpoint check_symbols (symbols : list NodeSymbol) (names : gset string)
    (stored : list NodeSymbol) : NodeError + list NodeSymbol :=
  match symbols with
  | [] => inr stored
  | symbol :: symbols' =>
      match symbol_name symbol with
      | None => inl kSymbolNameMissing
      | Some name =>
          match symbol_address symbol with
          | None => inl kSymbolAddressMissing
          | Some address =>
              if bool_decide (name ∈ names) then inl kSymbolAlreadyExists
              else check_symbols symbols' ({[name]} ∪ names)
                     (stored ++ [mkNodeSymbol (Some name) (Some address)])
          end
      end
  end.

(** What happens to a child which passed every check. *)
Definition attach_child (request : AddChildRequest) (child : Node) (w : World)
    : Outcome World :=
  let c := fresh_node w in
  let child := set_controller_ref (request_controller request) child in
  let w1 :=
    match request_node request with
    | Some node => put_node c (set_node_ref node child) w
    | None => Bind c (request_args request) (put_node c child w)
    end in
  AddToParents c w1.

Definition AddChild (this : ptr) (request : AddChildRequest) (w : World)
    : Outcome (Reply * World) :=
  nd ← node_at this w;
  match driver_binder_ nd with
  | None => Done (ReplyError kNodeRemoved, w)
  | Some driver_binder =>
  match args_name (request_args request) with
  | None => Done (ReplyError kNameMissing, w)
  | Some name =>
  if contains_char "." name then Done (ReplyError kNameInvalid, w)
  else
    exists_ ← name_among name (children_ nd) w;
    if (exists_ : bool) then Done (ReplyError kNameAlreadyExists, w)
    else
      child ← new_Node name [this] (Some driver_binder) w;
      match check_offers (default [] (args_offers (request_args request))) [] with
      | inl e => Done (ReplyError e, w)
      | inr offers =>
      let properties :=
        copy_property <$> default [] (args_properties (request_args request)) in
      match check_symbols (default [] (args_symbols (request_args request))) ∅ [] with
      | inl e => Done (ReplyError e, w)
      | inr symbols =>
          let child := set_symbols symbols (set_properties properties
                         (set_offers offers child)) in
          w1 ← attach_child request child w;
          Done (ReplySuccess, w1)
      end
      end
  end
  end.

(** ** [DriverRunner]: starting drivers and driver hosts *)

Record CreateComponentOpts := mkCreateComponentOpts {
  opts_node : option ptr;
  opts_token : option koid;          (* the event, by its koid *)
  opts_exposed_dir : option channel;
}.

(** [DriverRunner::CreateComponent]; the answers of the realm are only
    logged. *)
Definition CreateComponent (name : string) (collection : Collection) (url : string)
    (opts : CreateComponentOpts) (w : World) : Outcome (status () * World) :=
  '(dynamic_offers, w1) ←
    match opts_node opts with
    | Some node => '(offers, w') ← CreateOffers node w; Done (Some offers, w')
    | None => Done (None, w)
    end;
  Done (ok (),
        emit (EvCreateChild (CollectionName collection) name url dynamic_offers
                (opts_token opts)) w1).

(** What the kernel answers to [zx::event::create] and to [get_info] on the
    new event. *)
Record TokenEnv := mkTokenEnv {
  event_create_status : zx_status_t;
  event_info_status : zx_status_t;
  event_koid : koid;
}.

(** [unordered_map::emplace]: an existing entry stays. *)
Definition emplace (k : koid) (node : ptr) (m : gmap koid ptr) : gmap koid ptr :=
  match m !! k with
  | Some _ => m
  | None => <[k := node]> m
  end.

(** [DriverRunner::StartDriver] *)
Definition StartDriver (node : ptr) (url : string) (env : TokenEnv) (w : World)
    : Outcome (status () * World) :=
  if decide (event_create_status env ≠ ZX_OK)
  then Done (error (event_create_status env), w)
  else if decide (event_info_status env ≠ ZX_OK)
  then Done (error (event_info_status env), w)
  else
    let collection := if String.prefix kBootScheme url then kBoot else kPackage in
    nd ← node_at node w;
    let w1 := put_node node (set_collection collection nd) w in
    name ← TopoName node w1;
    '(create, w2) ← CreateComponent name collection url
                      (mkCreateComponentOpts (Some node) (Some (event_koid env)) None) w1;
    match create with
    | error s => Done (error s, w2)
    | ok _ =>
        Done (ok (), with_driver_args (emplace (event_koid env) node (driver_args_ w2)) w2)
    end.

(** [DriverRunner::StartRootDriver] *)
Definition StartRootDriver (url : string) (env : TokenEnv) (w : World)
    : Outcome (status () * World) :=
  StartDriver (root_node_ w) url env w.

(** What the environment answers while a driver host is launched. *)
Record HostEnv := mkHostEnv {
  host_endpoints_status : zx_status_t;
  host_exposed_dir : channel;
  host_connect_status : zx_status_t;
  host_address : hptr;               (* where the new DriverHostComponent lives *)
}.

(** [DriverRunner::StartDriverHost].  [next_driver_host_id_] is declared in
    [driver_runner.h], which is not among the sources: an integer of some
    fixed width.  Here it counts in [N], without an upper end; what is said
    of the names of the hosts holds as long as the counter of the code has
    not gone through all its values. *)
Definition StartDriverHost (env : HostEnv) (w : World) : Outcome (status hptr * World) :=
  if decide (host_endpoints_status env ≠ ZX_OK)
  then Done (error (host_endpoints_status env), w)
  else
    let name := ("driver-host-" +:+ pretty (next_driver_host_id_ w))%string in
    let w1 := with_driver_hosts (driver_hosts_ w) (next_driver_host_id_ w + 1)%N w in
    '(create, w2) ← CreateComponent name kHost "#meta/driver_host2.cm"
                      (mkCreateComponentOpts None None (Some (host_exposed_dir env))) w1;
    match create with
    | error s => Done (error s, w2)
    | ok _ =>
        if decide (host_connect_status env ≠ ZX_OK)
        then Done (error (host_connect_status env), w2)
        else Done (ok (host_address env), w2)
    end.

(** [DriverHostComponent::Start] *)
Definition DriverHostComponent_Start (host : hptr) (node : ptr)
    (endpoints_status start_status : zx_status_t) (w : World)
    : Outcome (status () * World) :=
  if decide (endpoints_status ≠ ZX_OK) then Done (error endpoints_status, w)
  else
    syms ← symbols node w;
    let w1 := emit (EvHostStart host node syms) w in
    if decide (start_status ≠ ZX_OK) then Done (error start_status, w1)
    else Done (ok (), w1).

(** ** [DriverRunner::Start] *)

Record Handle := mkHandle {
  handle_valid : bool;
  handle_info_status : zx_status_t;   (* what [get_info] returns on it *)
  handle_koid : koid;
}.

Record HandleInfo := mkHandleInfo {
  handle : Handle;
  id : Z;
}.

Record ComponentStartInfo := mkComponentStartInfo {
  resolved_url : string;
  program : list (string * string);
  numbered_handles : option (list HandleInfo);
}.

Record StartRequest := mkStartRequest {
  start_info : ComponentStartInfo;
  start_controller : channel;
}.

(** What the environment answers during [Start]. *)
Record StartEnv := mkStartEnv {
  env_host : HostEnv;
  env_node_endpoints_status : zx_status_t;
  env_node_channel : channel;
  env_driver_endpoints_status : zx_status_t;
  env_host_start_status : zx_status_t;
  env_driver_address : cptr;         (* where the new DriverComponent lives *)
}.

(** [driver::ProgramValue] of [src/devices/lib/driver2/start_args.h], which
    is not among the sources: the value of the first entry under the key. *)
Fixpoint ProgramValue (program : list (string * string)) (key : string) : option string :=
  match program with
  | [] => None
  | (k, v) :: program' => if decide (k = key) then Some v else ProgramValue program' key
  end.

(** The part of [Start] after the token has been looked up and erased. *)
Definition start_in_host (request : StartRequest) (env : StartEnv) (node : ptr) (w : World)
    : Outcome (option zx_status_t * World) :=
  nd ← node_at node w;
  if decide (env_node_endpoints_status env ≠ ZX_OK)
  then Done (Some (env_node_endpoints_status env), w)
  else
    let w1 := put_node node (set_node_ref (env_node_channel env) nd) w in
    host ← driver_host node w1;
    '(start, w2) ← DriverHostComponent_Start host node
                     (env_driver_endpoints_status env) (env_host_start_status env) w1;
    match start with
    | error s => Done (Some s, w2)
    | ok _ =>
        let d := env_driver_address env in
        let driver := mkDriverComponent (resolved_url (start_info request)) node
                        (Some (start_controller request)) false in
        nd2 ← node_at node w2;
        Done (None, put_driver d driver (put_node node (set_driver_component (Some d) nd2) w2))
    end.

(** [DriverRunner::Start]: the result is the epitaph the connection is
    closed with, if it is closed. *)
Definition Start (request : StartRequest) (env : StartEnv) (w : World)
    : Outcome (option zx_status_t * World) :=
  match numbered_handles (start_info request) with
  | None => Done (Some ZX_ERR_INVALID_ARGS, w)
  | Some handles =>
  match handles with
  | [h] =>
      if negb (handle_valid (handle h)) || bool_decide (id h ≠ kTokenId)
      then Done (Some ZX_ERR_INVALID_ARGS, w)
      else if decide (handle_info_status (handle h) ≠ ZX_OK)
      then Done (Some ZX_ERR_INVALID_ARGS, w)
      else
        match driver_args_ w !! handle_koid (handle h) with
        | None => Done (Some ZX_ERR_UNAVAILABLE, w)
        | Some node =>
            let w1 := with_driver_args (delete (handle_koid (handle h)) (driver_args_ w)) w in
            if decide (value_or (ProgramValue (program (start_info request)) "colocate") EmptyString
                       = "true")
            then
              if decide (node = root_node_ w1) then Done (Some ZX_ERR_INVALID_ARGS, w1)
              else start_in_host request env node w1
            else
              '(result, w2) ← StartDriverHost (env_host env) w1;
              match result with
              | error s => Done (Some s, w2)
              | ok host =>
                  nd ← node_at node w2;
                  let w3 := put_node node (set_driver_host host nd) w2 in
                  let w4 := with_driver_hosts (driver_hosts_ w3 ++ [host])
                              (next_driver_host_id_ w3) w3 in
                  start_in_host request env node w4
              end
        end
  | _ => Done (Some ZX_ERR_INVALID_ARGS, w)
  end
  end.

(** ** Composite matching *)

Record MatchedDriverInfo := mkMatchedDriverInfo {
  info_url : option string;
}.

Record MatchedCompositeInfo := mkMatchedCompositeInfo {
  node_index : option N;
  num_nodes : option N;
  composite_driver_info : option MatchedDriverInfo;
}.

(** [nodes[i]] for an index which the checks before have put in range. *)
Definition slot_at (i : N) (nodes : CompositeArgs) : option ptr :=
  mjoin (nodes !! N.to_nat i).

(** The loop over [equal_range(url)]: the position of the first pending set
    whose slot is free, [None] for [end].  The sets under one URL are taken
    in the order of the list.  The keys are compared as whole strings; the
    code makes the key from [url().get().data()], the bytes at the URL up to
    the first NUL, which is the URL when a NUL follows it and no NUL is in
    it. *)
Fixpoint find_composite_args (url : string) (index num : N) (w : World)
    (entries : list (string * CompositeArgs)) (position : nat) : status (option nat) :=
  match entries with
  | [] => ok None
  | (key, nodes) :: entries' =>
      if decide (key = url) then
        if decide (N.of_nat (length nodes) ≠ num) then error ZX_ERR_INVALID_ARGS
        else if expired (slot_at index nodes) w then ok (Some position)
        else find_composite_args url index num w entries' (S position)
      else find_composite_args url index num w entries' (S position)
  end.

(** [DriverRunner::AddToCompositeArgs]: the position of the pending set to
    use.  A new set goes to the end. *)
Definition AddToCompositeArgs (name : string) (composite_info : MatchedCompositeInfo)
    (w : World) : status nat * World :=
  match node_index composite_info, num_nodes composite_info with
  | Some index, Some num =>
      if decide (num ≤ index)%N then (error ZX_ERR_INVALID_ARGS, w)
      else
        match composite_driver_info composite_info ≫= info_url with
        | None => (error ZX_ERR_INVALID_ARGS, w)
        | Some url =>
            match find_composite_args url index num w (composite_args_ w) 0 with
            | error s => (error s, w)
            | ok (Some it) => (ok it, w)
            | ok None =>
                (ok (length (composite_args_ w)),
                 with_composite_args
                   (composite_args_ w ++ [(url, replicate (N.to_nat num) None)]) w)
            end
        end
  | _, _ => (error ZX_ERR_INVALID_ARGS, w)
  end.

(** The scan of the slots: the parents, or nothing when a slot does not
    lock. *)
Definition lock_all (nodes : CompositeArgs) (w : World) : option (list ptr) :=
  mapM (λ weak, lock weak w) nodes.

(** [DriverRunner::CreateCompositeNode] *)
Definition CreateCompositeNode (node : ptr) (matched_driver : MatchedCompositeInfo)
    (w : World) : Outcome (status ptr * World) :=
  nd ← node_at node w;
  match AddToCompositeArgs (name_ nd) matched_driver w with
  | (error s, w1) =>
      Done (error s, with_orphaned_nodes (orphaned_nodes_ w1 ++ [node]) w1)
  | (ok it, w1) =>
      match composite_args_ w1 !! it, node_index matched_driver with
      | Some (url, nodes), Some index =>
          let nodes := <[N.to_nat index := Some node]> nodes in
          let w2 := with_composite_args (<[it := (url, nodes)]> (composite_args_ w1)) w1 in
          match lock_all nodes w2 with
          | None => Done (error ZX_ERR_NEXT, w2)
          | Some parents =>
              let w3 := with_composite_args (delete it (composite_args_ w2)) w2 in
              composite ← new_Node "composite" parents (Some TheDriverRunner) w3;
              let c := fresh_node w3 in
              w4 ← AddToParents c (put_node c composite w3);
              Done (ok c, w4)
          end
      | _, _ => Undefined BadOptionalAccess
      end
  end.

(** ** [DriverRunner::Bind]: the callback of the match request *)

Inductive MatchedDriver :=
| IsDriver (driver : MatchedDriverInfo)
| IsCompositeDriver (composite_driver : MatchedCompositeInfo)
| IsNeither.

(** [fidl::WireUnownedResult<fdf::DriverIndex::MatchDriver>] *)
Inductive MatchResult :=
| MatchTransportError
| MatchErr (status : zx_status_t)
| MatchResponse (driver : MatchedDriver).

Definition orphaned (driver_node : ptr) (w : World) : World :=
  with_orphaned_nodes (orphaned_nodes_ w ++ [driver_node]) w.

(** The end of the callback, with the node the driver goes to. *)
Definition start_matched (node driver_node : ptr) (url : string) (env : TokenEnv)
    (w : World) : Outcome World :=
  '(start_result, w1) ← StartDriver driver_node url env w;
  let w2 := if is_error start_result then orphaned driver_node w1 else w1 in
  OnBind node w2.

Definition match_callback (weak_node : ptr) (result : MatchResult) (env : TokenEnv)
    (w : World) : Outcome World :=
  match lock (Some weak_node) w with
  | None => Done w
  | Some node =>
  match result with
  | MatchTransportError => Done (orphaned node w)
  | MatchErr _ => Done (orphaned node w)
  | MatchResponse IsNeither => Done (orphaned node w)
  | MatchResponse (IsDriver driver_info) =>
      match info_url driver_info with
      | None => Done (orphaned node w)
      | Some url => start_matched node node url env w
      end
  | MatchResponse (IsCompositeDriver composite_driver) =>
      match composite_driver_info composite_driver with
      | None => Done (orphaned node w)
      | Some driver_info =>
          match info_url driver_info with
          | None => Done (orphaned node w)
          | Some url =>
              '(composite, w1) ← CreateCompositeNode node composite_driver w;
              match composite with
              | error _ => Done w1
              | ok driver_node => start_matched node driver_node url env w1
              end
          end
      end
  end
  end.

(** The callback of [ScheduleBaseDriversBinding]: the orphans which are still
    there are matched again. *)
Fixpoint bind_orphans (orphans : list ptr) (w : World) : Outcome World :=
  match orphans with
  | [] => Done w
  | weak_node :: orphans' =>
      match lock (Some weak_node) w with
      | None => bind_orphans orphans' w
      | Some node =>
          '(args, w1) ← CreateAddArgs node w;
          bind_orphans orphans' (Bind node args w1)
      end
  end.

Definition base_drivers_callback (result_ok : bool) (w : World) : Outcome World :=
  if result_ok then bind_orphans (orphaned_nodes_ w) (with_orphaned_nodes [] w)
  else Done w.

(** * Properties *)

(** ** Running in the [Outcome] monad *)

Lemma bind_Done {A B} (m : Outcome A) (k : A → Outcome B) (b : B) :
  m ≫= k = Done b ↔ ∃ a, m = Done a ∧ k a = Done b.
Proof.
  split.
  - destruct m as [a| |]; simpl; intros H; try discriminate. by exists a.
  - intros (a & -> & H). exact H.
Qed.

Lemma node_at_Done (n : ptr) (w : World) (nd : Node) :
  node_at n w = Done nd ↔ heap w !! n = Some nd.
Proof.
  unfold node_at. destruct (heap w !! n); split; intros H; by simplify_eq.
Qed.

Lemma driver_at_Done (d : cptr) (w : World) (dc : DriverComponent) :
  driver_at d w = Done dc ↔ drivers_ w !! d = Some dc.
Proof.
  unfold driver_at. destruct (drivers_ w !! d); split; intros H; by simplify_eq.
Qed.

(** Splits a run that ended in [Done] into its steps. *)
Ltac run_inv H :=
  repeat match type of H with
  | (_ ≫= _) = Done _ =>
      let a := fresh "a" in let Ha := fresh "Hrun" in
      apply bind_Done in H as (a & Ha & H)
  end.

(** ** C1: the checks of [AddChild] *)

(** The declaration inside an offer of a known kind. *)
Definition offer_decl (offer : Offer) : option OfferDecl :=
  VisitOffer offer (λ decl, decl).

Definition offer_lacks_source_name (offer : Offer) : Prop :=
  offer_decl offer ≫= source_name = None.

Definition offer_has_ref (offer : Offer) : Prop :=
  ∃ decl, offer_decl offer = Some decl ∧ (is_Some (source decl) ∨ is_Some (target decl)).

Definition offer_accepted (offer : Offer) : Prop :=
  ∃ decl, offer_decl offer = Some decl ∧ is_Some (source_name decl)
          ∧ source decl = None ∧ target decl = None.

Definition symbol_accepted (symbol : NodeSymbol) : Prop :=
  is_Some (symbol_name symbol) ∧ is_Some (symbol_address symbol).

(** The request passes the checks on the node and on the name. *)
Definition name_accepted (w : World) (nd : Node) (args : NodeAddArgs) (name : string) : Prop :=
  is_Some (driver_binder_ nd) ∧ args_name args = Some name
  ∧ contains_char "." name = false
  ∧ ∀ c cd, c ∈ children_ nd → heap w !! c = Some cd → name_ cd ≠ name.

Lemma name_among_found (name : string) (w : World) (cs : list ptr) :
  (∀ c, c ∈ cs → is_Some (heap w !! c)) →
  (∃ c cd, c ∈ cs ∧ heap w !! c = Some cd ∧ name_ cd = name) →
  name_among name cs w = Done true.
Proof.
  induction cs as [|x cs IH]; intros Hin (c & cd & Hc & Hcd & Hname).
  - by apply elem_of_nil in Hc.
  - simpl. destruct (Hin x) as [xd Hxd]; [left|].
    rewrite (proj2 (node_at_Done _ _ _) Hxd). simpl.
    destruct (decide (name_ xd = name)) as [|Hne]; [done|].
    apply IH.
    + intros y Hy. apply Hin. by right.
    + apply elem_of_cons in Hc as [->|Hc]; [congruence|]. eauto.
Qed.

Lemma name_among_absent (name : string) (w : World) (cs : list ptr) :
  (∀ c, c ∈ cs → is_Some (heap w !! c)) →
  (∀ c cd, c ∈ cs → heap w !! c = Some cd → name_ cd ≠ name) →
  name_among name cs w = Done false.
Proof.
  induction cs as [|x cs IH]; intros Hin Hne; [done|].
  simpl. destruct (Hin x) as [xd Hxd]; [left|].
  rewrite (proj2 (node_at_Done _ _ _) Hxd). simpl.
  destruct (decide (name_ xd = name)) as [Heq|_].
  - exfalso. eapply Hne; [left|exact Hxd|exact Heq].
  - apply IH.
    + intros y Hy. apply Hin. by right.
    + intros c cd Hc. apply Hne. by right.
Qed.

Lemma check_offers_accepted (pre rest stored : list Offer) :
  Forall offer_accepted pre →
  check_offers (pre ++ rest) stored = check_offers rest (stored ++ pre).
Proof.
  intros Hpre. revert stored.
  induction Hpre as [|o pre (decl & Hd & [sn Hsn] & Hs & Ht) _ IH]; intros stored.
  - by rewrite app_nil_r.
  - simpl. destruct o; simpl in Hd; simplify_eq; simpl;
      rewrite Hsn, Hs, Ht; simpl; rewrite IH, <- app_assoc; reflexivity.
Qed.

Lemma check_offers_source_name_missing (pre suf stored : list Offer) (o : Offer) :
  Forall offer_accepted pre → offer_lacks_source_name o →
  check_offers (pre ++ o :: suf) stored = inl kOfferSourceNameMissing.
Proof.
  intros Hpre Ho. rewrite check_offers_accepted by done.
  unfold offer_lacks_source_name in Ho.
  destruct o; simpl in *; try rewrite Ho; reflexivity.
Qed.

Lemma check_offers_ref_exists (pre suf stored : list Offer) (o : Offer) :
  Forall offer_accepted pre → ¬ offer_lacks_source_name o → offer_has_ref o →
  check_offers (pre ++ o :: suf) stored = inl kOfferRefExists.
Proof.
  intros Hpre Hsn (decl & Hd & Href). rewrite check_offers_accepted by done.
  unfold offer_lacks_source_name in Hsn.
  assert (has (source_name decl) = true) as Hhas.
  { destruct o; simpl in *; simplify_eq; by destruct (source_name decl). }
  assert (has (source decl) || has (target decl) = true) as Hor.
  { destruct Href as [[r ->]|[r ->]]; simpl; [done|]. by rewrite orb_true_r. }
  destruct o; simpl in *; simplify_eq; by rewrite Hhas, Hor.
Qed.

Lemma check_offers_all_accepted (offers stored : list Offer) :
  Forall offer_accepted offers → check_offers offers stored = inr (stored ++ offers).
Proof.
  intros H. rewrite <- (app_nil_r offers) at 1. by rewrite check_offers_accepted.
Qed.

(** The names of the symbols the loop has gone through. *)
Definition symbol_names (symbols : list NodeSymbol) : list string :=
  omap symbol_name symbols.

Definition store_symbol (symbol : NodeSymbol) : NodeSymbol :=
  mkNodeSymbol (symbol_name symbol) (symbol_address symbol).

Lemma check_symbols_accepted (pre rest : list NodeSymbol) (names : gset string)
    (stored : list NodeSymbol) :
  Forall symbol_accepted pre → NoDup (symbol_names pre) →
  (∀ x, x ∈ symbol_names pre → x ∉ names) →
  check_symbols (pre ++ rest) names stored
  = check_symbols rest (list_to_set (symbol_names pre) ∪ names)
      (stored ++ (store_symbol <$> pre)).
Proof.
  intros Hpre. revert names stored.
  induction Hpre as [|s pre [[nm Hnm] [ad Had]] _ IH]; intros names stored Hnd Hfresh.
  - simpl. rewrite app_nil_r. f_equal. set_solver.
  - unfold symbol_names in *. simpl in *. rewrite Hnm in *. rewrite Had.
    apply NoDup_cons in Hnd as [Hnotin Hnd].
    rewrite bool_decide_eq_false_2 by (apply Hfresh; left).
    rewrite IH; [|done|].
    + f_equal; [set_solver|].
      rewrite <- app_assoc. simpl. unfold store_symbol at 2. by rewrite Hnm, Had.
    + intros x Hx. specialize (Hfresh x). set_solver.
Qed.

Lemma AddChild_error_keeps_world (this : ptr) (request : AddChildRequest) (w w' : World)
    (e : NodeError) :
  AddChild this request w = Done (ReplyError e, w') → w' = w.
Proof.
  unfold AddChild. intros H. run_inv H.
  destruct (driver_binder_ a); [|by simplify_eq].
  destruct (args_name _); [|by simplify_eq].
  destruct (contains_char _ _); [by simplify_eq|].
  run_inv H. destruct a0; [by simplify_eq|].
  run_inv H.
  destruct (check_offers _ _); [by simplify_eq|].
  destruct (check_symbols _ _ _); [by simplify_eq|].
  run_inv H. discriminate.
Qed.

Section AddChild_checks.

Variables (this : ptr) (request : AddChildRequest) (w : World) (nd : Node).
Hypothesis Hthis : heap w !! this = Some nd.
Hypothesis Hchildren : ∀ c, c ∈ children_ nd → is_Some (heap w !! c).

Let args := request_args request.

Lemma AddChild_node_removed :
  driver_binder_ nd = None →
  AddChild this request w = Done (ReplyError kNodeRemoved, w).
Proof.
  intros Hb. unfold AddChild.
  rewrite (proj2 (node_at_Done _ _ _) Hthis). simpl. by rewrite Hb.
Qed.

Lemma AddChild_name_missing :
  is_Some (driver_binder_ nd) → args_name args = None →
  AddChild this request w = Done (ReplyError kNameMissing, w).
Proof.
  intros [b Hb] Hn. unfold AddChild.
  rewrite (proj2 (node_at_Done _ _ _) Hthis). simpl. rewrite Hb.
  fold args. by rewrite Hn.
Qed.

Lemma AddChild_name_invalid (name : string) :
  is_Some (driver_binder_ nd) → args_name args = Some name →
  contains_char "." name = true →
  AddChild this request w = Done (ReplyError kNameInvalid, w).
Proof.
  intros [b Hb] Hn Hdot. unfold AddChild.
  rewrite (proj2 (node_at_Done _ _ _) Hthis). simpl. rewrite Hb.
  fold args. by rewrite Hn, Hdot.
Qed.

Lemma AddChild_name_already_exists (name : string) :
  is_Some (driver_binder_ nd) → args_name args = Some name →
  contains_char "." name = false →
  (∃ c cd, c ∈ children_ nd ∧ heap w !! c = Some cd ∧ name_ cd = name) →
  AddChild this request w = Done (ReplyError kNameAlreadyExists, w).
Proof.
  intros [b Hb] Hn Hdot Hex. unfold AddChild.
  rewrite (proj2 (node_at_Done _ _ _) Hthis). simpl. rewrite Hb.
  fold args. rewrite Hn, Hdot.
  by rewrite (name_among_found name w (children_ nd) Hchildren Hex).
Qed.

(** Where [AddChild] stands once the checks on the name have passed. *)
Lemma AddChild_after_name (name : string) :
  name_accepted w nd args name →
  ∃ child,
    AddChild this request w =
      match check_offers (default [] (args_offers args)) [] with
      | inl e => Done (ReplyError e, w)
      | inr offers =>
          match check_symbols (default [] (args_symbols args)) ∅ [] with
          | inl e => Done (ReplyError e, w)
          | inr symbols =>
              w1 ← attach_child request
                     (set_symbols symbols
                        (set_properties (copy_property <$> default [] (args_properties args))
                           (set_offers offers child))) w;
              Done (ReplySuccess, w1)
          end
      end.
Proof.
  intros ([b Hb] & Hn & Hdot & Hfresh). unfold AddChild.
  rewrite (proj2 (node_at_Done _ _ _) Hthis). simpl. rewrite Hb.
  fold args. rewrite Hn, Hdot.
  rewrite (name_among_absent name w (children_ nd) Hchildren Hfresh). simpl.
  unfold new_Node. simpl.
  rewrite (proj2 (node_at_Done _ _ _) Hthis). simpl.
  eexists. reflexivity.
Qed.

Lemma AddChild_offer_source_name_missing (name : string) (pre suf : list Offer) (o : Offer) :
  name_accepted w nd args name →
  args_offers args = Some (pre ++ o :: suf) →
  Forall offer_accepted pre → offer_lacks_source_name o →
  AddChild this request w = Done (ReplyError kOfferSourceNameMissing, w).
Proof.
  intros Hname Hoffers Hpre Ho.
  destruct (AddChild_after_name name Hname) as [child ->].
  rewrite Hoffers. simpl.
  by rewrite check_offers_source_name_missing.
Qed.

Lemma AddChild_offer_ref_exists (name : string) (pre suf : list Offer) (o : Offer) :
  name_accepted w nd args name →
  args_offers args = Some (pre ++ o :: suf) →
  Forall offer_accepted pre → ¬ offer_lacks_source_name o → offer_has_ref o →
  AddChild this request w = Done (ReplyError kOfferRefExists, w).
Proof.
  intros Hname Hoffers Hpre Hsn Ho.
  destruct (AddChild_after_name name Hname) as [child ->].
  rewrite Hoffers. simpl.
  by rewrite check_offers_ref_exists.
Qed.

(** The request passes the checks on the node, the name and the offers, and
    the symbols in front of [s] are in order. *)
Definition symbols_reach (name : string) (pre suf : list NodeSymbol) (s : NodeSymbol) : Prop :=
  name_accepted w nd args name
  ∧ Forall offer_accepted (default [] (args_offers args))
  ∧ args_symbols args = Some (pre ++ s :: suf)
  ∧ Forall symbol_accepted pre ∧ NoDup (symbol_names pre).

Lemma AddChild_at_symbol (name : string) (pre suf : list NodeSymbol) (s : NodeSymbol) :
  symbols_reach name pre suf s →
  ∀ e, check_symbols (s :: suf) (list_to_set (symbol_names pre) ∪ ∅)
         ([] ++ (store_symbol <$> pre)) = inl e →
  AddChild this request w = Done (ReplyError e, w).
Proof.
  intros (Hname & Hoffers & Hsymbols & Hpre & Hnd) e Hcheck.
  destruct (AddChild_after_name name Hname) as [child ->].
  rewrite check_offers_all_accepted by done.
  rewrite Hsymbols. simpl default.
  rewrite check_symbols_accepted; [|done|done|set_solver].
  by rewrite Hcheck.
Qed.

Lemma AddChild_symbol_name_missing (name : string) (pre suf : list NodeSymbol) (s : NodeSymbol) :
  symbols_reach name pre suf s → symbol_name s = None →
  AddChild this request w = Done (ReplyError kSymbolNameMissing, w).
Proof.
  intros Hreach Hs. eapply AddChild_at_symbol; [done|].
  simpl. by rewrite Hs.
Qed.

Lemma AddChild_symbol_address_missing (name : string) (pre suf : list NodeSymbol)
    (s : NodeSymbol) :
  symbols_reach name pre suf s → is_Some (symbol_name s) → symbol_address s = None →
  AddChild this request w = Done (ReplyError kSymbolAddressMissing, w).
Proof.
  intros Hreach [nm Hs] Ha. eapply AddChild_at_symbol; [done|].
  simpl. by rewrite Hs, Ha.
Qed.

Lemma AddChild_symbol_already_exists (name : string) (pre suf : list NodeSymbol)
    (s : NodeSymbol) (nm : string) :
  symbols_reach name pre suf s → symbol_name s = Some nm → is_Some (symbol_address s) →
  nm ∈ symbol_names pre →
  AddChild this request w = Done (ReplyError kSymbolAlreadyExists, w).
Proof.
  intros Hreach Hs [ad Ha] Hin. eapply AddChild_at_symbol; [done|].
  simpl. rewrite Hs, Ha.
  rewrite bool_decide_eq_true_2; [done|]. set_solver.
Qed.

End AddChild_checks.

(** C1.  [AddChild] answers the first check that fails, in the order node
    removed, name missing, name invalid, name already exists, then offer by
    offer (source name missing, reference exists), then symbol by symbol (name
    missing, address missing, already exists); and a call answered with an
    error leaves the store as it was, so no child is attached and the
    children of the parent are the same list. *)
Theorem AddChild_validation (this : ptr) (request : AddChildRequest) (w : World) (nd : Node) :
  heap w !! this = Some nd →
  (∀ c, c ∈ children_ nd → is_Some (heap w !! c)) →
  let args := request_args request in
  let fails e := AddChild this request w = Done (ReplyError e, w) in
  (driver_binder_ nd = None → fails kNodeRemoved)
  ∧ (is_Some (driver_binder_ nd) → args_name args = None → fails kNameMissing)
  ∧ (∀ name, is_Some (driver_binder_ nd) → args_name args = Some name →
       contains_char "." name = true → fails kNameInvalid)
  ∧ (∀ name, is_Some (driver_binder_ nd) → args_name args = Some name →
       contains_char "." name = false →
       (∃ c cd, c ∈ children_ nd ∧ heap w !! c = Some cd ∧ name_ cd = name) →
       fails kNameAlreadyExists)
  ∧ (∀ name pre o suf, name_accepted w nd args name →
       args_offers args = Some (pre ++ o :: suf) → Forall offer_accepted pre →
       offer_lacks_source_name o → fails kOfferSourceNameMissing)
  ∧ (∀ name pre o suf, name_accepted w nd args name →
       args_offers args = Some (pre ++ o :: suf) → Forall offer_accepted pre →
       ¬ offer_lacks_source_name o → offer_has_ref o → fails kOfferRefExists)
  ∧ (∀ name pre s suf, symbols_reach request w nd name pre suf s →
       symbol_name s = None → fails kSymbolNameMissing)
  ∧ (∀ name pre s suf, symbols_reach request w nd name pre suf s →
       is_Some (symbol_name s) → symbol_address s = None → fails kSymbolAddressMissing)
  ∧ (∀ name pre s suf nm, symbols_reach request w nd name pre suf s →
       symbol_name s = Some nm → is_Some (symbol_address s) →
       nm ∈ symbol_names pre → fails kSymbolAlreadyExists)
  ∧ (∀ e w', AddChild this request w = Done (ReplyError e, w') →
       w' = w ∧ children_ <$> heap w' !! this = Some (children_ nd)).
Proof.
  intros Hthis Hchildren args fails. subst fails. repeat split.
  - by apply AddChild_node_removed.
  - by apply AddChild_name_missing.
  - intros name. by apply AddChild_name_invalid.
  - intros name. by apply AddChild_name_already_exists.
  - intros name pre o suf. by eapply AddChild_offer_source_name_missing.
  - intros name pre o suf. by eapply AddChild_offer_ref_exists.
  - intros name pre s suf. by eapply AddChild_symbol_name_missing.
  - intros name pre s suf. by eapply AddChild_symbol_address_missing.
  - intros name pre s suf nm. by eapply AddChild_symbol_already_exists.
  - by eapply AddChild_error_keeps_world.
  - apply AddChild_error_keeps_world in H as ->. by rewrite Hthis.
Qed.

(** A root which has the child "disk": a second "disk" is refused, and the
    root keeps its one child. *)
Definition disk_node : Node :=
  mkNode "disk" [root_address] [] (Some TheDriverRunner) None None kNone false
    (Some 7%positive) None [] [] [].

Definition root_with_disk : Node :=
  mkNode "root" [] [2%positive] (Some TheDriverRunner) None None kNone false
    None None [] [] [].

Definition world_with_disk : World :=
  mkWorld (<[2%positive := disk_node]> {[ root_address := root_with_disk ]})
    ∅ root_address [] [] ∅ [] 0%N [] [].

Definition add_disk : AddChildRequest :=
  mkAddChildRequest (mkNodeAddArgs (Some "disk") None None None) 8%positive None.

Lemma AddChild_validation_witness :
  heap world_with_disk !! root_address = Some root_with_disk
  ∧ (∀ c, c ∈ children_ root_with_disk → is_Some (heap world_with_disk !! c))
  ∧ AddChild root_address add_disk world_with_disk
    = Done (ReplyError kNameAlreadyExists, world_with_disk).
Proof.
  assert (heap world_with_disk !! root_address = Some root_with_disk) as H1
    by reflexivity.
  assert (∀ c, c ∈ children_ root_with_disk → is_Some (heap world_with_disk !! c)) as H2.
  { intros c Hc. apply list_elem_of_singleton in Hc as ->. by eexists. }
  split; [exact H1|]. split; [exact H2|].
  refine (proj1 (proj2 (proj2 (proj2
    (AddChild_validation root_address add_disk world_with_disk root_with_disk H1 H2))))
    "disk" _ _ _ _).
  - by eexists.
  - reflexivity.
  - reflexivity.
  - exists 2%positive, disk_node. split; [by left|]. split; reflexivity.
Defined.

(** ** C9: the driver host a node starts in, and [symbols] *)

Lemma new_Node_host (name : string) (p : ptr) (ps : list ptr)
    (binder : option DriverBinder) (w : World) (pd : Node) :
  heap w !! p = Some pd →
  ∃ child, new_Node name (p :: ps) binder w = Done child
           ∧ driver_host_ child = driver_host_ pd
           ∧ name_ child = name ∧ parents_ child = p :: ps ∧ children_ child = [].
Proof.
  intros Hp. unfold new_Node. simpl.
  rewrite (proj2 (node_at_Done _ _ _) Hp). simpl. by eexists.
Qed.

Lemma symbols_nonempty (n : ptr) (w : World) (nd : Node) (syms : list NodeSymbol) :
  heap w !! n = Some nd → symbols n w = Done syms → syms ≠ [] →
  ∃ p pd, PrimaryParent (parents_ nd) = Some p ∧ heap w !! p = Some pd
          ∧ driver_host_ pd = driver_host_ nd
          ∧ syms = if (1 <? length (parents_ nd))%nat then symbols_ pd else symbols_ nd.
Proof.
  intros Hn H Hne. unfold symbols in H.
  rewrite (proj2 (node_at_Done _ _ _) Hn) in H. simpl in H.
  destruct (PrimaryParent (parents_ nd)) as [p|]; [|by simplify_eq].
  run_inv H. apply node_at_Done in Hrun.
  destruct (decide (driver_host_ a = driver_host_ nd)); [|by simplify_eq].
  exists p, a. by simplify_eq.
Qed.

Lemma symbols_colocated (n : ptr) (w : World) (nd : Node) (p : ptr) (pd : Node) :
  heap w !! n = Some nd → PrimaryParent (parents_ nd) = Some p → heap w !! p = Some pd →
  driver_host_ pd = driver_host_ nd →
  symbols n w = Done (if (1 <? length (parents_ nd))%nat then symbols_ pd else symbols_ nd).
Proof.
  intros Hn Hp Hpd Hhost. unfold symbols.
  rewrite (proj2 (node_at_Done _ _ _) Hn). simpl. rewrite Hp.
  rewrite (proj2 (node_at_Done _ _ _) Hpd). simpl.
  by rewrite decide_True.
Qed.

Lemma symbols_other_host (n : ptr) (w : World) (nd : Node) (p : ptr) (pd : Node) :
  heap w !! n = Some nd → PrimaryParent (parents_ nd) = Some p → heap w !! p = Some pd →
  driver_host_ pd ≠ driver_host_ nd →
  symbols n w = Done [].
Proof.
  intros Hn Hp Hpd Hhost. unfold symbols.
  rewrite (proj2 (node_at_Done _ _ _) Hn). simpl. rewrite Hp.
  rewrite (proj2 (node_at_Done _ _ _) Hpd). simpl.
  by rewrite decide_False.
Qed.

(** C9.  A node constructed with parents starts in the driver host of its
    primary parent.  [symbols] of a node is non-empty only if the node has a
    primary parent in the same driver host; then it is the list of the primary
    parent when the node is composite, and the node's own list otherwise.  A
    node whose driver host differs from that of its primary parent gets the
    empty list. *)
Theorem symbols_of_colocated_nodes (n : ptr) (w : World) (nd : Node) :
  heap w !! n = Some nd →
  (∀ name p ps binder pd, heap w !! p = Some pd →
     ∃ child, new_Node name (p :: ps) binder w = Done child
              ∧ driver_host_ child = driver_host_ pd)
  ∧ (∀ syms, symbols n w = Done syms → syms ≠ [] →
       ∃ p pd, PrimaryParent (parents_ nd) = Some p ∧ heap w !! p = Some pd
               ∧ driver_host_ pd = driver_host_ nd)
  ∧ (∀ p pd, PrimaryParent (parents_ nd) = Some p → heap w !! p = Some pd →
       driver_host_ pd = driver_host_ nd →
       ((1 < length (parents_ nd))%nat → symbols n w = Done (symbols_ pd))
       ∧ (length (parents_ nd) = 1%nat → symbols n w = Done (symbols_ nd)))
  ∧ (∀ p pd, PrimaryParent (parents_ nd) = Some p → heap w !! p = Some pd →
       driver_host_ pd ≠ driver_host_ nd → symbols n w = Done []).
Proof.
  intros Hn. split; [|split; [|split]].
  - intros name p ps binder pd Hp.
    destruct (new_Node_host name p ps binder w pd Hp) as (child & ? & ? & _).
    by exists child.
  - intros syms Hs Hne.
    destruct (symbols_nonempty n w nd syms Hn Hs Hne) as (p & pd & ? & ? & ? & _).
    by exists p, pd.
  - intros p pd Hp Hpd Hhost.
    pose proof (symbols_colocated n w nd p pd Hn Hp Hpd Hhost) as Hs.
    split; intros Hlen.
    + by rewrite (proj2 (Nat.ltb_lt _ _) Hlen) in Hs.
    + by rewrite Hlen in Hs.
  - intros p pd. by apply symbols_other_host.
Qed.

(** Two nodes in host 5 and a composite node on top of them, in the same
    host: the composite node shows the symbols of its first parent. *)
Definition sym (name : string) (address : N) : NodeSymbol :=
  mkNodeSymbol (Some name) (Some address).

Definition hosted (name : string) (parents children : list ptr) (host : option hptr)
    (syms : list NodeSymbol) : Node :=
  mkNode name parents children (Some TheDriverRunner) host None kNone false
    None None [] [] syms.

Definition world_colocated : World :=
  mkWorld (list_to_map
             [(1, hosted "root" [] [2; 3] (Some 5) [sym "r" 1])%positive;
              (2, hosted "left" [1] [4] (Some 5) [sym "l" 2])%positive;
              (3, hosted "right" [1] [4] (Some 6) [sym "x" 3])%positive;
              (4, hosted "composite" [2; 3] [] (Some 5) [sym "c" 4])%positive])
    ∅ root_address [] [] ∅ [5; 6]%positive 2%N [] [].

Lemma symbols_of_colocated_nodes_witness :
  heap world_colocated !! 4%positive = Some (hosted "composite" [2; 3]%positive [] (Some 5%positive) [sym "c" 4])
  ∧ symbols 4%positive world_colocated = Done [sym "l" 2].
Proof.
  assert (heap world_colocated !! 4%positive
          = Some (hosted "composite" [2; 3]%positive [] (Some 5%positive) [sym "c" 4])) as H
    by reflexivity.
  split; [exact H|].
  refine (proj1 (proj1 (proj2 (proj2 (symbols_of_colocated_nodes _ _ _ H)))
                   2%positive (hosted "left" [1%positive] [4%positive] (Some 5%positive) [sym "l" 2])
                   _ _ _) _).
  - reflexivity.
  - reflexivity.
  - reflexivity.
  - simpl. lia.
Defined.

(** ** C7: the checks of [Start] *)

(** The request carries exactly one valid handle under the reserved id. *)
Definition token_handle (request : StartRequest) (h : HandleInfo) : Prop :=
  numbered_handles (start_info request) = Some [h]
  ∧ handle_valid (handle h) = true ∧ id h = kTokenId.

(** The kernel tells the identity of the handle. *)
Definition token_koid (request : StartRequest) (h : HandleInfo) (k : koid) : Prop :=
  token_handle request h ∧ handle_info_status (handle h) = ZX_OK
  ∧ handle_koid (handle h) = k.

Definition colocate (request : StartRequest) : Prop :=
  value_or (ProgramValue (program (start_info request)) "colocate") EmptyString = "true".

Lemma Start_no_handles (request : StartRequest) (env : StartEnv) (w : World) :
  numbered_handles (start_info request) = None →
  Start request env w = Done (Some ZX_ERR_INVALID_ARGS, w).
Proof. intros H. unfold Start. by rewrite H. Qed.

Lemma Start_bad_handles (request : StartRequest) (env : StartEnv) (w : World)
    (handles : list HandleInfo) :
  numbered_handles (start_info request) = Some handles →
  (¬ ∃ h, token_handle request h) →
  Start request env w = Done (Some ZX_ERR_INVALID_ARGS, w).
Proof.
  intros H Hno. unfold Start. rewrite H.
  destruct handles as [|h [|h' handles]]; try done.
  destruct (handle_valid (handle h)) eqn:Hv; [|done]. simpl.
  destruct (bool_decide (id h ≠ kTokenId)) eqn:Hid; [done|].
  exfalso. apply Hno. exists h. repeat split; [done..|].
  apply bool_decide_eq_false in Hid. by destruct (decide (id h = kTokenId)).
Qed.

Lemma Start_at_token (request : StartRequest) (env : StartEnv) (w : World)
    (h : HandleInfo) (k : koid) :
  token_koid request h k →
  Start request env w =
    match driver_args_ w !! k with
    | None => Done (Some ZX_ERR_UNAVAILABLE, w)
    | Some node =>
        let w1 := with_driver_args (delete k (driver_args_ w)) w in
        if decide (value_or (ProgramValue (program (start_info request)) "colocate") EmptyString
                   = "true")
        then
          if decide (node = root_node_ w1) then Done (Some ZX_ERR_INVALID_ARGS, w1)
          else start_in_host request env node w1
        else
          '(result, w2) ← StartDriverHost (env_host env) w1;
          match result with
          | error s => Done (Some s, w2)
          | ok host =>
              nd ← node_at node w2;
              let w3 := put_node node (set_driver_host host nd) w2 in
              let w4 := with_driver_hosts (driver_hosts_ w3 ++ [host])
                          (next_driver_host_id_ w3) w3 in
              start_in_host request env node w4
          end
    end.
Proof.
  intros ((Hh & Hv & Hid) & Hst & <-). unfold Start. rewrite Hh, Hv. simpl.
  rewrite bool_decide_eq_false_2 by (intros Hne; by apply Hne).
  rewrite decide_False by (intros Hne; by apply Hne).
  reflexivity.
Qed.

Lemma Start_info_fails (request : StartRequest) (env : StartEnv) (w : World)
    (h : HandleInfo) :
  token_handle request h → handle_info_status (handle h) ≠ ZX_OK →
  Start request env w = Done (Some ZX_ERR_INVALID_ARGS, w).
Proof.
  intros (Hh & Hv & Hid) Hst. unfold Start. rewrite Hh, Hv. simpl.
  rewrite bool_decide_eq_false_2 by (intros Hne; by apply Hne).
  by rewrite decide_True.
Qed.

(** The steps of [Start] after the lookup leave [driver_args_] alone. *)
Lemma CreateComponent_no_node_args (name url : string) (collection : Collection)
    (token : option koid) (dir : option channel) (w w' : World) (r : status ()) :
  CreateComponent name collection url (mkCreateComponentOpts None token dir) w = Done (r, w') →
  driver_args_ w' = driver_args_ w.
Proof. unfold CreateComponent. simpl. intros H. by simplify_eq. Qed.

Lemma StartDriverHost_args (env : HostEnv) (w w' : World) (r : status hptr) :
  StartDriverHost env w = Done (r, w') → driver_args_ w' = driver_args_ w.
Proof.
  unfold StartDriverHost. intros H.
  destruct (decide _); [by simplify_eq|].
  run_inv H. destruct a as [create w2].
  apply CreateComponent_no_node_args in Hrun. simpl in Hrun.
  destruct create; [|by simplify_eq].
  destruct (decide _); by simplify_eq.
Qed.

Lemma start_in_host_args (request : StartRequest) (env : StartEnv) (node : ptr)
    (w w' : World) (r : option zx_status_t) :
  start_in_host request env node w = Done (r, w') → driver_args_ w' = driver_args_ w.
Proof.
  unfold start_in_host. intros H. run_inv H.
  destruct (decide _); [by simplify_eq|].
  run_inv H. destruct a1 as [start w2].
  assert (driver_args_ w2 = driver_args_ w) as Hw2.
  { unfold DriverHostComponent_Start in Hrun1.
    destruct (decide _); [by simplify_eq|].
    run_inv Hrun1. destruct (decide _); by simplify_eq. }
  destruct start; [|by simplify_eq].
  run_inv H. by simplify_eq.
Qed.

Lemma Start_consumes_token (request : StartRequest) (env : StartEnv) (w w' : World)
    (h : HandleInfo) (k : koid) (r : option zx_status_t) :
  token_koid request h k → is_Some (driver_args_ w !! k) →
  Start request env w = Done (r, w') →
  driver_args_ w' = delete k (driver_args_ w).
Proof.
  intros Htok [node Hnode] H.
  rewrite (Start_at_token request env w h k Htok), Hnode in H. simpl in H.
  destruct (decide _).
  - destruct (decide _); [by simplify_eq|].
    by apply start_in_host_args in H.
  - run_inv H. destruct a as [result w2].
    apply StartDriverHost_args in Hrun. simpl in Hrun.
    destruct result; [|by simplify_eq].
    run_inv H. apply start_in_host_args in H. by rewrite H.
Qed.

(** C7.  [Start] closes the connection with [ZX_ERR_INVALID_ARGS] when the
    start info has no numbered handles, or not exactly one valid handle under
    the reserved id; with [ZX_ERR_UNAVAILABLE] when the koid of that handle is
    not in [driver_args_]; a koid which is there is erased whatever happens
    next; and a driver which asks to be colocated on the root node is closed
    with [ZX_ERR_INVALID_ARGS]. *)
Theorem Start_validation (request : StartRequest) (env : StartEnv) (w : World) :
  (numbered_handles (start_info request) = None →
     Start request env w = Done (Some ZX_ERR_INVALID_ARGS, w))
  ∧ (∀ handles, numbered_handles (start_info request) = Some handles →
       (¬ ∃ h, token_handle request h) →
       Start request env w = Done (Some ZX_ERR_INVALID_ARGS, w))
  ∧ (∀ h k, token_koid request h k → driver_args_ w !! k = None →
       Start request env w = Done (Some ZX_ERR_UNAVAILABLE, w))
  ∧ (∀ h k r w', token_koid request h k → is_Some (driver_args_ w !! k) →
       Start request env w = Done (r, w') →
       driver_args_ w' !! k = None ∧ driver_args_ w' = delete k (driver_args_ w))
  ∧ (∀ h k, token_koid request h k → driver_args_ w !! k = Some (root_node_ w) →
       colocate request →
       Start request env w
       = Done (Some ZX_ERR_INVALID_ARGS, with_driver_args (delete k (driver_args_ w)) w)).
Proof.
  split; [|split; [|split; [|split]]].
  - apply Start_no_handles.
  - intros handles. apply Start_bad_handles.
  - intros h k Htok Hk. by rewrite (Start_at_token request env w h k Htok), Hk.
  - intros h k r w' Htok Hk H.
    rewrite (Start_consumes_token request env w w' h k r Htok Hk H).
    split; [apply lookup_delete_eq|done].
  - intros h k Htok Hk Hco.
    rewrite (Start_at_token request env w h k Htok), Hk. simpl.
    unfold colocate in Hco. rewrite decide_True by done.
    by rewrite decide_True.
Qed.

(** The root driver comes back with its token, 7, and asks to be colocated. *)
Definition colocated_request : StartRequest :=
  mkStartRequest
    (mkComponentStartInfo "fuchsia-boot:///#meta/root.cm" [("colocate", "true")]
       (Some [mkHandleInfo (mkHandle true ZX_OK 7%N) kTokenId]))
    20%positive.

Definition quiet_env : StartEnv :=
  mkStartEnv (mkHostEnv ZX_OK 30%positive ZX_OK 40%positive) ZX_OK 31%positive ZX_OK ZX_OK
    50%positive.

Definition world_root_token : World :=
  with_driver_args {[ 7%N := root_address ]} new_DriverRunner.

Lemma Start_validation_witness :
  Start colocated_request quiet_env world_root_token
  = Done (Some ZX_ERR_INVALID_ARGS, with_driver_args ∅ world_root_token)
  ∧ driver_args_ world_root_token !! 7%N = Some root_address.
Proof.
  split; [|reflexivity].
  assert (delete 7%N (driver_args_ world_root_token) = ∅) as <-
    by (apply map_eq; intros k; vm_compute; by destruct k).
  refine (proj2 (proj2 (proj2 (proj2 (Start_validation colocated_request quiet_env
                                        world_root_token))))
            (mkHandleInfo (mkHandle true ZX_OK 7%N) kTokenId) 7%N _ _ _).
  - repeat split.
  - reflexivity.
  - reflexivity.
Defined.

(** ** C8: match failures orphan the node *)

(** What the callback of [Bind] treats as no match: the call failed, the
    index answered with an error, the match is neither a driver nor a
    composite driver, a composite match has no driver info, or the driver info
    has no URL. *)
Inductive match_failed : MatchResult → Prop :=
| failed_transport : match_failed MatchTransportError
| failed_result s : match_failed (MatchErr s)
| failed_neither : match_failed (MatchResponse IsNeither)
| failed_driver_url info :
    info_url info = None → match_failed (MatchResponse (IsDriver info))
| failed_composite_info c :
    composite_driver_info c = None → match_failed (MatchResponse (IsCompositeDriver c))
| failed_composite_url c info :
    composite_driver_info c = Some info → info_url info = None →
    match_failed (MatchResponse (IsCompositeDriver c)).

Lemma match_callback_failed (node : ptr) (result : MatchResult) (env : TokenEnv) (w : World) :
  is_Some (heap w !! node) → match_failed result →
  match_callback node result env w = Done (orphaned node w).
Proof.
  intros [nd Hnd] Hfail. unfold match_callback, lock. rewrite Hnd.
  destruct Hfail as [| | |info Hurl|c Hinfo|c info Hinfo Hurl];
    try reflexivity; try by rewrite ?Hinfo, ?Hurl.
Qed.

(** C8.  When the node is still there and the match fails, the callback of
    [Bind] appends the node to [orphaned_nodes_] and does nothing else: no
    collection is set, no component is created, no token is recorded, so
    [StartDriver] has not run.  [Bind] itself only sends the request and has
    no result to return. *)
Theorem Bind_failure_orphans (node : ptr) (args : NodeAddArgs) (result : MatchResult)
    (env : TokenEnv) (w : World) :
  is_Some (heap w !! node) → match_failed result →
  ∃ w', match_callback node result env (Bind node args w) = Done w'
        ∧ orphaned_nodes_ w' = orphaned_nodes_ w ++ [node]
        ∧ heap w' = heap w ∧ trace w' = trace w ∧ driver_args_ w' = driver_args_ w
        ∧ drivers_ w' = drivers_ w ∧ composite_args_ w' = composite_args_ w.
Proof.
  intros Hnode Hfail. eexists. split.
  - by apply match_callback_failed.
  - done.
Qed.

Definition world_one_child : World :=
  mkWorld (list_to_map
             [(1, hosted "root" [] [2] None [])%positive;
              (2, hosted "disk" [1] [] None [])%positive])
    ∅ root_address [] [] ∅ [] 0%N [] [].

Lemma Bind_failure_orphans_witness :
  is_Some (heap world_one_child !! 2%positive)
  ∧ match_failed (MatchErr (-25)%Z)
  ∧ ∃ w', match_callback 2%positive (MatchErr (-25)%Z) (mkTokenEnv 0%Z 0%Z 9%N)
            (Bind 2%positive (mkNodeAddArgs (Some "disk") None None None) world_one_child)
          = Done w'
          ∧ orphaned_nodes_ w' = [2%positive] ∧ trace w' = [].
Proof.
  assert (is_Some (heap world_one_child !! 2%positive)) as H1 by (by eexists).
  split; [exact H1|]. split; [constructor|].
  destruct (Bind_failure_orphans 2%positive (mkNodeAddArgs (Some "disk") None None None)
              (MatchErr (-25)%Z) (mkTokenEnv 0%Z 0%Z 9%N) world_one_child H1 (failed_result _))
    as (w' & Hrun & Horph & _ & Htrace & _).
  exists w'. split; [exact Hrun|]. split; [exact Horph|exact Htrace].
Defined.

(** ** C2: pending sets of a composite driver *)

Lemma with_heap_same (w : World) : with_heap (heap w) w = w.
Proof. by destruct w. Qed.

Lemma set_children_same (nd : Node) : set_children (children_ nd) nd = nd.
Proof. by destruct nd. Qed.

(** How often [x] is among the parents. *)
Definition occurrences (x : ptr) (ps : list ptr) : nat :=
  length (filter (λ p, p = x) ps).

Lemma occurrences_absent (x : ptr) (ps : list ptr) : x ∉ ps → occurrences x ps = 0%nat.
Proof.
  unfold occurrences. induction ps as [|p ps IH]; intros Hx; [done|].
  rewrite filter_cons. apply not_elem_of_cons in Hx as [Hne Hx].
  rewrite decide_False by done. by apply IH.
Qed.

Definition add_children (k : nat) (c : ptr) (nd : Node) : Node :=
  set_children (children_ nd ++ replicate k c) nd.

Lemma add_children_0 (c : ptr) (nd : Node) : add_children 0 c nd = nd.
Proof. unfold add_children. simpl. rewrite app_nil_r. apply set_children_same. Qed.

Lemma add_to_parents_lookup (c : ptr) (ps : list ptr) (w : World) :
  (∀ p, p ∈ ps → is_Some (heap w !! p)) →
  ∃ h, add_to_parents c ps w = Done (with_heap h w)
       ∧ ∀ x, h !! x = add_children (occurrences x ps) c <$> heap w !! x.
Proof.
  revert w. induction ps as [|p ps IH]; intros w Hps.
  - exists (heap w). simpl. rewrite with_heap_same. split; [done|].
    intros x. destruct (heap w !! x); simpl; [|done]. by rewrite add_children_0.
  - destruct (Hps p) as [pd Hpd]; [left|].
    simpl. rewrite (proj2 (node_at_Done _ _ _) Hpd). simpl.
    destruct (IH (put_node p (push_child c pd) w)) as (h & Hrun & Hh).
    { intros q Hq. unfold put_node. simpl.
      destruct (decide (p = q)) as [->|Hne].
      - rewrite lookup_insert_eq. by eexists.
      - rewrite lookup_insert_ne by done. apply Hps. by right. }
    exists h. split; [by rewrite Hrun|].
    intros x. rewrite Hh. unfold put_node, occurrences. simpl.
    rewrite filter_cons.
    destruct (decide (p = x)) as [->|Hne].
    + rewrite lookup_insert_eq, Hpd. simpl. f_equal.
      unfold add_children, push_child. simpl. by rewrite <- app_assoc.
    + by rewrite lookup_insert_ne.
Qed.

Lemma find_composite_args_found (url : string) (index num : N) (w : World)
    (entries : list (string * CompositeArgs)) (position it : nat) :
  find_composite_args url index num w entries position = ok (Some it) →
  ∃ nodes, (position ≤ it)%nat ∧ entries !! (it - position) = Some (url, nodes)
           ∧ N.of_nat (length nodes) = num.
Proof.
  revert position. induction entries as [|[key nodes] entries IH]; intros position H.
  - discriminate.
  - simpl in H.
    assert (find_composite_args url index num w entries (S position) = ok (Some it) →
            ∃ nodes', (position ≤ it)%nat
                      ∧ ((key, nodes) :: entries) !! (it - position) = Some (url, nodes')
                      ∧ N.of_nat (length nodes') = num) as Hrest.
    { intros H'. destruct (IH _ H') as (nodes' & Hle & Hl & Hn).
      exists nodes'. split; [lia|]. split; [|done].
      replace (it - position) with (S (it - S position)) by lia. done. }
    destruct (decide (key = url)) as [->|]; [|by apply Hrest].
    destruct (decide (N.of_nat (length nodes) ≠ num)) as [|Heq]; [done|].
    destruct (expired _ _); [|by apply Hrest].
    simplify_eq. exists nodes. split; [done|]. rewrite Nat.sub_diag.
    split; [done|]. by destruct (decide (N.of_nat (length nodes) = num)).
Qed.

Lemma AddToCompositeArgs_ok (name : string) (info : MatchedCompositeInfo) (w w1 : World)
    (it : nat) :
  AddToCompositeArgs name info w = (ok it, w1) →
  ∃ index num url nodes args,
    node_index info = Some index ∧ num_nodes info = Some num ∧ (index < num)%N
    ∧ composite_driver_info info ≫= info_url = Some url
    ∧ w1 = with_composite_args args w
    ∧ args !! it = Some (url, nodes) ∧ length nodes = N.to_nat num.
Proof.
  unfold AddToCompositeArgs. intros H.
  destruct (node_index info) as [index|]; [|by simplify_eq].
  destruct (num_nodes info) as [num|]; [|by simplify_eq].
  destruct (decide (num ≤ index)%N); [by simplify_eq|].
  destruct (composite_driver_info info ≫= info_url) as [url|]; [|by simplify_eq].
  destruct (find_composite_args _ _ _ _ _ _) as [[it'|]|] eqn:Hfind; [| |by simplify_eq].
  - simplify_eq.
    apply find_composite_args_found in Hfind as (nodes & _ & Hl & Hn).
    rewrite Nat.sub_0_r in Hl.
    exists index, num, url, nodes, (composite_args_ w1).
    repeat split; [lia| |done|lia]. by destruct w1.
  - simplify_eq.
    exists index, num, url, (replicate (N.to_nat num) None),
      (composite_args_ w ++ [(url, replicate (N.to_nat num) None)]).
    repeat split; [lia| |by rewrite length_replicate].
    rewrite lookup_app_r by done. by rewrite Nat.sub_diag.
Qed.

Lemma fresh_node_free (w : World) : heap w !! fresh_node w = None.
Proof. apply not_elem_of_dom. unfold fresh_node. apply is_fresh. Qed.

Lemma delete_insert_same {A} (l : list A) (i : nat) (x : A) :
  delete i (<[i := x]> l) = delete i l.
Proof.
  revert i. induction l as [|y l IH]; intros [|i]; simpl; try done.
  f_equal. apply IH.
Qed.

Lemma lock_Some (weak : option ptr) (w : World) (p : ptr) :
  lock weak w = Some p ↔ weak = Some p ∧ is_Some (heap w !! p).
Proof.
  unfold lock. destruct weak as [q|]; [|naive_solver].
  destruct (heap w !! q) eqn:Hq; split.
  - intros [= ->]. split; [done|]. by rewrite Hq.
  - by intros [[= ->] _].
  - done.
  - intros [[= ->] [? ?]]. congruence.
Qed.

Lemma lock_ext (weak : option ptr) (w w' : World) :
  heap w' = heap w → lock weak w' = lock weak w.
Proof. unfold lock. by intros ->. Qed.

Lemma CreateCompositeNode_waits (node : ptr) (matched : MatchedCompositeInfo)
    (w w1 : World) (nd : Node) (it : nat) (url : string) (nodes : CompositeArgs) (index : N) :
  heap w !! node = Some nd →
  AddToCompositeArgs (name_ nd) matched w = (ok it, w1) → heap w1 = heap w →
  composite_args_ w1 !! it = Some (url, nodes) → node_index matched = Some index →
  let slots := <[N.to_nat index := Some node]> nodes in
  Exists (λ weak, lock weak w = None) slots →
  CreateCompositeNode node matched w
  = Done (error ZX_ERR_NEXT,
          with_composite_args (<[it := (url, slots)]> (composite_args_ w1)) w1).
Proof.
  intros Hnode Hadd Hheap Hit Hindex slots Hex. unfold CreateCompositeNode.
  rewrite (proj2 (node_at_Done _ _ _) Hnode). simpl.
  rewrite Hadd, Hit, Hindex. fold slots.
  assert (lock_all slots (with_composite_args (<[it := (url, slots)]> (composite_args_ w1)) w1)
          = None) as ->; [|done].
  apply mapM_None. eapply Exists_impl; [exact Hex|].
  intros weak Hw. simpl in Hw. rewrite <- Hw. by apply lock_ext.
Qed.

Lemma CreateCompositeNode_creates (node : ptr) (matched : MatchedCompositeInfo)
    (w w1 : World) (nd : Node) (it : nat) (url : string) (nodes : CompositeArgs) (index : N)
    (parents : list ptr) :
  heap w !! node = Some nd →
  AddToCompositeArgs (name_ nd) matched w = (ok it, w1) → heap w1 = heap w →
  composite_args_ w1 !! it = Some (url, nodes) → node_index matched = Some index →
  Forall2 (λ weak p, lock weak w = Some p) (<[N.to_nat index := Some node]> nodes) parents →
  ∃ w' composite,
    CreateCompositeNode node matched w = Done (ok (fresh_node w), w')
    ∧ composite_args_ w' = delete it (composite_args_ w1)
    ∧ orphaned_nodes_ w' = orphaned_nodes_ w1
    ∧ heap w' !! fresh_node w = Some composite
    ∧ name_ composite = "composite" ∧ parents_ composite = parents
    ∧ children_ composite = []
    ∧ ∀ x, x ≠ fresh_node w →
           heap w' !! x = add_children (occurrences x parents) (fresh_node w) <$> heap w !! x.
Proof.
  intros Hnode Hadd Hheap Hit Hindex Hlock. unfold CreateCompositeNode.
  rewrite (proj2 (node_at_Done _ _ _) Hnode). simpl.
  rewrite Hadd, Hit, Hindex.
  set (slots := <[N.to_nat index := Some node]> nodes) in *.
  set (w2 := with_composite_args (<[it := (url, slots)]> (composite_args_ w1)) w1).
  assert (lock_all slots w2 = Some parents) as ->.
  { apply mapM_Some. eapply Forall2_impl; [exact Hlock|].
    intros weak p Hw. simpl in Hw. rewrite <- Hw. by apply lock_ext. }
  set (w3 := with_composite_args (delete it (<[it := (url, slots)]> (composite_args_ w1))) w2).
  assert (heap w3 = heap w) as Hheap3 by done.
  assert (∀ p, p ∈ parents → is_Some (heap w !! p)) as Halive.
  { intros p Hp. apply list_elem_of_lookup in Hp as [i Hi].
    destruct (Forall2_lookup_r _ _ _ _ _ Hlock Hi) as (weak & _ & Hweak).
    by apply lock_Some in Hweak as [_ ?]. }
  assert (fresh_node w3 = fresh_node w) as Hfresh by (unfold fresh_node; by rewrite Hheap3).
  assert (fresh_node w ∉ parents) as Hnotin.
  { intros Hin. destruct (Halive _ Hin) as [x Hx]. by rewrite fresh_node_free in Hx. }
  assert (∃ composite, new_Node "composite" parents (Some TheDriverRunner) w3 = Done composite
                       ∧ name_ composite = "composite" ∧ parents_ composite = parents
                       ∧ children_ composite = []) as (composite & -> & Hname & Hparents & Hch).
  { destruct parents as [|p ps].
    - by eexists.
    - destruct (Halive p) as [pd Hpd]; [left|]. rewrite <- Hheap3 in Hpd.
      destruct (new_Node_host "composite" p ps (Some TheDriverRunner) w3 pd Hpd)
        as (child & Hrun & _ & ? & ? & ?).
      by exists child. }
  simpl. rewrite Hfresh. unfold AddToParents.
  assert (node_at (fresh_node w) (put_node (fresh_node w) composite w3) = Done composite) as ->.
  { apply node_at_Done. apply lookup_insert_eq. }
  simpl. rewrite Hparents.
  destruct (add_to_parents_lookup (fresh_node w) parents
              (put_node (fresh_node w) composite w3)) as (h & -> & Hh).
  { intros p Hp. unfold put_node. simpl. rewrite Hheap.
    destruct (decide (fresh_node w = p)) as [<-|Hne]; [done|].
    rewrite lookup_insert_ne by done. by apply Halive. }
  simpl. eexists _, composite. split; [reflexivity|]. simpl.
  split; [apply delete_insert_same|]. split; [done|].
  assert (heap (put_node (fresh_node w) composite w3)
          = <[fresh_node w := composite]> (heap w)) as Hput
    by (unfold put_node; simpl; by rewrite Hheap).
  split; [|split; [done|split; [done|split; [done|]]]].
  - rewrite Hh, Hput, lookup_insert_eq. simpl. f_equal.
    rewrite occurrences_absent by done. apply add_children_0.
  - intros x Hx. rewrite Hh, Hput. by rewrite lookup_insert_ne.
Qed.

(** C2.  Take a call of [CreateCompositeNode] for which [AddToCompositeArgs]
    has picked the pending set at position [it].  The node is stored in its
    slot.  If some slot of the set then does not lock, the call returns
    [ZX_ERR_NEXT], the set stays where it is with the node in its slot, and
    neither the nodes nor the orphans change.  If every slot locks, the set is
    erased and one node is new: it is called "composite", its parents are the
    nodes of the slots in the order of the slots, and it is appended to the
    children of each of them (once per slot the parent fills). *)
Theorem CreateCompositeNode_pending (node : ptr) (matched : MatchedCompositeInfo)
    (w w1 : World) (nd : Node) (it : nat) :
  heap w !! node = Some nd →
  AddToCompositeArgs (name_ nd) matched w = (ok it, w1) →
  ∃ url nodes index,
    composite_args_ w1 !! it = Some (url, nodes) ∧ node_index matched = Some index
    ∧ (N.to_nat index < length nodes)%nat
    ∧ let slots := <[N.to_nat index := Some node]> nodes in
      let stored := with_composite_args (<[it := (url, slots)]> (composite_args_ w1)) w1 in
      (Exists (λ weak, lock weak w = None) slots →
         CreateCompositeNode node matched w = Done (error ZX_ERR_NEXT, stored)
         ∧ composite_args_ stored !! it = Some (url, slots)
         ∧ heap stored = heap w ∧ orphaned_nodes_ stored = orphaned_nodes_ w)
      ∧ (∀ parents, Forall2 (λ weak p, lock weak w = Some p) slots parents →
           ∃ w' composite,
             CreateCompositeNode node matched w = Done (ok (fresh_node w), w')
             ∧ composite_args_ w' = delete it (composite_args_ w1)
             ∧ heap w !! fresh_node w = None
             ∧ heap w' !! fresh_node w = Some composite
             ∧ name_ composite = "composite" ∧ parents_ composite = parents
             ∧ ∀ x, x ≠ fresh_node w →
                    heap w' !! x
                    = add_children (occurrences x parents) (fresh_node w) <$> heap w !! x).
Proof.
  intros Hnode Hadd.
  destruct (AddToCompositeArgs_ok _ _ _ _ _ Hadd)
    as (index & num & url & nodes & args & Hindex & Hnum & Hlt & Hurl & -> & Hit & Hlen).
  exists url, nodes, index. split; [done|]. split; [done|]. split; [lia|].
  split.
  - intros Hex. split.
    + by eapply CreateCompositeNode_waits.
    + split; [|done]. simpl. apply list_lookup_insert_eq. by eapply lookup_lt_Some.
  - intros parents Hlock.
    destruct (CreateCompositeNode_creates node matched w _ nd it url nodes index parents
                Hnode Hadd eq_refl Hit Hindex Hlock)
      as (w' & composite & Hrun & Hargs & _ & Hc & Hname & Hparents & _ & Hrest).
    exists w', composite. split; [done|]. split; [done|].
    split; [apply fresh_node_free|]. done.
Qed.

(** Two children of the root are matched to the two slots of the composite
    driver "X": the first call waits, the second creates the composite node
    under both. *)
Definition world_two_children : World :=
  mkWorld (list_to_map
             [(1, hosted "root" [] [2; 3] None [])%positive;
              (2, hosted "a" [1] [] None [])%positive;
              (3, hosted "b" [1] [] None [])%positive])
    ∅ root_address [] [] ∅ [] 0%N [] [].

Definition slot_of_X (index : N) : MatchedCompositeInfo :=
  mkMatchedCompositeInfo (Some index) (Some 2%N) (Some (mkMatchedDriverInfo (Some "X"))).

Definition world_X_pending : World :=
  with_composite_args [("X", [Some 2%positive; None])] world_two_children.

Example CreateCompositeNode_first_waits :
  CreateCompositeNode 2%positive (slot_of_X 0) world_two_children
  = Done (error ZX_ERR_NEXT, world_X_pending).
Proof. reflexivity. Qed.

Lemma CreateCompositeNode_pending_witness :
  heap world_X_pending !! 3%positive = Some (hosted "b" [1%positive] [] None [])
  ∧ AddToCompositeArgs "b" (slot_of_X 1) world_X_pending = (ok 0%nat, world_X_pending)
  ∧ ∃ w' composite,
      CreateCompositeNode 3%positive (slot_of_X 1) world_X_pending = Done (ok 4%positive, w')
      ∧ composite_args_ w' = []
      ∧ heap w' !! 4%positive = Some composite
      ∧ parents_ composite = [2; 3]%positive.
Proof.
  assert (heap world_X_pending !! 3%positive = Some (hosted "b" [1%positive] [] None []))
    as H1 by reflexivity.
  assert (AddToCompositeArgs (name_ (hosted "b" [1%positive] [] None [])) (slot_of_X 1)
            world_X_pending = (ok 0%nat, world_X_pending)) as H2 by reflexivity.
  split; [exact H1|]. split; [exact H2|].
  destruct (CreateCompositeNode_pending 3%positive (slot_of_X 1) world_X_pending
              world_X_pending _ 0%nat H1 H2)
    as (url & nodes & index & Hit & Hindex & _ & _ & Hcreate).
  vm_compute in Hit. vm_compute in Hindex.
  injection Hit as <- <-. injection Hindex as <-.
  destruct (Hcreate [2; 3]%positive) as (w' & composite & Hrun & Hargs & _ & Hc & _ & Hp & _).
  { repeat constructor. }
  exists w', composite. split; [exact Hrun|]. split; [exact Hargs|].
  split; [exact Hc|exact Hp].
Defined.

(** ** The steps of a call of [Remove] which returns *)

Section Remove_steps.

Variable self : ptr → World → Outcome World.

Lemma remove_children_step (n child : ptr) (steps : nat) (w w' : World) :
  remove_children self n (S steps) (Some child) w = Done w' →
  ∃ nd w1 nd1,
    heap w !! n = Some nd ∧ self child w = Done w1 ∧ heap w1 !! n = Some nd1
    ∧ iterator_valid (list_next child (children_ nd)) (children_ nd1) = true
    ∧ remove_children self n steps (list_next child (children_ nd)) w1 = Done w'.
Proof.
  simpl. intros H. run_inv H. apply node_at_Done in Hrun, Hrun1.
  destruct (iterator_valid _ _) eqn:Hv; [|done].
  by exists a, a0, a1.
Qed.

Lemma unlink_from_parent_Done (n parent : ptr) (w w' : World) :
  unlink_from_parent self n parent w = Done w' →
  ∃ pd cs nd,
    heap w !! parent = Some pd ∧ erase_first n (children_ pd) = Some cs
    ∧ let w1 := emit (EvChildErased parent n) (put_node parent (set_children cs pd) w) in
      heap w1 !! n = Some nd
      ∧ if (removal_in_progress_ pd && empty cs) || (1 <? length (parents_ nd))%nat
        then self parent (emit (EvParentRemove n parent) w1) = Done w'
        else w' = w1.
Proof.
  unfold unlink_from_parent. intros H. run_inv H. apply node_at_Done in Hrun.
  destruct (erase_first n (children_ a)) as [cs|] eqn:Hcs; [|done].
  run_inv H. apply node_at_Done in Hrun0.
  exists a, cs, a0. split; [done|]. split; [done|]. split; [done|].
  destruct (_ || _); [done|by simplify_eq].
Qed.

Lemma unlink_from_parents_step (n parent : ptr) (all ps : list ptr) (w w' : World) :
  unlink_from_parents self n all (parent :: ps) w = Done w' →
  ∃ w1 nd, unlink_from_parent self n parent w = Done w1 ∧ heap w1 !! n = Some nd
           ∧ parents_ nd = all ∧ unlink_from_parents self n all ps w1 = Done w'.
Proof.
  simpl. intros H. run_inv H. apply node_at_Done in Hrun0.
  destruct (decide _); [|done]. by exists a, a0.
Qed.

Lemma remove_phase_children_Done (n : ptr) (w w' : World) :
  remove_phase_children self n w = Done w' →
  ∃ nd, heap w !! n = Some nd
        ∧ remove_children self n (length (children_ nd)) (head (children_ nd))
            (put_node n (begin_removal nd) w) = Done w'.
Proof.
  unfold remove_phase_children. intros H. run_inv H. apply node_at_Done in Hrun.
  by exists a.
Qed.

Lemma remove_phase_unlink_Done (n : ptr) (w w' : World) :
  remove_phase_unlink self n w = Done w' →
  ∃ nd, heap w !! n = Some nd
        ∧ ((∃ d, driver_component_ nd = Some d ∧ StopDriver d w = Done w')
           ∨ (driver_component_ nd = None
              ∧ ∃ w1 nd1, unlink_from_parents self n (parents_ nd) (parents_ nd) w = Done w1
                          ∧ heap w1 !! n = Some nd1
                          ∧ w' = put_node n (finish_removal nd1) w1)).
Proof.
  unfold remove_phase_unlink. intros H. run_inv H. apply node_at_Done in Hrun.
  exists a. split; [done|].
  destruct (driver_component_ a) as [d|].
  - left. by exists d.
  - right. split; [done|]. run_inv H. apply node_at_Done in Hrun1.
    exists a0, a1. by simplify_eq.
Qed.

Lemma Remove_body_Done (n : ptr) (w w' : World) :
  Remove_body self n w = Done w' →
  ∃ w1 nd1, remove_phase_children self n w = Done w1 ∧ heap w1 !! n = Some nd1
            ∧ ((children_ nd1 ≠ [] ∧ w' = w1)
               ∨ (children_ nd1 = [] ∧ remove_phase_unlink self n w1 = Done w')).
Proof.
  unfold Remove_body. intros H. run_inv H. apply node_at_Done in Hrun0.
  exists a, a0. split; [done|]. split; [done|].
  destruct (children_ a0); simpl in H.
  - by right.
  - left. by simplify_eq.
Qed.

End Remove_steps.

(** ** How [Remove] changes the store *)

(** A node after some steps of [Remove]: children are erased, the parents
    are kept or cleared, flags are raised, references are dropped. *)
Record node_evolves (a b : Node) : Prop := mk_node_evolves {
  ne_name : name_ b = name_ a;
  ne_children : sublist (children_ b) (children_ a);
  ne_parents : parents_ b = parents_ a ∨ parents_ b = [];
  ne_binder : driver_binder_ a = None → driver_binder_ b = None;
  ne_removal : removal_in_progress_ a = true → removal_in_progress_ b = true;
  ne_component : driver_component_ b = driver_component_ a;
  ne_host : driver_host_ b = driver_host_ a;
  ne_collection : collection_ b = collection_ a;
  ne_controller : controller_ref_ b = controller_ref_ a ∨ controller_ref_ b = None;
  ne_node_ref : node_ref_ b = node_ref_ a ∨ node_ref_ b = None;
  ne_offers : offers_ b = offers_ a;
  ne_properties : properties_ b = properties_ a;
  ne_symbols : symbols_ b = symbols_ a;
}.

Record driver_evolves (a b : DriverComponent) : Prop := mk_driver_evolves {
  de_url : url_ b = url_ a;
  de_node : node_ b = node_ a;
  de_ref : driver_ref_ b = driver_ref_ a;
  de_stop : stop_in_progress_ a = true → stop_in_progress_ b = true;
}.

Record evolves (w w' : World) : Prop := mk_evolves {
  ev_heap : ∀ n, option_Forall2 node_evolves (heap w !! n) (heap w' !! n);
  ev_drivers : ∀ d, option_Forall2 driver_evolves (drivers_ w !! d) (drivers_ w' !! d);
  ev_trace : trace w `prefix_of` trace w';
  ev_root : root_node_ w' = root_node_ w;
  ev_orphaned : orphaned_nodes_ w' = orphaned_nodes_ w;
  ev_composite : composite_args_ w' = composite_args_ w;
  ev_args : driver_args_ w' = driver_args_ w;
  ev_hosts : driver_hosts_ w' = driver_hosts_ w;
  ev_next : next_driver_host_id_ w' = next_driver_host_id_ w;
  ev_requests : match_requests_ w' = match_requests_ w;
}.

Global Instance node_evolves_refl : Reflexive node_evolves.
Proof. intros a. split; auto. Qed.

Global Instance node_evolves_trans : Transitive node_evolves.
Proof.
  intros a b c [] []. split; try congruence; try (by etrans); try tauto.
  - destruct ne_parents1 as [->| ->]; auto.
  - destruct ne_controller1 as [->| ->]; auto.
  - destruct ne_node_ref1 as [->| ->]; auto.
Qed.

Global Instance driver_evolves_refl : Reflexive driver_evolves.
Proof. intros a. split; auto. Qed.

Global Instance driver_evolves_trans : Transitive driver_evolves.
Proof. intros a b c [] []. split; try congruence; tauto. Qed.

Global Instance evolves_refl : Reflexive evolves.
Proof. intros w. split; try done; intros ?; reflexivity. Qed.

Global Instance evolves_trans : Transitive evolves.
Proof.
  intros a b c Hab Hbc. split.
  - intros n. etrans; [apply (ev_heap _ _ Hab)|apply (ev_heap _ _ Hbc)].
  - intros d. etrans; [apply (ev_drivers _ _ Hab)|apply (ev_drivers _ _ Hbc)].
  - etrans; [apply (ev_trace _ _ Hab)|apply (ev_trace _ _ Hbc)].
  - rewrite (ev_root _ _ Hbc). apply (ev_root _ _ Hab).
  - rewrite (ev_orphaned _ _ Hbc). apply (ev_orphaned _ _ Hab).
  - rewrite (ev_composite _ _ Hbc). apply (ev_composite _ _ Hab).
  - rewrite (ev_args _ _ Hbc). apply (ev_args _ _ Hab).
  - rewrite (ev_hosts _ _ Hbc). apply (ev_hosts _ _ Hab).
  - rewrite (ev_next _ _ Hbc). apply (ev_next _ _ Hab).
  - rewrite (ev_requests _ _ Hbc). apply (ev_requests _ _ Hab).
Qed.

Lemma evolves_node (w w' : World) (n : ptr) (nd : Node) :
  evolves w w' → heap w !! n = Some nd →
  ∃ nd', heap w' !! n = Some nd' ∧ node_evolves nd nd'.
Proof.
  intros [Hh _ _ _ _ _ _ _ _ _] Hn. specialize (Hh n). rewrite Hn in Hh.
  inversion Hh; subst. eauto.
Qed.

Lemma evolves_node_back (w w' : World) (n : ptr) (nd' : Node) :
  evolves w w' → heap w' !! n = Some nd' →
  ∃ nd, heap w !! n = Some nd ∧ node_evolves nd nd'.
Proof.
  intros [Hh _ _ _ _ _ _ _ _ _] Hn. specialize (Hh n). rewrite Hn in Hh.
  inversion Hh; subst. eauto.
Qed.

Lemma evolves_driver (w w' : World) (d : cptr) (dc : DriverComponent) :
  evolves w w' → drivers_ w !! d = Some dc →
  ∃ dc', drivers_ w' !! d = Some dc' ∧ driver_evolves dc dc'.
Proof.
  intros [_ Hd _ _ _ _ _ _ _ _] Hn. specialize (Hd d). rewrite Hn in Hd.
  inversion Hd; subst. eauto.
Qed.

Lemma evolves_put_node (w : World) (n : ptr) (nd nd' : Node) :
  heap w !! n = Some nd → node_evolves nd nd' → evolves w (put_node n nd' w).
Proof.
  intros Hn Hev. split; try done; try (intros ?; reflexivity).
  intros x. unfold put_node. simpl.
  destruct (decide (n = x)) as [<-|Hne].
  - rewrite lookup_insert_eq, Hn. by constructor.
  - rewrite lookup_insert_ne by done. reflexivity.
Qed.

Lemma evolves_emit (e : Event) (w : World) : evolves w (emit e w).
Proof.
  split; try done; try (intros ?; reflexivity).
  simpl. by apply prefix_app_r.
Qed.

Lemma evolves_StopDriver (d : cptr) (w w' : World) :
  StopDriver d w = Done w' → evolves w w'.
Proof.
  unfold StopDriver. intros H. run_inv H. apply driver_at_Done in Hrun.
  destruct (stop_in_progress_ a) eqn:Hs; simplify_eq; [reflexivity|].
  split; try done; try (intros ?; reflexivity).
  - intros x. simpl. destruct (decide (d = x)) as [<-|Hne].
    + rewrite lookup_insert_eq, Hrun. constructor. by split.
    + rewrite lookup_insert_ne by done. reflexivity.
  - simpl. by apply prefix_app_r.
Qed.

Lemma erase_first_sublist (c : ptr) (l l' : list ptr) :
  erase_first c l = Some l' → sublist l' l.
Proof.
  revert l'. induction l as [|x l IH]; intros l' H; [done|].
  simpl in H. destruct (decide (x = c)).
  - simplify_eq. by apply sublist_cons.
  - destruct (erase_first c l); simplify_eq. apply sublist_skip. by apply IH.
Qed.

Lemma begin_removal_evolves (nd : Node) : node_evolves nd (begin_removal nd).
Proof. split; auto. Qed.

Lemma set_children_evolves (nd : Node) (cs : list ptr) :
  sublist cs (children_ nd) → node_evolves nd (set_children cs nd).
Proof. intros H. split; auto. Qed.

Lemma finish_removal_evolves (nd : Node) : node_evolves nd (finish_removal nd).
Proof. split; auto. Qed.

Section Remove_evolves.

Variable self : ptr → World → Outcome World.
Hypothesis self_evolves : ∀ n w w', self n w = Done w' → evolves w w'.

Lemma remove_children_evolves (n : ptr) (steps : nat) (it : option ptr) (w w' : World) :
  remove_children self n steps it w = Done w' → evolves w w'.
Proof.
  revert it w. induction steps as [|steps IH]; intros [child|] w H;
    simpl in H; simplify_eq; try reflexivity.
  run_inv H. destruct (iterator_valid _ _); [|done].
  etrans; [by eapply self_evolves|by eapply IH].
Qed.

Lemma unlink_from_parent_evolves (n parent : ptr) (w w' : World) :
  unlink_from_parent self n parent w = Done w' → evolves w w'.
Proof.
  unfold unlink_from_parent. intros H. run_inv H. apply node_at_Done in Hrun.
  destruct (erase_first n (children_ a)) as [cs|] eqn:Hcs; [|done].
  run_inv H.
  assert (evolves w (emit (EvChildErased parent n) (put_node parent (set_children cs a) w)))
    as Hstep.
  { etrans; [|apply evolves_emit].
    apply evolves_put_node with a; [done|].
    apply set_children_evolves. by eapply erase_first_sublist. }
  destruct (_ || _).
  - etrans; [exact Hstep|]. etrans; [apply evolves_emit|]. by eapply self_evolves.
  - by simplify_eq.
Qed.

Lemma unlink_from_parents_evolves (n : ptr) (all ps : list ptr) (w w' : World) :
  unlink_from_parents self n all ps w = Done w' → evolves w w'.
Proof.
  revert w. induction ps as [|p ps IH]; intros w H; simpl in H; simplify_eq.
  - reflexivity.
  - run_inv H. destruct (decide _); [|done].
    etrans; [by eapply unlink_from_parent_evolves|by eapply IH].
Qed.

Lemma remove_phase_children_evolves (n : ptr) (w w' : World) :
  remove_phase_children self n w = Done w' → evolves w w'.
Proof.
  unfold remove_phase_children. intros H. run_inv H. apply node_at_Done in Hrun.
  etrans; [|by eapply remove_children_evolves].
  apply evolves_put_node with a; [done|]. apply begin_removal_evolves.
Qed.

Lemma remove_phase_unlink_evolves (n : ptr) (w w' : World) :
  remove_phase_unlink self n w = Done w' → evolves w w'.
Proof.
  unfold remove_phase_unlink. intros H. run_inv H.
  destruct (driver_component_ a) as [d|].
  - by eapply evolves_StopDriver.
  - run_inv H. simplify_eq. apply node_at_Done in Hrun1.
    etrans; [by eapply unlink_from_parents_evolves|].
    apply evolves_put_node with a1; [done|]. apply finish_removal_evolves.
Qed.

Lemma Remove_body_evolves (n : ptr) (w w' : World) :
  Remove_body self n w = Done w' → evolves w w'.
Proof.
  unfold Remove_body. intros H. run_inv H.
  apply remove_phase_children_evolves in Hrun.
  destruct (negb _); [by simplify_eq|].
  etrans; [exact Hrun|]. by eapply remove_phase_unlink_evolves.
Qed.

End Remove_evolves.

Lemma Remove_evolves (fuel : nat) (n : ptr) (w w' : World) :
  Remove fuel n w = Done w' → evolves w w'.
Proof.
  revert n w w'. induction fuel as [|fuel IH]; intros n w w' H; [done|].
  simpl in H. by eapply Remove_body_evolves.
Qed.

(** ** Iterating over a list which is being erased from *)

(** The elements in front of [c]. *)
Fixpoint prefix_before (c : ptr) (l : list ptr) : list ptr :=
  match l with
  | [] => []
  | x :: l' => if decide (x = c) then [] else x :: prefix_before c l'
  end.

(** The elements an iterator has gone past. *)
Definition before (it : option ptr) (l : list ptr) : list ptr :=
  match it with
  | None => l
  | Some c => prefix_before c l
  end.

Lemma list_next_app (c : ptr) (pre suf : list ptr) :
  c ∉ pre → list_next c (pre ++ c :: suf) = head suf.
Proof.
  induction pre as [|x pre IH]; intros Hc; simpl.
  - by rewrite decide_True.
  - apply not_elem_of_cons in Hc as [Hne Hc].
    rewrite decide_False by done. by apply IH.
Qed.

Lemma prefix_before_app (c : ptr) (pre suf : list ptr) :
  c ∉ pre → prefix_before c (pre ++ c :: suf) = pre.
Proof.
  induction pre as [|x pre IH]; intros Hc; simpl.
  - by rewrite decide_True.
  - apply not_elem_of_cons in Hc as [Hne Hc].
    rewrite decide_False by done. f_equal. by apply IH.
Qed.

Lemma elem_of_split_first (c : ptr) (l : list ptr) :
  c ∈ l → ∃ pre suf, l = pre ++ c :: suf ∧ c ∉ pre.
Proof.
  induction l as [|x l IH]; intros Hc; [by apply elem_of_nil in Hc|].
  destruct (decide (x = c)) as [->|Hne].
  - exists [], l. split; [done|]. apply not_elem_of_nil.
  - apply elem_of_cons in Hc as [->|Hc]; [done|].
    destruct (IH Hc) as (pre & suf & -> & Hpre).
    exists (x :: pre), suf. split; [done|].
    apply not_elem_of_cons. split; [congruence|done].
Qed.

Lemma iterator_valid_next (c : ptr) (l : list ptr) :
  iterator_valid (list_next c l) l = true.
Proof.
  induction l as [|x l IH]; [done|]. simpl.
  destruct (decide (x = c)).
  - destruct l as [|y l]; [done|]. simpl.
    apply bool_decide_eq_true. right. left.
  - destruct (list_next c l) as [y|]; [|done]. simpl in *.
    apply bool_decide_eq_true. apply bool_decide_eq_true in IH. by right.
Qed.

(** After [++it] the iterator has gone past the element it was at. *)
Lemma before_next (c : ptr) (l : list ptr) :
  NoDup l → c ∈ l → before (list_next c l) l = prefix_before c l ++ [c].
Proof.
  intros Hnd Hc. destruct (elem_of_split_first c l Hc) as (pre & suf & -> & Hpre).
  rewrite list_next_app, prefix_before_app by done.
  destruct suf as [|y suf]; simpl; [done|].
  apply NoDup_app in Hnd as (_ & Hdisj & Hsuf).
  apply NoDup_cons in Hsuf as [Hcs _].
  replace (pre ++ c :: y :: suf) with ((pre ++ [c]) ++ y :: suf)
    by (by rewrite <- app_assoc).
  apply prefix_before_app. intros Hy. apply elem_of_app in Hy as [Hy|Hy].
  - apply (Hdisj y Hy). right. left.
  - apply list_elem_of_singleton in Hy as ->. apply Hcs. left.
Qed.

Lemma prefix_before_subseteq (c : ptr) (l : list ptr) : prefix_before c l ⊆ l.
Proof.
  induction l as [|x l IH]; simpl; [done|].
  destruct (decide (x = c)); [apply list_subseteq_nil|].
  intros y Hy. apply elem_of_cons in Hy as [->|Hy]; [left|right; by apply IH].
Qed.

(** Erasing elements takes nothing back in front of a valid iterator. *)
Lemma before_sublist (it : option ptr) (l l' : list ptr) :
  sublist l' l → NoDup l → iterator_valid it l' = true →
  before it l' ⊆ before it l.
Proof.
  intros Hsub Hnd Hvalid. destruct it as [c|]; simpl in *.
  - apply bool_decide_eq_true in Hvalid.
    induction Hsub as [|x l1 l2 Hsub IH|x l1 l2 Hsub IH]; simpl.
    + done.
    + apply NoDup_cons in Hnd as [_ Hnd].
      destruct (decide (x = c)); [done|].
      apply elem_of_cons in Hvalid as [->|Hvalid]; [done|].
      intros y Hy. apply elem_of_cons in Hy as [->|Hy]; [left|right; by apply IH].
    + apply NoDup_cons in Hnd as [Hx Hnd].
      destruct (decide (x = c)) as [->|].
      * exfalso. apply Hx. eapply elem_of_sublist; [exact Hvalid|exact Hsub].
      * intros y Hy. right. by apply IH.
  - intros y Hy. eapply elem_of_sublist; [exact Hy|exact Hsub].
Qed.

(** ** Nodes whose removal has come to rest *)

(** A node with nothing below it has asked its driver to stop, or has no
    driver and has let go of its parents and its bindings. *)
Definition quiescent (w : World) (nd : Node) : Prop :=
  match driver_component_ nd with
  | Some d => ∃ dc, drivers_ w !! d = Some dc ∧ stop_in_progress_ dc = true
  | None => parents_ nd = [] ∧ controller_ref_ nd = None ∧ node_ref_ nd = None
  end.

Definition at_rest (w : World) (nd : Node) : Prop :=
  driver_binder_ nd = None ∧ (children_ nd = [] → quiescent w nd).

(** [settled E w k n]: the nodes below [n], down to depth [k] at most, are
    all being removed, and those outside [E] are at rest.  [E] holds the nodes
    on which a call of [Remove] is under way. *)
Inductive settled (E : ptr → Prop) (w : World) : nat → ptr → Prop :=
| settled_node k n nd :
    heap w !! n = Some nd →
    removal_in_progress_ nd = true →
    NoDup (children_ nd) →
    (¬ E n → at_rest w nd) →
    (∀ c, c ∈ children_ nd → settled E w k c) →
    settled E w (S k) n.

Definition nobody : ptr → Prop := λ _, False.

(** Every node holds each of its children once. *)
Definition distinct_children (w : World) : Prop :=
  ∀ n nd, heap w !! n = Some nd → NoDup (children_ nd).

Lemma distinct_children_evolves (w w' : World) :
  evolves w w' → distinct_children w → distinct_children w'.
Proof.
  intros Hev Hd n nd' Hn.
  destruct (evolves_node_back _ _ _ _ Hev Hn) as (nd & Hnd & Hne).
  eapply sublist_NoDup; [by eapply Hd|apply (ne_children _ _ Hne)].
Qed.

Lemma settled_weaken (E E' : ptr → Prop) (w : World) (k : nat) (m : ptr) :
  (∀ x, E x → E' x) → settled E w k m → settled E' w k m.
Proof.
  intros HE H. induction H as [k n nd Hn Hr Hnd Hrest _ IH].
  econstructor; eauto.
Qed.

Lemma settled_deeper (E : ptr → Prop) (w : World) (k k' : nat) (m : ptr) :
  (k ≤ k')%nat → settled E w k m → settled E w k' m.
Proof.
  intros Hle H. revert k' Hle. induction H as [k n nd Hn Hr Hnd Hrest _ IH].
  intros [|k'] Hle; [lia|].
  econstructor; eauto. intros c Hc. apply IH; [done|lia].
Qed.

(** A store with the same nodes and no driver less far along. *)
Lemma settled_same_heap (E : ptr → Prop) (w w' : World) (k : nat) (m : ptr) :
  heap w' = heap w →
  (∀ d dc, drivers_ w !! d = Some dc → stop_in_progress_ dc = true →
     ∃ dc', drivers_ w' !! d = Some dc' ∧ stop_in_progress_ dc' = true) →
  settled E w k m → settled E w' k m.
Proof.
  intros Hheap Hdrivers H. induction H as [k n nd Hn Hr Hnd Hrest _ IH].
  econstructor; eauto; [by rewrite Hheap|].
  intros HE. destruct (Hrest HE) as [Hb Hq]. split; [done|].
  intros Hc. specialize (Hq Hc). unfold quiescent in *.
  destruct (driver_component_ nd) as [d|]; [|done].
  destruct Hq as (dc & Hdc & Hs). eauto.
Qed.

Lemma settled_emit (E : ptr → Prop) (e : Event) (w : World) (k : nat) (m : ptr) :
  settled E w k m → settled E (emit e w) k m.
Proof. apply settled_same_heap; [done|]. intros d dc Hd Hs. by exists dc. Qed.

Lemma settled_StopDriver (E : ptr → Prop) (d : cptr) (w w' : World) (k : nat) (m : ptr) :
  StopDriver d w = Done w' → settled E w k m → settled E w' k m.
Proof.
  intros H. unfold StopDriver in H. run_inv H.
  destruct (stop_in_progress_ a); simplify_eq; [done|].
  apply settled_same_heap; [done|].
  intros d' dc Hd Hs. simpl. destruct (decide (d = d')) as [<-|Hne].
  - rewrite lookup_insert_eq. by eexists.
  - rewrite lookup_insert_ne by done. by exists dc.
Qed.

(** A node is written with no child more and its flag not lowered: what was
    settled stays so, except at that node. *)
Lemma settled_put_node (E : ptr → Prop) (w : World) (n : ptr) (nd nd' : Node)
    (k : nat) (m : ptr) :
  heap w !! n = Some nd →
  (removal_in_progress_ nd = true → removal_in_progress_ nd' = true) →
  sublist (children_ nd') (children_ nd) →
  settled E w k m → settled (λ x, E x ∨ x = n) (put_node n nd' w) k m.
Proof.
  intros Hn Hflag Hsub H. induction H as [k x xd Hx Hr Hnd Hrest _ IH].
  destruct (decide (x = n)) as [->|Hne].
  - simplify_eq. apply settled_node with nd'.
    + unfold put_node. simpl. apply lookup_insert_eq.
    + by apply Hflag.
    + eapply sublist_NoDup; [exact Hnd|exact Hsub].
    + intros HE. exfalso. apply HE. by right.
    + intros c Hc. apply IH. eapply elem_of_sublist; [exact Hc|exact Hsub].
  - apply settled_node with xd; try done.
    + unfold put_node. simpl. by rewrite lookup_insert_ne.
    + intros HE. apply Hrest. intros HEx. apply HE. by left.
Qed.

(** A node which is at rest need not be excepted. *)
Lemma settled_at_rest (E : ptr → Prop) (w : World) (n : ptr) (k : nat) (m : ptr) :
  (∀ nd, heap w !! n = Some nd → removal_in_progress_ nd = true → at_rest w nd) →
  settled (λ x, E x ∨ x = n) w k m → settled (λ x, E x ∧ x ≠ n) w k m.
Proof.
  intros Hrest H. induction H as [k x xd Hx Hr Hnd Hrestx _ IH].
  apply settled_node with xd; try done.
  intros HE. destruct (decide (x = n)) as [->|Hne].
  - by apply Hrest.
  - apply Hrestx. intros [HEx|?]; [|done]. apply HE. by split.
Qed.

(** A settled node stays as it is under [Remove], whatever the fuel above
    its depth. *)
Lemma remove_children_settled (self : ptr → World → Outcome World) (n : ptr) (w : World)
    (nd : Node) (pre suf : list ptr) (steps : nat) :
  heap w !! n = Some nd → children_ nd = pre ++ suf → NoDup (children_ nd) →
  (length suf ≤ steps)%nat →
  (∀ c, c ∈ children_ nd → self c w = Done w) →
  remove_children self n steps (head suf) w = Done w.
Proof.
  intros Hn Hl Hnd Hsteps Hself. revert pre steps Hl Hsteps.
  induction suf as [|c suf IH]; intros pre steps Hl Hsteps.
  - by destruct steps.
  - destruct steps as [|steps]; [simpl in Hsteps; lia|]. simpl.
    rewrite (proj2 (node_at_Done _ _ _) Hn). simpl.
    rewrite Hself by (rewrite Hl; apply elem_of_app; right; left). simpl.
    rewrite (proj2 (node_at_Done _ _ _) Hn). simpl.
    rewrite iterator_valid_next.
    assert (c ∉ pre) as Hc.
    { rewrite Hl in Hnd. apply NoDup_app in Hnd as (_ & Hdisj & _).
      intros Hin. apply (Hdisj c Hin). left. }
    rewrite Hl, list_next_app by done.
    apply (IH (pre ++ [c])).
    + by rewrite <- app_assoc.
    + simpl in Hsteps. lia.
Qed.

Lemma begin_removal_same (nd : Node) :
  removal_in_progress_ nd = true → driver_binder_ nd = None → begin_removal nd = nd.
Proof. destruct nd. simpl. by intros -> ->. Qed.

Lemma finish_removal_same (nd : Node) :
  parents_ nd = [] → controller_ref_ nd = None → node_ref_ nd = None →
  finish_removal nd = nd.
Proof. destruct nd. simpl. by intros -> -> ->. Qed.

Lemma put_node_same (n : ptr) (nd : Node) (w : World) :
  heap w !! n = Some nd → put_node n nd w = w.
Proof.
  intros Hn. unfold put_node. rewrite insert_id by done. apply with_heap_same.
Qed.

Lemma Remove_settled (fuel k : nat) (n : ptr) (w : World) :
  settled nobody w k n → (k ≤ fuel)%nat → Remove fuel n w = Done w.
Proof.
  intros H. revert fuel. induction H as [k n nd Hn Hr Hnd Hrest _ IH].
  intros [|fuel] Hle; [lia|].
  destruct (Hrest (λ x, x)) as [Hb Hq].
  simpl. unfold Remove_body, remove_phase_children.
  rewrite (proj2 (node_at_Done _ _ _) Hn). simpl.
  rewrite begin_removal_same, put_node_same by done.
  rewrite (remove_children_settled (Remove fuel) n w nd [] (children_ nd));
    [|done|done|done|done|by (intros c Hc; apply IH; [done|lia])].
  simpl. rewrite (proj2 (node_at_Done _ _ _) Hn). simpl.
  destruct (children_ nd) as [|c cs] eqn:Hcs; [|done]. simpl.
  unfold remove_phase_unlink.
  rewrite (proj2 (node_at_Done _ _ _) Hn). simpl.
  specialize (Hq eq_refl). unfold quiescent in Hq.
  destruct (driver_component_ nd) as [d|].
  - destruct Hq as (dc & Hdc & Hs). unfold StopDriver.
    rewrite (proj2 (driver_at_Done _ _ _) Hdc). simpl. by rewrite Hs.
  - destruct Hq as (Hp & Hc & Hr'). rewrite Hp. simpl.
    rewrite (proj2 (node_at_Done _ _ _) Hn). simpl.
    by rewrite finish_removal_same, put_node_same.
Qed.

Lemma StopDriver_stops (d : cptr) (w w' : World) :
  StopDriver d w = Done w' →
  heap w' = heap w ∧ ∃ dc, drivers_ w' !! d = Some dc ∧ stop_in_progress_ dc = true.
Proof.
  unfold StopDriver. intros H. run_inv H. apply driver_at_Done in Hrun.
  destruct (stop_in_progress_ a) eqn:Hs; simplify_eq.
  - split; [done|]. by exists a.
  - split; [done|]. simpl. rewrite lookup_insert_eq. by eexists.
Qed.

(** A child is erased from a parent which is not left waiting with no child:
    what was settled stays so, the parent included. *)
Lemma settled_erase_quiet (E : ptr → Prop) (w : World) (p : ptr) (pd : Node)
    (cs : list ptr) (k : nat) (m : ptr) :
  heap w !! p = Some pd → sublist cs (children_ pd) →
  (removal_in_progress_ pd = true → cs ≠ []) →
  settled E w k m → settled E (put_node p (set_children cs pd) w) k m.
Proof.
  intros Hp Hsub Hcs H. induction H as [k x xd Hx Hr Hnd Hrest _ IH].
  destruct (decide (x = p)) as [->|Hne].
  - simplify_eq. apply settled_node with (set_children cs pd).
    + unfold put_node. simpl. apply lookup_insert_eq.
    + done.
    + eapply sublist_NoDup; [exact Hnd|exact Hsub].
    + intros HE. destruct (Hrest HE) as [Hb _]. split; [done|].
      simpl. intros ->. by destruct (Hcs Hr).
    + intros c Hc. apply IH. eapply elem_of_sublist; [exact Hc|exact Hsub].
  - apply settled_node with xd; try done.
    unfold put_node. simpl. by rewrite lookup_insert_ne.
Qed.

Section Remove_settles.

Variable self : ptr → World → Outcome World.
Variable depth : nat.

Hypothesis self_evolves : ∀ n w w', self n w = Done w' → evolves w w'.

(** A call leaves settled what was settled, and brings its own node to
    rest. *)
Hypothesis self_keeps : ∀ n w w' E k m,
  distinct_children w → self n w = Done w' →
  settled E w k m → settled (λ x, E x ∧ x ≠ n) w' k m.

Hypothesis self_settles : ∀ n w w',
  distinct_children w → self n w = Done w' → settled nobody w' depth n.

Lemma self_keeps_all (n : ptr) (w w' : World) (E : ptr → Prop) (k : nat) (m : ptr) :
  distinct_children w → self n w = Done w' → settled E w k m → settled E w' k m.
Proof.
  intros Hd Hrun H. eapply settled_weaken; [|by eapply self_keeps].
  by intros x [? _].
Qed.

Lemma remove_children_keeps (n : ptr) (steps : nat) (it : option ptr) (w w' : World)
    (E : ptr → Prop) (k : nat) (m : ptr) :
  distinct_children w → remove_children self n steps it w = Done w' →
  settled E w k m → settled E w' k m.
Proof.
  revert it w. induction steps as [|steps IH]; intros [child|] w Hd H Hs;
    simpl in H; simplify_eq; try done.
  run_inv H. destruct (iterator_valid _ _); [|done].
  eapply IH; [|exact H|by eapply self_keeps_all].
  eapply distinct_children_evolves; [by eapply self_evolves|done].
Qed.

Lemma remove_children_settles (n : ptr) (steps : nat) (it : option ptr) (w w' : World)
    (nd : Node) :
  distinct_children w → heap w !! n = Some nd →
  iterator_valid it (children_ nd) = true →
  (∀ x, x ∈ before it (children_ nd) → settled nobody w depth x) →
  remove_children self n steps it w = Done w' →
  ∃ nd', heap w' !! n = Some nd' ∧ ∀ x, x ∈ children_ nd' → settled nobody w' depth x.
Proof.
  revert it w nd. induction steps as [|steps IH]; intros [child|] w nd Hd Hn Hvalid Hbefore H;
    simpl in H; simplify_eq; try (by exists nd).
  run_inv H. apply node_at_Done in Hrun, Hrun1. simplify_eq.
  destruct (iterator_valid _ (children_ a1)) eqn:Hvalid'; [|done].
  pose proof (self_evolves _ _ _ Hrun0) as Hev.
  destruct (evolves_node _ _ _ _ Hev Hn) as (nd1 & Hn1 & Hne). simplify_eq.
  simpl in Hvalid. apply bool_decide_eq_true in Hvalid.
  eapply IH; [| exact Hrun1 | exact Hvalid' | | exact H].
  - by eapply distinct_children_evolves.
  - intros x Hx.
    apply (before_sublist _ _ _ (ne_children _ _ Hne) (Hd _ _ Hn) Hvalid') in Hx.
    rewrite before_next in Hx by (by eauto).
    apply elem_of_app in Hx as [Hx|Hx].
    + eapply self_keeps_all; [done|exact Hrun0|]. by apply Hbefore.
    + apply list_elem_of_singleton in Hx as ->. by eapply self_settles.
Qed.

Lemma unlink_from_parent_keeps (n parent : ptr) (w w' : World)
    (E : ptr → Prop) (k : nat) (m : ptr) :
  distinct_children w → unlink_from_parent self n parent w = Done w' →
  settled E w k m → settled E w' k m.
Proof.
  unfold unlink_from_parent. intros Hd H Hs. run_inv H. apply node_at_Done in Hrun.
  destruct (erase_first n (children_ a)) as [cs|] eqn:Hcs; [|done].
  pose proof (erase_first_sublist _ _ _ Hcs) as Hsub.
  run_inv H.
  assert (distinct_children
            (emit (EvParentRemove n parent)
               (emit (EvChildErased parent n) (put_node parent (set_children cs a) w))))
    as Hd1.
  { eapply distinct_children_evolves; [|exact Hd].
    etrans; [|apply evolves_emit]. etrans; [|apply evolves_emit].
    apply evolves_put_node with a; [done|]. by apply set_children_evolves. }
  destruct (removal_in_progress_ a && empty cs) eqn:Hwait; simpl in H.
  - assert (settled (λ x, (E x ∨ x = parent) ∧ x ≠ parent) w' k m) as Hs'.
    { eapply self_keeps; [exact Hd1|exact H|].
      do 2 apply settled_emit. by eapply settled_put_node. }
    eapply settled_weaken; [|exact Hs'].
    intros x [[?|?] ?]; [done|by simplify_eq].
  - assert (settled E (put_node parent (set_children cs a) w) k m) as Hq.
    { apply settled_erase_quiet; try done.
      intros Hr ->. by rewrite Hr in Hwait. }
    destruct (1 <? length (parents_ a0))%nat.
    + eapply self_keeps_all; [exact Hd1|exact H|]. by do 2 apply settled_emit.
    + simplify_eq. by apply settled_emit.
Qed.

Lemma unlink_from_parents_keeps (n : ptr) (all ps : list ptr) (w w' : World)
    (E : ptr → Prop) (k : nat) (m : ptr) :
  distinct_children w → unlink_from_parents self n all ps w = Done w' →
  settled E w k m → settled E w' k m.
Proof.
  revert w. induction ps as [|p ps IH]; intros w Hd H Hs; simpl in H; simplify_eq; [done|].
  run_inv H. destruct (decide _); [|done].
  eapply IH; [|exact H|by eapply unlink_from_parent_keeps].
  eapply distinct_children_evolves; [|exact Hd].
  by eapply unlink_from_parent_evolves.
Qed.

(** When the call returns, its node is at rest. *)
Lemma Remove_body_at_rest (n : ptr) (w w' : World) :
  Remove_body self n w = Done w' →
  ∃ nd', heap w' !! n = Some nd' ∧ removal_in_progress_ nd' = true ∧ at_rest w' nd'.
Proof.
  intros H. apply Remove_body_Done in H as (w1 & nd1 & Hch & Hn1 & Hend).
  apply remove_phase_children_Done in Hch as (nd & Hn & Hloop).
  pose proof (remove_children_evolves self self_evolves _ _ _ _ _ Hloop) as Hev1.
  destruct (evolves_node _ _ n (begin_removal nd) Hev1) as (nd1' & Hn1' & Hne1).
  { unfold put_node. simpl. apply lookup_insert_eq. }
  simplify_eq.
  pose proof (ne_binder _ _ Hne1 eq_refl) as Hb.
  pose proof (ne_removal _ _ Hne1 eq_refl) as Hr.
  destruct Hend as [[Hcs ->]|[Hcs Hunlink]].
  - exists nd1. split; [done|]. split; [done|]. by split.
  - apply remove_phase_unlink_Done in Hunlink as (nd1' & Hn1' & Hcase). simplify_eq.
    destruct Hcase as [(d & Hdc & Hstop)|(Hdc & w2 & nd2 & Hloop2 & Hn2 & ->)].
    + destruct (StopDriver_stops _ _ _ Hstop) as (Hheap & dc & Hdcs & Hs).
      exists nd1. rewrite Hheap. split; [done|]. split; [done|]. split; [done|].
      intros _. unfold quiescent. rewrite Hdc. by exists dc.
    + pose proof (unlink_from_parents_evolves self self_evolves _ _ _ _ _ Hloop2) as Hev2.
      destruct (evolves_node _ _ _ _ Hev2 Hn1) as (nd2' & Hn2' & Hne2). simplify_eq.
      exists (finish_removal nd2). split; [apply lookup_insert_eq|].
      split; [by apply (ne_removal _ _ Hne2)|].
      split; [by apply (ne_binder _ _ Hne2)|].
      intros _. unfold quiescent. simpl.
      by rewrite (ne_component _ _ Hne2), Hdc.
Qed.

Lemma Remove_body_keeps (n : ptr) (w w' : World) (E : ptr → Prop) (k : nat) (m : ptr) :
  distinct_children w → Remove_body self n w = Done w' →
  settled E w k m → settled (λ x, E x ∧ x ≠ n) w' k m.
Proof.
  intros Hd H Hs.
  destruct (Remove_body_at_rest _ _ _ H) as (nd' & Hn' & _ & Hrest).
  apply settled_at_rest; [intros ? ? _; by simplify_eq|].
  apply Remove_body_Done in H as (w1 & nd1 & Hch & Hn1 & Hend).
  pose proof (remove_phase_children_evolves self self_evolves _ _ _ Hch) as Hev.
  apply remove_phase_children_Done in Hch as (nd & Hn & Hloop).
  assert (settled (λ x, E x ∨ x = n) w1 k m) as Hs1.
  { eapply remove_children_keeps; [|exact Hloop|].
    - eapply distinct_children_evolves; [|exact Hd].
      apply evolves_put_node with nd; [done|]. apply begin_removal_evolves.
    - by eapply settled_put_node. }
  destruct Hend as [[Hcs ->]|[Hcs Hunlink]]; [done|].
  apply remove_phase_unlink_Done in Hunlink as (nd1' & Hn1' & Hcase). simplify_eq.
  destruct Hcase as [(d & Hdc & Hstop)|(Hdc & w2 & nd2 & Hloop2 & Hn2 & ->)].
  - by eapply settled_StopDriver.
  - assert (settled (λ x, (E x ∨ x = n) ∨ x = n) (put_node n (finish_removal nd2) w2) k m)
      as Hs'.
    { eapply settled_put_node; [exact Hn2|done|done|].
      eapply unlink_from_parents_keeps; [|exact Hloop2|exact Hs1].
      by eapply distinct_children_evolves. }
    eapply settled_weaken; [|exact Hs'].
    intros x [?|?]; [done|by right].
Qed.

Lemma Remove_body_settles (n : ptr) (w w' : World) :
  distinct_children w → Remove_body self n w = Done w' → settled nobody w' (S depth) n.
Proof.
  intros Hd H.
  destruct (Remove_body_at_rest _ _ _ H) as (nd' & Hn' & Hr' & Hrest).
  pose proof (distinct_children_evolves _ _ (Remove_body_evolves self self_evolves _ _ _ H) Hd)
    as Hd'.
  apply settled_node with nd'; [done|done|by eapply Hd'|done|].
  apply Remove_body_Done in H as (w1 & nd1 & Hch & Hn1 & Hend).
  apply remove_phase_children_Done in Hch as (nd & Hn & Hloop).
  destruct (remove_children_settles n (length (children_ nd)) (head (children_ nd))
              (put_node n (begin_removal nd) w) w1 (begin_removal nd))
    as (nd1' & Hn1' & Hch).
  { eapply distinct_children_evolves; [|exact Hd].
    apply evolves_put_node with nd; [done|]. apply begin_removal_evolves. }
  { unfold put_node. simpl. apply lookup_insert_eq. }
  { simpl. destruct (children_ nd); [done|]. simpl. apply bool_decide_eq_true. left. }
  { simpl. destruct (children_ nd) as [|c cs]; simpl; [by intros x ?%elem_of_nil|].
    rewrite decide_True by done. by intros x ?%elem_of_nil. }
  { done. }
  simplify_eq.
  destruct Hend as [[Hcs ->]|[Hcs Hunlink]].
  - by simplify_eq.
  - (* nothing is left below: the node ends without children *)
    assert (children_ nd' = []) as ->; [|by intros x ?%elem_of_nil].
    assert (evolves w1 w') as Hev2 by (by eapply remove_phase_unlink_evolves).
    destruct (evolves_node _ _ _ _ Hev2 Hn1) as (nd3 & Hn3 & Hne3). simplify_eq.
    pose proof (ne_children _ _ Hne3) as Hsub. rewrite Hcs in Hsub.
    by apply sublist_nil_r in Hsub.
Qed.

End Remove_settles.

Lemma Remove_keeps_and_settles (fuel : nat) :
  (∀ n w w' E k m, distinct_children w → Remove fuel n w = Done w' →
     settled E w k m → settled (λ x, E x ∧ x ≠ n) w' k m)
  ∧ (∀ n w w', distinct_children w → Remove fuel n w = Done w' → settled nobody w' fuel n).
Proof.
  induction fuel as [|fuel [IHkeeps IHsettles]]; [split; intros; discriminate|].
  split.
  - intros n w w' E k m Hd H. simpl in H.
    eapply Remove_body_keeps; [apply Remove_evolves|exact IHkeeps|exact Hd|exact H].
  - intros n w w' Hd H. simpl in H.
    eapply Remove_body_settles;
      [apply Remove_evolves|exact IHkeeps|exact IHsettles|exact Hd|exact H].
Qed.

(** A second call of [Remove], with at least the fuel of the first, returns
    the store it was given. *)
Lemma Remove_again (fuel fuel' : nat) (n : ptr) (w w' : World) :
  distinct_children w → Remove fuel n w = Done w' → (fuel ≤ fuel')%nat →
  Remove fuel' n w' = Done w'.
Proof.
  intros Hd H Hle. eapply Remove_settled; [|exact Hle].
  by eapply (proj2 (Remove_keeps_and_settles fuel)).
Qed.

(** ** Induction on the steps of [Remove] *)

Section Remove_induction.

(** [Inv] is what the steps may rely on, [P] is what they establish. *)
Variable Inv : World → Prop.
Variable P : World → World → Prop.

Hypothesis Inv_evolves : ∀ w w', evolves w w' → Inv w → Inv w'.
Hypothesis P_refl : ∀ w, P w w.
Hypothesis P_trans : ∀ w1 w2 w3,
  evolves w1 w2 → evolves w2 w3 → P w1 w2 → P w2 w3 → P w1 w3.
Hypothesis P_begin : ∀ n nd w,
  heap w !! n = Some nd → P w (put_node n (begin_removal nd) w).
Hypothesis P_stop : ∀ n nd d w w',
  heap w !! n = Some nd → children_ nd = [] → driver_component_ nd = Some d →
  StopDriver d w = Done w' → P w w'.
Hypothesis P_erase : ∀ n nd p pd cs w (notify : bool),
  Inv w →
  heap w !! n = Some nd → children_ nd = [] → driver_component_ nd = None →
  heap w !! p = Some pd → erase_first n (children_ pd) = Some cs →
  let w1 := emit (EvChildErased p n) (put_node p (set_children cs pd) w) in
  P w (if notify then emit (EvParentRemove n p) w1 else w1).
Hypothesis P_finish : ∀ n nd w,
  heap w !! n = Some nd → children_ nd = [] → driver_component_ nd = None →
  P w (put_node n (finish_removal nd) w).

Section body.

Variable self : ptr → World → Outcome World.
Hypothesis self_evolves : ∀ n w w', self n w = Done w' → evolves w w'.
Hypothesis self_P : ∀ n w w', Inv w → self n w = Done w' → P w w'.

Lemma remove_children_P (n : ptr) (steps : nat) (it : option ptr) (w w' : World) :
  Inv w → remove_children self n steps it w = Done w' → P w w'.
Proof.
  revert it w. induction steps as [|steps IH]; intros [child|] w Hd H;
    try (simpl in H; simplify_eq; by apply P_refl).
  apply remove_children_step in H as (nd & w1 & nd1 & Hn & Hcall & Hn1 & Hv & Hrest).
  pose proof (self_evolves _ _ _ Hcall) as Hev.
  eapply P_trans; [exact Hev|by eapply remove_children_evolves|by eapply self_P|].
  apply (IH _ _ (Inv_evolves _ _ Hev Hd) Hrest).
Qed.

(** In the loop over the parents the node has no child and no driver. *)
Definition unlinking (n : ptr) (w : World) : Prop :=
  ∃ nd, heap w !! n = Some nd ∧ children_ nd = [] ∧ driver_component_ nd = None.

Lemma unlinking_evolves (n : ptr) (w w' : World) :
  evolves w w' → unlinking n w → unlinking n w'.
Proof.
  intros Hev (nd & Hn & Hcs & Hdc).
  destruct (evolves_node _ _ _ _ Hev Hn) as (nd' & Hn' & Hne).
  exists nd'. split; [done|]. split.
  - pose proof (ne_children _ _ Hne) as Hsub. rewrite Hcs in Hsub.
    by apply sublist_nil_r in Hsub.
  - by rewrite (ne_component _ _ Hne).
Qed.

Lemma unlink_from_parent_P (n parent : ptr) (w w' : World) :
  Inv w → unlinking n w →
  unlink_from_parent self n parent w = Done w' → P w w'.
Proof.
  intros Hd (nd & Hn & Hcs & Hdc) H.
  apply unlink_from_parent_Done in H as (pd & cs & nd1 & Hp & Herase & Hn1 & Hcase).
  pose proof (erase_first_sublist _ _ _ Herase) as Hsub.
  assert (evolves w (emit (EvChildErased parent n) (put_node parent (set_children cs pd) w)))
    as Hev1.
  { etrans; [|apply evolves_emit].
    apply evolves_put_node with pd; [done|]. by apply set_children_evolves. }
  destruct (_ || _).
  - eapply P_trans; [| |apply (P_erase n nd parent pd cs w true); done|].
    + etrans; [exact Hev1|apply evolves_emit].
    + by eapply self_evolves.
    + eapply self_P; [|exact Hcase]. eapply Inv_evolves; [|exact Hd].
      etrans; [exact Hev1|apply evolves_emit].
  - subst w'. by apply (P_erase n nd parent pd cs w false).
Qed.

Lemma unlink_from_parents_P (n : ptr) (all ps : list ptr) (w w' : World) :
  Inv w → unlinking n w →
  unlink_from_parents self n all ps w = Done w' → P w w'.
Proof.
  revert w. induction ps as [|p ps IH]; intros w Hd Hu H.
  - simpl in H. simplify_eq. apply P_refl.
  - apply unlink_from_parents_step in H as (w1 & nd & Hturn & Hn & _ & Hrest).
    pose proof (unlink_from_parent_evolves self self_evolves _ _ _ _ Hturn) as Hev.
    eapply P_trans; [exact Hev|by eapply unlink_from_parents_evolves| |].
    + by eapply unlink_from_parent_P.
    + apply IH; [by eapply Inv_evolves|by eapply unlinking_evolves|done].
Qed.

Lemma Remove_body_P (n : ptr) (w w' : World) :
  Inv w → Remove_body self n w = Done w' → P w w'.
Proof.
  intros Hd H. apply Remove_body_Done in H as (w1 & nd1 & Hch & Hn1 & Hend).
  pose proof (remove_phase_children_evolves self self_evolves _ _ _ Hch) as Hev.
  pose proof (Inv_evolves _ _ Hev Hd) as Hd1.
  assert (P w w1) as HP1.
  { apply remove_phase_children_Done in Hch as (nd & Hn & Hloop).
    assert (evolves w (put_node n (begin_removal nd) w)) as Hev0
      by (apply evolves_put_node with nd; [done|apply begin_removal_evolves]).
    eapply P_trans; [exact Hev0|by eapply remove_children_evolves|by apply P_begin|].
    eapply remove_children_P; [|exact Hloop]. by eapply Inv_evolves. }
  destruct Hend as [[Hcs ->]|[Hcs Hunlink]]; [done|].
  eapply P_trans; [exact Hev|by eapply remove_phase_unlink_evolves|exact HP1|].
  apply remove_phase_unlink_Done in Hunlink as (nd1' & Hn1' & Hcase). simplify_eq.
  destruct Hcase as [(d & Hdc & Hstop)|(Hdc & w2 & nd2 & Hloop2 & Hn2 & ->)].
  - by eapply P_stop.
  - assert (unlinking n w1) as Hu by (by exists nd1).
    pose proof (unlink_from_parents_evolves self self_evolves _ _ _ _ _ Hloop2) as Hev2.
    destruct (unlinking_evolves _ _ _ Hev2 Hu) as (nd2' & Hn2' & Hcs2 & Hdc2). simplify_eq.
    eapply P_trans; [exact Hev2| |by eapply unlink_from_parents_P|by apply P_finish].
    apply evolves_put_node with nd2; [done|apply finish_removal_evolves].
Qed.

End body.

Lemma Remove_P (fuel : nat) (n : ptr) (w w' : World) :
  Inv w → Remove fuel n w = Done w' → P w w'.
Proof.
  revert n w w'. induction fuel as [|fuel IH]; intros n w w' Hd H; [done|].
  simpl in H. eapply Remove_body_P; [apply Remove_evolves|exact IH|exact Hd|exact H].
Qed.

End Remove_induction.

(** ** What a removal does at most once *)

Fixpoint occurs (f : Event → bool) (t : list Event) : nat :=
  match t with
  | [] => 0
  | e :: t' => (if f e then 1 else 0) + occurs f t'
  end.

Definition is_erase (p n : ptr) (e : Event) : bool :=
  match e with
  | EvChildErased p' n' => bool_decide (p' = p) && bool_decide (n' = n)
  | _ => false
  end.

Definition is_notify (n p : ptr) (e : Event) : bool :=
  match e with
  | EvParentRemove n' p' => bool_decide (p' = p) && bool_decide (n' = n)
  | _ => false
  end.

Definition is_stop (d : cptr) (e : Event) : bool :=
  match e with
  | EvDriverStop d' => bool_decide (d' = d)
  | _ => false
  end.

(** [n] is among the children of [p]. *)
Definition is_child (w : World) (p n : ptr) : bool :=
  match heap w !! p with
  | Some pd => bool_decide (n ∈ children_ pd)
  | None => false
  end.

(** The driver [d] is there and has not been asked to stop. *)
Definition can_stop (w : World) (d : cptr) : bool :=
  match drivers_ w !! d with
  | Some dc => negb (stop_in_progress_ dc)
  | None => false
  end.

(** From [w] to [w'] every driver has been sent [Stop] at most once, and
    only one which had not been asked before; a driver which has been asked
    cannot be asked again. *)
Record stopped_once (w w' : World) : Prop := mk_stopped_once {
  so_events : ∃ new, trace w' = trace w ++ new
    ∧ ∀ d, (occurs (is_stop d) new ≤ 1)%nat
           ∧ (occurs (is_stop d) new = 1%nat →
              can_stop w d = true ∧ can_stop w' d = false);
  so_drivers : ∀ d, can_stop w d = false → can_stop w' d = false;
}.

(** From [w] to [w'] every node has been erased from every parent at most
    once, and it was a child before and is none after; a parent has been
    called on behalf of a child at most as often as the child has been erased
    from it; and children do not come back. *)
Record unlinked_once (w w' : World) : Prop := mk_unlinked_once {
  uo_events : ∃ new, trace w' = trace w ++ new
    ∧ ∀ p n, (occurs (is_erase p n) new ≤ 1)%nat
             ∧ (occurs (is_notify n p) new ≤ occurs (is_erase p n) new)%nat
             ∧ (occurs (is_erase p n) new = 1%nat →
                is_child w p n = true ∧ is_child w' p n = false);
  uo_children : ∀ p n, is_child w p n = false → is_child w' p n = false;
}.

Lemma occurs_app (f : Event → bool) (t1 t2 : list Event) :
  occurs f (t1 ++ t2) = (occurs f t1 + occurs f t2)%nat.
Proof. induction t1 as [|e t1 IH]; simpl; [done|]. rewrite IH. lia. Qed.

(** Steps which send nothing and lower no flag. *)
Lemma stopped_once_quiet (w w' : World) :
  trace w' = trace w → (∀ d, can_stop w d = false → can_stop w' d = false) →
  stopped_once w w'.
Proof.
  intros Ht Hd. split; [|done].
  exists []. split; [by rewrite app_nil_r|].
  intros d. simpl. split; [lia|discriminate].
Qed.

Lemma stopped_once_trans (w1 w2 w3 : World) :
  stopped_once w1 w2 → stopped_once w2 w3 → stopped_once w1 w3.
Proof.
  intros [(new1 & Ht1 & Hs1) Hd1] [(new2 & Ht2 & Hs2) Hd2].
  split; [|by auto].
  exists (new1 ++ new2). split; [by rewrite Ht2, Ht1, app_assoc|].
  intros d. rewrite !occurs_app.
  destruct (Hs1 d) as (Hle1 & Hc1'), (Hs2 d) as (Hle2 & Hc2').
  destruct (decide (occurs (is_stop d) new1 = 1%nat)) as [Hk1|Hk1].
  - destruct (Hc1' Hk1) as [Hin Hout].
    assert (occurs (is_stop d) new2 = 0%nat) as Hk2.
    { destruct (decide (occurs (is_stop d) new2 = 1%nat)) as [Hk2|]; [|lia].
      destruct (Hc2' Hk2) as [Hin2 _]. congruence. }
    split; [lia|]. intros _. split; [done|by apply Hd2].
  - assert (occurs (is_stop d) new1 = 0%nat) as Hk0 by lia.
    split; [lia|]. intros Hk.
    assert (occurs (is_stop d) new2 = 1%nat) as Hk2 by lia.
    destruct (Hc2' Hk2) as [Hin2 Hout2]. split; [|done].
    destruct (can_stop w1 d) eqn:Hin1; [done|]. by rewrite (Hd1 _ Hin1) in Hin2.
Qed.

Lemma stopped_once_emit (e : Event) (w : World) :
  (∀ d, is_stop d e = false) → stopped_once w (emit e w).
Proof.
  intros He. split; [|done].
  exists [e]. split; [done|]. intros d. simpl. rewrite He. split; [lia|lia].
Qed.

Lemma stopped_once_StopDriver (d : cptr) (w w' : World) :
  StopDriver d w = Done w' → stopped_once w w'.
Proof.
  unfold StopDriver. intros H. run_inv H. apply driver_at_Done in Hrun.
  destruct (stop_in_progress_ a) eqn:Hs; simplify_eq; [by apply stopped_once_quiet|].
  split.
  - exists [EvDriverStop d]. split; [done|].
    intros d'. simpl. destruct (bool_decide (d = d')) eqn:Hd; simpl; [|split; [lia|lia]].
    apply bool_decide_eq_true in Hd as <-. split; [lia|]. intros _.
    unfold can_stop. simpl. by rewrite Hrun, Hs, lookup_insert_eq.
  - intros d'. unfold can_stop. simpl. destruct (decide (d = d')) as [<-|Hne].
    + by rewrite lookup_insert_eq.
    + by rewrite lookup_insert_ne.
Qed.

Lemma Remove_stopped_once (fuel : nat) (n : ptr) (w w' : World) :
  Remove fuel n w = Done w' → stopped_once w w'.
Proof.
  intros H. apply (Remove_P (λ _, True) stopped_once) with fuel n; try done.
  - intros w0. by apply stopped_once_quiet.
  - intros w1 w2 w3 _ _. apply stopped_once_trans.
  - intros x nd w0 Hx. by apply stopped_once_quiet.
  - intros x nd d w0 w0' _ _ _. apply stopped_once_StopDriver.
  - intros x nd p pd cs w0 notify _ _ _ _ Hp Herase. simpl.
    assert (stopped_once w0
              (emit (EvChildErased p x) (put_node p (set_children cs pd) w0))) as H1.
    { eapply stopped_once_trans; [|by apply stopped_once_emit].
      by apply stopped_once_quiet. }
    destruct notify; [|done].
    eapply stopped_once_trans; [exact H1|by apply stopped_once_emit].
  - intros x nd w0 Hx _ _. by apply stopped_once_quiet.
Qed.

Lemma unlinked_once_quiet (w w' : World) :
  trace w' = trace w →
  (∀ p n, is_child w p n = false → is_child w' p n = false) →
  unlinked_once w w'.
Proof.
  intros Ht Hc. split; [|done].
  exists []. split; [by rewrite app_nil_r|].
  intros p n. simpl. split; [lia|split; [lia|discriminate]].
Qed.

Lemma unlinked_once_trans (w1 w2 w3 : World) :
  unlinked_once w1 w2 → unlinked_once w2 w3 → unlinked_once w1 w3.
Proof.
  intros [(new1 & Ht1 & He1) Hc1] [(new2 & Ht2 & He2) Hc2].
  split; [|by auto].
  exists (new1 ++ new2). split; [by rewrite Ht2, Ht1, app_assoc|].
  intros p n. rewrite !occurs_app.
  destruct (He1 p n) as (Hle1 & Hn1 & Hc1'), (He2 p n) as (Hle2 & Hn2 & Hc2').
  destruct (decide (occurs (is_erase p n) new1 = 1%nat)) as [Hk1|Hk1].
  - destruct (Hc1' Hk1) as [Hin Hout].
    assert (occurs (is_erase p n) new2 = 0%nat) as Hk2.
    { destruct (decide (occurs (is_erase p n) new2 = 1%nat)) as [Hk2|]; [|lia].
      destruct (Hc2' Hk2) as [Hin2 _]. congruence. }
    split; [lia|]. split; [lia|]. intros _. split; [done|by apply Hc2].
  - assert (occurs (is_erase p n) new1 = 0%nat) as Hk0 by lia.
    split; [lia|]. split; [lia|]. intros Hk.
    assert (occurs (is_erase p n) new2 = 1%nat) as Hk2 by lia.
    destruct (Hc2' Hk2) as [Hin2 Hout2]. split; [|done].
    destruct (is_child w1 p n) eqn:Hin1; [done|]. by rewrite (Hc1 _ _ Hin1) in Hin2.
Qed.

Lemma unlinked_once_put_same_children (w : World) (n : ptr) (nd nd' : Node) :
  heap w !! n = Some nd → children_ nd' = children_ nd →
  unlinked_once w (put_node n nd' w).
Proof.
  intros Hn Hcs. apply unlinked_once_quiet; [done|].
  intros p x. unfold is_child, put_node. simpl.
  destruct (decide (n = p)) as [<-|Hne].
  - by rewrite lookup_insert_eq, Hn, Hcs.
  - by rewrite lookup_insert_ne.
Qed.

Lemma unlinked_once_StopDriver (d : cptr) (w w' : World) :
  StopDriver d w = Done w' → unlinked_once w w'.
Proof.
  unfold StopDriver. intros H. run_inv H.
  destruct (stop_in_progress_ a); simplify_eq; [by apply unlinked_once_quiet|].
  split; [|done].
  exists [EvDriverStop d]. split; [done|].
  intros p n. simpl. split; [lia|split; [lia|discriminate]].
Qed.

Lemma erase_first_elem (c : ptr) (l cs : list ptr) : erase_first c l = Some cs → c ∈ l.
Proof.
  revert cs. induction l as [|x l IH]; intros cs H; [done|]. simpl in H.
  destruct (decide (x = c)) as [->|]; [left|].
  destruct (erase_first c l); [|done]. right. by eapply IH.
Qed.

Lemma erase_first_gone (c : ptr) (l cs : list ptr) :
  NoDup l → erase_first c l = Some cs → c ∉ cs.
Proof.
  revert cs. induction l as [|x l IH]; intros cs Hnd H; [done|]. simpl in H.
  apply NoDup_cons in Hnd as [Hx Hnd].
  destruct (decide (x = c)) as [->|Hne]; [by simplify_eq|].
  destruct (erase_first c l) as [r|] eqn:Hr; [|done]. simplify_eq.
  apply not_elem_of_cons. split; [done|]. by apply IH.
Qed.

Lemma unlinked_once_erase (w : World) (n p : ptr) (pd : Node) (cs : list ptr)
    (notify : bool) :
  distinct_children w → heap w !! p = Some pd → erase_first n (children_ pd) = Some cs →
  let w1 := emit (EvChildErased p n) (put_node p (set_children cs pd) w) in
  unlinked_once w (if notify then emit (EvParentRemove n p) w1 else w1).
Proof.
  intros Hd Hp Herase w1.
  assert (∀ q x, is_child w q x = false → is_child w1 q x = false) as Hmono.
  { intros q x. unfold is_child, w1, put_node. simpl.
    destruct (decide (p = q)) as [<-|Hne].
    - rewrite lookup_insert_eq, Hp. simpl. intros Hx.
      apply bool_decide_eq_false in Hx. apply bool_decide_eq_false. intros Hin.
      apply Hx. eapply elem_of_sublist; [exact Hin|by eapply erase_first_sublist].
    - by rewrite lookup_insert_ne. }
  assert (is_child w p n = true ∧ is_child w1 p n = false) as Hpn.
  { unfold is_child, w1, put_node. simpl. rewrite Hp, lookup_insert_eq. simpl. split.
    - apply bool_decide_eq_true. by eapply erase_first_elem.
    - apply bool_decide_eq_false. eapply erase_first_gone; [by eapply Hd|done]. }
  split.
  - exists (if notify then [EvChildErased p n; EvParentRemove n p] else [EvChildErased p n]).
    split; [destruct notify; simpl; by rewrite <- ?app_assoc|].
    intros q x.
    destruct (decide (p = q ∧ n = x)) as [[<- <-]|Hne].
    + destruct notify; simpl; rewrite !bool_decide_eq_true_2 by done; simpl;
        (split; [lia|split; [lia|done]]).
    + assert (bool_decide (p = q) && bool_decide (n = x) = false) as Hb.
      { apply andb_false_iff.
        destruct (decide (p = q)) as [->|]; [right|left; by apply bool_decide_eq_false].
        apply bool_decide_eq_false. intros ->. by apply Hne. }
      destruct notify; simpl; rewrite Hb; simpl; (split; [lia|split; [lia|lia]]).
  - destruct notify; exact Hmono.
Qed.

Lemma Remove_unlinked_once (fuel : nat) (n : ptr) (w w' : World) :
  distinct_children w → Remove fuel n w = Done w' → unlinked_once w w'.
Proof.
  apply (Remove_P distinct_children unlinked_once).
  - intros w1 w2. apply distinct_children_evolves.
  - intros w0. by apply unlinked_once_quiet.
  - intros w1 w2 w3 _ _. apply unlinked_once_trans.
  - intros x nd w0 Hx. by apply unlinked_once_put_same_children with nd.
  - intros x nd d w0 w0' _ _ _. apply unlinked_once_StopDriver.
  - intros x nd p pd cs w0 notify Hd _ _ _ Hp Herase. by apply unlinked_once_erase.
  - intros x nd w0 Hx _ _. by apply unlinked_once_put_same_children with nd.
Qed.

(** Runs of calls to [Remove], [StopDriver] and the destructor of a
    [DriverComponent], in any order and on any objects. *)
Inductive removal_run : World → World → Prop :=
| run_done w : removal_run w w
| run_Remove fuel n w w1 w' :
    Remove fuel n w = Done w1 → removal_run w1 w' → removal_run w w'
| run_StopDriver d w w1 w' :
    StopDriver d w = Done w1 → removal_run w1 w' → removal_run w w'
| run_destroy fuel d w w1 w' :
    DriverComponent_destroy fuel d w = Done w1 → removal_run w1 w' → removal_run w w'.

(** The destructor, as its three steps. *)
Lemma DriverComponent_destroy_Done (fuel : nat) (d : cptr) (w w' : World) :
  DriverComponent_destroy fuel d w = Done w' →
  ∃ dc nd w1,
    drivers_ w !! d = Some dc ∧ heap w !! node_ dc = Some nd
    ∧ Remove fuel (node_ dc) (put_node (node_ dc) (set_driver_component None nd) w) = Done w1
    ∧ w' = with_drivers (delete d (drivers_ w1)) w1.
Proof.
  unfold DriverComponent_destroy. intros H. run_inv H.
  apply driver_at_Done in Hrun. apply node_at_Done in Hrun0.
  exists a, a0, a1. by simplify_eq.
Qed.

Lemma distinct_children_put_same (w : World) (n : ptr) (nd nd' : Node) :
  heap w !! n = Some nd → children_ nd' = children_ nd →
  distinct_children w → distinct_children (put_node n nd' w).
Proof.
  intros Hn Hcs Hd x xd. unfold put_node. simpl.
  destruct (decide (n = x)) as [<-|Hne].
  - rewrite lookup_insert_eq. intros [= <-]. rewrite Hcs. by eapply Hd.
  - rewrite lookup_insert_ne by done. apply Hd.
Qed.

Lemma removal_run_stopped_once (w w' : World) : removal_run w w' → stopped_once w w'.
Proof.
  intros Hrun. induction Hrun as [w|fuel n w w1 w' H _ IH|d w w1 w' H _ IH
                                    |fuel d w w1 w' H _ IH].
  - by apply stopped_once_quiet.
  - eapply stopped_once_trans; [by eapply Remove_stopped_once|done].
  - eapply stopped_once_trans; [by eapply stopped_once_StopDriver|done].
  - apply DriverComponent_destroy_Done in H as (dc & nd & w0 & Hd & Hn & Hrem & ->).
    eapply stopped_once_trans; [|exact IH].
    eapply (stopped_once_trans _ (put_node (node_ dc) (set_driver_component None nd) w));
      [by apply stopped_once_quiet|].
    eapply stopped_once_trans; [by eapply Remove_stopped_once|].
    apply stopped_once_quiet; [done|].
    intros d'. unfold can_stop. simpl. destruct (decide (d = d')) as [<-|Hne].
    + by rewrite lookup_delete_eq.
    + by rewrite lookup_delete_ne.
Qed.

Lemma removal_run_unlinked_once (w w' : World) :
  distinct_children w → removal_run w w' → unlinked_once w w' ∧ distinct_children w'.
Proof.
  intros Hd Hrun. induction Hrun as [w|fuel n w w1 w' H _ IH|d w w1 w' H _ IH
                                    |fuel d w w1 w' H _ IH].
  - split; [by apply unlinked_once_quiet|done].
  - destruct IH as [Ho Hd'].
    + eapply distinct_children_evolves; [by eapply Remove_evolves|done].
    + split; [|done]. eapply unlinked_once_trans; [by eapply Remove_unlinked_once|done].
  - destruct IH as [Ho Hd'].
    + eapply distinct_children_evolves; [by eapply evolves_StopDriver|done].
    + split; [|done]. eapply unlinked_once_trans; [by eapply unlinked_once_StopDriver|done].
  - apply DriverComponent_destroy_Done in H as (dc & nd & w0 & Hdc & Hn & Hrem & ->).
    pose proof (distinct_children_put_same w (node_ dc) nd (set_driver_component None nd)
                  Hn eq_refl Hd) as Hd0.
    pose proof (distinct_children_evolves _ _ (Remove_evolves _ _ _ _ Hrem) Hd0) as Hd1.
    destruct IH as [Ho Hd']; [exact Hd1|]. split; [|done].
    eapply unlinked_once_trans; [|exact Ho].
    eapply unlinked_once_trans;
      [by apply (unlinked_once_put_same_children w (node_ dc) nd
                   (set_driver_component None nd))|].
    eapply unlinked_once_trans; [by eapply Remove_unlinked_once|].
    by apply unlinked_once_quiet.
Qed.

(** ** [Remove] again, after a call which has returned *)

Lemma settled_delete_driver (E : ptr → Prop) (w : World) (d : cptr) (k : nat) (m : ptr) :
  (∀ x xd, heap w !! x = Some xd → driver_component_ xd ≠ Some d) →
  settled E w k m → settled E (with_drivers (delete d (drivers_ w)) w) k m.
Proof.
  intros Hfree H. induction H as [k n nd Hn Hr Hnd Hrest _ IH].
  apply settled_node with nd; try done.
  intros HE. destruct (Hrest HE) as [Hb Hq]. split; [done|].
  intros Hc. specialize (Hq Hc). unfold quiescent in *.
  destruct (driver_component_ nd) as [d'|] eqn:Hd'; [|done].
  destruct Hq as (dc & Hdc & Hs). exists dc. split; [|done]. simpl.
  rewrite lookup_delete_ne; [done|]. intros ->. by eapply Hfree.
Qed.

(** After the destructor of a driver which drives its own node only, a
    further [Remove] of the node changes nothing. *)
Lemma DriverComponent_destroy_again (fuel fuel' : nat) (d : cptr) (dc : DriverComponent)
    (w w' : World) :
  distinct_children w → drivers_ w !! d = Some dc →
  (∀ x xd, heap w !! x = Some xd → driver_component_ xd = Some d → x = node_ dc) →
  DriverComponent_destroy fuel d w = Done w' → (fuel ≤ fuel')%nat →
  Remove fuel' (node_ dc) w' = Done w'.
Proof.
  intros Hd Hdc Hown H Hle.
  apply DriverComponent_destroy_Done in H as (dc' & nd & w1 & Hdc' & Hn & Hrem & ->).
  simplify_eq.
  set (w0 := put_node (node_ dc) (set_driver_component None nd) w) in *.
  assert (distinct_children w0) as Hd0 by (by eapply distinct_children_put_same).
  eapply Remove_settled; [|exact Hle].
  apply settled_delete_driver.
  - intros x xd Hx Hxd.
    destruct (evolves_node_back _ _ _ _ (Remove_evolves _ _ _ _ Hrem) Hx) as (xd0 & Hx0 & Hne).
    rewrite (ne_component _ _ Hne) in Hxd.
    unfold w0, put_node in Hx0. simpl in Hx0.
    destruct (decide (node_ dc = x)) as [<-|Hneq].
    + rewrite lookup_insert_eq in Hx0. by simplify_eq.
    + rewrite lookup_insert_ne in Hx0 by done. by specialize (Hown _ _ Hx0 Hxd).
  - by eapply (proj2 (Remove_keeps_and_settles fuel)).
Qed.

(** Calls which return, in a store in which every node holds each child once
    and which keeps the nodes a removal has detached (the code destroys a
    node with its last reference, and what it does with the node after that
    is not defined):
    a call of [Remove] which has returned can be repeated, with the same fuel
    or more, and the repeated call returns the store unchanged, so it erases
    the node from no parent, asks no driver to stop and calls no parent; the
    same holds for the call of [Remove] made by the destructor of the node's
    driver; and over any run of calls to [Remove], [StopDriver] and driver
    destructors a node is erased from a parent at most once, the parent is
    called for it at most once, and a driver is sent [Stop] at most once.
    Calls which do not return are the matter of [Remove_loses_iterator]. *)
Lemma Remove_idempotent (w : World) :
  distinct_children w →
  (∀ fuel n w', Remove fuel n w = Done w' →
     ∀ fuel', (fuel ≤ fuel')%nat → Remove fuel' n w' = Done w')
  ∧ (∀ fuel d dc w', drivers_ w !! d = Some dc →
       (∀ x xd, heap w !! x = Some xd → driver_component_ xd = Some d → x = node_ dc) →
       DriverComponent_destroy fuel d w = Done w' →
       ∀ fuel', (fuel ≤ fuel')%nat → Remove fuel' (node_ dc) w' = Done w')
  ∧ (∀ w', removal_run w w' → unlinked_once w w' ∧ stopped_once w w').
Proof.
  intros Hd. split; [|split].
  - intros fuel n w' H fuel' Hle. by eapply Remove_again.
  - intros fuel d dc w' Hdc Hown H fuel' Hle. by eapply DriverComponent_destroy_again.
  - intros w' Hrun. split.
    + by apply removal_run_unlinked_once.
    + by apply removal_run_stopped_once.
Qed.

(** A root with two children, a composite node on top of them, and a driver
    bound to the composite node. *)
Definition plain (name : string) (parents children : list ptr) (driver : option cptr) : Node :=
  mkNode name parents children (Some TheDriverRunner) None driver kNone false
    None None [] [] [].

Definition world_diamond : World :=
  mkWorld (list_to_map
             [(1, plain "root" [] [2; 3] None)%positive;
              (2, plain "a" [1] [4] None)%positive;
              (3, plain "b" [1] [4] None)%positive;
              (4, plain "composite" [2; 3] [] (Some 9))%positive])
    {[ 9%positive := mkDriverComponent "fuchsia-boot:///x" 4%positive None false ]}
    root_address [] [] ∅ [] 0%N [] [].

Lemma distinct_children_decide (w : World) :
  bool_decide (map_Forall (λ _ nd, NoDup (children_ nd)) (heap w)) = true →
  distinct_children w.
Proof. intros H. apply bool_decide_eq_true in H. exact H. Qed.

Lemma Remove_idempotent_witness :
  distinct_children world_diamond
  ∧ ∃ w', Remove 3 root_address world_diamond = Done w'
          ∧ trace w' = [EvDriverStop 9%positive]
          ∧ Remove 3 root_address w' = Done w'.
Proof.
  assert (distinct_children world_diamond) as Hd
    by (apply distinct_children_decide; vm_compute; reflexivity).
  split; [exact Hd|].
  eexists. split; [vm_compute; reflexivity|]. split; [reflexivity|].
  refine (proj1 (Remove_idempotent world_diamond Hd) 3%nat root_address _ _ 3%nat _).
  - vm_compute. reflexivity.
  - lia.
Defined.

(** ** C10: a driver is asked to stop once *)

Lemma StopDriver_again (d : cptr) (w w' : World) :
  StopDriver d w = Done w' → StopDriver d w' = Done w' ∧ can_stop w' d = false.
Proof.
  intros H. destruct (StopDriver_stops _ _ _ H) as (_ & dc & Hdc & Hs).
  unfold StopDriver, can_stop.
  rewrite (proj2 (driver_at_Done _ _ _) Hdc), Hdc. simpl. by rewrite Hs.
Qed.

(** C10.  Once [StopDriver] has run on a driver, a further [StopDriver] on it
    returns the store as it is, and no run of calls to [Remove], [StopDriver]
    and driver destructors sends that driver another [Stop]; and whatever the
    store a run starts from, it sends a driver at most one [Stop]. *)
Theorem StopDriver_once (d : cptr) :
  (∀ w w1, StopDriver d w = Done w1 →
     StopDriver d w1 = Done w1
     ∧ stop_in_progress_ <$> drivers_ w1 !! d = Some true
     ∧ ∀ w', removal_run w1 w' →
             ∃ new, trace w' = trace w1 ++ new ∧ occurs (is_stop d) new = 0%nat)
  ∧ (∀ w w', removal_run w w' →
       ∃ new, trace w' = trace w ++ new ∧ (occurs (is_stop d) new ≤ 1)%nat).
Proof.
  split.
  - intros w w1 H. destruct (StopDriver_again _ _ _ H) as [Hagain Hcan].
    split; [done|]. split.
    + destruct (StopDriver_stops _ _ _ H) as (_ & dc & -> & Hs). simpl. by rewrite Hs.
    + intros w' Hrun.
      destruct (removal_run_stopped_once _ _ Hrun) as [(new & Ht & Hs) _].
      exists new. split; [done|]. destruct (Hs d) as [Hle Hone].
      destruct (decide (occurs (is_stop d) new = 1%nat)) as [Hk|]; [|lia].
      destruct (Hone Hk) as [Hyes _]. congruence.
  - intros w w' Hrun.
    destruct (removal_run_stopped_once _ _ Hrun) as [(new & Ht & Hs) _].
    exists new. split; [done|]. by destruct (Hs d).
Qed.

(** The driver of the composite node of [world_diamond] is stopped, and
    stopped again. *)
Lemma StopDriver_once_witness :
  ∃ w1, StopDriver 9%positive world_diamond = Done w1
        ∧ trace w1 = [EvDriverStop 9%positive]
        ∧ StopDriver 9%positive w1 = Done w1.
Proof.
  eexists. split; [reflexivity|]. split; [reflexivity|].
  refine (proj1 (proj1 (StopDriver_once 9%positive) world_diamond _ _)).
  reflexivity.
Defined.

(** ** C4: when parents are removed, and when a node waits *)

(** One turn of the loop over the parents: the parent is called when it was
    waiting for this last child, and whenever the node is composite. *)
Lemma unlink_from_parent_cascades (self : ptr → World → Outcome World) (n parent : ptr)
    (w : World) (pd nd : Node) (cs : list ptr) :
  heap w !! parent = Some pd → erase_first n (children_ pd) = Some cs →
  let w1 := emit (EvChildErased parent n) (put_node parent (set_children cs pd) w) in
  heap w1 !! n = Some nd →
  (removal_in_progress_ pd = true ∧ cs = []) ∨ (1 < length (parents_ nd))%nat →
  unlink_from_parent self n parent w = self parent (emit (EvParentRemove n parent) w1).
Proof.
  intros Hp Herase w1 Hn Hcond. unfold unlink_from_parent.
  rewrite (proj2 (node_at_Done _ _ _) Hp). simpl. rewrite Herase.
  fold w1. rewrite (proj2 (node_at_Done _ _ _) Hn). simpl.
  destruct Hcond as [[-> ->]|Hlen]; [done|].
  apply Nat.ltb_lt in Hlen. rewrite Hlen. by rewrite orb_true_r.
Qed.

Lemma evolves_event (e : Event) (w w' : World) :
  evolves w w' → e ∈ trace w → e ∈ trace w'.
Proof.
  intros Hev He. destruct (ev_trace _ _ Hev) as [new ->].
  apply elem_of_app. by left.
Qed.

Lemma evolves_flag (w w' : World) (p : ptr) :
  evolves w w' →
  (∃ pd, heap w !! p = Some pd ∧ removal_in_progress_ pd = true) →
  ∃ pd', heap w' !! p = Some pd' ∧ removal_in_progress_ pd' = true.
Proof.
  intros Hev (pd & Hp & Hr).
  destruct (evolves_node _ _ _ _ Hev Hp) as (pd' & Hp' & Hne).
  exists pd'. split; [done|]. by apply (ne_removal _ _ Hne).
Qed.

Section composite_unlink.

Variable self : ptr → World → Outcome World.
Hypothesis self_evolves : ∀ n w w', self n w = Done w' → evolves w w'.
Hypothesis self_marks : ∀ p w w', self p w = Done w' →
  ∃ pd', heap w' !! p = Some pd' ∧ removal_in_progress_ pd' = true.

Lemma unlink_from_parents_composite (n : ptr) (all ps : list ptr) (w w' : World) :
  (∃ nd, heap w !! n = Some nd ∧ parents_ nd = all) → (1 < length all)%nat →
  unlink_from_parents self n all ps w = Done w' →
  ∀ p, p ∈ ps →
    EvParentRemove n p ∈ trace w'
    ∧ ∃ pd', heap w' !! p = Some pd' ∧ removal_in_progress_ pd' = true.
Proof.
  revert w. induction ps as [|q ps IH]; intros w (nd & Hn & Hall) Hlen H p Hp.
  - by apply elem_of_nil in Hp.
  - apply unlink_from_parents_step in H as (w1 & nd1 & Hturn & Hn1 & Hall1 & Hrest).
    pose proof (unlink_from_parents_evolves self self_evolves _ _ _ _ _ Hrest) as Hev.
    apply elem_of_cons in Hp as [->|Hp]; [|by eapply IH; eauto].
    apply unlink_from_parent_Done in Hturn as (pd & cs & nd0 & Hq & Herase & Hn0 & Hcase).
    assert (parents_ nd0 = all) as Hnd0.
    { unfold put_node in Hn0. simpl in Hn0.
      destruct (decide (q = n)) as [->|Hne].
      - rewrite lookup_insert_eq in Hn0. by simplify_eq.
      - rewrite lookup_insert_ne in Hn0 by done. by simplify_eq. }
    rewrite Hnd0, (proj2 (Nat.ltb_lt _ _) Hlen), orb_true_r in Hcase.
    split.
    + eapply evolves_event; [exact Hev|].
      eapply evolves_event; [by eapply self_evolves|].
      simpl. apply elem_of_app. right. left.
    + eapply evolves_flag; [exact Hev|]. by eapply self_marks.
Qed.

End composite_unlink.

Lemma Remove_marks (fuel : nat) (n : ptr) (w w' : World) :
  Remove fuel n w = Done w' →
  ∃ nd', heap w' !! n = Some nd' ∧ removal_in_progress_ nd' = true.
Proof.
  destruct fuel as [|fuel]; [done|]. simpl. intros H.
  destruct (Remove_body_at_rest (Remove fuel) (Remove_evolves fuel) _ _ _ H)
    as (nd' & Hn & Hr & _).
  by exists nd'.
Qed.

(** A call on a node without children and without driver goes straight to
    the loop over the parents. *)
Lemma Remove_leaf (fuel : nat) (n : ptr) (w w' : World) (nd : Node) :
  heap w !! n = Some nd → children_ nd = [] → driver_component_ nd = None →
  Remove (S fuel) n w = Done w' →
  ∃ w2 nd2,
    unlink_from_parents (Remove fuel) n (parents_ nd) (parents_ nd)
      (put_node n (begin_removal nd) w) = Done w2
    ∧ heap w2 !! n = Some nd2 ∧ w' = put_node n (finish_removal nd2) w2.
Proof.
  intros Hn Hcs Hdc H. simpl in H.
  apply Remove_body_Done in H as (w1 & nd1 & Hch & Hn1 & Hend).
  apply remove_phase_children_Done in Hch as (nd' & Hn' & Hloop). simplify_eq.
  rewrite Hcs in Hloop. simpl in Hloop. simplify_eq.
  unfold put_node in Hn1. simpl in Hn1. rewrite lookup_insert_eq in Hn1. simplify_eq.
  destruct Hend as [[Hne _]|[_ Hunlink]]; [done|].
  apply remove_phase_unlink_Done in Hunlink as (nd1 & Hn1 & Hcase).
  unfold put_node in Hn1. simpl in Hn1. rewrite lookup_insert_eq in Hn1. simplify_eq.
  destruct Hcase as [(d & Hd & _)|(_ & w2 & nd2 & Hloop & Hn2 & ->)].
  - simpl in Hd. congruence.
  - by exists w2, nd2.
Qed.

(** A composite node takes all its parents with it. *)
Lemma Remove_composite (fuel : nat) (n : ptr) (w w' : World) (nd : Node) :
  heap w !! n = Some nd → children_ nd = [] → driver_component_ nd = None →
  (1 < length (parents_ nd))%nat →
  Remove (S fuel) n w = Done w' →
  ∀ p, p ∈ parents_ nd →
    EvParentRemove n p ∈ trace w'
    ∧ ∃ pd', heap w' !! p = Some pd' ∧ removal_in_progress_ pd' = true.
Proof.
  intros Hn Hcs Hdc Hlen H p Hp.
  destruct (Remove_leaf _ _ _ _ _ Hn Hcs Hdc H) as (w2 & nd2 & Hloop & Hn2 & ->).
  assert (evolves w2 (put_node n (finish_removal nd2) w2)) as Hev
    by (apply evolves_put_node with nd2; [done|apply finish_removal_evolves]).
  destruct (unlink_from_parents_composite (Remove fuel) (Remove_evolves fuel)
              (Remove_marks fuel) n (parents_ nd) (parents_ nd)
              (put_node n (begin_removal nd) w) w2) with p as [He Hflag]; try done.
  { exists (begin_removal nd). split; [|done]. unfold put_node. simpl.
    apply lookup_insert_eq. }
  split; [by eapply evolves_event|by eapply evolves_flag].
Qed.

(** A parent which is being removed and loses its last child is called. *)
Lemma Remove_last_child (fuel : nat) (n p : ptr) (w w' : World) (nd pd : Node) :
  heap w !! n = Some nd → children_ nd = [] → driver_component_ nd = None →
  parents_ nd = [p] → p ≠ n →
  heap w !! p = Some pd → removal_in_progress_ pd = true → children_ pd = [n] →
  Remove (S fuel) n w = Done w' →
  EvChildErased p n ∈ trace w' ∧ EvParentRemove n p ∈ trace w'.
Proof.
  intros Hn Hcs Hdc Hps Hpn Hp Hr Hpc H.
  destruct (Remove_leaf _ _ _ _ _ Hn Hcs Hdc H) as (w2 & nd2 & Hloop & Hn2 & ->).
  rewrite Hps in Hloop.
  apply unlink_from_parents_step in Hloop as (w1 & nd1 & Hturn & Hn1 & _ & Hrest).
  simpl in Hrest. simplify_eq.
  assert (heap (put_node n (begin_removal nd) w) !! p = Some pd) as Hp0
    by (unfold put_node; simpl; by rewrite lookup_insert_ne).
  assert (erase_first n (children_ pd) = Some []) as Herase
    by (rewrite Hpc; simpl; by rewrite decide_True).
  assert (∃ nd0, heap (emit (EvChildErased p n)
                         (put_node p (set_children [] pd)
                            (put_node n (begin_removal nd) w))) !! n = Some nd0)
    as [nd0 Hn0].
  { exists (begin_removal nd). unfold put_node. simpl.
    rewrite lookup_insert_ne by done. apply lookup_insert_eq. }
  rewrite (unlink_from_parent_cascades _ n p _ pd nd0 [] Hp0 Herase Hn0) in Hturn
    by (by left).
  pose proof (Remove_evolves _ _ _ _ Hturn) as Hev.
  assert (evolves w2 (put_node n (finish_removal nd1) w2)) as Hev2
    by (apply evolves_put_node with nd1; [done|apply finish_removal_evolves]).
  split; (eapply evolves_event; [exact Hev2|]; eapply evolves_event; [exact Hev|]); simpl.
  - apply elem_of_app. left. apply elem_of_app. right. left.
  - apply elem_of_app. right. left.
Qed.

(** A node which still has a child when its call returns has gone through
    the loop over the children and nothing else. *)
Lemma Remove_body_waits (self : ptr → World → Outcome World) (n : ptr) (w w1 : World)
    (nd1 : Node) :
  remove_phase_children self n w = Done w1 → heap w1 !! n = Some nd1 →
  children_ nd1 ≠ [] →
  Remove_body self n w = Done w1.
Proof.
  intros Hch Hn Hcs. unfold Remove_body. rewrite Hch. simpl.
  rewrite (proj2 (node_at_Done _ _ _) Hn). simpl.
  by destruct (children_ nd1).
Qed.

(** What a call leaves alone in a node [m] which has a child at the end. *)
Definition untouched (m : ptr) (w w' : World) : Prop :=
  ∀ md', heap w' !! m = Some md' → children_ md' ≠ [] →
  ∃ md new,
    heap w !! m = Some md
    ∧ parents_ md' = parents_ md
    ∧ controller_ref_ md' = controller_ref_ md ∧ node_ref_ md' = node_ref_ md
    ∧ trace w' = trace w ++ new
    ∧ ∀ p, occurs (is_erase p m) new = 0%nat ∧ occurs (is_notify m p) new = 0%nat.

Lemma untouched_same (m : ptr) (w w' : World) (quiet : list Event) :
  heap w' !! m = heap w !! m → trace w' = trace w ++ quiet →
  (∀ p, occurs (is_erase p m) quiet = 0%nat ∧ occurs (is_notify m p) quiet = 0%nat) →
  untouched m w w'.
Proof.
  intros Hheap Ht Hq md' Hm Hcs. exists md', quiet. by rewrite <- Hheap.
Qed.

Lemma untouched_trans (m : ptr) (w1 w2 w3 : World) :
  evolves w2 w3 → untouched m w1 w2 → untouched m w2 w3 → untouched m w1 w3.
Proof.
  intros Hev H12 H23 md3 Hm3 Hcs3.
  destruct (H23 md3 Hm3 Hcs3) as (md2 & new2 & Hm2 & Hp2 & Hc2 & Hr2 & Ht2 & Hq2).
  assert (children_ md2 ≠ []) as Hcs2.
  { destruct (evolves_node _ _ _ _ Hev Hm2) as (md3' & Hm3' & Hne). simplify_eq.
    intros Hnil. pose proof (ne_children _ _ Hne) as Hsub. rewrite Hnil in Hsub.
    by apply sublist_nil_r in Hsub. }
  destruct (H12 md2 Hm2 Hcs2) as (md1 & new1 & Hm1 & Hp1 & Hc1 & Hr1 & Ht1 & Hq1).
  exists md1, (new1 ++ new2).
  split; [done|]. split; [congruence|]. split; [congruence|]. split; [congruence|].
  split; [by rewrite Ht2, Ht1, app_assoc|].
  intros p. rewrite !occurs_app. destruct (Hq1 p), (Hq2 p). lia.
Qed.

Lemma Remove_untouched (m : ptr) (fuel : nat) (n : ptr) (w w' : World) :
  Remove fuel n w = Done w' → untouched m w w'.
Proof.
  intros H. apply (Remove_P (λ _, True) (untouched m)) with fuel n; try done.
  - intros w0. apply untouched_same with []; [done|by rewrite app_nil_r|done].
  - intros w1 w2 w3 _ Hev. by apply untouched_trans.
  - intros x nd w0 Hx md' Hm Hcs. unfold put_node in Hm. simpl in Hm.
    destruct (decide (x = m)) as [->|Hne].
    + rewrite lookup_insert_eq in Hm. simplify_eq.
      exists nd, []. rewrite app_nil_r. by simpl.
    + rewrite lookup_insert_ne in Hm by done.
      exists md', []. by rewrite app_nil_r.
  - intros x nd d w0 w0' _ _ _ Hstop. unfold StopDriver in Hstop. run_inv Hstop.
    destruct (stop_in_progress_ a); simplify_eq.
    + apply untouched_same with []; [done|by rewrite app_nil_r|done].
    + by apply untouched_same with [EvDriverStop d].
  - intros x nd p pd cs w0 notify _ Hx Hxcs _ Hp Herase. simpl.
    intros md' Hm Hcs.
    assert (heap (put_node p (set_children cs pd) w0) !! m = Some md') as Hm'
      by (by destruct notify).
    assert (x ≠ m) as Hxm.
    { intros ->. unfold put_node in Hm'. simpl in Hm'.
      destruct (decide (p = m)) as [->|Hne].
      - simplify_eq. by rewrite Hxcs in Herase.
      - rewrite lookup_insert_ne in Hm' by done. by simplify_eq. }
    assert (∃ md, heap w0 !! m = Some md ∧ parents_ md' = parents_ md
                  ∧ controller_ref_ md' = controller_ref_ md
                  ∧ node_ref_ md' = node_ref_ md) as (md & Hmd & ? & ? & ?).
    { unfold put_node in Hm'. simpl in Hm'.
      destruct (decide (p = m)) as [->|Hne].
      - rewrite lookup_insert_eq in Hm'. simplify_eq. by exists pd.
      - rewrite lookup_insert_ne in Hm' by done. by exists md'. }
    exists md, (if notify then [EvChildErased p x; EvParentRemove x p]
                else [EvChildErased p x]).
    split; [done|]. split; [done|]. split; [done|]. split; [done|].
    split; [destruct notify; simpl; by rewrite <- ?app_assoc|].
    intros q.
    assert (bool_decide (x = m) = false) as Hb by (by apply bool_decide_eq_false).
    destruct notify; simpl; rewrite Hb, !andb_false_r; done.
  - intros x nd w0 Hx Hxcs _ md' Hm Hcs. unfold put_node in Hm. simpl in Hm.
    destruct (decide (x = m)) as [->|Hne].
    + rewrite lookup_insert_eq in Hm. by simplify_eq.
    + rewrite lookup_insert_ne in Hm by done.
      exists md', []. by rewrite app_nil_r.
Qed.

(** C4.  In the loop of [Remove] over the parents, a parent which is being
    removed and has just lost its last child is called, and every parent of a
    composite node is called: a composite node without children and driver
    ends with a call on each of its parents, and each parent is being removed
    afterwards.  A node which still has a child after the loop over its
    children returns at once; and whatever call it is looked at from, a node
    with a child at the end has kept its parents and its bindings, has been
    erased from no parent and has called none. *)
Theorem Remove_cascades (n : ptr) (w : World) :
  (∀ self p pd nd cs,
     heap w !! p = Some pd → erase_first n (children_ pd) = Some cs →
     let w1 := emit (EvChildErased p n) (put_node p (set_children cs pd) w) in
     heap w1 !! n = Some nd →
     (removal_in_progress_ pd = true ∧ cs = []) ∨ (1 < length (parents_ nd))%nat →
     unlink_from_parent self n p w = self p (emit (EvParentRemove n p) w1))
  ∧ (∀ fuel nd w',
       heap w !! n = Some nd → children_ nd = [] → driver_component_ nd = None →
       (1 < length (parents_ nd))%nat → Remove (S fuel) n w = Done w' →
       ∀ p, p ∈ parents_ nd →
         EvParentRemove n p ∈ trace w'
         ∧ ∃ pd', heap w' !! p = Some pd' ∧ removal_in_progress_ pd' = true)
  ∧ (∀ fuel nd p pd w',
       heap w !! n = Some nd → children_ nd = [] → driver_component_ nd = None →
       parents_ nd = [p] → p ≠ n →
       heap w !! p = Some pd → removal_in_progress_ pd = true → children_ pd = [n] →
       Remove (S fuel) n w = Done w' →
       EvChildErased p n ∈ trace w' ∧ EvParentRemove n p ∈ trace w')
  ∧ (∀ self w1 nd1,
       remove_phase_children self n w = Done w1 → heap w1 !! n = Some nd1 →
       children_ nd1 ≠ [] → Remove_body self n w = Done w1)
  ∧ (∀ fuel m w', Remove fuel n w = Done w' → untouched m w w').
Proof.
  split; [|split; [|split; [|split]]].
  - intros self p pd nd cs. apply unlink_from_parent_cascades.
  - intros fuel nd w'. apply Remove_composite.
  - intros fuel nd p pd w'. apply Remove_last_child.
  - intros self w1 nd1. apply Remove_body_waits.
  - intros fuel m w'. apply Remove_untouched.
Qed.

(** A composite node without driver, under two nodes which are not being
    removed: both are called all the same. *)
Definition world_composite_leaf : World :=
  mkWorld (list_to_map
             [(1, plain "root" [] [2; 3] None)%positive;
              (2, plain "a" [1] [4] None)%positive;
              (3, plain "b" [1] [4] None)%positive;
              (4, plain "composite" [2; 3] [] None)%positive])
    ∅ root_address [] [] ∅ [] 0%N [] [].

Lemma Remove_cascades_witness :
  ∃ w', Remove 3 4%positive world_composite_leaf = Done w'
        ∧ EvParentRemove 4%positive 2%positive ∈ trace w'
        ∧ EvParentRemove 4%positive 3%positive ∈ trace w'.
Proof.
  assert (∃ w', Remove 3 4%positive world_composite_leaf = Done w') as [w' Hrun]
    by (eexists; vm_compute; reflexivity).
  assert (heap world_composite_leaf !! 4%positive
          = Some (plain "composite" [2; 3]%positive [] None)) as Hn
    by (vm_compute; reflexivity).
  exists w'. split; [exact Hrun|].
  pose proof (proj1 (proj2 (Remove_cascades 4%positive world_composite_leaf)) 2%nat
                (plain "composite" [2; 3]%positive [] None) w'
                Hn eq_refl eq_refl (le_n 2) Hrun) as H.
  split.
  - apply (H 2%positive). left.
  - apply (H 3%positive). right. left.
Defined.

(** The same store, with [Remove] called on the root.  The loop of the root
    stands at "b" while "a" is removed; the composite node, which has no
    driver, calls its parents, and "b" erases itself from the children of the
    root: the iterator of the loop has lost its element. *)
Example Remove_root_over_composite_leaf :
  Remove 6 root_address world_composite_leaf = Undefined IteratorInvalidated.
Proof. vm_compute. reflexivity. Qed.

(** ** [Node::CreateOffers]: the source of the offers *)

(** The search follows primary parents through nodes without a collection
    and returns the first node which has one. *)
Inductive nearest_source (w : World) : ptr → ptr → Prop :=
| nearest_here s sd :
    heap w !! s = Some sd → collection_ sd ≠ kNone → nearest_source w s s
| nearest_above p pd q s :
    heap w !! p = Some pd → collection_ pd = kNone →
    PrimaryParent (parents_ pd) = Some q → nearest_source w q s →
    nearest_source w p s.


(** Without a collection anywhere above, the search leaves the root behind
    and reads through the null pointer. *)
Lemma find_source_past_root (fuel : nat) (p : ptr) (w : World) (pd : Node) :
  heap w !! p = Some pd → collection_ pd = kNone → parents_ pd = [] →
  find_source (S (S fuel)) (Some p) w = Undefined NullDereference.
Proof.
  intros Hp Hc Hps. simpl.
  rewrite (proj2 (node_at_Done _ _ _) Hp). simpl.
  by rewrite decide_True, Hps.
Qed.

Lemma CreateOffers_past_root (n p : ptr) (ps : list ptr) (w : World) (nd pd : Node) :
  heap w !! n = Some nd → parents_ nd = p :: ps →
  heap w !! p = Some pd → collection_ pd = kNone → parents_ pd = [] →
  CreateOffers n w = Undefined NullDereference.
Proof.
  intros Hn Hps Hp Hc Hpps.
  assert (∃ k, walk_fuel w = S (S k)) as [k Hfuel].
  { unfold walk_fuel. destruct (size (heap w)) eqn:Hsize; [|by eexists].
    apply map_size_empty_iff in Hsize. by rewrite Hsize in Hn. }
  unfold CreateOffers.
  rewrite (proj2 (node_at_Done _ _ _) Hn). cbn [mbind Outcome_bind]. rewrite Hps.
  cbn [create_offers_loop]. unfold create_offers_of.
  by rewrite Hfuel, (find_source_past_root k p w pd).
Qed.

















(** Under a root which runs a boot driver, the offer of the node "disk" gets
    the root for its source. *)
Definition world_boot_root : World :=
  mkWorld (list_to_map
             [(1, set_collection kBoot (plain "root" [] [2] None))%positive;
              (2, set_offers [OfferProtocol (mkOfferDecl None (Some "fuchsia.hardware.block") None None)]
                    (plain "disk" [1] [] None))%positive])
    ∅ root_address [] [] ∅ [] 0%N [] [].

Example CreateOffers_under_boot_root :
  (r ← CreateOffers 2%positive world_boot_root; Done (fst r))
  = Done [OfferProtocol
            (mkOfferDecl (Some (RefChild (mkChildRef "root" "boot-drivers")))
               (Some "fuchsia.hardware.block") None None)].
Proof. vm_compute. reflexivity. Qed.

(** ** The names of the children of a node *)

(** The names of the children of [nd], in the order of the list. *)
Definition child_names (w : World) (nd : Node) : list string :=
  omap (λ c, name_ <$> heap w !! c) (children_ nd).

Definition sibling_names_unique (w : World) : Prop :=
  ∀ n nd, heap w !! n = Some nd → NoDup (child_names w nd).

(** Every child in a children list is a node of the store. *)
Definition children_alive (w : World) : Prop :=
  ∀ n nd c, heap w !! n = Some nd → c ∈ children_ nd → is_Some (heap w !! c).

Definition tidy (w : World) : Prop :=
  children_alive w ∧ sibling_names_unique w.

Lemma occurrences_NoDup (x : ptr) (ps : list ptr) : NoDup ps → (occurrences x ps ≤ 1)%nat.
Proof.
  unfold occurrences. induction 1 as [|p ps Hp _ IH]; [simpl; lia|].
  rewrite filter_cons. destruct (decide (p = x)) as [->|]; [|done].
  pose proof (occurrences_absent x ps Hp) as Hnone. unfold occurrences in Hnone.
  simpl. rewrite Hnone. lia.
Qed.

Lemma occurrences_elem (x : ptr) (ps : list ptr) : occurrences x ps ≠ 0%nat → x ∈ ps.
Proof.
  intros Hk. destruct (decide (x ∈ ps)) as [|Hx]; [done|].
  by apply occurrences_absent in Hx.
Qed.

Lemma child_names_replicate (w : World) (k : nat) (c : ptr) (cd : Node) :
  heap w !! c = Some cd →
  omap (λ x, name_ <$> heap w !! x) (replicate k c) = replicate k (name_ cd).
Proof.
  intros Hc. induction k as [|k IH]; [done|].
  csimpl. rewrite Hc. csimpl. by rewrite IH.
Qed.

Lemma child_names_same (w w' : World) (cs : list ptr) :
  (∀ x, x ∈ cs → name_ <$> heap w' !! x = name_ <$> heap w !! x) →
  omap (λ x, name_ <$> heap w' !! x) cs = omap (λ x, name_ <$> heap w !! x) cs.
Proof.
  intros Hsame. apply list_omap_ext, Forall2_same_length_lookup. split; [done|].
  intros i x y Hx Hy. simplify_eq. apply Hsame. by eapply list_elem_of_lookup_2.
Qed.

Lemma name_among_false (name : string) (w : World) (cs : list ptr) :
  name_among name cs w = Done false →
  ∀ c cd, c ∈ cs → heap w !! c = Some cd → name_ cd ≠ name.
Proof.
  induction cs as [|x cs IH]; intros H c cd Hc Hcd.
  - by apply elem_of_nil in Hc.
  - simpl in H. run_inv H. apply node_at_Done in Hrun.
    destruct (decide (name_ a = name)) as [|Hne]; [discriminate|].
    apply elem_of_cons in Hc as [->|Hc]; [congruence|]. by eapply IH.
Qed.

(** A store grows by one node [c] without children, which is appended [k x]
    times to the children of [x]. *)
Lemma grow_keeps_tidy (w w' : World) (c : ptr) (cd : Node) (k : ptr → nat) :
  tidy w → heap w !! c = None → heap w' !! c = Some cd → children_ cd = [] →
  (∀ x, x ≠ c → heap w' !! x = add_children (k x) c <$> heap w !! x) →
  (∀ x xd, heap w !! x = Some xd →
     (k x ≤ 1)%nat ∧ (k x ≠ 0%nat → name_ cd ∉ child_names w xd)) →
  tidy w'.
Proof.
  intros [Halive Hunique] Hfree Hc Hch Hrest Hk.
  assert (∀ x, is_Some (heap w !! x) → x ≠ c) as Hold.
  { intros x [xd Hx] ->. congruence. }
  assert (∀ x, is_Some (heap w !! x) → name_ <$> heap w' !! x = name_ <$> heap w !! x)
    as Hnames.
  { intros x Hx. rewrite (Hrest x (Hold x Hx)). destruct Hx as [xd ->]. done. }
  assert (∀ n nd', n ≠ c → heap w' !! n = Some nd' →
            ∃ nd, heap w !! n = Some nd ∧ nd' = add_children (k n) c nd) as Hinv.
  { intros n nd' Hn Hnd'. rewrite (Hrest n Hn) in Hnd'.
    destruct (heap w !! n) as [nd|]; simpl in Hnd'; [|done].
    exists nd. split; [done|]. congruence. }
  split.
  - intros n nd' y Hn Hy. destruct (decide (n = c)) as [->|Hne].
    + rewrite Hc in Hn. simplify_eq. rewrite Hch in Hy. by apply elem_of_nil in Hy.
    + destruct (Hinv n nd' Hne Hn) as (nd & Hnd & ->).
      unfold add_children in Hy. simpl in Hy.
      apply elem_of_app in Hy as [Hy|Hy].
      * pose proof (Halive n nd y Hnd Hy) as Hsome.
        rewrite (Hrest y (Hold y Hsome)). destruct Hsome as [yd ->]. by eexists.
      * apply elem_of_replicate_inv in Hy as ->. by eexists.
  - intros n nd' Hn. destruct (decide (n = c)) as [->|Hne].
    + rewrite Hc in Hn. simplify_eq. unfold child_names. rewrite Hch. constructor.
    + destruct (Hinv n nd' Hne Hn) as (nd & Hnd & ->).
      destruct (Hk n nd Hnd) as [Hle Hnew].
      unfold child_names, add_children. simpl. rewrite omap_app.
      rewrite (child_names_same w w' (children_ nd)), (child_names_replicate w' _ c cd Hc).
      2:{ intros x Hx. apply Hnames. by eapply Halive. }
      fold (child_names w nd).
      destruct (k n) as [|[|j]]; [| |lia].
      * rewrite app_nil_r. by apply Hunique with n.
      * apply NoDup_app. split; [by apply Hunique with n|]. split.
        -- intros x Hx Hx'. apply list_elem_of_singleton in Hx' as ->. by apply Hnew.
        -- apply NoDup_singleton.
Qed.

(** What a successful [AddChild] does to the store. *)
Lemma attach_child_heap (this : ptr) (request : AddChildRequest) (child nd : Node)
    (w w' : World) :
  heap w !! this = Some nd → parents_ child = [this] →
  attach_child request child w = Done w' →
  ∃ child', name_ child' = name_ child ∧ children_ child' = children_ child
    ∧ heap w' = <[this := push_child (fresh_node w) nd]> (<[fresh_node w := child']> (heap w)).
Proof.
  intros Hthis Hparents H.
  assert (fresh_node w ≠ this) as Hne.
  { intros Heq. pose proof (fresh_node_free w) as Hfree. rewrite Heq in Hfree. congruence. }
  unfold attach_child, AddToParents in H.
  apply bind_Done in H as (child' & Hchild' & H). apply node_at_Done in Hchild'.
  assert (∃ w1, heap w1 = <[fresh_node w := child']> (heap w)
                ∧ add_to_parents (fresh_node w) (parents_ child') w1 = Done w'
                ∧ name_ child' = name_ child ∧ children_ child' = children_ child
                ∧ parents_ child' = parents_ child) as (w1 & Hw1 & Hadd & Hname & Hch & Hps).
  { destruct (request_node request) as [node|]; simpl in Hchild';
      rewrite lookup_insert_eq in Hchild'; simplify_eq; eexists; (split; [|done]); done. }
  exists child'. split; [done|]. split; [done|].
  rewrite Hps, Hparents in Hadd. simpl in Hadd.
  apply bind_Done in Hadd as (pd & Hpd & Hadd). apply node_at_Done in Hpd.
  rewrite Hw1, lookup_insert_ne in Hpd by done. simplify_eq. simpl. by rewrite Hw1.
Qed.

Lemma AddChild_success (this : ptr) (request : AddChildRequest) (w w' : World) :
  AddChild this request w = Done (ReplySuccess, w') →
  ∃ nd name child,
    heap w !! this = Some nd ∧ name_among name (children_ nd) w = Done false
    ∧ name_ child = name ∧ children_ child = []
    ∧ heap w' = <[this := push_child (fresh_node w) nd]> (<[fresh_node w := child]> (heap w)).
Proof.
  unfold AddChild. intros H.
  apply bind_Done in H as (nd & Hnd & H). apply node_at_Done in Hnd.
  destruct (driver_binder_ nd) as [binder|]; [|by simplify_eq].
  destruct (args_name _) as [name|]; [|by simplify_eq].
  destruct (contains_char _ _); [by simplify_eq|].
  apply bind_Done in H as (found & Hfound & H).
  destruct found; [by simplify_eq|].
  apply bind_Done in H as (child & Hchild & H).
  destruct (new_Node_host name this [] (Some binder) w nd Hnd)
    as (child' & Hnew & _ & Hname & Hparents & Hch).
  rewrite Hnew in Hchild. simplify_eq.
  destruct (check_offers _ _) as [|offers]; [by simplify_eq|].
  destruct (check_symbols _ _ _) as [|syms]; [by simplify_eq|].
  apply bind_Done in H as (w1 & Hattach & H). simplify_eq.
  eapply attach_child_heap in Hattach as (child' & Hname & Hch' & Hheap); [|done|done].
  exists nd, (name_ child), child'. simpl in *. rewrite Hch' at 1. done.
Qed.

Lemma AddToCompositeArgs_heap (name : string) (info : MatchedCompositeInfo) (w w1 : World)
    (r : status nat) :
  AddToCompositeArgs name info w = (r, w1) → heap w1 = heap w.
Proof.
  unfold AddToCompositeArgs. intros H.
  destruct (node_index info) as [index|]; [|by simplify_eq].
  destruct (num_nodes info) as [num|]; [|by simplify_eq].
  destruct (decide (num ≤ index)%N); [by simplify_eq|].
  destruct (composite_driver_info info ≫= info_url) as [url|]; [|by simplify_eq].
  destruct (find_composite_args _ _ _ _ _ _) as [[it'|]|]; by simplify_eq.
Qed.

(** What [CreateCompositeNode] does to the store. *)
Lemma CreateCompositeNode_heap (node : ptr) (matched : MatchedCompositeInfo)
    (w w' : World) (r : status ptr) :
  CreateCompositeNode node matched w = Done (r, w') →
  (is_error r = true ∧ heap w' = heap w)
  ∨ ∃ composite,
      r = ok (fresh_node w) ∧ heap w' !! fresh_node w = Some composite
      ∧ name_ composite = "composite" ∧ children_ composite = []
      ∧ ∀ x, x ≠ fresh_node w →
             heap w' !! x
             = add_children (occurrences x (parents_ composite)) (fresh_node w) <$> heap w !! x.
Proof.
  intros Hcall. pose proof Hcall as H. unfold CreateCompositeNode in H.
  run_inv H. rename a into nd. apply node_at_Done in Hrun.
  destruct (AddToCompositeArgs (name_ nd) matched w) as [[it|s] w1] eqn:Hadd.
  2:{ left. apply AddToCompositeArgs_heap in Hadd. by simplify_eq. }
  destruct (AddToCompositeArgs_ok _ _ _ _ _ Hadd)
    as (index & num & url & nodes & args & Hindex & Hnum & Hlt & Hurl & -> & Hit & Hlen).
  assert (@lookup nat (string * CompositeArgs) _ _ it
            (composite_args_ (with_composite_args args w)) = Some (url, nodes)) as Hit'
    by exact Hit.
  rewrite Hit', Hindex in H.
  destruct (lock_all _ _) as [parents|] eqn:Hlock.
  2:{ left. by simplify_eq. }
  right. apply mapM_Some in Hlock.
  assert (Forall2 (λ weak p, lock weak w = Some p) (<[N.to_nat index := Some node]> nodes)
            parents) as Hlocked.
  { eapply Forall2_impl; [exact Hlock|]. intros weak p Hw. simpl in Hw.
    rewrite <- Hw. symmetry. by apply lock_ext. }
  destruct (CreateCompositeNode_creates node matched w _ nd it url nodes index parents
              Hrun Hadd eq_refl Hit Hindex Hlocked)
    as (w'' & composite & Hrun' & _ & _ & Hc & Hname & Hparents & Hch & Hrest).
  rewrite Hrun' in Hcall. simplify_eq.
  by exists composite.
Qed.

Lemma tidy_same_heap (w w' : World) : heap w' = heap w → tidy w → tidy w'.
Proof.
  intros Hheap [Halive Hunique]. split.
  - intros n nd c. rewrite Hheap. apply Halive.
  - intros n nd. unfold child_names. rewrite Hheap. apply Hunique.
Qed.

Lemma new_DriverRunner_tidy : tidy new_DriverRunner.
Proof.
  split.
  - intros n nd c Hn Hc. simpl in Hn. apply lookup_singleton_Some in Hn as [_ <-].
    by apply elem_of_nil in Hc.
  - intros n nd Hn. simpl in Hn. apply lookup_singleton_Some in Hn as [_ <-]. constructor.
Qed.

Lemma AddChild_keeps_tidy (this : ptr) (request : AddChildRequest) (w w' : World)
    (reply : Reply) :
  AddChild this request w = Done (reply, w') → tidy w → tidy w'.
Proof.
  intros H Htidy. destruct reply as [|e].
  2:{ apply AddChild_error_keeps_world in H. by subst. }
  apply AddChild_success in H as (nd & name & child & Hnd & Hname & Hchild & Hch & Hheap).
  assert (this ≠ fresh_node w) as Hne.
  { intros Heq. pose proof (fresh_node_free w) as Hfree. rewrite <- Heq in Hfree. congruence. }
  apply (grow_keeps_tidy w w' (fresh_node w) child
           (λ x, if decide (x = this) then 1%nat else 0%nat)); try done.
  - apply fresh_node_free.
  - rewrite Hheap, lookup_insert_ne by done. apply lookup_insert_eq.
  - intros x Hx. rewrite Hheap. destruct (decide (x = this)) as [->|Hxt].
    + by rewrite lookup_insert_eq, Hnd.
    + rewrite !lookup_insert_ne by done.
      destruct (heap w !! x); simpl; [|done]. by rewrite add_children_0.
  - intros x xd Hx. destruct (decide (x = this)) as [->|Hxt]; [|split; [lia|done]].
    split; [lia|]. intros _ Hin. simplify_eq.
    apply list_elem_of_omap in Hin as (y & Hy & Hyname).
    destruct (heap w !! y) as [yd|] eqn:Hyd; simpl in Hyname; [|done].
    eapply name_among_false; [exact Hname|exact Hy|exact Hyd|]. congruence.
Qed.

(** A request for a child with no [Node] channel: the child goes to [Bind]. *)
Definition add_unowned (name : string) (controller : channel) : AddChildRequest :=
  mkAddChildRequest (mkNodeAddArgs (Some name) None None None) controller None.


(** * Further properties of the code *)

(** ** [Node::AddChild]: a request that passes every check *)

Lemma check_symbols_all_accepted (symbols : list NodeSymbol) :
  Forall symbol_accepted symbols → NoDup (symbol_names symbols) →
  check_symbols symbols ∅ [] = inr (store_symbol <$> symbols).
Proof.
  intros Hacc Hnd. rewrite <- (app_nil_r symbols) at 1.
  rewrite check_symbols_accepted; [done|done|done|set_solver].
Qed.

Lemma attach_child_Done (this : ptr) (request : AddChildRequest) (child nd : Node)
    (w : World) :
  heap w !! this = Some nd → parents_ child = [this] →
  let c := fresh_node w in
  let child' := set_controller_ref (request_controller request) child in
  attach_child request child w
  = Done (put_node this (push_child c nd)
            match request_node request with
            | Some node => put_node c (set_node_ref node child') w
            | None => Bind c (request_args request) (put_node c child' w)
            end).
Proof.
  intros Hthis Hparents c child'.
  assert (c ≠ this) as Hne.
  { intros Heq. pose proof (fresh_node_free w) as Hfree. fold c in Hfree.
    rewrite Heq in Hfree. congruence. }
  unfold attach_child, AddToParents. fold c. fold child'.
  destruct (request_node request) as [node|].
  - rewrite (proj2 (node_at_Done c _ (set_node_ref node child')))
      by apply lookup_insert_eq.
    simpl. rewrite Hparents. simpl.
    rewrite (proj2 (node_at_Done this _ nd)); [done|].
    simpl. by rewrite lookup_insert_ne.
  - rewrite (proj2 (node_at_Done c _ child')) by apply lookup_insert_eq.
    simpl. rewrite Hparents. simpl.
    rewrite (proj2 (node_at_Done this _ nd)); [done|].
    simpl. by rewrite lookup_insert_ne.
Qed.

(** X1.  A request on a node which is not being removed, with a name without
    dot which no child has, with offers that have a source name and no
    reference, and with symbols that have a name and an address and differ in
    their names, is answered with success.  The child is a new object: it has
    the name, this node for its only parent, no children, the driver host and
    the binder of this node, the offers, properties and symbols of the request
    in their order, and the controller of the request.  It is the last child
    of this node, and no other node changes.  With a [Node] channel in the
    request the child keeps it and no match request goes out; without one,
    exactly one match request for the child goes out. *)
Theorem AddChild_accepts (this : ptr) (request : AddChildRequest) (w : World) (nd : Node)
    (name : string) :
  heap w !! this = Some nd →
  (∀ c, c ∈ children_ nd → is_Some (heap w !! c)) →
  let args := request_args request in
  name_accepted w nd args name →
  Forall offer_accepted (default [] (args_offers args)) →
  Forall symbol_accepted (default [] (args_symbols args)) →
  NoDup (symbol_names (default [] (args_symbols args))) →
  ∃ w' child,
    AddChild this request w = Done (ReplySuccess, w')
    ∧ heap w !! fresh_node w = None
    ∧ heap w' !! fresh_node w = Some child
    ∧ name_ child = name ∧ parents_ child = [this] ∧ children_ child = []
    ∧ driver_host_ child = driver_host_ nd ∧ driver_binder_ child = driver_binder_ nd
    ∧ driver_component_ child = None ∧ collection_ child = kNone
    ∧ removal_in_progress_ child = false
    ∧ offers_ child = default [] (args_offers args)
    ∧ properties_ child = copy_property <$> default [] (args_properties args)
    ∧ symbols_ child = store_symbol <$> default [] (args_symbols args)
    ∧ controller_ref_ child = Some (request_controller request)
    ∧ node_ref_ child = request_node request
    ∧ heap w' !! this = Some (push_child (fresh_node w) nd)
    ∧ (∀ x, x ≠ fresh_node w → x ≠ this → heap w' !! x = heap w !! x)
    ∧ match_requests_ w'
      = match_requests_ w
        ++ match request_node request with
           | Some _ => []
           | None => [(fresh_node w, args)]
           end.
Proof.
  intros Hthis Hchildren args ([b Hb] & Hn & Hdot & Hfresh) Hoffers Hsyms Hnd.
  assert (fresh_node w ≠ this) as Hne.
  { intros Heq. pose proof (fresh_node_free w) as Hfree. rewrite Heq in Hfree. congruence. }
  unfold AddChild.
  rewrite (proj2 (node_at_Done _ _ _) Hthis). simpl. rewrite Hb.
  fold args. rewrite Hn, Hdot.
  rewrite (name_among_absent name w (children_ nd) Hchildren Hfresh). simpl.
  unfold new_Node. simpl.
  rewrite (proj2 (node_at_Done _ _ _) Hthis). simpl.
  rewrite check_offers_all_accepted by done.
  rewrite check_symbols_all_accepted by done. simpl.
  rewrite (attach_child_Done this request _ nd w Hthis) by reflexivity. simpl.
  destruct (request_node request) as [node|] eqn:Hnode;
    eexists _, _; (split; [reflexivity|]); (split; [apply fresh_node_free|]); simpl;
    rewrite lookup_insert_ne by done; rewrite !lookup_insert_eq;
    (split; [reflexivity|]); simpl; rewrite ?app_nil_r;
    repeat (split; [done|]);
    (split; [|done]);
    intros x Hx Hxt; by rewrite !lookup_insert_ne.
Qed.

Lemma AddChild_accepts_witness :
  ∃ w', AddChild root_address (add_unowned "a" 10%positive) new_DriverRunner
        = Done (ReplySuccess, w')
        ∧ children_ <$> heap w' !! root_address = Some [2%positive]
        ∧ fst <$> match_requests_ w' = [2%positive].
Proof.
  destruct (AddChild_accepts root_address (add_unowned "a" 10%positive) new_DriverRunner
              (plain "root" [] [] None) "a")
    as (w' & child & Hrun & _ & _ & _ & _ & _ & _ & _ & _ & _ & _ & _ & _ & _ & _ & _
        & Hroot & _ & Hrequests).
  - reflexivity.
  - intros c Hc. by apply elem_of_nil in Hc.
  - split; [by eexists|]. split; [reflexivity|]. split; [reflexivity|].
    intros c cd Hc. by apply elem_of_nil in Hc.
  - constructor.
  - constructor.
  - constructor.
  - exists w'. split; [exact Hrun|]. split.
    + rewrite Hroot. reflexivity.
    + rewrite Hrequests. reflexivity.
Defined.


(** ** [Node::Remove], then [Node::AddChild] *)

(** [m] is [n], or a node below [n] along the children. *)
Inductive below (w : World) (n : ptr) : ptr → Prop :=
| below_here : below w n n
| below_child (m : ptr) (md : Node) (c : ptr) :
    below w n m → heap w !! m = Some md → c ∈ children_ md → below w n c.

Lemma settled_below (E : ptr → Prop) (w : World) (k : nat) (n m : ptr) :
  settled E w k n → below w n m → ∃ k', settled E w k' m.
Proof.
  intros Hn. induction 1 as [|m md c _ IH Hm Hc]; [by exists k|].
  destruct IH as [k' Hs]. inversion Hs as [j x xd Hx _ _ _ Hcs]; subst.
  exists j. apply Hcs. by simplify_eq.
Qed.

(** X2.  When [Remove] has returned, the node and every node which is still
    below it are being removed and have lost their binder: [AddChild] on any
    of them is answered with [kNodeRemoved] and attaches nothing. *)
Theorem Remove_closes_subtree (fuel : nat) (n : ptr) (w w' : World) (m : ptr)
    (request : AddChildRequest) :
  distinct_children w → Remove fuel n w = Done w' → below w' n m →
  (∃ md, heap w' !! m = Some md ∧ removal_in_progress_ md = true
         ∧ driver_binder_ md = None)
  ∧ AddChild m request w' = Done (ReplyError kNodeRemoved, w').
Proof.
  intros Hd Hrun Hbelow.
  pose proof (proj2 (Remove_keeps_and_settles fuel) n w w' Hd Hrun) as Hs.
  destruct (settled_below _ _ _ _ _ Hs Hbelow) as [k Hm].
  inversion Hm as [j x md Hx Hr _ Hrest _]; subst.
  destruct (Hrest (λ H, H)) as [Hb _].
  split; [by exists md|].
  unfold AddChild. rewrite (proj2 (node_at_Done _ _ _) Hx). simpl. by rewrite Hb.
Qed.

Lemma Remove_closes_subtree_witness :
  ∃ w', Remove 3 root_address world_diamond = Done w'
        ∧ AddChild 4%positive (add_unowned "late" 10%positive) w'
          = Done (ReplyError kNodeRemoved, w').
Proof.
  assert (distinct_children world_diamond) as Hd
    by (apply distinct_children_decide; vm_compute; reflexivity).
  eexists. split; [vm_compute; reflexivity|].
  refine (proj2 (Remove_closes_subtree 3 root_address world_diamond _ 4%positive
                   (add_unowned "late" 10%positive) Hd _ _)).
  - vm_compute. reflexivity.
  - eapply (below_child _ _ 2%positive); [|vm_compute; reflexivity|left].
    eapply (below_child _ _ root_address); [apply below_here|vm_compute; reflexivity|left].
Defined.


(** ** [Node::TopoName] *)

(** The nodes from [n] up to a node without parents, along the primary
    parents. *)
Inductive primary_chain (w : World) : ptr → list ptr → Prop :=
| chain_root (n : ptr) (nd : Node) :
    heap w !! n = Some nd → parents_ nd = [] → primary_chain w n [n]
| chain_step (n : ptr) (nd : Node) (p : ptr) (ps l : list ptr) :
    heap w !! n = Some nd → parents_ nd = p :: ps → primary_chain w p l →
    primary_chain w n (n :: l).

(** The names along a chain, the topmost node first. *)
Definition chain_names (w : World) (l : list ptr) : list string :=
  omap (λ x, name_ <$> heap w !! x) (reverse l).

Lemma primary_chain_head (w : World) (n : ptr) (l : list ptr) :
  primary_chain w n l → ∃ l', l = n :: l'.
Proof. destruct 1; by eexists. Qed.

Lemma primary_chain_alive (w : World) (n : ptr) (l : list ptr) :
  primary_chain w n l → ∀ x, x ∈ l → is_Some (heap w !! x).
Proof.
  induction 1 as [n nd Hn _|n nd p ps l Hn _ _ IH]; intros x Hx.
  - apply list_elem_of_singleton in Hx as ->. by eexists.
  - apply elem_of_cons in Hx as [->|Hx]; [by eexists|by apply IH].
Qed.

Lemma primary_chain_det (w : World) (n : ptr) (l l' : list ptr) :
  primary_chain w n l → primary_chain w n l' → l = l'.
Proof.
  intros H. revert l'. induction H as [n nd Hn Hps|n nd p ps l Hn Hps _ IH]; intros l' H'.
  - inversion H' as [? nd' Hn' Hps'|? nd' p' ps' l0 Hn' Hps' Hrest]; subst; [done|].
    rewrite Hn in Hn'. injection Hn' as <-. congruence.
  - inversion H' as [? nd' Hn' Hps'|? nd' p' ps' l0 Hn' Hps' Hrest]; subst;
      rewrite Hn in Hn'; injection Hn' as <-; [congruence|].
    rewrite Hps in Hps'. injection Hps' as <- <-. f_equal. by apply IH.
Qed.

Lemma primary_chain_suffix (w : World) (n m : ptr) (l1 l2 : list ptr) :
  primary_chain w n (l1 ++ m :: l2) → primary_chain w m (m :: l2).
Proof.
  revert n. induction l1 as [|x l1 IH]; intros n H; simpl in H.
  - destruct (primary_chain_head _ _ _ H) as [l' Heq]. by simplify_eq.
  - inversion H as [? ? ? ? Heq|? ? ? ? ? ? ? Hrest]; simplify_eq.
    + by destruct l1.
    + by eapply IH.
Qed.

Lemma primary_chain_NoDup (w : World) (n : ptr) (l : list ptr) :
  primary_chain w n l → NoDup l.
Proof.
  induction 1 as [n nd Hn Hps|n nd p ps l Hn Hps Hl IH]; [apply NoDup_singleton|].
  apply NoDup_cons. split; [|done].
  intros Hin. apply list_elem_of_split in Hin as (l1 & l2 & ->).
  pose proof (chain_step w n nd p ps _ Hn Hps Hl) as Hfull.
  pose proof (primary_chain_suffix w n n (n :: l1) l2 Hfull) as Hshort.
  pose proof (primary_chain_det _ _ _ _ Hfull Hshort) as Heq.
  apply (f_equal length) in Heq. simpl in Heq. rewrite length_app in Heq. simpl in Heq. lia.
Qed.

Lemma primary_chain_length (w : World) (n : ptr) (l : list ptr) :
  primary_chain w n l → (length l ≤ size (heap w))%nat.
Proof.
  intros H. rewrite <- size_dom, <- (size_list_to_set (C := gset ptr) l)
    by by eapply primary_chain_NoDup.
  apply subseteq_size. intros x Hx. apply elem_of_list_to_set in Hx.
  apply elem_of_dom. by eapply primary_chain_alive.
Qed.

Lemma chain_names_cons (w : World) (n : ptr) (nd : Node) (l : list ptr) :
  heap w !! n = Some nd → chain_names w (n :: l) = chain_names w l ++ [name_ nd].
Proof.
  intros Hn. unfold chain_names. rewrite reverse_cons, omap_app. f_equal.
  simpl. by rewrite Hn.
Qed.

Lemma topo_names_chain (w : World) (n : ptr) (l : list ptr) (fuel : nat)
    (names : list string) :
  primary_chain w n l → (length l ≤ fuel)%nat →
  topo_names fuel (Some n) w names = Done (chain_names w l ++ names).
Proof.
  intros H. revert fuel names.
  induction H as [n nd Hn Hps|n nd p ps l Hn Hps _ IH]; intros [|fuel] names Hle;
    simpl in Hle; try lia; simpl;
    rewrite (proj2 (node_at_Done _ _ _) Hn); simpl; rewrite Hps; simpl.
  - destruct fuel; unfold chain_names; simpl; by rewrite Hn.
  - rewrite IH by lia. rewrite (chain_names_cons w n nd l Hn), <- app_assoc. done.
Qed.

Lemma topo_names_Done (w : World) (fuel : nat) (n : ptr) (names r : list string) :
  topo_names fuel (Some n) w names = Done r → ∃ l, primary_chain w n l.
Proof.
  revert n names. induction fuel as [|fuel IH]; intros n names H; [done|].
  simpl in H. apply bind_Done in H as (nd & Hn & H). apply node_at_Done in Hn.
  destruct (parents_ nd) as [|p ps] eqn:Hps; simpl in H.
  - exists [n]. by eapply chain_root.
  - destruct (IH _ _ H) as [l Hl]. exists (n :: l). by eapply chain_step.
Qed.

Lemma TopoName_iff_chain (n : ptr) (w : World) (name : string) :
  TopoName n w = Done name
  ↔ ∃ l, primary_chain w n l ∧ name = JoinStrings (chain_names w l) ".".
Proof.
  unfold TopoName. split.
  - intros H. apply bind_Done in H as (names & Hnames & H).
    destruct (topo_names_Done _ _ _ _ _ Hnames) as [l Hl]. exists l. split; [done|].
    rewrite (topo_names_chain w n l) in Hnames.
    + rewrite app_nil_r in Hnames. by simplify_eq.
    + done.
    + unfold walk_fuel. pose proof (primary_chain_length _ _ _ Hl). lia.
  - intros (l & Hl & ->). rewrite (topo_names_chain w n l).
    + simpl. by rewrite app_nil_r.
    + done.
    + unfold walk_fuel. pose proof (primary_chain_length _ _ _ Hl). lia.
Qed.

(** X3.  [TopoName] returns for exactly the nodes from which the primary
    parents lead to a node without parents, and what it returns are the names
    along that way, from the topmost node down to the node itself, joined with
    dots. *)
Theorem TopoName_chain (n : ptr) (w : World) (name : string) :
  TopoName n w = Done name
  ↔ ∃ l, primary_chain w n l ∧ name = JoinStrings (chain_names w l) ".".
Proof. apply TopoName_iff_chain. Qed.

Lemma TopoName_chain_witness : TopoName 2%positive world_one_child = Done "root.disk".
Proof.
  apply (proj2 (TopoName_chain 2%positive world_one_child "root.disk")).
  exists [2; 1]%positive. split; [|reflexivity].
  eapply chain_step; [reflexivity|reflexivity|].
  eapply chain_root; reflexivity.
Defined.

Lemma string_append_assoc (a b c : string) : ((a +:+ b) +:+ c = a +:+ b +:+ c)%string.
Proof.
  induction a as [|x a IH]; [done|].
  change (String x ((a +:+ b) +:+ c) = String x (a +:+ b +:+ c))%string. by rewrite IH.
Qed.

Lemma JoinStrings_snoc (names : list string) (name sep : string) :
  names ≠ [] →
  JoinStrings (names ++ [name]) sep = (JoinStrings names sep +:+ sep +:+ name)%string.
Proof.
  unfold JoinStrings. induction names as [|x names IH]; intros Hne; [done|].
  destruct names as [|y names]; [done|].
  change (String.concat sep ((x :: y :: names) ++ [name]))
    with (x +:+ sep +:+ String.concat sep ((y :: names) ++ [name]))%string.
  rewrite IH by done.
  change (String.concat sep (x :: y :: names))
    with (x +:+ sep +:+ String.concat sep (y :: names))%string.
  by rewrite !string_append_assoc.
Qed.

(** The nodes of [w] are in [w'] with the same name and parents. *)
Definition keeps_names_and_parents (w w' : World) : Prop :=
  ∀ x xd, heap w !! x = Some xd →
    ∃ xd', heap w' !! x = Some xd' ∧ name_ xd' = name_ xd ∧ parents_ xd' = parents_ xd.

Lemma primary_chain_kept (w w' : World) (n : ptr) (l : list ptr) :
  keeps_names_and_parents w w' → primary_chain w n l →
  primary_chain w' n l ∧ chain_names w' l = chain_names w l.
Proof.
  intros Hkeep. induction 1 as [n nd Hn Hps|n nd p ps l Hn Hps _ [IHl IHn]];
    destruct (Hkeep _ _ Hn) as (nd' & Hn' & Hname & Hps').
  - split; [apply (chain_root w' n nd' Hn'); by rewrite Hps'|].
    unfold chain_names. simpl. rewrite Hn, Hn'. simpl. by rewrite Hname.
  - split; [apply (chain_step w' n nd' p ps l Hn'); [by rewrite Hps'|done]|].
    rewrite (chain_names_cons w' n nd'), (chain_names_cons w n nd) by done.
    by rewrite IHn, Hname.
Qed.

Lemma chain_names_nonempty (w : World) (n : ptr) (l : list ptr) :
  primary_chain w n l → chain_names w l ≠ [].
Proof.
  destruct 1 as [n nd Hn _|n nd p ps l Hn _ _].
  - unfold chain_names. simpl. by rewrite Hn.
  - rewrite (chain_names_cons w n nd) by done. by destruct (chain_names w l).
Qed.

(** What a successful [AddChild] has attached. *)
Lemma AddChild_attached (this : ptr) (request : AddChildRequest) (w w' : World) :
  AddChild this request w = Done (ReplySuccess, w') →
  ∃ nd name child,
    heap w !! this = Some nd ∧ args_name (request_args request) = Some name
    ∧ name_ child = name ∧ parents_ child = [this]
    ∧ heap w' = <[this := push_child (fresh_node w) nd]> (<[fresh_node w := child]> (heap w)).
Proof.
  unfold AddChild. intros H.
  apply bind_Done in H as (nd & Hnd & H). apply node_at_Done in Hnd.
  destruct (driver_binder_ nd) as [binder|]; [|by simplify_eq].
  destruct (args_name _) as [name|]; [|by simplify_eq].
  destruct (contains_char _ _); [by simplify_eq|].
  apply bind_Done in H as (found & Hfound & H).
  destruct found; [by simplify_eq|].
  apply bind_Done in H as (child & Hchild & H).
  destruct (new_Node_host name this [] (Some binder) w nd Hnd)
    as (child' & Hnew & _ & Hname & Hparents & Hch).
  rewrite Hnew in Hchild. simplify_eq.
  destruct (check_offers _ _) as [|offers]; [by simplify_eq|].
  destruct (check_symbols _ _ _) as [|syms]; [by simplify_eq|].
  apply bind_Done in H as (w1 & Hattach & H). simplify_eq.
  rewrite (attach_child_Done this request _ nd w Hnd) in Hattach by done.
  exists nd, (name_ child). simplify_eq.
  destruct (request_node request); eexists; (split; [done|]); (split; [done|]);
    (split; [|split; [|reflexivity]]); done.
Qed.

(** X4.  The child which [AddChild] has attached to a node has the
    topological name of that node, a dot, and the name of the request. *)
Theorem AddChild_TopoName (this : ptr) (request : AddChildRequest) (w w' : World)
    (parent_name name : string) :
  AddChild this request w = Done (ReplySuccess, w') →
  TopoName this w = Done parent_name →
  args_name (request_args request) = Some name →
  TopoName (fresh_node w) w' = Done (parent_name +:+ "." +:+ name)%string
  ∧ TopoName this w' = Done parent_name.
Proof.
  intros Hadd Hparent Hname.
  apply AddChild_attached in Hadd as (nd & name' & child & Hnd & Hname' & Hcn & Hps & Hheap).
  simplify_eq.
  apply TopoName_iff_chain in Hparent as (l & Hl & ->).
  assert (this ≠ fresh_node w) as Hne.
  { intros Heq. pose proof (fresh_node_free w) as Hfree. rewrite <- Heq in Hfree. congruence. }
  assert (keeps_names_and_parents w w') as Hkeep.
  { intros x xd Hx. rewrite Hheap. destruct (decide (x = this)) as [->|Hxt].
    - rewrite lookup_insert_eq. simplify_eq. by eexists.
    - rewrite lookup_insert_ne by done.
      rewrite lookup_insert_ne; [by eexists|].
      intros <-. pose proof (fresh_node_free w). congruence. }
  destruct (primary_chain_kept w w' this l Hkeep Hl) as [Hl' Hnames].
  assert (heap w' !! fresh_node w = Some child) as Hc.
  { rewrite Hheap, lookup_insert_ne by done. apply lookup_insert_eq. }
  split.
  - apply TopoName_iff_chain. exists (fresh_node w :: l). split.
    + by eapply chain_step.
    + rewrite (chain_names_cons w' _ child) by done.
      rewrite JoinStrings_snoc by (by eapply chain_names_nonempty).
      by rewrite Hnames.
  - apply TopoName_iff_chain. exists l. by rewrite Hnames.
Qed.

Lemma AddChild_TopoName_witness :
  ∃ w', AddChild 2%positive (add_unowned "part" 10%positive) world_one_child
        = Done (ReplySuccess, w')
        ∧ TopoName 3%positive w' = Done "root.disk.part".
Proof.
  eexists. split; [vm_compute; reflexivity|].
  refine (proj1 (AddChild_TopoName 2%positive (add_unowned "part" 10%positive)
                   world_one_child _ "root.disk" "part" _ _ _)).
  - vm_compute. reflexivity.
  - vm_compute. reflexivity.
  - reflexivity.
Defined.


(** ** [DriverRunner::Start]: the token is good for one request *)

(** X5.  Once a [Start] request with the token [k] has returned, whatever its
    outcome, every further request with the same token is closed with
    [ZX_ERR_UNAVAILABLE] and changes nothing. *)
Theorem Start_token_single_use (request request' : StartRequest) (env env' : StartEnv)
    (w w' : World) (h h' : HandleInfo) (k : koid) (r : option zx_status_t) :
  token_koid request h k → token_koid request' h' k →
  Start request env w = Done (r, w') →
  driver_args_ w' !! k = None
  ∧ Start request' env' w' = Done (Some ZX_ERR_UNAVAILABLE, w').
Proof.
  intros Htok Htok' H.
  assert (driver_args_ w' !! k = None) as Hgone.
  { destruct (driver_args_ w !! k) as [node|] eqn:Hk.
    - rewrite (Start_consumes_token request env w w' h k r Htok) by (by rewrite ?Hk).
      apply lookup_delete_eq.
    - rewrite (Start_at_token request env w h k Htok), Hk in H. by simplify_eq. }
  split; [done|].
  by rewrite (Start_at_token request' env' w' h' k Htok'), Hgone.
Qed.

Lemma Start_token_single_use_witness :
  ∃ w', Start colocated_request quiet_env world_root_token
        = Done (Some ZX_ERR_INVALID_ARGS, w')
        ∧ Start colocated_request quiet_env w' = Done (Some ZX_ERR_UNAVAILABLE, w').
Proof.
  eexists. split; [reflexivity|].
  refine (proj2 (Start_token_single_use colocated_request colocated_request quiet_env quiet_env
                   world_root_token _ (mkHandleInfo (mkHandle true ZX_OK 7%N) kTokenId)
                   (mkHandleInfo (mkHandle true ZX_OK 7%N) kTokenId) 7%N
                   (Some ZX_ERR_INVALID_ARGS) _ _ _)).
  - repeat split.
  - repeat split.
  - reflexivity.
Defined.


(** ** [Node::CreateOffers]: what it returns and what it changes *)

(** The offer with its source taken out. *)
Definition without_source (offer : Offer) : Offer :=
  VisitOffer_mut offer (λ d, mkOfferDecl None (source_name d) (target d) (target_name d)).

(** [b] is [a] but for the sources of its offers. *)
Definition node_but_sources (a b : Node) : Prop :=
  set_offers (offers_ a) b = a
  ∧ without_source <$> offers_ b = without_source <$> offers_ a.

(** [w'] is [w] but for the sources of the offers in its nodes. *)
Definition but_sources (w w' : World) : Prop :=
  with_heap (heap w) w' = w
  ∧ ∀ x, option_Forall2 node_but_sources (heap w !! x) (heap w' !! x).

Lemma but_sources_refl (w : World) : but_sources w w.
Proof.
  split; [by destruct w|]. intros x. destruct (heap w !! x) as [nd|]; constructor.
  split; [by destruct nd|done].
Qed.

Lemma but_sources_trans (a b c : World) : but_sources a b → but_sources b c → but_sources a c.
Proof.
  intros [Hab Hnab] [Hbc Hnbc]. split.
  - rewrite <- Hab, <- Hbc. done.
  - intros x. specialize (Hnab x). specialize (Hnbc x).
    destruct Hnab as [na nb [Hna Hoa]|]; inversion Hnbc as [nb' nc [Hnb Hob]|]; subst;
      constructor.
    split; [|congruence].
    rewrite <- Hna, <- Hnb. done.
Qed.

Lemma assign_source_without (s : ptr) (w : World) (offer o : Offer) :
  assign_source s w offer = Done o → without_source o = without_source offer.
Proof.
  intros H. destruct offer; simpl in H;
    try (apply bind_Done in H as (name & _ & H); apply bind_Done in H as (sd & _ & H));
    by simplify_eq.
Qed.

Lemma assign_sources_without (s : ptr) (w : World) (offers os : list Offer) :
  assign_sources s w offers = Done os → without_source <$> os = without_source <$> offers.
Proof.
  revert os. induction offers as [|offer offers IH]; intros os H; simpl in H.
  - by simplify_eq.
  - apply bind_Done in H as (o & Ho & H). apply bind_Done in H as (os' & Hos & H).
    simplify_eq. simpl. f_equal; [by eapply assign_source_without|by apply IH].
Qed.

Lemma but_sources_set_offers (owner : ptr) (od : Node) (os : list Offer) (w : World) :
  heap w !! owner = Some od → without_source <$> os = without_source <$> offers_ od →
  but_sources w (put_node owner (set_offers os od) w).
Proof.
  intros Ho Hos. split.
  - unfold put_node. by destruct w.
  - intros x. unfold put_node. simpl. destruct (decide (owner = x)) as [<-|Hne].
    + rewrite lookup_insert_eq, Ho. constructor. split; [by destruct od|done].
    + rewrite lookup_insert_ne by done. destruct (heap w !! x) as [nd|]; constructor.
      split; [by destruct nd|done].
Qed.

(** The offers the loop reads for the parent [p]. *)
Definition offers_for (w : World) (n : ptr) (nd : Node) (p : ptr) : list Offer :=
  if decide (length (parents_ nd) = 1%nat) then offers_ nd
  else default [] (offers_ <$> heap w !! p).

Lemma create_offers_loop_shape (n : ptr) (nd : Node) (w0 : World) (ps : list ptr)
    (acc : list Offer) (w : World) (offers : list Offer) (w' : World) :
  heap w0 !! n = Some nd → but_sources w0 w →
  create_offers_loop n ps (acc, w) = Done (offers, w') →
  without_source <$> offers
  = (without_source <$> acc) ++ (without_source <$> (ps ≫= offers_for w0 n nd))
  ∧ but_sources w0 w'.
Proof.
  intros Hn0. revert acc w.
  induction ps as [|p ps IH]; intros acc w Hbut H; simpl in H.
  - simplify_eq. by rewrite app_nil_r.
  - apply bind_Done in H as ([acc1 w1] & Hone & H).
    unfold create_offers_of in Hone.
    apply bind_Done in Hone as (s & Hs & Hone).
    apply bind_Done in Hone as (nd' & Hnd' & Hone). apply node_at_Done in Hnd'.
    apply bind_Done in Hone as (od & Hod & Hone). apply node_at_Done in Hod.
    apply bind_Done in Hone as (parent_offers & Hassign & Hone).
    apply assign_sources_without in Hassign. simplify_eq.
    assert (parents_ nd' = parents_ nd ∧ without_source <$> offers_ nd'
                                         = without_source <$> offers_ nd) as [Hps Hnos].
    { pose proof (proj2 Hbut n) as Hx. rewrite Hn0, Hnd' in Hx.
      inversion Hx as [a b [Ha Hb]|]; subst. split; [|done]. by rewrite <- Ha. }
    assert (without_source <$> offers_ od = without_source <$> offers_for w0 n nd p) as Hod0.
    { unfold offers_for. rewrite Hps in Hod.
      destruct (decide (length (parents_ nd) = 1%nat)).
      - rewrite Hnd' in Hod. by simplify_eq.
      - pose proof (proj2 Hbut p) as Hx. rewrite Hod in Hx.
        destruct (heap w0 !! p) as [pd0|]; inversion Hx as [a b [Ha Hb]|]; by subst. }
    apply IH in H as [Hshape Hbut'].
    + split; [|done]. rewrite Hshape. rewrite fmap_app, <- app_assoc. f_equal.
      simpl. rewrite fmap_app. f_equal. by rewrite Hassign.
    + eapply but_sources_trans; [exact Hbut|]. by apply but_sources_set_offers.
Qed.

Lemma CreateOffers_Done (n : ptr) (w : World) (offers : list Offer) (w' : World) :
  CreateOffers n w = Done (offers, w') →
  ∃ nd, heap w !! n = Some nd
        ∧ without_source <$> offers
          = without_source <$> (parents_ nd ≫= offers_for w n nd)
        ∧ but_sources w w'.
Proof.
  unfold CreateOffers. intros H.
  apply bind_Done in H as (nd & Hnd & H). apply node_at_Done in Hnd.
  exists nd. split; [done|].
  by apply (create_offers_loop_shape n nd w (parents_ nd) [] w offers w' Hnd
              (but_sources_refl w)).
Qed.

(** X6.  [CreateOffers] returns, in their order, the offers stored in the
    node when it has one parent, and otherwise the offers stored in each of
    its parents, in the order of the parents; the offers differ from the
    stored ones in their source only.  In the store nothing changes but the
    sources of stored offers. *)
Theorem CreateOffers_shape (n : ptr) (w : World) (offers : list Offer) (w' : World) :
  CreateOffers n w = Done (offers, w') →
  ∃ nd, heap w !! n = Some nd
        ∧ without_source <$> offers
          = without_source <$> (parents_ nd ≫= offers_for w n nd)
        ∧ but_sources w w'.
Proof. apply CreateOffers_Done. Qed.

Lemma CreateOffers_shape_witness :
  ∃ offers w', CreateOffers 2%positive world_boot_root = Done (offers, w')
    ∧ without_source <$> offers
      = [OfferProtocol (mkOfferDecl None (Some "fuchsia.hardware.block") None None)].
Proof.
  assert (∃ offers w', CreateOffers 2%positive world_boot_root = Done (offers, w'))
    as (offers & w' & Hrun) by (eexists _, _; vm_compute; reflexivity).
  exists offers, w'. split; [exact Hrun|].
  destruct (CreateOffers_shape _ _ _ _ Hrun) as (nd & Hnd & -> & _).
  vm_compute in Hnd. injection Hnd as <-. reflexivity.
Defined.


(** ** [DriverRunner::StartDriver] *)

Lemma but_sources_node (w w' : World) (x : ptr) (nd' : Node) :
  but_sources w w' → heap w' !! x = Some nd' →
  ∃ nd, heap w !! x = Some nd ∧ node_but_sources nd nd'.
Proof.
  intros [_ Hn] Hx. specialize (Hn x). rewrite Hx in Hn.
  destruct (heap w !! x) as [nd|]; inversion Hn; subst. by exists nd.
Qed.

Lemma but_sources_node_forth (w w' : World) (x : ptr) (nd : Node) :
  but_sources w w' → heap w !! x = Some nd →
  ∃ nd', heap w' !! x = Some nd' ∧ node_but_sources nd nd'.
Proof.
  intros [_ Hn] Hx. specialize (Hn x). rewrite Hx in Hn.
  destruct (heap w' !! x) as [nd'|]; inversion Hn; subst. by exists nd'.
Qed.

Lemma TopoName_put_same_shape (n x : ptr) (xd xd' : Node) (w : World) :
  heap w !! x = Some xd → name_ xd' = name_ xd → parents_ xd' = parents_ xd →
  TopoName n (put_node x xd' w) = TopoName n w.
Proof.
  intros Hx Hname Hps. unfold TopoName, walk_fuel.
  assert (size (heap (put_node x xd' w)) = size (heap w)) as ->
    by (apply map_size_insert_Some; by eexists).
  f_equal. generalize (S (size (heap w))) (Some n) (@nil string).
  intros fuel. induction fuel as [|fuel IH]; intros [m|] names; try done.
  simpl. unfold node_at, put_node. simpl.
  destruct (decide (x = m)) as [->|Hne].
  - rewrite lookup_insert_eq, Hx. simpl. by rewrite Hname, Hps, IH.
  - rewrite lookup_insert_ne by done. destruct (heap w !! m); simpl; [apply IH|done].
Qed.

Lemma StartDriver_Done (node : ptr) (url : string) (env : TokenEnv) (w w' : World)
    (r : status ()) :
  StartDriver node url env w = Done (r, w') →
  (event_create_status env ≠ ZX_OK → r = error (event_create_status env) ∧ w' = w)
  ∧ (event_create_status env = ZX_OK → event_info_status env ≠ ZX_OK →
       r = error (event_info_status env) ∧ w' = w)
  ∧ (event_create_status env = ZX_OK → event_info_status env = ZX_OK →
       let collection := if String.prefix kBootScheme url then kBoot else kPackage in
       r = ok ()
       ∧ collection_ <$> heap w' !! node = Some collection
       ∧ driver_args_ w' = emplace (event_koid env) node (driver_args_ w)
       ∧ ∃ nd w1 name offers,
           heap w !! node = Some nd
           ∧ but_sources (put_node node (set_collection collection nd) w) w1
           ∧ TopoName node w = Done name
           ∧ w' = with_driver_args (emplace (event_koid env) node (driver_args_ w1))
                    (emit (EvCreateChild (CollectionName collection) name url
                             (Some offers) (Some (event_koid env))) w1)).
Proof.
  unfold StartDriver. intros H.
  destruct (decide (event_create_status env ≠ ZX_OK)) as [Hc|Hc].
  { simplify_eq. by repeat split. }
  destruct (decide (event_info_status env ≠ ZX_OK)) as [Hi|Hi].
  { simplify_eq. by repeat split. }
  split; [done|]. split; [done|]. intros _ _. cbv zeta.
  apply bind_Done in H as (nd & Hnd & H). apply node_at_Done in Hnd.
  apply bind_Done in H as (name & Hname & H).
  rewrite (TopoName_put_same_shape node node nd _ w Hnd) in Hname by done.
  apply bind_Done in H as ([create w2] & Hcreate & H).
  unfold CreateComponent in Hcreate. simpl in Hcreate.
  apply bind_Done in Hcreate as ([dynamic_offers w1] & Hoffers & Hcreate).
  apply bind_Done in Hoffers as ([offers w1'] & Hoffers & Heq).
  apply CreateOffers_Done in Hoffers as (nd1 & Hnd1 & _ & Hbut).
  simplify_eq.
  destruct (but_sources_node_forth _ _ node _ Hbut Hnd1) as (nd' & Hnd' & [Hsame _]).
  assert (driver_args_ w1 = driver_args_ w ∧ trace w1 = trace w) as [Hargs Htrace].
  { destruct Hbut as [Hw _]. apply (f_equal driver_args_) in Hw as Ha.
    apply (f_equal trace) in Hw as Ht. by simpl in *. }
  split; [done|]. split; [|split].
  - simpl. rewrite Hnd'. simpl.
    unfold put_node in Hnd1. simpl in Hnd1. rewrite lookup_insert_eq in Hnd1.
    simplify_eq. apply (f_equal collection_) in Hsame. simpl in Hsame. by rewrite Hsame.
  - simpl. by rewrite Hargs.
  - by exists nd, w1, name, offers.
Qed.

(** X7.  [StartDriver] gives up with the status of the kernel, and leaves
    everything as it was, when the token event cannot be made or identified.
    Otherwise it succeeds whenever it returns: the node is put into the
    collection of boot drivers if the URL begins with the boot scheme and into
    that of package drivers if not, one component is requested from the realm
    in that collection, under the topological name of the node and with the
    token, and the token is registered for the node unless it is registered
    already. *)
Theorem StartDriver_registers (node : ptr) (url : string) (env : TokenEnv) (w w' : World)
    (r : status ()) :
  StartDriver node url env w = Done (r, w') →
  (event_create_status env ≠ ZX_OK → r = error (event_create_status env) ∧ w' = w)
  ∧ (event_create_status env = ZX_OK → event_info_status env ≠ ZX_OK →
       r = error (event_info_status env) ∧ w' = w)
  ∧ (event_create_status env = ZX_OK → event_info_status env = ZX_OK →
       let collection := if String.prefix kBootScheme url then kBoot else kPackage in
       r = ok ()
       ∧ collection_ <$> heap w' !! node = Some collection
       ∧ driver_args_ w' = emplace (event_koid env) node (driver_args_ w)
       ∧ ∃ name offers,
           TopoName node w = Done name
           ∧ trace w' = trace w ++ [EvCreateChild (CollectionName collection) name url
                                      (Some offers) (Some (event_koid env))]).
Proof.
  intros H. destruct (StartDriver_Done _ _ _ _ _ _ H) as (Hcreate & Hinfo & Hok).
  split; [exact Hcreate|]. split; [exact Hinfo|].
  intros Hc Hi.
  destruct (Hok Hc Hi) as (Hr & Hcoll & Hargs & nd & w1 & name & offers & _ & Hbut & Hname & ->).
  split; [done|]. split; [done|]. split; [done|].
  exists name, offers. split; [done|]. simpl. f_equal.
  destruct Hbut as [Hw _]. apply (f_equal trace) in Hw. by simpl in Hw.
Qed.

Definition boot_url : string := "fuchsia-boot:///#meta/root.cm".
Definition token_seven : TokenEnv := mkTokenEnv ZX_OK ZX_OK 7%N.

Lemma StartDriver_registers_witness :
  ∃ w', StartRootDriver boot_url token_seven new_DriverRunner = Done (ok (), w')
        ∧ collection_ <$> heap w' !! root_address = Some kBoot
        ∧ driver_args_ w' !! 7%N = Some root_address.
Proof.
  assert (∃ r w', StartDriver root_address boot_url token_seven new_DriverRunner
                  = Done (r, w')) as (r & w' & Hrun)
    by (eexists _, _; vm_compute; reflexivity).
  destruct (StartDriver_registers _ _ _ _ _ _ Hrun) as (_ & _ & Hok).
  destruct (Hok eq_refl eq_refl) as (-> & Hcoll & Hargs & _).
  exists w'. split; [exact Hrun|]. split; [exact Hcoll|].
  rewrite Hargs. reflexivity.
Defined.

(** ** [StartDriver], then [CreateOffers] on a child *)

Lemma TopoName_kept (w w' : World) (n : ptr) (name : string) :
  keeps_names_and_parents w w' → TopoName n w = Done name → TopoName n w' = Done name.
Proof.
  intros Hkeep H. apply TopoName_iff_chain in H as (l & Hl & ->).
  destruct (primary_chain_kept w w' n l Hkeep Hl) as [Hl' Hnames].
  apply TopoName_iff_chain. exists l. by rewrite Hnames.
Qed.

Lemma assign_sources_Done (s : ptr) (sd : Node) (name : string) (w : World)
    (offers : list Offer) :
  heap w !! s = Some sd → TopoName s w = Done name →
  assign_sources s w offers
  = Done ((λ o, VisitOffer_mut o
                  (set_source (RefChild (mkChildRef name (CollectionName (collection_ sd))))))
          <$> offers).
Proof.
  intros Hs Hname. induction offers as [|o offers IH]; [done|].
  simpl. rewrite IH.
  assert (assign_source s w o
          = Done (VisitOffer_mut o
                    (set_source (RefChild (mkChildRef name (CollectionName (collection_ sd)))))))
    as ->; [|done].
  destruct o; simpl; rewrite ?Hname; simpl;
    rewrite ?(proj2 (node_at_Done _ _ _) Hs); done.
Qed.

(** X8.  After [StartDriver] has succeeded on a node, [CreateOffers] on a
    node which has it for its only parent returns: the search for the source
    stops at the parent, and every offer of the child of a known kind gets the
    parent for its source, by its topological name and the name of the
    collection [StartDriver] has put it in. *)
Theorem CreateOffers_after_StartDriver (p c : ptr) (url : string) (env : TokenEnv)
    (w w1 : World) (cd : Node) :
  StartDriver p url env w = Done (ok (), w1) →
  heap w1 !! c = Some cd → parents_ cd = [p] →
  ∃ name w2,
    TopoName p w = Done name
    ∧ let source_ref :=
        RefChild (mkChildRef name
                    (CollectionName (if String.prefix kBootScheme url then kBoot else kPackage))) in
      CreateOffers c w1
      = Done ((λ o, VisitOffer_mut o (set_source source_ref)) <$> offers_ cd, w2).
Proof.
  intros Hstart Hc Hps.
  destruct (StartDriver_Done _ _ _ _ _ _ Hstart) as (Hcreate & Hinfo & Hok).
  destruct (decide (event_create_status env = ZX_OK)) as [Hc1|Hc1];
    [|destruct (Hcreate Hc1) as [Hr _]; discriminate Hr].
  destruct (decide (event_info_status env = ZX_OK)) as [Hc2|Hc2];
    [|destruct (Hinfo Hc1 Hc2) as [Hr _]; discriminate Hr].
  destruct (Hok Hc1 Hc2) as (_ & Hcoll & _ & nd & w0 & name & offers & Hnd & Hbut & Hname & Hw1).
  assert (heap w1 = heap w0) as Hheap by (by rewrite Hw1).
  destruct (heap w1 !! p) as [pd|] eqn:Hp; [|done]. simpl in Hcoll.
  assert (keeps_names_and_parents w w1) as Hkeep.
  { intros x xd Hx.
    assert (∃ xd0, heap (put_node p (set_collection
                     (if String.prefix kBootScheme url then kBoot else kPackage) nd) w) !! x
                   = Some xd0 ∧ name_ xd0 = name_ xd ∧ parents_ xd0 = parents_ xd)
      as (xd0 & Hx0 & Hn0 & Hp0).
    { unfold put_node. simpl. destruct (decide (p = x)) as [<-|Hne].
      - rewrite lookup_insert_eq. simplify_eq. by eexists.
      - rewrite lookup_insert_ne by done. by eexists. }
    destruct (but_sources_node_forth _ _ _ _ Hbut Hx0) as (xd1 & Hx1 & [Hsame _]).
    rewrite <- Hheap in Hx1. exists xd1. split; [done|]. rewrite <- Hn0, <- Hp0, <- Hsame. done. }
  exists name. eexists. split; [done|]. cbv zeta.
  unfold CreateOffers. rewrite (proj2 (node_at_Done _ _ _) Hc). simpl. rewrite Hps.
  cbn [create_offers_loop]. unfold create_offers_of.
  assert (find_source (walk_fuel w1) (Some p) w1 = Done p) as ->.
  { unfold walk_fuel. simpl. rewrite (proj2 (node_at_Done _ _ _) Hp). simpl.
    rewrite decide_False; [done|]. injection Hcoll as Hcoll'. rewrite Hcoll'.
    by destruct (String.prefix kBootScheme url). }
  cbn [mbind Outcome_bind]. rewrite (proj2 (node_at_Done _ _ _) Hc).
  cbn [mbind Outcome_bind]. rewrite Hps. simpl length. rewrite decide_True by done.
  rewrite (proj2 (node_at_Done _ _ _) Hc). cbn [mbind Outcome_bind].
  rewrite (assign_sources_Done p pd name w1) by (done || by eapply TopoName_kept).
  cbn [mbind Outcome_bind]. injection Hcoll as ->. reflexivity.
Qed.

Definition pkg_url : string := "fuchsia-pkg://fuchsia.com/disk#meta/disk.cm".

(** [world_boot_root] after a package driver has been started on the root. *)
Definition world_pkg_root : World :=
  match StartDriver root_address pkg_url token_seven world_boot_root with
  | Done (_, w1) => w1
  | _ => world_boot_root
  end.

Lemma CreateOffers_after_StartDriver_witness :
  ∃ w2, CreateOffers 2%positive world_pkg_root
        = Done ([OfferProtocol
                   (mkOfferDecl (Some (RefChild (mkChildRef "root" "pkg-drivers")))
                      (Some "fuchsia.hardware.block") None None)], w2).
Proof.
  assert (StartDriver root_address pkg_url token_seven world_boot_root
          = Done (ok (), world_pkg_root)) as Hstart by (vm_compute; reflexivity).
  destruct (CreateOffers_after_StartDriver root_address 2%positive pkg_url token_seven
              world_boot_root world_pkg_root
              (set_offers [OfferProtocol (mkOfferDecl None (Some "fuchsia.hardware.block")
                                            None None)]
                 (plain "disk" [1%positive] [] None)) Hstart)
    as (name & w2 & Hname & Hrun).
  - vm_compute. reflexivity.
  - reflexivity.
  - vm_compute in Hname. injection Hname as <-.
    exists w2. exact Hrun.
Defined.


(** ** [DriverRunner::Bind]: the callback, for a driver with a URL *)

Lemma StartDriver_fails (node : ptr) (url : string) (env : TokenEnv) (w : World) :
  event_create_status env ≠ ZX_OK ∨ event_info_status env ≠ ZX_OK →
  ∃ s, StartDriver node url env w = Done (error s, w).
Proof.
  intros Hfail. unfold StartDriver.
  destruct (decide (event_create_status env ≠ ZX_OK)); [by eexists|].
  destruct (decide (event_info_status env ≠ ZX_OK)); [by eexists|].
  by destruct Hfail.
Qed.

(** X9.  The callback of [Bind], when the index has matched a driver with a
    URL.  If the node has been freed in the meantime nothing happens.  If
    [StartDriver] cannot make its token, the node is put among the orphans,
    and [OnBind] is sent to its controller all the same.  If the callback
    returns after [StartDriver] has made its token, the node is not orphaned,
    the token is registered for it, one component has been requested, and
    [OnBind] is sent after that. *)
Theorem match_callback_driver (node : ptr) (driver_info : MatchedDriverInfo) (url : string)
    (env : TokenEnv) (w : World) :
  info_url driver_info = Some url →
  let result := MatchResponse (IsDriver driver_info) in
  let notified nd :=
    match controller_ref_ nd with Some _ => [EvOnBind node] | None => [] end in
  (heap w !! node = None → match_callback node result env w = Done w)
  ∧ (∀ nd, heap w !! node = Some nd →
       event_create_status env ≠ ZX_OK ∨ event_info_status env ≠ ZX_OK →
       ∃ w', match_callback node result env w = Done w'
             ∧ orphaned_nodes_ w' = orphaned_nodes_ w ++ [node]
             ∧ heap w' = heap w ∧ driver_args_ w' = driver_args_ w
             ∧ trace w' = trace w ++ notified nd)
  ∧ (∀ nd w', heap w !! node = Some nd →
       event_create_status env = ZX_OK → event_info_status env = ZX_OK →
       match_callback node result env w = Done w' →
       orphaned_nodes_ w' = orphaned_nodes_ w
       ∧ driver_args_ w' = emplace (event_koid env) node (driver_args_ w)
       ∧ ∃ name offers collection,
           trace w' = trace w ++ EvCreateChild collection name url (Some offers)
                                   (Some (event_koid env)) :: notified nd).
Proof.
  intros Hurl result notified. subst result. unfold match_callback, lock.
  split; [by intros ->|]. split.
  - intros nd Hnd Hfail. rewrite Hnd, Hurl. unfold start_matched.
    destruct (StartDriver_fails node url env w Hfail) as [s ->]. simpl.
    unfold OnBind, node_at. simpl. rewrite Hnd. simpl. unfold notified.
    destruct (controller_ref_ nd); eexists; (split; [reflexivity|]); simpl;
      rewrite ?app_nil_r; done.
  - intros nd w' Hnd Hc Hi H. rewrite Hnd, Hurl in H. unfold start_matched in H.
    apply bind_Done in H as ([r w1] & Hstart & H).
    destruct (StartDriver_Done _ _ _ _ _ _ Hstart) as (_ & _ & Hok).
    destruct (Hok Hc Hi)
      as (-> & _ & Hargs & nd0 & w0 & name & offers & Hnd0 & Hbut & _ & ->).
    simpl in H. unfold OnBind in H.
    apply bind_Done in H as (nd1 & Hnd1 & H). apply node_at_Done in Hnd1. simpl in Hnd1.
    assert (controller_ref_ nd1 = controller_ref_ nd) as Hctl.
    { simplify_eq.
      destruct (but_sources_node _ _ node nd1 Hbut Hnd1) as (x & Hx & [Hsame _]).
      unfold put_node in Hx. simpl in Hx. rewrite lookup_insert_eq in Hx. simplify_eq.
      apply (f_equal controller_ref_) in Hsame. simpl in Hsame. done. }
    assert (orphaned_nodes_ w0 = orphaned_nodes_ w ∧ trace w0 = trace w) as [Horph Htrace].
    { destruct Hbut as [Hw _]. apply (f_equal orphaned_nodes_) in Hw as Ho.
      apply (f_equal trace) in Hw as Ht. by simpl in *. }
    unfold notified. rewrite <- Hctl.
    destruct (controller_ref_ nd1); simplify_eq; simpl;
      (split; [done|]); (split; [done|]); eexists name, offers, _;
      rewrite Htrace; rewrite <- ?app_assoc; simpl; rewrite ?app_nil_r; reflexivity.
Qed.

Lemma match_callback_driver_witness :
  ∃ w', match_callback 2%positive (MatchResponse (IsDriver (mkMatchedDriverInfo (Some boot_url))))
          (mkTokenEnv ZX_ERR_UNAVAILABLE ZX_OK 7%N) world_one_child = Done w'
        ∧ orphaned_nodes_ w' = [2%positive] ∧ trace w' = [].
Proof.
  destruct (proj1 (proj2 (match_callback_driver 2%positive (mkMatchedDriverInfo (Some boot_url))
                            boot_url (mkTokenEnv ZX_ERR_UNAVAILABLE ZX_OK 7%N)
                            world_one_child eq_refl))
              (hosted "disk" [1%positive] [] None []) eq_refl)
    as (w' & Hrun & Horph & _ & _ & Htrace).
  - left. discriminate.
  - exists w'. split; [exact Hrun|]. split; [exact Horph|exact Htrace].
Defined.


(** ** [DriverRunner::ScheduleBaseDriversBinding]: the orphans are matched again *)

(** The nodes are the same but for the sources of their offers. *)
Definition heap_but_sources (h h' : gmap ptr Node) : Prop :=
  ∀ x, option_Forall2 node_but_sources (h !! x) (h' !! x).

Lemma heap_but_sources_refl (h : gmap ptr Node) : heap_but_sources h h.
Proof. intros x. apply (proj2 (but_sources_refl (mkWorld h ∅ 1%positive [] [] ∅ [] 0%N [] []))). Qed.

Lemma heap_but_sources_trans (a b c : gmap ptr Node) :
  heap_but_sources a b → heap_but_sources b c → heap_but_sources a c.
Proof.
  intros Hab Hbc x. specialize (Hab x). specialize (Hbc x).
  destruct Hab as [na nb [Hna Hoa]|]; inversion Hbc as [nb' nc [Hnb Hob]|]; subst;
    constructor.
  split; [|congruence]. rewrite <- Hna, <- Hnb. done.
Qed.

Lemma heap_but_sources_alive (h h' : gmap ptr Node) (x : ptr) :
  heap_but_sources h h' → is_Some (h' !! x) ↔ is_Some (h !! x).
Proof.
  intros H. specialize (H x). destruct H; split; intros [? ?]; (done || by eexists).
Qed.

(** What a match request says of the node it is for. *)
Definition request_of (w : World) (r : ptr * NodeAddArgs) : Prop :=
  ∃ nd, heap w !! r.1 = Some nd
        ∧ args_name r.2 = Some (name_ nd)
        ∧ args_properties r.2 = Some (properties_ nd)
        ∧ args_symbols r.2 = Some (symbols_ nd).

Lemma request_of_back (w w' : World) (r : ptr * NodeAddArgs) :
  heap_but_sources (heap w) (heap w') → request_of w' r → request_of w r.
Proof.
  intros Hh (nd' & Hr & Hname & Hprops & Hsyms). specialize (Hh r.1). rewrite Hr in Hh.
  inversion Hh as [nd b [Hsame _] Heq|]; subst.
  exists nd. split; [done|]. rewrite <- Hsame. done.
Qed.

Lemma bind_orphans_Done (orphans : list ptr) (w w' : World) :
  bind_orphans orphans w = Done w' →
  heap_but_sources (heap w) (heap w')
  ∧ orphaned_nodes_ w' = orphaned_nodes_ w
  ∧ ∃ new, match_requests_ w' = match_requests_ w ++ new
           ∧ new.*1 = filter (λ n, is_Some (heap w !! n)) orphans
           ∧ Forall (request_of w) new.
Proof.
  revert w. induction orphans as [|n orphans IH]; intros w H; simpl in H.
  - simplify_eq. split; [apply heap_but_sources_refl|]. split; [done|].
    exists []. by rewrite app_nil_r.
  - rewrite filter_cons. unfold lock in H.
    destruct (heap w !! n) as [nd|] eqn:Hn.
    + rewrite decide_True by (by eexists).
      apply bind_Done in H as ([args w1] & Hargs & H).
      unfold CreateAddArgs in Hargs.
      apply bind_Done in Hargs as (nd' & Hnd' & Hargs). apply node_at_Done in Hnd'.
      apply bind_Done in Hargs as ([offers w1'] & Hoffers & Hargs). simplify_eq.
      apply CreateOffers_Done in Hoffers as (_ & _ & _ & Hw & Hh).
      apply IH in H as (Hh' & Horph & new & Hreq & Hfst & Hall). simpl in *.
      assert (heap_but_sources (heap w) (heap w')) as Hheap
        by (by eapply heap_but_sources_trans).
      split; [done|]. split.
      { rewrite Horph. apply (f_equal orphaned_nodes_) in Hw. by simpl in Hw. }
      exists ((n, mkNodeAddArgs (Some (name_ nd)) (Some offers) (Some (properties_ nd))
                    (Some (symbols_ nd))) :: new).
      split; [|split].
      * rewrite Hreq, <- app_assoc. simpl. f_equal.
        apply (f_equal match_requests_) in Hw. by simpl in Hw.
      * rewrite fmap_cons. cbn [fst]. f_equal. rewrite Hfst. apply list_filter_iff.
        intros x.
        by apply heap_but_sources_alive.
      * constructor; [by exists nd|].
        eapply Forall_impl; [exact Hall|]. intros r. by apply request_of_back.
    + rewrite decide_False by (by intros [? ?]). by apply IH.
Qed.

(** X10.  When the index reports that the base drivers are there, the list of
    orphans is emptied, and one match request goes out for each orphan which
    still exists, in the order of the list, under the name and with the
    properties and symbols of the node; orphans which have been freed are
    dropped.  Of the nodes only the sources of their offers change.  When the
    wait has failed nothing happens. *)
Theorem base_drivers_callback_rebinds (w w' : World) :
  base_drivers_callback false w = Done w
  ∧ (base_drivers_callback true w = Done w' →
       orphaned_nodes_ w' = []
       ∧ heap_but_sources (heap w) (heap w')
       ∧ ∃ new, match_requests_ w' = match_requests_ w ++ new
                ∧ new.*1 = filter (λ n, is_Some (heap w !! n)) (orphaned_nodes_ w)
                ∧ Forall (request_of w) new).
Proof.
  split; [done|]. unfold base_drivers_callback. intros H.
  apply bind_orphans_Done in H as (Hheap & Horph & new & Hreq & Hfst & Hall).
  split; [done|]. split; [done|]. by exists new.
Qed.

Lemma base_drivers_callback_rebinds_witness :
  ∃ w', base_drivers_callback true (with_orphaned_nodes [2; 5]%positive world_boot_root) = Done w'
        ∧ orphaned_nodes_ w' = [] ∧ (match_requests_ w').*1 = [2%positive].
Proof.
  assert (∃ w', base_drivers_callback true (with_orphaned_nodes [2; 5]%positive world_boot_root)
                = Done w') as [w' Hrun] by (eexists; vm_compute; reflexivity).
  destruct (proj2 (base_drivers_callback_rebinds _ w') Hrun)
    as (Horph & _ & new & Hreq & Hfst & _).
  exists w'. split; [exact Hrun|]. split; [exact Horph|].
  rewrite Hreq. simpl. rewrite Hfst. vm_compute. reflexivity.
Defined.


(** ** [DriverRunner::AddToCompositeArgs]: which pending set a node goes to *)

Lemma find_composite_args_first (url : string) (index num : N) (w : World)
    (entries : list (string * CompositeArgs)) (position : nat) (found : option nat) :
  find_composite_args url index num w entries position = ok found →
  (∀ j nodes, (j < default (length entries) ((λ it, it - position)%nat <$> found))%nat →
     entries !! j = Some (url, nodes) →
     N.of_nat (length nodes) = num ∧ expired (slot_at index nodes) w = false)
  ∧ match found with
    | Some it =>
        (position ≤ it)%nat
        ∧ ∃ nodes, entries !! (it - position)%nat = Some (url, nodes)
                   ∧ N.of_nat (length nodes) = num
                   ∧ expired (slot_at index nodes) w = true
    | None => True
    end.
Proof.
  revert position. induction entries as [|[key nodes] entries IH]; intros position H.
  - simpl in H. simplify_eq. split; [|done]. simpl. intros j nodes Hj. lia.
  - simpl in H.
    assert (find_composite_args url index num w entries (S position) = ok found →
            (key = url → N.of_nat (length nodes) = num
                         ∧ expired (slot_at index nodes) w = false) →
            (∀ j nodes0,
               (j < default (length ((key, nodes) :: entries))
                      ((λ it, it - position)%nat <$> found))%nat →
               ((key, nodes) :: entries) !! j = Some (url, nodes0) →
               N.of_nat (length nodes0) = num ∧ expired (slot_at index nodes0) w = false)
            ∧ match found with
              | Some it =>
                  (position ≤ it)%nat
                  ∧ ∃ nodes0, ((key, nodes) :: entries) !! (it - position)%nat
                              = Some (url, nodes0)
                              ∧ N.of_nat (length nodes0) = num
                              ∧ expired (slot_at index nodes0) w = true
              | None => True
              end) as Hrest.
    { intros H' Hhead. destruct (IH _ H') as [Hbefore Hat]. split.
      - intros [|j] nodes0 Hj Hl; simpl in Hl.
        + simplify_eq. by apply Hhead.
        + apply (Hbefore j); [|done].
          destruct found as [it|]; simpl in *; [|lia].
          destruct Hat as [Hle _]. lia.
      - destruct found as [it|]; [|done].
        destruct Hat as (Hle & nodes0 & Hl & Hn & He).
        split; [lia|]. exists nodes0.
        replace (it - position)%nat with (S (it - S position)) by lia. done. }
    destruct (decide (key = url)) as [->|Hne]; [|apply Hrest; [done|by intros ?]].
    destruct (decide (N.of_nat (length nodes) ≠ num)) as [|Heq]; [done|].
    assert (N.of_nat (length nodes) = num) as Hlen
      by (by destruct (decide (N.of_nat (length nodes) = num))).
    destruct (expired (slot_at index nodes) w) eqn:Hexp; [|by apply Hrest].
    simplify_eq. simpl. rewrite Nat.sub_diag. split; [intros j nodes0 Hj; lia|].
    split; [done|]. by exists nodes.
Qed.

Lemma AddToCompositeArgs_ok_free (name : string) (info : MatchedCompositeInfo)
    (w w1 : World) (it : nat) :
  AddToCompositeArgs name info w = (ok it, w1) →
  ∃ index num url nodes,
    node_index info = Some index ∧ num_nodes info = Some num
    ∧ composite_driver_info info ≫= info_url = Some url
    ∧ composite_args_ w1 !! it = Some (url, nodes)
    ∧ N.of_nat (length nodes) = num ∧ (index < num)%N
    ∧ expired (slot_at index nodes) w = true
    ∧ (∀ j nodes', (j < it)%nat → composite_args_ w !! j = Some (url, nodes') →
         expired (slot_at index nodes') w = false)
    ∧ (w1 = w
       ∨ (it = length (composite_args_ w)
          ∧ nodes = replicate (N.to_nat num) None
          ∧ w1 = with_composite_args (composite_args_ w ++ [(url, nodes)]) w)).
Proof.
  unfold AddToCompositeArgs. intros H.
  destruct (node_index info) as [index|]; [|by simplify_eq].
  destruct (num_nodes info) as [num|]; [|by simplify_eq].
  destruct (decide (num ≤ index)%N); [by simplify_eq|].
  destruct (composite_driver_info info ≫= info_url) as [url|]; [|by simplify_eq].
  destruct (find_composite_args _ _ _ _ _ _) as [[it'|]|] eqn:Hfind; [| |by simplify_eq].
  - simplify_eq.
    apply find_composite_args_first in Hfind as (Hbefore & _ & nodes & Hl & Hn & He).
    simpl in Hbefore. rewrite Nat.sub_0_r in Hl, Hbefore.
    exists index, num, url, nodes. repeat (split; [done || lia|]).
    split; [|by left]. intros j nodes' Hj Hl'. by apply (Hbefore j).
  - simplify_eq. apply find_composite_args_first in Hfind as [Hbefore _].
    simpl in Hbefore.
    exists index, num, url, (replicate (N.to_nat num) None).
    split; [done|]. split; [done|]. split; [done|]. split.
    { simpl. rewrite lookup_app_r by done. by rewrite Nat.sub_diag. }
    split; [rewrite length_replicate; lia|]. split; [lia|]. split.
    { assert (slot_at index (replicate (N.to_nat num) (None : option ptr)) = None) as ->;
        [|done].
      unfold slot_at, CompositeArgs. by rewrite lookup_replicate_2 by lia. }
    split; [|by right]. intros j nodes' Hj Hl'. by apply (Hbefore j).
Qed.

(** X11.  When [AddToCompositeArgs] returns a pending set, the node index is
    below the number of nodes of the match, the set has that many slots, and
    its slot for the node index holds no living node: that slot is free for
    the node.  Either the set was there and nothing has changed, or it is
    new, behind the sets which were there, with every slot empty.  Under
    which key the set is found or stored is left open here: the code takes
    the key from [url().get().data()], the bytes at the URL up to the first
    NUL, where [find_composite_args] compares the URL as it is. *)
Theorem AddToCompositeArgs_first_free (name : string) (info : MatchedCompositeInfo)
    (w w1 : World) (it : nat) :
  AddToCompositeArgs name info w = (ok it, w1) →
  ∃ index num key nodes,
    node_index info = Some index ∧ num_nodes info = Some num ∧ (index < num)%N
    ∧ composite_args_ w1 !! it = Some (key, nodes)
    ∧ N.of_nat (length nodes) = num
    ∧ expired (slot_at index nodes) w = true
    ∧ (w1 = w
       ∨ (it = length (composite_args_ w)
          ∧ nodes = replicate (N.to_nat num) None
          ∧ w1 = with_composite_args (composite_args_ w ++ [(key, nodes)]) w)).
Proof.
  intros H.
  destruct (AddToCompositeArgs_ok_free _ _ _ _ _ H)
    as (index & num & url & nodes & Hindex & Hnum & _ & Hit & Hlen & Hlt & Hfree & _ & Hw1).
  exists index, num, url, nodes. by split_and!.
Qed.

Lemma AddToCompositeArgs_first_free_witness :
  ∃ key nodes,
    AddToCompositeArgs "b" (slot_of_X 1) world_X_pending = (ok 0%nat, world_X_pending)
    ∧ composite_args_ world_X_pending !! 0%nat = Some (key, nodes)
    ∧ length nodes = 2%nat
    ∧ expired (slot_at 1 nodes) world_X_pending = true.
Proof.
  assert (AddToCompositeArgs "b" (slot_of_X 1) world_X_pending = (ok 0%nat, world_X_pending))
    as Hrun by (vm_compute; reflexivity).
  destruct (AddToCompositeArgs_first_free _ _ _ _ _ Hrun)
    as (index & num & key & nodes & Hi & Hn & _ & Hl & Hlen & He & _).
  injection Hi as <-. injection Hn as <-.
  exists key, nodes. split; [exact Hrun|]. split; [exact Hl|]. split; [lia|exact He].
Defined.


(** ** [DriverRunner::CreateCompositeNode]: the nodes which wait, and malformed matches *)

Lemma find_composite_args_error (url : string) (index num : N) (w : World)
    (entries : list (string * CompositeArgs)) (position : nat) (s : zx_status_t) :
  find_composite_args url index num w entries position = error s → s = ZX_ERR_INVALID_ARGS.
Proof.
  revert position. induction entries as [|[key nodes] entries IH]; intros position H;
    simpl in H; [done|].
  destruct (decide (key = url)); [|by eapply IH].
  destruct (decide _); [by simplify_eq|].
  destruct (expired _ _); [done|by eapply IH].
Qed.

Lemma AddToCompositeArgs_error (name : string) (info : MatchedCompositeInfo) (w w1 : World)
    (s : zx_status_t) :
  AddToCompositeArgs name info w = (error s, w1) → s = ZX_ERR_INVALID_ARGS ∧ w1 = w.
Proof.
  unfold AddToCompositeArgs. intros H.
  destruct (node_index info) as [index|]; [|by simplify_eq].
  destruct (num_nodes info) as [num|]; [|by simplify_eq].
  destruct (decide (num ≤ index)%N); [by simplify_eq|].
  destruct (composite_driver_info info ≫= info_url) as [url|]; [|by simplify_eq].
  destruct (find_composite_args _ _ _ _ _ _) as [[it'|]|s'] eqn:Hfind; try by simplify_eq.
  apply find_composite_args_error in Hfind. by simplify_eq.
Qed.

(** X12.  A call of [CreateCompositeNode] which answers [ZX_ERR_NEXT] has
    stored the node in a slot of a pending set and has displaced no living
    node: every node which waits in a slot of a pending set and still exists
    is in the same slot of the same set afterwards.  The nodes and the orphans
    are unchanged. *)
Theorem CreateCompositeNode_keeps_waiting (node : ptr) (matched : MatchedCompositeInfo)
    (w w' : World) :
  CreateCompositeNode node matched w = Done (error ZX_ERR_NEXT, w') →
  heap w' = heap w ∧ orphaned_nodes_ w' = orphaned_nodes_ w
  ∧ (∃ j url nodes index,
       node_index matched = Some index
       ∧ composite_args_ w' !! j = Some (url, nodes)
       ∧ nodes !! N.to_nat index = Some (Some node))
  ∧ (∀ j url nodes i p,
       composite_args_ w !! j = Some (url, nodes) → nodes !! i = Some (Some p) →
       is_Some (heap w !! p) →
       ∃ nodes', composite_args_ w' !! j = Some (url, nodes')
                 ∧ nodes' !! i = Some (Some p)).
Proof.
  unfold CreateCompositeNode. intros H.
  apply bind_Done in H as (nd & Hnd & H).
  destruct (AddToCompositeArgs (name_ nd) matched w) as [[it|s] w1] eqn:Hadd.
  2:{ apply AddToCompositeArgs_error in Hadd as [-> _]. by simplify_eq. }
  destruct (AddToCompositeArgs_ok_free _ _ _ _ _ Hadd)
    as (index & num & url & nodes & Hindex & Hnum & Hurl & Hit & Hlen & Hlt & Hfree
        & _ & Hw1).
  assert (@lookup nat (string * CompositeArgs) _ _ it (composite_args_ w1)
          = Some (url, nodes)) as Hit' by exact Hit.
  rewrite Hit', Hindex in H.
  destruct (lock_all _ _) as [parents|]; [|simplify_eq].
  { apply bind_Done in H as (composite & _ & H). apply bind_Done in H as (w4 & _ & H).
    by simplify_eq. }
  assert (heap w1 = heap w ∧ orphaned_nodes_ w1 = orphaned_nodes_ w
          ∧ ∀ j e, composite_args_ w !! j = Some e → composite_args_ w1 !! j = Some e)
    as (Hheap & Horph & Hold).
  { destruct Hw1 as [->|(_ & _ & ->)]; [done|]. simpl.
    split; [done|]. split; [done|]. intros j e He. by apply lookup_app_l_Some. }
  assert (it < length (composite_args_ w1))%nat as Hbound by (by eapply lookup_lt_Some).
  assert (N.to_nat index < length nodes)%nat as Hslot by lia.
  simpl. unfold CompositeArgs in *. split; [done|]. split; [done|]. split.
  - exists it, url, (<[N.to_nat index := Some node]> nodes), index.
    split; [done|]. split; [by apply list_lookup_insert_eq|].
    by apply list_lookup_insert_eq.
  - intros j url' nodes' i p Hj Hi Halive.
    destruct (decide (j = it)) as [->|Hne].
    + assert (Some (url', nodes') = Some (url, nodes)) as Heq
        by exact (eq_trans (eq_sym (Hold _ _ Hj)) Hit).
      injection Heq as -> ->.
      exists (<[N.to_nat index := Some node]> nodes).
      split; [by apply list_lookup_insert_eq|].
      rewrite list_lookup_insert_ne; [done|]. intros <-.
      unfold expired, lock, slot_at, CompositeArgs in Hfree.
      rewrite Hi in Hfree. simpl in Hfree. destruct Halive as [pd Hp].
      by rewrite Hp in Hfree.
    + exists nodes'. split; [|done]. rewrite list_lookup_insert_ne by done. by apply Hold.
Qed.

Lemma CreateCompositeNode_keeps_waiting_witness :
  ∃ w' nodes', CreateCompositeNode 3%positive (slot_of_X 0) world_X_pending
               = Done (error ZX_ERR_NEXT, w')
               ∧ composite_args_ w' !! 0%nat = Some ("X", nodes')
               ∧ nodes' !! 0%nat = Some (Some 2%positive).
Proof.
  assert (∃ w', CreateCompositeNode 3%positive (slot_of_X 0) world_X_pending
                = Done (error ZX_ERR_NEXT, w')) as [w' Hrun]
    by (eexists; vm_compute; reflexivity).
  destruct (CreateCompositeNode_keeps_waiting _ _ _ _ Hrun) as (_ & _ & _ & Hkept).
  destruct (Hkept 0%nat "X" [Some 2%positive; None] 0%nat 2%positive)
    as (nodes' & Hset & Hslot).
  - reflexivity.
  - reflexivity.
  - by eexists.
  - by exists w', nodes'.
Defined.


Lemma find_composite_args_mismatch (url : string) (index num : N) (w : World)
    (entries : list (string * CompositeArgs)) (position j : nat) (nodes : CompositeArgs) :
  entries !! j = Some (url, nodes) → N.of_nat (length nodes) ≠ num →
  (∀ i nodes', (i < j)%nat → entries !! i = Some (url, nodes') →
     N.of_nat (length nodes') = num ∧ expired (slot_at index nodes') w = false) →
  find_composite_args url index num w entries position = error ZX_ERR_INVALID_ARGS.
Proof.
  revert position j. induction entries as [|[key nodes0] entries IH];
    intros position j Hj Hlen Hbefore; [done|].
  simpl. destruct j as [|j]; simpl in Hj.
  - simplify_eq. rewrite decide_True by done. by rewrite decide_True.
  - assert (find_composite_args url index num w entries (S position)
            = error ZX_ERR_INVALID_ARGS) as Hrest.
    { apply (IH _ j); [done|done|]. intros i nodes' Hi. apply (Hbefore (S i)). lia. }
    destruct (decide (key = url)) as [->|]; [|done].
    destruct (Hbefore 0%nat nodes0) as [Hn He]; [lia|done|].
    rewrite decide_False by (by intros ?). by rewrite He.
Qed.

(** A match which [AddToCompositeArgs] refuses: a field is missing, the index
    is out of range, or the first pending set under the URL whose slot could
    be taken, or any in front of it, has another number of slots. *)
Definition composite_info_refused (w : World) (matched : MatchedCompositeInfo) : Prop :=
  node_index matched = None ∨ num_nodes matched = None
  ∨ (∃ index num, node_index matched = Some index ∧ num_nodes matched = Some num
                  ∧ (num ≤ index)%N)
  ∨ composite_driver_info matched ≫= info_url = None
  ∨ ∃ index num url j nodes,
      node_index matched = Some index ∧ num_nodes matched = Some num
      ∧ composite_driver_info matched ≫= info_url = Some url
      ∧ composite_args_ w !! j = Some (url, nodes) ∧ N.of_nat (length nodes) ≠ num
      ∧ ∀ i nodes', (i < j)%nat → composite_args_ w !! i = Some (url, nodes') →
          N.of_nat (length nodes') = num ∧ expired (slot_at index nodes') w = false.

(** X13.  [CreateCompositeNode] on a match which [AddToCompositeArgs] refuses
    answers [ZX_ERR_INVALID_ARGS], puts the node at the end of the orphans and
    changes nothing else.  It has no other errors than this one and
    [ZX_ERR_NEXT]. *)
Theorem CreateCompositeNode_invalid (node : ptr) (matched : MatchedCompositeInfo)
    (w : World) (nd : Node) :
  heap w !! node = Some nd →
  (composite_info_refused w matched →
     CreateCompositeNode node matched w = Done (error ZX_ERR_INVALID_ARGS, orphaned node w))
  ∧ (∀ s w', CreateCompositeNode node matched w = Done (error s, w') →
       s = ZX_ERR_NEXT ∨ (s = ZX_ERR_INVALID_ARGS ∧ w' = orphaned node w)).
Proof.
  intros Hnd. split.
  - intros Hrefused. unfold CreateCompositeNode.
    rewrite (proj2 (node_at_Done _ _ _) Hnd). simpl.
    assert (AddToCompositeArgs (name_ nd) matched w = (error ZX_ERR_INVALID_ARGS, w)) as ->;
      [|done].
    unfold AddToCompositeArgs.
    destruct Hrefused as [->|[Hnum|[(index & num & -> & -> & Hle)|[Hurl|Hsize]]]]; [done| | | |].
    + rewrite Hnum. by destruct (node_index matched).
    + by rewrite decide_True.
    + rewrite Hurl. destruct (node_index matched), (num_nodes matched); try done.
      by destruct (decide _).
    + destruct Hsize as (index & num & url & j & nodes & -> & -> & -> & Hj & Hlen & Hbefore).
      destruct (decide _); [done|].
      by rewrite (find_composite_args_mismatch url index num w _ 0 j nodes).
  - intros s w' H. unfold CreateCompositeNode in H.
    rewrite (proj2 (node_at_Done _ _ _) Hnd) in H. simpl in H.
    destruct (AddToCompositeArgs (name_ nd) matched w) as [[it|s'] w1] eqn:Hadd.
    + destruct (AddToCompositeArgs_ok_free _ _ _ _ _ Hadd)
        as (index & num & url & nodes & Hindex & _ & _ & Hit & _).
      assert (@lookup nat (string * CompositeArgs) _ _ it (composite_args_ w1)
              = Some (url, nodes)) as Hit' by exact Hit.
      rewrite Hit', Hindex in H.
      destruct (lock_all _ _) as [parents|]; [|left; by simplify_eq].
      apply bind_Done in H as (composite & _ & H). apply bind_Done in H as (w4 & _ & H).
      by simplify_eq.
    + apply AddToCompositeArgs_error in Hadd as [-> ->]. right. by simplify_eq.
Qed.

Lemma CreateCompositeNode_invalid_witness :
  CreateCompositeNode 2%positive (slot_of_X 2) world_two_children
  = Done (error ZX_ERR_INVALID_ARGS, orphaned 2%positive world_two_children).
Proof.
  refine (proj1 (CreateCompositeNode_invalid 2%positive (slot_of_X 2) world_two_children
                   (hosted "a" [1%positive] [] None []) eq_refl) _).
  right. right. left. exists 2%N, 2%N. split; [reflexivity|]. split; [reflexivity|]. lia.
Defined.


(** ** [DriverRunner::StartDriverHost]: the names of the driver hosts *)

(** The name under which an event asks the realm for a driver host. *)
Definition host_request (e : Event) : option string :=
  match e with
  | EvCreateChild collection name _ _ _ =>
      if decide (collection = CollectionName kHost) then Some name else None
  | _ => None
  end.

Definition host_requests (t : list Event) : list string := omap host_request t.

(** [w'] comes after [w] without a request for a driver host. *)
Definition quiet (w w' : World) : Prop :=
  next_driver_host_id_ w' = next_driver_host_id_ w
  ∧ ∃ new, trace w' = trace w ++ new ∧ host_requests new = [].

Lemma quiet_same (w w' : World) :
  next_driver_host_id_ w' = next_driver_host_id_ w → trace w' = trace w → quiet w w'.
Proof. intros Hn Ht. split; [done|]. exists []. by rewrite app_nil_r. Qed.

Lemma quiet_refl (w : World) : quiet w w.
Proof. by apply quiet_same. Qed.

Lemma quiet_trans (a b c : World) : quiet a b → quiet b c → quiet a c.
Proof.
  intros [Hn1 (l1 & Ht1 & Hq1)] [Hn2 (l2 & Ht2 & Hq2)]. split; [congruence|].
  exists (l1 ++ l2). split; [by rewrite Ht2, Ht1, app_assoc|].
  unfold host_requests in *. by rewrite omap_app, Hq1, Hq2.
Qed.

Lemma quiet_emit (e : Event) (w : World) : host_request e = None → quiet w (emit e w).
Proof.
  intros He. split; [done|]. exists [e]. split; [done|].
  unfold host_requests. simpl. by rewrite He.
Qed.

Lemma quiet_but_sources (w w' : World) : but_sources w w' → quiet w w'.
Proof.
  intros [Hw _]. apply quiet_same.
  - apply (f_equal next_driver_host_id_) in Hw. by simpl in Hw.
  - apply (f_equal trace) in Hw. by simpl in Hw.
Qed.

(** The requests for driver hosts so far differ in their names, and the
    names are made from numbers which are used up. *)
Definition hosts_numbered (w : World) : Prop :=
  NoDup (host_requests (trace w))
  ∧ ∀ name, name ∈ host_requests (trace w) →
      ∃ k, (k < next_driver_host_id_ w)%N ∧ name = ("driver-host-" +:+ pretty k)%string.

Lemma hosts_numbered_quiet (w w' : World) : quiet w w' → hosts_numbered w → hosts_numbered w'.
Proof.
  intros [Hn (new & Ht & Hq)] [Hnd Hnames].
  assert (host_requests (trace w') = host_requests (trace w)) as Heq.
  { rewrite Ht. unfold host_requests in *. by rewrite omap_app, Hq, app_nil_r. }
  split; rewrite Heq, ?Hn; done.
Qed.

Lemma StartDriverHost_trace (env : HostEnv) (w w' : World) (r : status hptr) :
  StartDriverHost env w = Done (r, w') →
  quiet w w'
  ∨ (next_driver_host_id_ w' = (next_driver_host_id_ w + 1)%N
     ∧ trace w' = trace w ++ [EvCreateChild (CollectionName kHost)
                                ("driver-host-" +:+ pretty (next_driver_host_id_ w))
                                "#meta/driver_host2.cm" None None]).
Proof.
  unfold StartDriverHost. intros H.
  destruct (decide _); [left; simplify_eq; apply quiet_refl|].
  right. unfold CreateComponent in H. simpl in H.
  destruct (decide _); by simplify_eq.
Qed.

Lemma StartDriverHost_numbered (env : HostEnv) (w w' : World) (r : status hptr) :
  StartDriverHost env w = Done (r, w') → hosts_numbered w → hosts_numbered w'.
Proof.
  intros H Hw. apply StartDriverHost_trace in H as [Hq|[Hn Ht]];
    [by eapply hosts_numbered_quiet|].
  destruct Hw as [Hnd Hnames].
  assert (host_requests (trace w')
          = host_requests (trace w)
            ++ [("driver-host-" +:+ pretty (next_driver_host_id_ w))%string]) as Heq.
  { rewrite Ht. unfold host_requests. by rewrite omap_app. }
  split; rewrite Heq.
  - apply NoDup_app. split; [done|]. split; [|apply NoDup_singleton].
    intros name Hin Hnew. apply list_elem_of_singleton in Hnew as ->.
    destruct (Hnames _ Hin) as (k & Hlt & Hk).
    apply (inj (String.append "driver-host-")) in Hk. apply (inj pretty) in Hk. lia.
  - intros name Hin. rewrite Hn. apply elem_of_app in Hin as [Hin|Hin].
    + destruct (Hnames _ Hin) as (k & Hlt & ->). exists k. split; [lia|done].
    + apply list_elem_of_singleton in Hin as ->.
      exists (next_driver_host_id_ w). split; [lia|done].
Qed.

Lemma quiet_put_node (n : ptr) (nd : Node) (w : World) : quiet w (put_node n nd w).
Proof. by apply quiet_same. Qed.

Lemma add_to_parents_quiet (c : ptr) (ps : list ptr) (w w' : World) :
  add_to_parents c ps w = Done w' → quiet w w'.
Proof.
  revert w. induction ps as [|p ps IH]; intros w H; simpl in H.
  - simplify_eq. apply quiet_refl.
  - apply bind_Done in H as (pd & _ & H).
    eapply quiet_trans; [|by apply IH]. apply quiet_put_node.
Qed.

Lemma AddChild_quiet (this : ptr) (request : AddChildRequest) (w w' : World) (reply : Reply) :
  AddChild this request w = Done (reply, w') → quiet w w'.
Proof.
  intros H. destruct reply as [|e].
  2:{ apply AddChild_error_keeps_world in H as ->. apply quiet_refl. }
  unfold AddChild in H.
  apply bind_Done in H as (nd & Hnd & H).
  destruct (driver_binder_ nd) as [binder|]; [|by simplify_eq].
  destruct (args_name _) as [name|]; [|by simplify_eq].
  destruct (contains_char _ _); [by simplify_eq|].
  apply bind_Done in H as (found & Hfound & H).
  destruct found; [by simplify_eq|].
  apply bind_Done in H as (child & Hchild & H).
  destruct (check_offers _ _) as [|offers]; [by simplify_eq|].
  destruct (check_symbols _ _ _) as [|syms]; [by simplify_eq|].
  apply bind_Done in H as (w1 & Hattach & H). simplify_eq.
  unfold attach_child, AddToParents in Hattach.
  apply bind_Done in Hattach as (cd & _ & Hattach).
  apply add_to_parents_quiet in Hattach.
  eapply quiet_trans; [|exact Hattach].
  destruct (request_node request); by apply quiet_same.
Qed.

Lemma CreateCompositeNode_quiet (node : ptr) (matched : MatchedCompositeInfo) (w w' : World)
    (r : status ptr) :
  CreateCompositeNode node matched w = Done (r, w') → quiet w w'.
Proof.
  unfold CreateCompositeNode. intros H.
  apply bind_Done in H as (nd & _ & H).
  destruct (AddToCompositeArgs (name_ nd) matched w) as [[it|s] w1] eqn:Hadd.
  - destruct (AddToCompositeArgs_ok_free _ _ _ _ _ Hadd)
      as (index & num & url & nodes & Hindex & _ & _ & Hit & _ & _ & _ & _ & Hw1).
    assert (quiet w w1) as Hq1.
    { destruct Hw1 as [->|(_ & _ & ->)]; [apply quiet_refl|by apply quiet_same]. }
    assert (@lookup nat (string * CompositeArgs) _ _ it (composite_args_ w1)
            = Some (url, nodes)) as Hit' by exact Hit.
    rewrite Hit', Hindex in H.
    destruct (lock_all _ _) as [parents|].
    + apply bind_Done in H as (composite & _ & H). apply bind_Done in H as (w4 & Hadd' & H).
      unfold AddToParents in Hadd'. apply bind_Done in Hadd' as (cd & _ & Hadd').
      apply add_to_parents_quiet in Hadd'. simplify_eq.
      eapply quiet_trans; [exact Hq1|]. eapply quiet_trans; [|exact Hadd'].
      by apply quiet_same.
    + simplify_eq. eapply quiet_trans; [exact Hq1|]. by apply quiet_same.
  - apply AddToCompositeArgs_error in Hadd as [_ ->]. simplify_eq. by apply quiet_same.
Qed.

Lemma OnBind_quiet (n : ptr) (w w' : World) : OnBind n w = Done w' → quiet w w'.
Proof.
  unfold OnBind. intros H. apply bind_Done in H as (nd & _ & H).
  destruct (controller_ref_ nd); simplify_eq; [by apply quiet_emit|apply quiet_refl].
Qed.

Lemma StartDriver_quiet (node : ptr) (url : string) (env : TokenEnv) (w w' : World)
    (r : status ()) :
  StartDriver node url env w = Done (r, w') → quiet w w'.
Proof.
  intros H. destruct (StartDriver_Done _ _ _ _ _ _ H) as (Hcreate & Hinfo & Hok).
  destruct (decide (event_create_status env = ZX_OK)) as [Hc|Hc];
    [|destruct (Hcreate Hc) as [_ ->]; apply quiet_refl].
  destruct (decide (event_info_status env = ZX_OK)) as [Hi|Hi];
    [|destruct (Hinfo Hc Hi) as [_ ->]; apply quiet_refl].
  destruct (Hok Hc Hi) as (_ & _ & _ & nd & w1 & name & offers & _ & Hbut & _ & ->).
  eapply quiet_trans; [|eapply quiet_trans; [apply quiet_but_sources, Hbut|]].
  { apply quiet_put_node. }
  eapply quiet_trans; [apply quiet_emit|by apply quiet_same].
  simpl. by destruct (String.prefix kBootScheme url).
Qed.

Lemma match_callback_quiet (weak_node : ptr) (result : MatchResult) (env : TokenEnv)
    (w w' : World) :
  match_callback weak_node result env w = Done w' → quiet w w'.
Proof.
  assert (∀ node driver_node url w0 w1, start_matched node driver_node url env w0 = Done w1 →
            quiet w0 w1) as Hstart.
  { intros node driver_node url w0 w1 H. unfold start_matched in H.
    apply bind_Done in H as ([r w2] & Hs & H). apply StartDriver_quiet in Hs.
    apply OnBind_quiet in H. eapply quiet_trans; [exact Hs|].
    eapply quiet_trans; [|exact H]. destruct (is_error r); [by apply quiet_same|apply quiet_refl]. }
  unfold match_callback. intros H.
  destruct (lock _ _) as [node|]; [|simplify_eq; apply quiet_refl].
  destruct result as [|s|[info|c|]]; try (simplify_eq; by apply quiet_same).
  - destruct (info_url info); [by eapply Hstart|simplify_eq; by apply quiet_same].
  - destruct (composite_driver_info c) as [info|]; [|simplify_eq; by apply quiet_same].
    destruct (info_url info); [|simplify_eq; by apply quiet_same].
    apply bind_Done in H as ([r w1] & Hc & H). apply CreateCompositeNode_quiet in Hc.
    eapply quiet_trans; [exact Hc|].
    destruct r; [by eapply Hstart|simplify_eq; apply quiet_refl].
Qed.

Lemma bind_orphans_quiet (orphans : list ptr) (w w' : World) :
  bind_orphans orphans w = Done w' → quiet w w'.
Proof.
  revert w. induction orphans as [|n orphans IH]; intros w H; simpl in H.
  - simplify_eq. apply quiet_refl.
  - destruct (heap w !! n) as [nd0|]; [|by apply IH].
    apply bind_Done in H as ([args w1] & Hargs & H). apply IH in H.
    unfold CreateAddArgs in Hargs.
    apply bind_Done in Hargs as (nd & _ & Hargs).
    apply bind_Done in Hargs as ([offers w1'] & Hoffers & Hargs). simplify_eq.
    apply CreateOffers_Done in Hoffers as (_ & _ & _ & Hbut).
    eapply quiet_trans; [by apply quiet_but_sources|].
    eapply quiet_trans; [|exact H]. by apply quiet_same.
Qed.

Lemma Remove_quiet (fuel : nat) (n : ptr) (w w' : World) : Remove fuel n w = Done w' → quiet w w'.
Proof.
  intros H. apply (Remove_P (λ _, True) quiet) with fuel n; try done.
  - apply quiet_refl.
  - intros w1 w2 w3 _ _. apply quiet_trans.
  - intros x nd w0 _. apply quiet_put_node.
  - intros x nd d w0 w0' _ _ _ Hstop. unfold StopDriver in Hstop.
    apply bind_Done in Hstop as (dc & _ & Hstop).
    destruct (stop_in_progress_ dc); simplify_eq; [apply quiet_refl|].
    eapply quiet_trans; [by apply (quiet_emit (EvDriverStop d))|by apply quiet_same].
  - intros x nd p pd cs w0 notify _ _ _ _ _ _. simpl.
    eapply quiet_trans; [apply (quiet_put_node p (set_children cs pd))|].
    eapply quiet_trans; [by apply (quiet_emit (EvChildErased p x))|].
    destruct notify; [by apply quiet_emit|apply quiet_refl].
  - intros x nd w0 _ _ _. apply quiet_put_node.
Qed.

Lemma DriverComponent_destroy_quiet (fuel : nat) (d : cptr) (w w' : World) :
  DriverComponent_destroy fuel d w = Done w' → quiet w w'.
Proof.
  unfold DriverComponent_destroy. intros H.
  apply bind_Done in H as (dc & _ & H). apply bind_Done in H as (nd & _ & H).
  apply bind_Done in H as (w1 & Hrem & H). apply Remove_quiet in Hrem. simplify_eq.
  eapply quiet_trans; [apply quiet_put_node|].
  eapply quiet_trans; [exact Hrem|by apply quiet_same].
Qed.

Lemma start_in_host_quiet (request : StartRequest) (env : StartEnv) (node : ptr)
    (w w' : World) (r : option zx_status_t) :
  start_in_host request env node w = Done (r, w') → quiet w w'.
Proof.
  unfold start_in_host. intros H.
  apply bind_Done in H as (nd & _ & H).
  destruct (decide _); [simplify_eq; apply quiet_refl|].
  apply bind_Done in H as (host & _ & H).
  apply bind_Done in H as ([start w2] & Hstart & H).
  assert (quiet (put_node node (set_node_ref (env_node_channel env) nd) w) w2) as Hq.
  { unfold DriverHostComponent_Start in Hstart.
    destruct (decide _); [simplify_eq; apply quiet_refl|].
    apply bind_Done in Hstart as (syms & _ & Hstart).
    destruct (decide _); simplify_eq; by apply quiet_emit. }
  eapply quiet_trans; [apply quiet_put_node|]. eapply quiet_trans; [exact Hq|].
  destruct start as [[]|s]; [|simplify_eq; apply quiet_refl].
  apply bind_Done in H as (nd2 & _ & H). simplify_eq. by apply quiet_same.
Qed.

Lemma Start_numbered (request : StartRequest) (env : StartEnv) (w w' : World)
    (r : option zx_status_t) :
  Start request env w = Done (r, w') → hosts_numbered w → hosts_numbered w'.
Proof.
  unfold Start. intros H Hw.
  destruct (numbered_handles _) as [[|h [|h' handles]]|]; try by simplify_eq.
  destruct (_ || _); [by simplify_eq|].
  destruct (decide _); [by simplify_eq|].
  destruct (driver_args_ w !! _) as [node|]; [|by simplify_eq].
  assert (hosts_numbered (with_driver_args (delete (handle_koid (handle h)) (driver_args_ w)) w))
    as Hw1 by (eapply hosts_numbered_quiet; [by apply quiet_same|done]).
  destruct (decide _).
  - destruct (decide _); [by simplify_eq|].
    apply start_in_host_quiet in H. by eapply hosts_numbered_quiet.
  - apply bind_Done in H as ([result w2] & Hhost & H).
    apply StartDriverHost_numbered in Hhost; [|done].
    destruct result as [host|s]; [|by simplify_eq].
    apply bind_Done in H as (nd & _ & H). apply start_in_host_quiet in H.
    eapply hosts_numbered_quiet; [exact H|].
    eapply hosts_numbered_quiet; [|exact Hhost]. by apply quiet_same.
Qed.

(** One call into the runner, or of one of its parts, which returns. *)
Inductive runner_step : World → World → Prop :=
| runner_AddChild (this : ptr) (request : AddChildRequest) (w : World) (reply : Reply)
    (w' : World) :
    AddChild this request w = Done (reply, w') → runner_step w w'
| runner_Remove (fuel : nat) (n : ptr) (w w' : World) :
    Remove fuel n w = Done w' → runner_step w w'
| runner_destroy (fuel : nat) (d : cptr) (w w' : World) :
    DriverComponent_destroy fuel d w = Done w' → runner_step w w'
| runner_StartDriver (node : ptr) (url : string) (env : TokenEnv) (w : World) (r : status ())
    (w' : World) :
    StartDriver node url env w = Done (r, w') → runner_step w w'
| runner_StartDriverHost (env : HostEnv) (w : World) (r : status hptr) (w' : World) :
    StartDriverHost env w = Done (r, w') → runner_step w w'
| runner_Start (request : StartRequest) (env : StartEnv) (w : World)
    (r : option zx_status_t) (w' : World) :
    Start request env w = Done (r, w') → runner_step w w'
| runner_match (weak_node : ptr) (result : MatchResult) (env : TokenEnv) (w w' : World) :
    match_callback weak_node result env w = Done w' → runner_step w w'
| runner_base_drivers (result_ok : bool) (w w' : World) :
    base_drivers_callback result_ok w = Done w' → runner_step w w'
| runner_CreateCompositeNode (node : ptr) (matched : MatchedCompositeInfo) (w : World)
    (r : status ptr) (w' : World) :
    CreateCompositeNode node matched w = Done (r, w') → runner_step w w'.

Lemma runner_step_numbered (w w' : World) :
  runner_step w w' → hosts_numbered w → hosts_numbered w'.
Proof.
  destruct 1 as [this request w reply w' H|fuel n w w' H|fuel d w w' H|node url env w r w' H
                 |env w r w' H|request env w r w' H|weak result env w w' H|result_ok w w' H
                 |node matched w r w' H].
  - apply hosts_numbered_quiet. by eapply AddChild_quiet.
  - apply hosts_numbered_quiet. by eapply Remove_quiet.
  - apply hosts_numbered_quiet. by eapply DriverComponent_destroy_quiet.
  - apply hosts_numbered_quiet. by eapply StartDriver_quiet.
  - by eapply StartDriverHost_numbered.
  - by eapply Start_numbered.
  - apply hosts_numbered_quiet. by eapply match_callback_quiet.
  - apply hosts_numbered_quiet. unfold base_drivers_callback in H.
    destruct result_ok; [|simplify_eq; apply quiet_refl].
    apply bind_orphans_quiet in H. eapply quiet_trans; [|exact H]. by apply quiet_same.
  - apply hosts_numbered_quiet. by eapply CreateCompositeNode_quiet.
Qed.

(** X14.  The counter [next_driver_host_id_] is an unbounded number here; in
    the code it has the width of its type, [bits] bits say, and starts again
    at zero after [2 ^ bits] driver hosts.  As long as it has not done so,
    whatever calls the runner has served since it was made, the driver hosts
    it has asked the realm for have pairwise different names, each
    ["driver-host-"] followed by a number below the next free one. *)
Theorem driver_host_names_distinct (bits : N) (w : World) :
  rtc runner_step new_DriverRunner w →
  (next_driver_host_id_ w < 2 ^ bits)%N →
  NoDup (host_requests (trace w))
  ∧ ∀ name, name ∈ host_requests (trace w) →
      ∃ k, (k < next_driver_host_id_ w)%N ∧ (k < 2 ^ bits)%N
           ∧ name = ("driver-host-" +:+ pretty k)%string.
Proof.
  intros Hrun Hbits.
  assert (hosts_numbered w) as [Hnd Hnames].
  { clear Hbits. revert w Hrun. apply (rtc_ind_r hosts_numbered).
    - split; [constructor|]. intros name Hin. by apply elem_of_nil in Hin.
    - intros w w' _ Hstep Hw. by eapply runner_step_numbered. }
  split; [done|]. intros name Hin. destruct (Hnames name Hin) as (k & Hk & ->).
  exists k. split; [done|]. split; [lia|done].
Qed.

Definition hosts_ok : HostEnv := mkHostEnv ZX_OK 30%positive ZX_OK 40%positive.

Lemma driver_host_names_distinct_witness :
  ∃ w, rtc runner_step new_DriverRunner w
       ∧ (next_driver_host_id_ w < 2 ^ 64)%N
       ∧ host_requests (trace w) = ["driver-host-0"; "driver-host-1"]
       ∧ NoDup (host_requests (trace w)).
Proof.
  assert (∃ w, rtc runner_step new_DriverRunner w
               ∧ (next_driver_host_id_ w < 2 ^ 64)%N
               ∧ host_requests (trace w) = ["driver-host-0"; "driver-host-1"])
    as (w & Hrun & Hbits & Hnames).
  { eexists. split.
    - eapply rtc_l.
      { apply (runner_StartDriverHost hosts_ok _ (ok 40%positive)). vm_compute. reflexivity. }
      eapply rtc_l; [|apply rtc_refl].
      apply (runner_StartDriverHost hosts_ok _ (ok 40%positive)). vm_compute. reflexivity.
    - split; [vm_compute; reflexivity|vm_compute; reflexivity]. }
  exists w. split; [exact Hrun|]. split; [exact Hbits|]. split; [exact Hnames|].
  exact (proj1 (driver_host_names_distinct 64 w Hrun Hbits)).
Defined.


(** ** Removing a leaf which has a driver: two phases *)

Lemma node_at_put_eq (n : ptr) (nd : Node) (w : World) : node_at n (put_node n nd w) = Done nd.
Proof. apply node_at_Done. apply lookup_insert_eq. Qed.

Lemma node_at_put_ne (n m : ptr) (nd : Node) (w : World) :
  n ≠ m → node_at m (put_node n nd w) = node_at m w.
Proof. intros Hne. unfold node_at, put_node. simpl. by rewrite lookup_insert_ne. Qed.

(** The destructor of the driver of a node without children, under one
    parent which is not being removed. *)
Lemma DriverComponent_destroy_leaf (fuel : nat) (n p : ptr) (d : cptr) (v : World)
    (md pd : Node) (dc : DriverComponent) (cs : list ptr) :
  heap v !! n = Some md → children_ md = [] → parents_ md = [p] → n ≠ p →
  heap v !! p = Some pd → removal_in_progress_ pd = false →
  erase_first n (children_ pd) = Some cs →
  drivers_ v !! d = Some dc → node_ dc = n →
  let gone := begin_removal (set_driver_component None md) in
  DriverComponent_destroy (S fuel) d v
  = Done (with_drivers (delete d (drivers_ v))
            (put_node n (finish_removal gone)
               (emit (EvChildErased p n)
                  (put_node p (set_children cs pd)
                     (put_node n gone (put_node n (set_driver_component None md) v)))))).
Proof.
  intros Hn Hcs Hps Hne Hp Hrp Herase Hd Hnode gone.
  unfold DriverComponent_destroy, driver_at. rewrite Hd. simpl. rewrite Hnode.
  rewrite (proj2 (node_at_Done _ _ _) Hn). simpl.
  unfold Remove_body, remove_phase_children.
  rewrite node_at_put_eq. simpl. rewrite Hcs. simpl.
  rewrite node_at_put_eq. simpl. rewrite Hcs. simpl.
  unfold remove_phase_unlink. rewrite node_at_put_eq. simpl. rewrite Hps.
  simpl. unfold unlink_from_parent.
  rewrite !node_at_put_ne by done.
  rewrite (proj2 (node_at_Done _ _ _) Hp). simpl. rewrite Herase. simpl.
  unfold node_at. simpl. rewrite lookup_insert_ne by done. rewrite !lookup_insert_eq.
  simpl. rewrite Hrp, Hps. simpl.
  rewrite lookup_insert_ne by done. rewrite !lookup_insert_eq. simpl.
  rewrite Hps. rewrite decide_True by done. simpl.
  rewrite lookup_insert_ne by done. rewrite !lookup_insert_eq. simpl.
  reflexivity.
Qed.

(** X15.  A node without children, with a driver which has not been asked to
    stop, under one parent which is not being removed.  [Remove] on the node
    marks it, asks the driver to stop and returns: the node is still a child
    of its parent.  When the driver component is destroyed afterwards, the
    node is erased from the children of the parent, which is not removed, it
    lets go of its parent and of its bindings, and the component is gone. *)
Theorem Remove_leaf_with_driver (fuel fuel' : nat) (n p : ptr) (d : cptr) (w : World)
    (nd pd : Node) (dc : DriverComponent) (cs : list ptr) :
  heap w !! n = Some nd → children_ nd = [] → driver_component_ nd = Some d →
  parents_ nd = [p] → n ≠ p →
  heap w !! p = Some pd → removal_in_progress_ pd = false →
  erase_first n (children_ pd) = Some cs →
  drivers_ w !! d = Some dc → node_ dc = n → stop_in_progress_ dc = false →
  let marked := begin_removal nd in
  let w1 := put_driver d (set_stop_in_progress dc)
              (emit (EvDriverStop d) (put_node n marked w)) in
  let w2 := with_drivers (delete d (drivers_ w1))
              (put_node n (finish_removal (set_driver_component None marked))
                 (emit (EvChildErased p n) (put_node p (set_children cs pd) w1))) in
  Remove (S fuel) n w = Done w1
  ∧ heap w1 !! p = Some pd
  ∧ DriverComponent_destroy (S fuel') d w1 = Done w2
  ∧ heap w2 !! p = Some (set_children cs pd)
  ∧ drivers_ w2 !! d = None
  ∧ trace w2 = trace w ++ [EvDriverStop d; EvChildErased p n].
Proof.
  intros Hn Hcs Hdc Hps Hne Hp Hrp Herase Hd Hnode Hstop marked w1 w2.
  assert (Remove (S fuel) n w = Done w1) as Hrun1.
  { simpl. unfold Remove_body, remove_phase_children.
    rewrite (proj2 (node_at_Done _ _ _) Hn). simpl. rewrite Hcs. simpl.
    rewrite node_at_put_eq. simpl. rewrite Hcs. simpl.
    unfold remove_phase_unlink. rewrite node_at_put_eq. simpl. rewrite Hdc.
    unfold StopDriver, driver_at. simpl. rewrite Hd. simpl. by rewrite Hstop. }
  assert (heap w1 !! p = Some pd) as Hp1.
  { unfold w1. simpl. by rewrite lookup_insert_ne. }
  assert (heap w1 !! n = Some marked) as Hn1 by apply lookup_insert_eq.
  assert (drivers_ w1 !! d = Some (set_stop_in_progress dc)) as Hd1 by apply lookup_insert_eq.
  split; [done|]. split; [done|]. split.
  - rewrite (DriverComponent_destroy_leaf fuel' n p d w1 marked pd (set_stop_in_progress dc) cs)
      by done.
    f_equal. unfold w2, put_node, with_drivers, with_heap, emit, with_trace. simpl.
    f_equal. apply map_eq. intros x.
    destruct (decide (x = n)) as [->|Hxn]; [by rewrite !lookup_insert_eq|].
    rewrite !(lookup_insert_ne _ n) by done.
    destruct (decide (x = p)) as [->|Hxp]; [by rewrite !lookup_insert_eq|].
    rewrite !(lookup_insert_ne _ p) by done. by rewrite !(lookup_insert_ne _ n) by done.
  - unfold w2, w1. simpl. split; [|split].
    + rewrite lookup_insert_ne by done. by rewrite lookup_insert_eq.
    + apply lookup_delete_eq.
    + by rewrite <- app_assoc.
Qed.

(** A root with the child "disk", which has a driver. *)
Definition world_disk_driver : World :=
  mkWorld (list_to_map
             [(1, plain "root" [] [2] None)%positive;
              (2, plain "disk" [1] [] (Some 9))%positive])
    {[ 9%positive := mkDriverComponent "fuchsia-boot:///disk" 2%positive None false ]}
    root_address [] [] ∅ [] 0%N [] [].

Lemma Remove_leaf_with_driver_witness :
  ∃ w1 w2, Remove 1 2%positive world_disk_driver = Done w1
           ∧ children_ <$> heap w1 !! 1%positive = Some [2%positive]
           ∧ DriverComponent_destroy 1 9%positive w1 = Done w2
           ∧ children_ <$> heap w2 !! 1%positive = Some []
           ∧ trace w2 = [EvDriverStop 9%positive; EvChildErased 1%positive 2%positive].
Proof.
  destruct (Remove_leaf_with_driver 0 0 2%positive 1%positive 9%positive world_disk_driver
              (plain "disk" [1%positive] [] (Some 9%positive))
              (plain "root" [] [2%positive] None)
              (mkDriverComponent "fuchsia-boot:///disk" 2%positive None false) [])
    as (Hrun1 & Hp1 & Hrun2 & Hp2 & _ & Htrace); try reflexivity; [done|].
  eexists _, _. split; [exact Hrun1|].
  split; [exact (f_equal (fmap children_) Hp1)|].
  split; [exact Hrun2|].
  split; [exact (f_equal (fmap children_) Hp2)|exact Htrace].
Defined.


(** ** What [Node::Remove] leaves alone *)

(** X16.  [Remove] makes no node, and makes and frees no driver component.
    A node which is in the store after the call was there before, and the
    call has changed nothing in it but the children, which it only erases
    from, the parents and the bindings, which it only clears, and the removal
    flag and the binder, which it only sets and clears; in a driver component
    nothing but the stop flag, which it only sets.  The orphans, the pending
    sets, the start tokens, the driver hosts and the match requests stay as
    they are, and what has happened so far stays in front of what it adds.
    Nothing is said of a node whose last reference the call drops: the code
    destroys it, the store here keeps it. *)
Theorem Remove_frame (fuel : nat) (n : ptr) (w w' : World) :
  Remove fuel n w = Done w' →
  (∀ x xd', heap w' !! x = Some xd' →
     ∃ xd, heap w !! x = Some xd ∧ node_evolves xd xd')
  ∧ (∀ d, option_Forall2 driver_evolves (drivers_ w !! d) (drivers_ w' !! d))
  ∧ trace w `prefix_of` trace w'
  ∧ root_node_ w' = root_node_ w
  ∧ orphaned_nodes_ w' = orphaned_nodes_ w
  ∧ composite_args_ w' = composite_args_ w
  ∧ driver_args_ w' = driver_args_ w
  ∧ driver_hosts_ w' = driver_hosts_ w
  ∧ next_driver_host_id_ w' = next_driver_host_id_ w
  ∧ match_requests_ w' = match_requests_ w.
Proof.
  intros H. apply Remove_evolves in H. destruct H as [Hheap Hdrivers ? ? ? ? ? ? ? ?].
  split_and!; try done.
  intros x xd' Hx. specialize (Hheap x). rewrite Hx in Hheap.
  inversion Hheap as [xd ? Hev Heq|]; subst. by exists xd.
Qed.

Lemma Remove_frame_witness :
  ∃ w', Remove 3 root_address world_diamond = Done w'
        ∧ name_ <$> heap w' !! 4%positive = Some "composite"
        ∧ orphaned_nodes_ w' = orphaned_nodes_ world_diamond.
Proof.
  assert (∃ w', Remove 3 root_address world_diamond = Done w') as [w' Hrun]
    by (eexists; vm_compute; reflexivity).
  assert (∃ xd', heap w' !! 4%positive = Some xd') as [xd' Hx].
  { assert (is_Some (Some w' ≫= λ v, heap v !! 4%positive)) as [xd' Hx]; [|by exists xd'].
    assert (Done w' = Remove 3 root_address world_diamond) as Heq by done.
    revert Heq. vm_compute. intros [= ->]. by eexists. }
  destruct (Remove_frame _ _ _ _ Hrun) as (Hnodes & _ & _ & _ & Horph & _).
  destruct (Hnodes _ _ Hx) as (xd & Hxd & Hev).
  exists w'. split; [exact Hrun|]. split; [|exact Horph].
  rewrite Hx. simpl. f_equal. rewrite (ne_name _ _ Hev).
  vm_compute in Hxd. by injection Hxd as <-.
Defined.


(** ** [DriverRunner::Start]: a start which goes through *)

Lemma symbols_total (n : ptr) (w : World) (nd : Node) :
  heap w !! n = Some nd →
  (∀ p, PrimaryParent (parents_ nd) = Some p → is_Some (heap w !! p)) →
  ∃ syms, symbols n w = Done syms.
Proof.
  intros Hn Hp. unfold symbols. rewrite (proj2 (node_at_Done _ _ _) Hn). simpl.
  destruct (PrimaryParent (parents_ nd)) as [p|]; [|by eexists].
  destruct (Hp p eq_refl) as [pd Hpd]. rewrite (proj2 (node_at_Done _ _ _) Hpd). simpl.
  destruct (decide _); by eexists.
Qed.

Lemma start_in_host_succeeds (request : StartRequest) (env : StartEnv) (node : ptr)
    (v : World) (nd : Node) (host : hptr) :
  heap v !! node = Some nd → driver_host_ nd = Some host →
  (∀ p, PrimaryParent (parents_ nd) = Some p → is_Some (heap v !! p)) →
  env_node_endpoints_status env = ZX_OK → env_driver_endpoints_status env = ZX_OK →
  env_host_start_status env = ZX_OK →
  let served := set_node_ref (env_node_channel env) nd in
  ∃ syms,
    start_in_host request env node v
    = Done (None,
            put_driver (env_driver_address env)
              (mkDriverComponent (resolved_url (start_info request)) node
                 (Some (start_controller request)) false)
              (put_node node (set_driver_component (Some (env_driver_address env)) served)
                 (emit (EvHostStart host node syms) (put_node node served v)))).
Proof.
  intros Hnd Hhost Hparent He3 He4 He5 served.
  destruct (symbols_total node (put_node node served v) served) as [syms Hsyms].
  { apply lookup_insert_eq. }
  { simpl. intros p Hp. destruct (decide (node = p)) as [<-|Hne].
    - rewrite lookup_insert_eq. by eexists.
    - rewrite lookup_insert_ne by done. by apply Hparent. }
  exists syms. unfold start_in_host.
  rewrite (proj2 (node_at_Done _ _ _) Hnd). simpl.
  rewrite He3. rewrite decide_False by (by intros ?).
  unfold driver_host. rewrite node_at_put_eq. simpl. rewrite Hhost. simpl.
  unfold DriverHostComponent_Start. rewrite He4. rewrite decide_False by (by intros ?).
  fold served. rewrite Hsyms. simpl. rewrite He5. rewrite decide_False by (by intros ?).
  simpl. unfold node_at. simpl. rewrite lookup_insert_eq. reflexivity.
Qed.

(** X17.  A [Start] request with a registered token, for a driver which does
    not ask to be colocated, in an environment in which every call succeeds.
    The connection is not closed.  One driver host is requested from the realm
    under the next free name, it is appended to the driver hosts and becomes
    the driver host of the node; the node gets its [Node] server; the driver
    is started in that host; and a driver component is created which has not
    been asked to stop, with the URL and the controller of the request: it
    points at the node and the node points at it.  The token is erased, and no
    other node changes. *)
Theorem Start_succeeds (request : StartRequest) (env : StartEnv) (w : World)
    (h : HandleInfo) (k : koid) (node : ptr) (nd : Node) :
  token_koid request h k → driver_args_ w !! k = Some node → ¬ colocate request →
  heap w !! node = Some nd →
  (∀ p, PrimaryParent (parents_ nd) = Some p → is_Some (heap w !! p)) →
  host_endpoints_status (env_host env) = ZX_OK → host_connect_status (env_host env) = ZX_OK →
  env_node_endpoints_status env = ZX_OK → env_driver_endpoints_status env = ZX_OK →
  env_host_start_status env = ZX_OK →
  let host := host_address (env_host env) in
  let d := env_driver_address env in
  ∃ w' syms,
    Start request env w = Done (None, w')
    ∧ heap w' !! node
      = Some (set_driver_component (Some d)
                (set_node_ref (env_node_channel env) (set_driver_host host nd)))
    ∧ (∀ x, x ≠ node → heap w' !! x = heap w !! x)
    ∧ drivers_ w' !! d
      = Some (mkDriverComponent (resolved_url (start_info request)) node
                (Some (start_controller request)) false)
    ∧ (∀ x, x ≠ d → drivers_ w' !! x = drivers_ w !! x)
    ∧ driver_hosts_ w' = driver_hosts_ w ++ [host]
    ∧ next_driver_host_id_ w' = (next_driver_host_id_ w + 1)%N
    ∧ driver_args_ w' = delete k (driver_args_ w)
    ∧ trace w'
      = trace w ++ [EvCreateChild (CollectionName kHost)
                      ("driver-host-" +:+ pretty (next_driver_host_id_ w))
                      "#meta/driver_host2.cm" None None;
                    EvHostStart host node syms].
Proof.
  intros Htok Hk Hco Hnd Hparent He1 He2 He3 He4 He5 host d.
  set (next := next_driver_host_id_ w).
  set (w2 := emit (EvCreateChild (CollectionName kHost) ("driver-host-" +:+ pretty next)
                     "#meta/driver_host2.cm" None None)
               (with_driver_hosts (driver_hosts_ w) (next + 1)%N
                  (with_driver_args (delete k (driver_args_ w)) w))).
  set (w4 := with_driver_hosts (driver_hosts_ w ++ [host]) (next + 1)%N
               (put_node node (set_driver_host host nd) w2)).
  destruct (start_in_host_succeeds request env node w4 (set_driver_host host nd) host)
    as [syms Hstart]; try done.
  { apply lookup_insert_eq. }
  { simpl. intros p Hp. destruct (decide (node = p)) as [<-|Hne].
    - rewrite lookup_insert_eq. by eexists.
    - rewrite lookup_insert_ne by done. by apply Hparent. }
  eexists _, syms. split.
  - rewrite (Start_at_token request env w h k Htok), Hk. cbv zeta.
    unfold colocate in Hco. rewrite decide_False by done.
    unfold StartDriverHost. rewrite He1. rewrite decide_False by (by intros ?).
    unfold CreateComponent. simpl. rewrite He2. rewrite decide_False by (by intros ?).
    simpl. unfold node_at at 1. simpl. rewrite Hnd. simpl. exact Hstart.
  - simpl. rewrite !lookup_insert_eq. split; [done|]. split.
    { intros x Hx. by rewrite !lookup_insert_ne. }
    split; [done|]. split.
    { intros x Hx. by rewrite lookup_insert_ne. }
    split; [done|]. split; [done|]. split; [done|].
    by rewrite <- app_assoc.
Qed.

(** The root driver comes back with its token, 7, and asks for a driver host
    of its own. *)
Definition root_request : StartRequest :=
  mkStartRequest
    (mkComponentStartInfo "fuchsia-boot:///#meta/root.cm" []
       (Some [mkHandleInfo (mkHandle true ZX_OK 7%N) kTokenId]))
    20%positive.

Lemma Start_succeeds_witness :
  ∃ w', Start root_request quiet_env world_root_token = Done (None, w')
        ∧ driver_component_ <$> heap w' !! root_address = Some (Some 50%positive)
        ∧ node_ <$> drivers_ w' !! 50%positive = Some root_address
        ∧ driver_hosts_ w' = [40%positive].
Proof.
  destruct (Start_succeeds root_request quiet_env world_root_token
              (mkHandleInfo (mkHandle true ZX_OK 7%N) kTokenId) 7%N root_address
              (plain "root" [] [] None))
    as (w' & syms & Hrun & Hnode & _ & Hdriver & _ & Hhosts & _); try reflexivity.
  - repeat split.
  - intros Hco. discriminate Hco.
  - intros p Hp. discriminate Hp.
  - exists w'. split; [exact Hrun|].
    split; [exact (f_equal (fmap driver_component_) Hnode)|].
    split; [exact (f_equal (fmap node_) Hdriver)|exact Hhosts].
Defined.


(** ** [Node::Remove] above a composite node without a driver *)

Lemma node_at_emit (e : Event) (n : ptr) (w : World) : node_at n (emit e w) = node_at n w.
Proof. done. Qed.

(** [Remove] on a node without children and without driver: the flag, the
    loop over the parents, and the end. *)
Lemma Remove_bare (fuel : nat) (x : ptr) (xd : Node) (v : World) :
  heap v !! x = Some xd → children_ xd = [] → driver_component_ xd = None →
  Remove (S fuel) x v
  = (w1 ← unlink_from_parents (Remove fuel) x (parents_ xd) (parents_ xd)
            (put_node x (begin_removal xd) v);
     nd1 ← node_at x w1;
     Done (put_node x (finish_removal nd1) w1)).
Proof.
  intros Hx Hcs Hdc. simpl. unfold Remove_body, remove_phase_children.
  rewrite (proj2 (node_at_Done _ _ _) Hx). simpl. rewrite Hcs. simpl.
  rewrite node_at_put_eq. simpl. rewrite Hcs. simpl.
  unfold remove_phase_unlink. rewrite node_at_put_eq. simpl. by rewrite Hdc.
Qed.

(** One turn of the loop over the parents, for a parent which is there. *)
Lemma unlink_from_parent_eq (self : ptr → World → Outcome World) (x p : ptr) (v : World)
    (pd xd : Node) (cs : list ptr) :
  heap v !! p = Some pd → erase_first x (children_ pd) = Some cs → x ≠ p →
  heap v !! x = Some xd →
  unlink_from_parent self x p v
  = let v1 := emit (EvChildErased p x) (put_node p (set_children cs pd) v) in
    if (removal_in_progress_ pd && empty cs) || (1 <? length (parents_ xd))%nat
    then self p (emit (EvParentRemove x p) v1) else Done v1.
Proof.
  intros Hp Herase Hne Hx. unfold unlink_from_parent.
  rewrite (proj2 (node_at_Done _ _ _) Hp). simpl. rewrite Herase.
  rewrite node_at_emit, node_at_put_ne by done.
  by rewrite (proj2 (node_at_Done _ _ _) Hx).
Qed.

Ltac lookups :=
  simpl; repeat (rewrite lookup_insert_eq || rewrite lookup_insert_ne by done).

(** The last call: on a node without parents which has lost its children. *)
Lemma Remove_bare_root (fuel : nat) (r : ptr) (rd : Node) (v : World) :
  heap v !! r = Some rd → children_ rd = [] → driver_component_ rd = None →
  parents_ rd = [] →
  ∃ v' rd', Remove (S fuel) r v = Done v'
        ∧ heap v' !! r = Some rd' ∧ children_ rd' = []
        ∧ ∀ x, x ≠ r → heap v' !! x = heap v !! x.
Proof.
  intros Hr Hcs Hdc Hps. rewrite (Remove_bare fuel r rd v) by done.
  rewrite Hps. simpl. rewrite node_at_put_eq. simpl.
  eexists _, _. split; [reflexivity|]. split; [by lookups|]. split; [done|].
  intros x Hx. by lookups.
Qed.

(** A node without children whose parent waits for it as its last child. *)
Lemma Remove_bare_last (fuel : nat) (b r : ptr) (bd rd : Node) (v : World) :
  heap v !! b = Some bd → children_ bd = [] → driver_component_ bd = None →
  parents_ bd = [r] → b ≠ r →
  heap v !! r = Some rd → children_ rd = [b] → removal_in_progress_ rd = true →
  driver_component_ rd = None → parents_ rd = [] →
  ∃ v' rd', Remove (S (S fuel)) b v = Done v'
        ∧ heap v' !! r = Some rd' ∧ children_ rd' = []
        ∧ ∀ x, x ≠ r → x ≠ b → heap v' !! x = heap v !! x.
Proof.
  intros Hb Hbcs Hbdc Hbps Hne Hr Hrcs Hrip Hrdc Hrps.
  rewrite (Remove_bare (S fuel) b bd v) by done. rewrite Hbps.
  cbn [unlink_from_parents].
  rewrite (unlink_from_parent_eq _ b r _ rd (begin_removal bd) []);
    [|by lookups|by rewrite Hrcs; simpl; rewrite decide_True|done|by lookups].
  cbv zeta. rewrite Hrip. cbn [andb empty orb].
  destruct (Remove_bare_root fuel r (set_children [] rd)
              (emit (EvParentRemove b r)
                 (emit (EvChildErased r b)
                    (put_node r (set_children [] rd) (put_node b (begin_removal bd) v)))))
    as (v1 & rd1 & -> & Hr1 & Hr1cs & Hframe); [by lookups|done|done|done|].
  cbn [mbind Outcome_bind].
  assert (heap v1 !! b = Some (begin_removal bd)) as Hb1.
  { rewrite Hframe by done. by lookups. }
  rewrite (proj2 (node_at_Done _ _ _) Hb1). cbn [mbind Outcome_bind].
  simpl parents_. rewrite Hbps. rewrite decide_True by done.
  cbn [unlink_from_parents mbind Outcome_bind].
  rewrite (proj2 (node_at_Done _ _ _) Hb1). cbn [mbind Outcome_bind].
  eexists _, rd1. split; [reflexivity|].
  split; [by lookups|]. split; [done|].
  intros x Hxr Hxb. lookups.
  rewrite Hframe by done. by lookups.
Qed.

(** A node without children whose parent has another child left. *)
Lemma Remove_bare_first (fuel : nat) (a b r : ptr) (ad rd : Node) (v : World) :
  heap v !! a = Some ad → children_ ad = [] → driver_component_ ad = None →
  parents_ ad = [r] → a ≠ r → a ≠ b →
  heap v !! r = Some rd → children_ rd = [a; b] →
  ∃ v' ad', Remove (S fuel) a v = Done v'
        ∧ heap v' !! r = Some (set_children [b] rd)
        ∧ heap v' !! a = Some ad'
        ∧ children_ ad' = [] ∧ parents_ ad' = [] ∧ driver_component_ ad' = None
        ∧ ∀ x, x ≠ r → x ≠ a → heap v' !! x = heap v !! x.
Proof.
  intros Ha Hacs Hadc Haps Hne Hab Hr Hrcs.
  rewrite (Remove_bare fuel a ad v) by done. rewrite Haps.
  cbn [unlink_from_parents].
  rewrite (unlink_from_parent_eq _ a r _ rd (begin_removal ad) [b]);
    [|by lookups|by rewrite Hrcs; simpl; rewrite decide_True|done|by lookups].
  cbv zeta. simpl parents_. rewrite Haps. cbn [empty andb length Nat.ltb Nat.leb orb].
  rewrite andb_false_r. cbn [orb mbind Outcome_bind].
  rewrite node_at_emit, node_at_put_ne, node_at_put_eq by done.
  cbn [mbind Outcome_bind]. simpl parents_. rewrite Haps. rewrite decide_True by done.
  cbn [unlink_from_parents mbind Outcome_bind].
  rewrite node_at_emit, node_at_put_ne, node_at_put_eq by done.
  cbn [mbind Outcome_bind].
  eexists _, _. split; [reflexivity|]. split; [by lookups|]. split; [by lookups|].
  split; [done|]. split; [done|]. split; [done|].
  intros x Hxr Hxa. by lookups.
Qed.

(** The composite node without children and driver, under [a] and [b], the
    two children of [r]: it takes both with it, and [r] too. *)
Lemma Remove_composite_leaf (fuel : nat) (r a b c : ptr) (rd ad bd cd : Node) (v : World) :
  r ≠ a → r ≠ b → r ≠ c → a ≠ b → a ≠ c → b ≠ c →
  heap v !! r = Some rd → children_ rd = [a; b] → parents_ rd = [] →
  driver_component_ rd = None → removal_in_progress_ rd = true →
  heap v !! a = Some ad → children_ ad = [c] → parents_ ad = [r] →
  driver_component_ ad = None → removal_in_progress_ ad = true →
  heap v !! b = Some bd → children_ bd = [c] → parents_ bd = [r] →
  driver_component_ bd = None →
  heap v !! c = Some cd → children_ cd = [] → parents_ cd = [a; b] →
  driver_component_ cd = None →
  ∃ v' rd' ad',
    Remove (S (S (S fuel))) c v = Done v'
    ∧ heap v' !! r = Some rd' ∧ children_ rd' = []
    ∧ heap v' !! a = Some ad' ∧ children_ ad' = [] ∧ parents_ ad' = []
    ∧ driver_component_ ad' = None.
Proof.
  intros Hra Hrb Hrc Hab Hac Hbc Hr Hrcs Hrps Hrdc Hrrip Ha Hacs Haps Hadc Harip
    Hb Hbcs Hbps Hbdc Hc Hccs Hcps Hcdc.
  rewrite (Remove_bare (S (S fuel)) c cd v) by done. rewrite Hcps.
  cbn [unlink_from_parents].
  rewrite (unlink_from_parent_eq _ c a _ ad (begin_removal cd) []);
    [|by lookups|by rewrite Hacs; simpl; rewrite decide_True|done|by lookups].
  cbv zeta. rewrite Harip. cbn [andb empty orb].
  destruct (Remove_bare_first (S fuel) a b r (set_children [] ad) rd
              (emit (EvParentRemove c a)
                 (emit (EvChildErased a c)
                    (put_node a (set_children [] ad) (put_node c (begin_removal cd) v)))))
    as (v1 & ad1 & -> & Hr1 & Ha1 & Ha1cs & Ha1ps & Ha1dc & Hframe1);
    [by lookups|done|done|done|done|done|by lookups|done|].
  cbn [mbind Outcome_bind].
  assert (heap v1 !! c = Some (begin_removal cd)) as Hc1.
  { rewrite Hframe1 by done. by lookups. }
  assert (heap v1 !! b = Some bd) as Hb1.
  { rewrite Hframe1 by done. by lookups. }
  rewrite (proj2 (node_at_Done _ _ _) Hc1). cbn [mbind Outcome_bind].
  simpl parents_. rewrite Hcps. rewrite decide_True by done.
  cbn [unlink_from_parents].
  rewrite (unlink_from_parent_eq _ c b _ bd (begin_removal cd) []);
    [|done|by rewrite Hbcs; simpl; rewrite decide_True|done|done].
  cbv zeta. simpl parents_. rewrite Hcps. cbn [length Nat.ltb Nat.leb].
  rewrite orb_true_r.
  destruct (Remove_bare_last fuel b r (set_children [] bd) (set_children [b] rd)
              (emit (EvParentRemove c b)
                 (emit (EvChildErased b c) (put_node b (set_children [] bd) v1))))
    as (v2 & rd2 & -> & Hr2 & Hr2cs & Hframe2);
    [by lookups|done|done|done|done|by lookups|done|done|done|done|].
  cbn [mbind Outcome_bind].
  assert (heap v2 !! c = Some (begin_removal cd)) as Hc2.
  { rewrite Hframe2 by done. by lookups. }
  rewrite (proj2 (node_at_Done _ _ _) Hc2). cbn [mbind Outcome_bind].
  simpl parents_. rewrite Hcps. rewrite decide_True by done.
  cbn [unlink_from_parents mbind Outcome_bind].
  rewrite (proj2 (node_at_Done _ _ _) Hc2). cbn [mbind Outcome_bind].
  exists (put_node c (finish_removal (begin_removal cd)) v2), rd2, ad1.
  split; [reflexivity|].
  split; [by lookups|]. split; [done|].
  split; [|done]. lookups. rewrite Hframe2 by done. by lookups.
Qed.
Lemma Remove_S (fuel : nat) (n : ptr) (w : World) :
  Remove (S fuel) n w = Remove_body (Remove fuel) n w.
Proof. done. Qed.

(** The call on [a] from the loop of [r]. *)
Lemma Remove_composite_parent (fuel : nat) (r a b c : ptr) (rd ad bd cd : Node) (v : World) :
  r ≠ a → r ≠ b → r ≠ c → a ≠ b → a ≠ c → b ≠ c →
  heap v !! r = Some rd → children_ rd = [a; b] → parents_ rd = [] →
  driver_component_ rd = None → removal_in_progress_ rd = true →
  heap v !! a = Some ad → children_ ad = [c] → parents_ ad = [r] →
  driver_component_ ad = None →
  heap v !! b = Some bd → children_ bd = [c] → parents_ bd = [r] →
  driver_component_ bd = None →
  heap v !! c = Some cd → children_ cd = [] → parents_ cd = [a; b] →
  driver_component_ cd = None →
  ∃ v' rd', Remove (S (S (S (S fuel)))) a v = Done v'
            ∧ heap v' !! r = Some rd' ∧ children_ rd' = [].
Proof.
  intros Hra Hrb Hrc Hab Hac Hbc Hr Hrcs Hrps Hrdc Hrrip Ha Hacs Haps Hadc
    Hb Hbcs Hbps Hbdc Hc Hccs Hcps Hcdc.
  destruct (Remove_composite_leaf fuel r a b c rd (begin_removal ad) bd cd
              (put_node a (begin_removal ad) v))
    as (v1 & rd1 & ad1 & Hrun & Hr1 & Hr1cs & Ha1 & Ha1cs & Ha1ps & Ha1dc);
    try done; try (by lookups).
  rewrite Remove_S. unfold Remove_body, remove_phase_children.
  rewrite (proj2 (node_at_Done _ _ _) Ha). cbn [mbind Outcome_bind].
  rewrite Hacs. cbn [length head remove_children].
  rewrite node_at_put_eq. cbn [mbind Outcome_bind].
  rewrite Hrun. cbn [mbind Outcome_bind].
  rewrite (proj2 (node_at_Done _ _ _) Ha1). cbn [mbind Outcome_bind].
  assert (list_next c (children_ (begin_removal ad)) = None) as ->
    by (simpl; rewrite Hacs; simpl; by rewrite decide_True).
  cbn [head iterator_valid remove_children mbind Outcome_bind].
  rewrite (proj2 (node_at_Done _ _ _) Ha1). cbn [mbind Outcome_bind].
  rewrite Ha1cs. cbn [empty negb]. unfold remove_phase_unlink.
  rewrite (proj2 (node_at_Done _ _ _) Ha1). cbn [mbind Outcome_bind].
  rewrite Ha1dc, Ha1ps. cbn [unlink_from_parents mbind Outcome_bind].
  rewrite (proj2 (node_at_Done _ _ _) Ha1). cbn [mbind Outcome_bind].
  eexists _, rd1. split; [reflexivity|]. split; [by lookups|done].
Qed.

(** The loop over the children of [r] loses its iterator: while it is at [a],
    with the iterator advanced to [b], the removal of [c] below [a] calls
    [Remove] on [b], and [b] erases itself from the children of [r]. *)
Lemma Remove_loses_iterator (fuel : nat) (r a b c : ptr) (rd ad bd cd : Node)
    (w : World) :
  r ≠ a → r ≠ b → r ≠ c → a ≠ b → a ≠ c → b ≠ c →
  heap w !! r = Some rd → children_ rd = [a; b] → parents_ rd = [] →
  driver_component_ rd = None →
  heap w !! a = Some ad → children_ ad = [c] → parents_ ad = [r] →
  driver_component_ ad = None →
  heap w !! b = Some bd → children_ bd = [c] → parents_ bd = [r] →
  driver_component_ bd = None →
  heap w !! c = Some cd → children_ cd = [] → parents_ cd = [a; b] →
  driver_component_ cd = None →
  Remove (S (S (S (S (S fuel))))) r w = Undefined IteratorInvalidated.
Proof.
  intros Hra Hrb Hrc Hab Hac Hbc Hr Hrcs Hrps Hrdc Ha Hacs Haps Hadc
    Hb Hbcs Hbps Hbdc Hc Hccs Hcps Hcdc.
  destruct (Remove_composite_parent fuel r a b c (begin_removal rd) ad bd cd
              (put_node r (begin_removal rd) w))
    as (v1 & rd1 & Hrun & Hr1 & Hr1cs); try done; try (by lookups).
  rewrite Remove_S. unfold Remove_body, remove_phase_children.
  rewrite (proj2 (node_at_Done _ _ _) Hr). cbn [mbind Outcome_bind].
  rewrite Hrcs. cbn [length head remove_children].
  rewrite node_at_put_eq. cbn [mbind Outcome_bind].
  rewrite Hrun. cbn [mbind Outcome_bind].
  rewrite (proj2 (node_at_Done _ _ _) Hr1). cbn [mbind Outcome_bind].
  assert (list_next a (children_ (begin_removal rd)) = Some b) as ->
    by (simpl; rewrite Hrcs; simpl; by rewrite decide_True).
  rewrite Hr1cs. unfold iterator_valid. rewrite bool_decide_eq_false_2; [done|].
  by intros ?%elem_of_nil.
Qed.

(** X18.  A node [r] without parents and driver has the two children [a]
    and [b], in this order; they have no driver and one child each, the same
    node [c], which has them for parents and has no children and no driver
    (the composite node before its driver has started).  [Remove] on [r] then
    has no defined result: while the loop over the children of [r] is at [a], with
    its iterator advanced to [b], the removal of [c] below [a] calls [Remove]
    on both parents of [c], [b] erases itself from the children of [r], and
    the loop goes on with an iterator to an element which is no longer in the
    list. *)
Theorem Remove_above_composite_leaf (fuel : nat) (r a b c : ptr) (rd ad bd cd : Node)
    (w : World) :
  r ≠ a → r ≠ b → r ≠ c → a ≠ b → a ≠ c → b ≠ c →
  heap w !! r = Some rd → children_ rd = [a; b] → parents_ rd = [] →
  driver_component_ rd = None →
  heap w !! a = Some ad → children_ ad = [c] → parents_ ad = [r] →
  driver_component_ ad = None →
  heap w !! b = Some bd → children_ bd = [c] → parents_ bd = [r] →
  driver_component_ bd = None →
  heap w !! c = Some cd → children_ cd = [] → parents_ cd = [a; b] →
  driver_component_ cd = None →
  Remove (S (S (S (S (S fuel))))) r w = Undefined IteratorInvalidated.
Proof. apply Remove_loses_iterator. Qed.

Lemma Remove_above_composite_leaf_witness :
  Remove 5 root_address world_composite_leaf = Undefined IteratorInvalidated.
Proof.
  by apply (Remove_above_composite_leaf 0 1%positive 2%positive 3%positive 4%positive
              (plain "root" [] [2; 3]%positive None) (plain "a" [1%positive] [4%positive] None)
              (plain "b" [1%positive] [4%positive] None)
              (plain "composite" [2; 3]%positive [] None) world_composite_leaf).
Defined.


(** ** [InspectNode] and [DriverRunner::Inspect] *)

(** The nodes of the inspect hierarchy are told apart by numbers; 0 is the
    root of the inspector. *)
Definition inode := nat.

Inductive InspectOp :=
| ICreateChild (parent : inode) (name : string) (child : inode)
| ICreateString (node : inode) (key value : string).

(** The lambda [inspect_decl]. *)
Definition inspect_decl (decl : OfferDecl) : string :=
  match target_name decl with
  | Some name => name
  | None => match source_name decl with
            | Some name => name
            | None => "<missing>"
            end
  end.

(** The state of the loop of [InspectNode].  [populated], which the code
    does not have, keeps the pairs which went past [unique_nodes], in their
    order. *)
Record InspectState := mkInspectState {
  stack : list (inode * ptr);          (* the top in front *)
  unique_nodes : gset ptr;
  next_inode : inode;
  inspect_ops : list InspectOp;
  populated : list (inode * ptr);
}.

(** The loop over the children, which the caller gives in reverse. *)
Fixpoint push_children (root : inode) (children : list ptr) (w : World) (st : InspectState)
    : Outcome InspectState :=
  match children with
  | [] => Done st
  | child :: children' =>
      cd ← node_at child w;
      let root_for_child := next_inode st in
      push_children root children' w
        (mkInspectState ((root_for_child, child) :: stack st) (unique_nodes st)
           (S root_for_child)
           (inspect_ops st ++ [ICreateChild root (name_ cd) root_for_child])
           (populated st))
  end.

(** [symbol.name().get()] on each symbol. *)
Definition symbol_strings (syms : list NodeSymbol) : Outcome (list string) :=
  match mapM symbol_name syms with
  | Some names => Done names
  | None => Undefined BadOptionalAccess
  end.

Definition add_string (root : inode) (key value : string) (st : InspectState)
    : InspectState :=
  mkInspectState (stack st) (unique_nodes st) (next_inode st)
    (inspect_ops st ++ [ICreateString root key value]) (populated st).

(** The body of the loop for a node which was not in [unique_nodes]. *)
Definition populate (root : inode) (node : ptr) (w : World) (st : InspectState)
    : Outcome InspectState :=
  nd ← node_at node w;
  let st1 :=
    if empty (offers_ nd) then st
    else add_string root "offers"
           (JoinStrings ((λ offer, value_or (VisitOffer offer inspect_decl) "unknown")
                         <$> offers_ nd) ", ") st in
  syms ← symbols node w;
  st2 ← (if empty syms then Done st1
         else strings ← symbol_strings syms;
              Done (add_string root "symbols" (JoinStrings strings ", ") st1));
  push_children root (reverse (children_ nd)) w st2.

Fixpoint InspectNode (fuel : nat) (w : World) (st : InspectState) {struct fuel}
    : Outcome InspectState :=
  match stack st with
  | [] => Done st
  | (root, node) :: rest =>
      match fuel with
      | O => OutOfFuel
      | S fuel' =>
          if decide (node ∈ unique_nodes st)
          then InspectNode fuel' w
                 (mkInspectState rest (unique_nodes st) (next_inode st) (inspect_ops st)
                    (populated st))
          else
            st1 ← populate root node w
                    (mkInspectState rest ({[node]} ∪ unique_nodes st) (next_inode st)
                       (inspect_ops st) (populated st ++ [(root, node)]));
            InspectNode fuel' w st1
      end
  end.

(** [DriverRunner::Inspect]: the hierarchy starts with a child of the root of
    the inspector, under the name of the root node. *)
Definition Inspect (fuel : nat) (w : World) : Outcome InspectState :=
  rd ← node_at (root_node_ w) w;
  InspectNode fuel w
    (mkInspectState [(1%nat, root_node_ w)] ∅ 2%nat [ICreateChild 0%nat (name_ rd) 1%nat] []).

Example Inspect_diamond :
  (st ← Inspect 10 world_diamond; Done (inspect_ops st, (populated st).*2))
  = Done ([ICreateChild 0 "root" 1; ICreateChild 1 "b" 2; ICreateChild 1 "a" 3;
           ICreateChild 3 "composite" 4; ICreateChild 2 "composite" 5]%nat,
          [1; 2; 4; 3]%positive).
Proof. vm_compute. reflexivity. Qed.
Lemma push_children_Done (root : inode) (w : World) (cs : list ptr) (st st' : InspectState) :
  push_children root cs w st = Done st' →
  (stack st').*2 = reverse cs ++ (stack st).*2
  ∧ unique_nodes st' = unique_nodes st
  ∧ populated st' = populated st.
Proof.
  revert st. induction cs as [|c cs IH]; intros st H; simpl in H.
  { by simplify_eq. }
  apply bind_Done in H as (cd & _ & H). apply IH in H as (Hs & Hu & Hp). simpl in *.
  rewrite reverse_cons, <- (assoc_L (++)). done.
Qed.

Lemma populate_Done (root : inode) (node : ptr) (w : World) (st st' : InspectState) :
  populate root node w st = Done st' →
  ∃ nd, heap w !! node = Some nd
        ∧ (stack st').*2 = children_ nd ++ (stack st).*2
        ∧ unique_nodes st' = unique_nodes st
        ∧ populated st' = populated st.
Proof.
  unfold populate. intros H.
  apply bind_Done in H as (nd & Hnd & H). apply node_at_Done in Hnd.
  apply bind_Done in H as (syms & _ & H).
  apply bind_Done in H as (st2 & Hst2 & H).
  apply push_children_Done in H as (Hs & Hu & Hp). rewrite reverse_involutive in Hs.
  exists nd. split; [done|].
  assert (stack st2 = stack st ∧ unique_nodes st2 = unique_nodes st
          ∧ populated st2 = populated st) as (E1 & E2 & E3).
  { destruct (empty syms).
    - simplify_eq. by destruct (empty (offers_ nd)).
    - apply bind_Done in Hst2 as (strings & _ & Hst2). simplify_eq.
      by destruct (empty (offers_ nd)). }
  by rewrite Hs, Hu, Hp, E1, E2, E3.
Qed.

(** What the loop of [InspectNode] keeps, for the hierarchy under [r]. *)
Definition inspect_inv (w : World) (r : ptr) (st : InspectState) : Prop :=
  NoDup (populated st).*2
  ∧ (∀ m, m ∈ unique_nodes st ↔ m ∈ (populated st).*2)
  ∧ (∀ m, m ∈ (populated st).*2 ∨ m ∈ (stack st).*2 → below w r m)
  ∧ (r ∈ (populated st).*2 ∨ r ∈ (stack st).*2)
  ∧ (∀ m md c, m ∈ (populated st).*2 → heap w !! m = Some md → c ∈ children_ md →
       c ∈ (populated st).*2 ∨ c ∈ (stack st).*2).

Lemma InspectNode_inv (w : World) (r : ptr) (fuel : nat) (st st' : InspectState) :
  inspect_inv w r st → InspectNode fuel w st = Done st' →
  inspect_inv w r st' ∧ stack st' = [].
Proof.
  revert st. induction fuel as [|fuel IH]; intros st Hinv H; simpl in H.
  { destruct (stack st) as [|[root node] rest] eqn:Hstack; [|done]. by simplify_eq. }
  destruct (stack st) as [|[root node] rest] eqn:Hstack; [by simplify_eq|].
  destruct Hinv as (Hnd & Huniq & Hbelow & Hroot & Hclosed).
  rewrite Hstack in *. rewrite fmap_cons in *. cbn [snd] in *.
  destruct (decide (node ∈ unique_nodes st)) as [Hin|Hnew].
  - apply IH in H; [done|]. apply Huniq in Hin.
    split_and!; simpl; [done|done|..].
    + intros m [Hm|Hm]; apply Hbelow; [by left|]. right. by right.
    + destruct Hroot as [?|Hr]; [by left|].
      apply elem_of_cons in Hr as [->|?]; [by left|by right].
    + intros m md c Hm Hmd Hc.
      destruct (Hclosed m md c Hm Hmd Hc) as [?|Hc']; [by left|].
      apply elem_of_cons in Hc' as [->|?]; [by left|by right].
  - apply bind_Done in H as (st1 & Hpop & H).
    apply populate_Done in Hpop as (nd & Hnode & Hs & Hu & Hp). simpl in *.
    apply IH in H; [done|].
    assert (node ∉ (populated st).*2) as Hfresh by (by rewrite <- Huniq).
    unfold inspect_inv. rewrite Hs, Hu, Hp, fmap_app. simpl.
    split_and!.
    + apply NoDup_app. split_and!; [done| |apply NoDup_singleton].
      intros m Hm ->%list_elem_of_singleton. done.
    + intros m. rewrite elem_of_union, elem_of_singleton, elem_of_app,
        list_elem_of_singleton, Huniq. tauto.
    + intros m. rewrite !elem_of_app, list_elem_of_singleton.
      intros [[Hm| ->]|[Hm|Hm]].
      * apply Hbelow. by left.
      * apply Hbelow. right. by left.
      * eapply below_child; [|exact Hnode|exact Hm]. apply Hbelow. right. by left.
      * apply Hbelow. right. by right.
    + rewrite !elem_of_app, list_elem_of_singleton.
      destruct Hroot as [?|Hr]; [by left; left|].
      apply elem_of_cons in Hr as [->|?]; [by left; right|by right; right].
    + intros m md c. rewrite !elem_of_app, !list_elem_of_singleton.
      intros [Hm| ->] Hmd Hc.
      * destruct (Hclosed m md c Hm Hmd Hc) as [?|Hc']; [by left; left|].
        apply elem_of_cons in Hc' as [->|?]; [by left; right|by right; right].
      * assert (md = nd) as -> by congruence. right. by left.
Qed.

(** X19 ([InspectNode], [DriverRunner::Inspect]): when [Inspect] returns, the
    nodes whose data it wrote are exactly the nodes that can be reached from
    the root node along the lists of children, and each of them was written
    once, also a node that several parents share; nothing is left on the
    stack. *)
Theorem Inspect_visits (fuel : nat) (w : World) (st : InspectState) :
  Inspect fuel w = Done st →
  stack st = []
  ∧ NoDup (populated st).*2
  ∧ ∀ m, m ∈ (populated st).*2 ↔ below w (root_node_ w) m.
Proof.
  unfold Inspect. intros H. apply bind_Done in H as (rd & _ & H).
  apply (InspectNode_inv w (root_node_ w)) in H as [Hinv Hstack].
  - destruct Hinv as (Hnd & _ & Hbelow & Hroot & Hclosed). rewrite Hstack in *.
    split_and!; [done|done|]. intros m. split.
    + intros Hm. apply Hbelow. by left.
    + induction 1 as [|m md c _ IH Hmd Hc].
      * destruct Hroot as [?|Hr]; [done|]. by apply elem_of_nil in Hr.
      * destruct (Hclosed m md c IH Hmd Hc) as [?|Hc']; [done|].
        by apply elem_of_nil in Hc'.
  - split_and!; simpl.
    + apply NoDup_nil_2.
    + intros m. rewrite elem_of_empty. split; [done|]. by intros ?%elem_of_nil.
    + intros m [Hm|Hm]; [by apply elem_of_nil in Hm|].
      apply list_elem_of_singleton in Hm as ->. apply below_here.
    + right. by apply list_elem_of_singleton.
    + intros m md c Hm. by apply elem_of_nil in Hm.
Qed.

Lemma Inspect_visits_witness :
  ∃ st, Inspect 10 world_diamond = Done st
        ∧ stack st = []
        ∧ NoDup (populated st).*2
        ∧ ∀ m, m ∈ (populated st).*2 ↔ below world_diamond (root_node_ world_diamond) m.
Proof.
  assert (∃ st, Inspect 10 world_diamond = Done st) as [st Hst]
    by (eexists; vm_compute; reflexivity).
  exists st. split; [exact Hst|]. exact (Inspect_visits 10 world_diamond st Hst).
Defined.

(** *** The loop of [InspectNode] ends *)

(** The number of entries of the lists of children, over the nodes outside
    [seen]. *)
Definition pending_in (seen : gset ptr) (nodes : list (ptr * Node)) : nat :=
  sum_list ((λ p, length (children_ p.2)) <$> filter (λ p, p.1 ∉ seen) nodes).

Definition edges (w : World) : nat :=
  sum_list ((λ p, length (children_ p.2)) <$> map_to_list (heap w)).

Lemma pending_in_absent (seen : gset ptr) (m : ptr) (nodes : list (ptr * Node)) :
  m ∉ nodes.*1 → pending_in ({[m]} ∪ seen) nodes = pending_in seen nodes.
Proof.
  unfold pending_in. induction nodes as [|[k kd] nodes IH]; [done|].
  rewrite fmap_cons, not_elem_of_cons. simpl. intros [Hk Hm].
  rewrite !filter_cons. simpl.
  destruct (decide (k ∈ seen)) as [Hin|Hout].
  - rewrite !decide_False by set_solver. by apply IH.
  - rewrite !decide_True by set_solver. rewrite !fmap_cons. simpl. f_equal. by apply IH.
Qed.

Lemma pending_in_visit (seen : gset ptr) (m : ptr) (md : Node) (nodes : list (ptr * Node)) :
  NoDup nodes.*1 → (m, md) ∈ nodes → m ∉ seen →
  pending_in seen nodes = (length (children_ md) + pending_in ({[m]} ∪ seen) nodes)%nat.
Proof.
  intros Hnd Hin Hm. induction nodes as [|[k kd] nodes IH]; [by apply elem_of_nil in Hin|].
  rewrite fmap_cons in Hnd. apply NoDup_cons in Hnd as [Hk Hnd]. simpl in Hk.
  destruct (decide (k = m)) as [->|Hkm].
  - assert (kd = md) as ->.
    { apply elem_of_cons in Hin as [?|Hin]; [congruence|].
      destruct Hk. apply list_elem_of_fmap. by exists (m, md). }
    pose proof (pending_in_absent seen m nodes Hk) as Habs.
    unfold pending_in in *. rewrite !filter_cons. simpl.
    rewrite decide_True by done. rewrite decide_False by set_solver.
    rewrite fmap_cons. simpl. by rewrite Habs.
  - apply elem_of_cons in Hin as [?|Hin]; [congruence|].
    specialize (IH Hnd Hin). unfold pending_in in *. rewrite !filter_cons. simpl.
    destruct (decide (k ∈ seen)) as [Hk'|Hk'].
    + rewrite !decide_False by set_solver. done.
    + rewrite !decide_True by set_solver. rewrite !fmap_cons. simpl. rewrite IH. lia.
Qed.

Lemma pending_in_empty (w : World) : pending_in ∅ (map_to_list (heap w)) = edges w.
Proof.
  unfold pending_in, edges. f_equal. f_equal.
  induction (map_to_list (heap w)) as [|p l IH]; [done|].
  rewrite filter_cons_True by set_solver. by rewrite IH.
Qed.

(** What [InspectNode] dereferences is there: the children and the primary
    parent of each node are alive, and the symbols have their names. *)
Definition inspectable (w : World) : Prop :=
  children_alive w
  ∧ (∀ n nd p, heap w !! n = Some nd → PrimaryParent (parents_ nd) = Some p →
       is_Some (heap w !! p))
  ∧ (∀ n nd symbol, heap w !! n = Some nd → symbol ∈ symbols_ nd →
       is_Some (symbol_name symbol)).

Lemma push_children_succeeds (root : inode) (w : World) (cs : list ptr) (st : InspectState) :
  Forall (λ c, is_Some (heap w !! c)) cs → ∃ st', push_children root cs w st = Done st'.
Proof.
  intros Hcs. revert st. induction Hcs as [|c cs [cd Hc] _ IH]; intros st; simpl.
  { by eexists. }
  unfold node_at. rewrite Hc. simpl. apply IH.
Qed.

Lemma symbol_strings_succeeds (syms : list NodeSymbol) :
  Forall (λ symbol, is_Some (symbol_name symbol)) syms →
  ∃ strings, symbol_strings syms = Done strings.
Proof.
  intros H. unfold symbol_strings.
  destruct (mapM symbol_name syms) as [names|] eqn:E; [by eexists|].
  apply eq_None_not_Some in E. destruct E. by apply mapM_is_Some.
Qed.

Lemma populate_succeeds (root : inode) (node : ptr) (w : World) (st : InspectState) :
  inspectable w → is_Some (heap w !! node) → ∃ st', populate root node w st = Done st'.
Proof.
  intros (Halive & Hparent & Hnames) [nd Hnd]. unfold populate, symbols, node_at.
  rewrite Hnd. simpl. set (st1 := if empty (offers_ nd) then _ else _). clearbody st1.
  assert (∃ syms, (match PrimaryParent (parents_ nd) with
                   | Some primary_parent =>
                       pd ← match heap w !! primary_parent with
                            | Some nd0 => Done nd0
                            | None => Undefined DanglingPointer
                            end;
                       if decide (driver_host_ pd = driver_host_ nd)
                       then Done (if (1 <? length (parents_ nd))%nat
                                  then symbols_ pd else symbols_ nd)
                       else Done []
                   | None => Done []
                   end) = Done syms
                  ∧ Forall (λ symbol, is_Some (symbol_name symbol)) syms)
    as (syms & -> & Hsyms).
  { destruct (PrimaryParent (parents_ nd)) as [p|] eqn:Hp; [|by eexists].
    destruct (Hparent node nd p Hnd Hp) as [pd Hpd]. rewrite Hpd. simpl.
    destruct (decide (driver_host_ pd = driver_host_ nd)); [|by eexists].
    eexists. split; [done|]. apply Forall_forall. intros s Hs.
    destruct (1 <? length (parents_ nd))%nat; eauto. }
  simpl.
  assert (Forall (λ c, is_Some (heap w !! c)) (reverse (children_ nd))) as Hcs.
  { apply Forall_forall. intros c Hc. rewrite elem_of_reverse in Hc. exact (Halive node nd c Hnd Hc). }
  destruct (empty syms).
  - simpl. by apply push_children_succeeds.
  - destruct (symbol_strings_succeeds syms Hsyms) as [strings ->]. simpl.
    by apply push_children_succeeds.
Qed.

Lemma InspectNode_ends (w : World) (fuel : nat) (st : InspectState) :
  inspectable w →
  Forall (λ c, is_Some (heap w !! c)) (stack st).*2 →
  (length (stack st) + pending_in (unique_nodes st) (map_to_list (heap w)) ≤ fuel)%nat →
  ∃ st', InspectNode fuel w st = Done st'.
Proof.
  intros Hw. revert st. induction fuel as [|fuel IH]; intros st Hstack Hfuel; simpl.
  { destruct (stack st); [by eexists|simpl in Hfuel; lia]. }
  destruct (stack st) as [|[root node] rest] eqn:Hst; [by eexists|].
  rewrite fmap_cons in Hstack. apply Forall_cons in Hstack as [[nd Hnode] Hrest].
  simpl in *.
  destruct (decide (node ∈ unique_nodes st)) as [Hin|Hnew].
  - apply IH; simpl; [done|lia].
  - destruct (populate_succeeds root node w
                (mkInspectState rest ({[node]} ∪ unique_nodes st) (next_inode st)
                   (inspect_ops st) (populated st ++ [(root, node)])) Hw)
      as [st1 Hst1]; [by eexists|].
    rewrite Hst1. simpl.
    apply populate_Done in Hst1 as (nd' & Hnode' & Hs & Hu & _). simpl in *.
    assert (nd' = nd) as -> by congruence.
    apply IH.
    + rewrite Hs. apply Forall_app. split; [|done].
      apply Forall_forall. intros c Hc. destruct Hw as [Halive _].
      exact (Halive node nd c Hnode Hc).
    + rewrite Hu. 
      rewrite (pending_in_visit (unique_nodes st) node nd) in Hfuel;
        [|apply NoDup_fst_map_to_list|by apply elem_of_map_to_list|done].
      assert (length (stack st1) = length (children_ nd) + length rest)%nat as ->; [|lia].
      rewrite <- (length_fmap snd), Hs, length_app, length_fmap. done.
Qed.

(** X20 ([InspectNode], [DriverRunner::Inspect]): [Inspect] ends on every
    graph of nodes, also one in which nodes are shared or lie on a cycle, as
    soon as what it dereferences is there; the loop of [InspectNode] runs at
    most once for the root and once for each entry of a list of children. *)
Theorem Inspect_ends (fuel : nat) (w : World) :
  inspectable w → is_Some (heap w !! root_node_ w) → (edges w < fuel)%nat →
  ∃ st, Inspect fuel w = Done st.
Proof.
  intros Hw [rd Hroot] Hfuel. unfold Inspect, node_at. rewrite Hroot. simpl.
  apply InspectNode_ends; simpl; [done|by repeat constructor|].
  rewrite pending_in_empty. lia.
Qed.

Lemma inspectable_decide (w : World) :
  bool_decide (map_Forall (λ _ nd,
      Forall (λ c, is_Some (heap w !! c)) (children_ nd)
      ∧ (PrimaryParent (parents_ nd) = None
         ∨ is_Some (PrimaryParent (parents_ nd) ≫= (heap w !!.)))
      ∧ Forall (λ symbol, is_Some (symbol_name symbol)) (symbols_ nd)) (heap w)) = true →
  inspectable w.
Proof.
  intros H. apply bool_decide_eq_true in H. split_and!.
  - intros n nd c Hn Hc. destruct (H n nd Hn) as (Hcs & _ & _).
    by eapply Forall_forall in Hcs.
  - intros n nd p Hn Hp. destruct (H n nd Hn) as (_ & [Hnone|Hsome] & _); [congruence|].
    rewrite Hp in Hsome. exact Hsome.
  - intros n nd symbol Hn Hs. destruct (H n nd Hn) as (_ & _ & Hnames).
    by eapply Forall_forall in Hnames.
Qed.

Lemma Inspect_ends_witness :
  inspectable world_diamond ∧ (edges world_diamond < 5)%nat
  ∧ ∃ st, Inspect 5 world_diamond = Done st.
Proof.
  assert (inspectable world_diamond) as Hw
    by (apply inspectable_decide; vm_compute; reflexivity).
  assert (edges world_diamond < 5)%nat as Hfuel by (vm_compute; lia).
  split_and!; [exact Hw|exact Hfuel|].
  apply (Inspect_ends 5 world_diamond Hw); [by eexists|exact Hfuel].
Defined.

(** *** What [InspectNode] writes *)

(** The string under the key "offers". *)
Definition offers_string (offers : list Offer) : string :=
  JoinStrings ((λ offer, value_or (VisitOffer offer inspect_decl) "unknown") <$> offers) ", ".

(** The inspect node [i] carries the data of the node [m]: its offers and
    symbols, when it has some, and one child by the name of each child. *)
Definition written (w : World) (ops : list InspectOp) (i : inode) (m : ptr) : Prop :=
  ∃ md, heap w !! m = Some md
    ∧ (∀ c, c ∈ children_ md →
         ∃ cd j, heap w !! c = Some cd ∧ ICreateChild i (name_ cd) j ∈ ops)
    ∧ (offers_ md ≠ [] → ICreateString i "offers" (offers_string (offers_ md)) ∈ ops)
    ∧ (∀ syms, symbols m w = Done syms → syms ≠ [] →
         ∃ strings, mapM symbol_name syms = Some strings
                    ∧ ICreateString i "symbols" (JoinStrings strings ", ") ∈ ops).

Lemma written_mono (w : World) (ops ops' : list InspectOp) (i : inode) (m : ptr) :
  (∀ op, op ∈ ops → op ∈ ops') → written w ops i m → written w ops' i m.
Proof.
  intros Hsub (md & Hmd & Hcs & Hoffers & Hsyms). exists md. split_and!; [done|..].
  - intros c Hc. destruct (Hcs c Hc) as (cd & j & ? & ?). exists cd, j. auto.
  - auto.
  - intros syms H1 H2. destruct (Hsyms syms H1 H2) as (strings & ? & ?).
    exists strings. auto.
Qed.

Lemma push_children_entries (root : inode) (w : World) (cs : list ptr)
    (st st' : InspectState) :
  push_children root cs w st = Done st' →
  ∃ pushed,
    stack st' = pushed ++ stack st
    ∧ pushed.*2 = reverse cs
    ∧ NoDup pushed.*1
    ∧ (∀ i c, (i, c) ∈ pushed →
         (next_inode st ≤ i < next_inode st')%nat
         ∧ ∃ cd, heap w !! c = Some cd ∧ ICreateChild root (name_ cd) i ∈ inspect_ops st')
    ∧ (∀ op, op ∈ inspect_ops st → op ∈ inspect_ops st')
    ∧ (next_inode st ≤ next_inode st')%nat.
Proof.
  revert st. induction cs as [|c cs IH]; intros st H; simpl in H.
  { simplify_eq. exists []. split_and!; try done; [apply NoDup_nil_2|].
    intros i c Hin. by apply elem_of_nil in Hin. }
  apply bind_Done in H as (cd & Hcd & H). apply node_at_Done in Hcd.
  apply IH in H as (pushed & Hstack & Hnodes & Hnd & Hentries & Hops & Hnext).
  simpl in *. exists (pushed ++ [(next_inode st, c)]). split_and!.
  - by rewrite Hstack, <- (assoc_L (++)).
  - by rewrite fmap_app, Hnodes, reverse_cons.
  - rewrite fmap_app. change ([(next_inode st, c)].*1) with [next_inode st].
    apply NoDup_app. split_and!; [done| |apply NoDup_singleton].
    intros i Hi Hi'. apply list_elem_of_singleton in Hi'.
    apply list_elem_of_fmap in Hi as ([i' c'] & Hi & Hin). simpl in Hi. subst i'.
    destruct (Hentries _ _ Hin) as [? _]. simpl in *. lia.
  - intros i c' [Hin|Hin]%elem_of_app.
    + destruct (Hentries _ _ Hin) as [? ?]. split; [lia|done].
    + apply list_elem_of_singleton in Hin. simplify_eq. split; [lia|].
      exists cd. split; [done|]. apply Hops, elem_of_app. right.
      by apply list_elem_of_singleton.
  - intros op Hop. apply Hops, elem_of_app. by left.
  - lia.
Qed.

Lemma populate_entries (root : inode) (node : ptr) (w : World) (st st' : InspectState) :
  populate root node w st = Done st' →
  written w (inspect_ops st') root node
  ∧ ∃ pushed,
      stack st' = pushed ++ stack st
      ∧ NoDup pushed.*1
      ∧ (∀ i c, (i, c) ∈ pushed →
           (next_inode st ≤ i < next_inode st')%nat
           ∧ ∃ cd p, heap w !! c = Some cd ∧ ICreateChild p (name_ cd) i ∈ inspect_ops st')
      ∧ (∀ op, op ∈ inspect_ops st → op ∈ inspect_ops st')
      ∧ (next_inode st ≤ next_inode st')%nat.
Proof.
  intros H. unfold populate in H.
  apply bind_Done in H as (nd & Hnd & H). apply node_at_Done in Hnd.
  apply bind_Done in H as (syms & Hsyms & H).
  apply bind_Done in H as (st2 & Hst2 & H).
  set (st1 := if empty (offers_ nd) then st else _) in Hst2.
  assert (stack st1 = stack st ∧ next_inode st1 = next_inode st
          ∧ (∀ op, op ∈ inspect_ops st → op ∈ inspect_ops st1)
          ∧ (offers_ nd ≠ [] →
               ICreateString root "offers" (offers_string (offers_ nd)) ∈ inspect_ops st1))
    as (S1 & N1 & O1 & Hoffers).
  { unfold st1. destruct (offers_ nd) as [|o os]; simpl; [done|].
    split_and!; [done|done|..].
    - intros op Hop. apply elem_of_app. by left.
    - intros _. apply elem_of_app. right. by apply list_elem_of_singleton. }
  clearbody st1.
  assert (stack st2 = stack st1 ∧ next_inode st2 = next_inode st1
          ∧ (∀ op, op ∈ inspect_ops st1 → op ∈ inspect_ops st2)
          ∧ (syms ≠ [] →
               ∃ strings, mapM symbol_name syms = Some strings
                 ∧ ICreateString root "symbols" (JoinStrings strings ", ") ∈ inspect_ops st2))
    as (S2 & N2 & O2 & Hsymbols).
  { destruct syms as [|s syms]; simpl in Hst2; [by simplify_eq|].
    apply bind_Done in Hst2 as (strings & Hstrings & Hst2).
    assert (mapM symbol_name (s :: syms) = Some strings) as Hmap.
    { unfold symbol_strings in Hstrings.
      destruct (mapM symbol_name (s :: syms)); by simplify_eq. }
    injection Hst2 as <-. cbn [add_string stack next_inode inspect_ops].
    split_and!; [done|done|..].
    - intros op Hop. apply elem_of_app. by left.
    - intros _. exists strings. split; [exact Hmap|].
      apply elem_of_app. right. by apply list_elem_of_singleton. }
  apply push_children_entries in H
    as (pushed & Hstack & Hnodes & Hnodup & Hentries & Hops & Hnext).
  rewrite reverse_involutive in Hnodes. split.
  - exists nd. split_and!; [done|..].
    + intros c Hc. rewrite <- Hnodes in Hc.
      apply list_elem_of_fmap in Hc as ([j c'] & -> & Hin).
      destruct (Hentries _ _ Hin) as (_ & cd & Hcd & Hop). by exists cd, j.
    + auto.
    + intros syms' Hsyms' Hne. assert (syms' = syms) as -> by congruence.
      destruct (Hsymbols Hne) as (strings & ? & ?). exists strings. auto.
  - exists pushed. split_and!; [congruence|done| |auto|lia].
    intros i c Hin. destruct (Hentries _ _ Hin) as (? & cd & ? & ?).
    split; [lia|]. by exists cd, root.
Qed.

Definition entries_inv (w : World) (st : InspectState) : Prop :=
  NoDup ((stack st).*1 ++ (populated st).*1)
  ∧ (∀ i, i ∈ (stack st).*1 ++ (populated st).*1 → (i < next_inode st)%nat)
  ∧ (∀ i m, (i, m) ∈ stack st ++ populated st →
       ∃ md p, heap w !! m = Some md ∧ ICreateChild p (name_ md) i ∈ inspect_ops st)
  ∧ (∀ i m, (i, m) ∈ populated st → written w (inspect_ops st) i m).

Lemma InspectNode_entries (w : World) (fuel : nat) (st st' : InspectState) :
  entries_inv w st → InspectNode fuel w st = Done st' → entries_inv w st'.
Proof.
  revert st. induction fuel as [|fuel IH]; intros st Hinv H; simpl in H.
  { destruct (stack st) as [|[root node] rest] eqn:Hstack; [|done]. by simplify_eq. }
  destruct (stack st) as [|[root node] rest] eqn:Hstack; [by simplify_eq|].
  destruct Hinv as (Hnd & Hlt & Hnamed & Hwritten).
  rewrite Hstack in *. rewrite fmap_cons in *. cbn [fst] in *.
  simpl in Hnd. apply NoDup_cons in Hnd as [Hroot Hnd].
  destruct (decide (node ∈ unique_nodes st)) as [Hin|Hnew].
  - apply IH in H; [done|]. split_and!; simpl; [done|..].
    + intros i Hi. apply Hlt. by right.
    + intros i m Hi. apply Hnamed. by right.
    + done.
  - apply bind_Done in H as (st1 & Hpop & H).
    pose proof Hpop as Hpop'. apply populate_entries in Hpop
      as (Hw & pushed & Hs & Hpnd & Hentries & Hops & Hnext). simpl in *.
    apply populate_Done in Hpop' as (_ & _ & _ & _ & Hp). simpl in Hp.
    apply IH in H; [done|]. unfold entries_inv. rewrite Hs, Hp. simpl.
    rewrite !fmap_app. change ([(root, node)].*1) with [root].
    assert (∀ i, i ∈ pushed.*1 → (next_inode st ≤ i < next_inode st1)%nat) as Hfresh.
    { intros i Hi. apply list_elem_of_fmap in Hi as ([i' c] & -> & Hin).
      by destruct (Hentries _ _ Hin). }
    assert (∀ i, i ∈ rest.*1 ++ (populated st).*1 ++ [root] → (i < next_inode st)%nat)
      as Hold.
    { intros i Hi. apply Hlt. rewrite (assoc_L (++)) in Hi.
      apply elem_of_app in Hi as [Hi|Hi]; [by right|].
      apply list_elem_of_singleton in Hi as ->. by left. }
    split_and!.
    + rewrite <- (assoc_L (++)). apply NoDup_app. split_and!; [done|..].
      * intros i Hi Hi'. apply Hfresh in Hi. apply Hold in Hi'. lia.
      * rewrite (assoc_L (++)). apply NoDup_app. split_and!; [done| |apply NoDup_singleton].
        intros i Hi Hi'. apply list_elem_of_singleton in Hi' as ->. done.
    + intros i. rewrite <- (assoc_L (++)). intros [Hi|Hi]%elem_of_app.
      * apply Hfresh in Hi. lia.
      * apply Hold in Hi. lia.
    + intros i m' Hin.
      assert ((i, m') ∈ pushed ∨ (i, m') ∈ (root, node) :: rest ++ populated st)
        as [Hi|Hi].
      { rewrite elem_of_cons. rewrite !elem_of_app, list_elem_of_singleton in Hin.
        rewrite elem_of_app. tauto. }
      * destruct (Hentries _ _ Hi) as [_ ?]. done.
      * destruct (Hnamed _ _ Hi) as (md & p & ? & ?). exists md, p. auto.
    + intros i m' [Hin|Hin]%elem_of_app.
      * eapply written_mono; [exact Hops|]. by apply Hwritten.
      * apply list_elem_of_singleton in Hin. by simplify_eq.
Qed.

Lemma InspectNode_stack (w : World) (fuel : nat) (st st' : InspectState) :
  InspectNode fuel w st = Done st' → stack st' = [].
Proof.
  revert st. induction fuel as [|fuel IH]; intros st H; simpl in H.
  { destruct (stack st) as [|[root node] rest] eqn:Hstack; [|done]. by simplify_eq. }
  destruct (stack st) as [|[root node] rest] eqn:Hstack; [by simplify_eq|].
  destruct (decide (node ∈ unique_nodes st)); [by eapply IH|].
  apply bind_Done in H as (st1 & _ & H). by eapply IH.
Qed.

(** X21 ([InspectNode], [DriverRunner::Inspect]): each node that [Inspect]
    writes gets an inspect node of its own, created under the name of the
    node; this inspect node gets the offers and the symbols of the node as
    strings, when there are some, and one child by the name of each child of
    the node. *)
Theorem Inspect_entries (fuel : nat) (w : World) (st : InspectState) :
  Inspect fuel w = Done st →
  NoDup (populated st).*1
  ∧ ∀ i m, (i, m) ∈ populated st →
      (∃ md p, heap w !! m = Some md ∧ ICreateChild p (name_ md) i ∈ inspect_ops st)
      ∧ written w (inspect_ops st) i m.
Proof.
  unfold Inspect. intros H. apply bind_Done in H as (rd & Hrd & H).
  apply node_at_Done in Hrd. pose proof (InspectNode_stack _ _ _ _ H) as Hstack.
  apply InspectNode_entries in H.
  - destruct H as (Hnd & _ & Hnamed & Hwritten). rewrite Hstack in *. simpl in *.
    split; [done|]. intros i m Hin. split; [by apply Hnamed|by apply Hwritten].
  - split_and!; simpl.
    + apply NoDup_singleton.
    + intros i Hi. apply list_elem_of_singleton in Hi as ->. lia.
    + intros i m Hin. apply list_elem_of_singleton in Hin. simplify_eq.
      exists rd, 0%nat. split; [done|]. by apply list_elem_of_singleton.
    + intros i m Hin. by apply elem_of_nil in Hin.
Qed.

Lemma Inspect_entries_witness :
  ∃ st, Inspect 10 world_diamond = Done st
        ∧ NoDup (populated st).*1
        ∧ ∀ i m, (i, m) ∈ populated st →
            (∃ md p, heap world_diamond !! m = Some md
                     ∧ ICreateChild p (name_ md) i ∈ inspect_ops st)
            ∧ written world_diamond (inspect_ops st) i m.
Proof.
  assert (∃ st, Inspect 10 world_diamond = Done st) as [st Hst]
    by (eexists; vm_compute; reflexivity).
  exists st. split; [exact Hst|]. exact (Inspect_entries 10 world_diamond st Hst).
Defined.


(** ** A composite driver whose nodes are matched in any order *)

(** The calls of [CreateCompositeNode] in the match callbacks for the nodes of
    one composite driver with [num] nodes, where [AddToCompositeArgs] gives
    each call the pending set at [it]; an arrival is the node with its
    index. *)
Inductive composite_arrivals (it : nat) (num : N)
    : list (N * ptr) → World → list (status ptr) → World → Prop :=
| arrivals_done (w : World) : composite_arrivals it num [] w [] w
| arrivals_next (index : N) (node : ptr) (nd : Node) (info : MatchedCompositeInfo)
    (w w1 : World) (r : status ptr) (w2 : World) (arrivals : list (N * ptr))
    (rs : list (status ptr)) (w3 : World) :
    heap w !! node = Some nd →
    node_index info = Some index → num_nodes info = Some num →
    AddToCompositeArgs (name_ nd) info w = (ok it, w1) →
    CreateCompositeNode node info w = Done (r, w2) →
    composite_arrivals it num arrivals w2 rs w3 →
    composite_arrivals it num ((index, node) :: arrivals) w (r :: rs) w3.

(** The pending set a call is given is the one under construction at the end
    of [front], or a new one at that place. *)
Lemma AddToCompositeArgs_given (name : string) (info : MatchedCompositeInfo) (num : N)
    (w w1 : World) (front : list (string * CompositeArgs)) (key : string)
    (slots : list (option ptr)) :
  num_nodes info = Some num →
  AddToCompositeArgs name info w = (ok (length front), w1) →
  composite_args_ w = front ++ [(key, slots)]
  ∨ (composite_args_ w = front ∧ slots = replicate (N.to_nat num) None) →
  ∃ url, heap w1 = heap w ∧ orphaned_nodes_ w1 = orphaned_nodes_ w
         ∧ composite_args_ w1 = front ++ [(url, slots)].
Proof.
  intros Hnum Hadd Hargs.
  destruct (AddToCompositeArgs_ok_free _ _ _ _ _ Hadd)
    as (index & num' & url & nodes & _ & Hnum' & _ & Hit & _ & _ & _ & _ & Hw1).
  assert (num' = num) as -> by congruence.
  exists url. destruct Hw1 as [->|(Hlen & -> & ->)].
  - destruct Hargs as [Hargs|[Hargs _]]; rewrite Hargs in Hit.
    + rewrite lookup_app_r, Nat.sub_diag in Hit by done. simpl in Hit.
      injection Hit as <- <-. done.
    + apply lookup_lt_Some in Hit. exfalso. exact (Nat.lt_irrefl _ Hit).
  - destruct Hargs as [Hargs|[Hargs ->]]; rewrite Hargs in Hlen |- *.
    + rewrite length_app in Hlen. simpl in Hlen. lia.
    + done.
Qed.

Lemma composite_arrivals_run (it : nat) (num : N) (nodes : list ptr)
    (front : list (string * CompositeArgs)) (arrivals : list (N * ptr))
    (rs : list (status ptr)) (key : string) (slots : list (option ptr)) (w w' : World) :
  composite_arrivals it num arrivals w rs w' →
  arrivals ≠ [] → it = length front →
  length nodes = N.to_nat num → length slots = N.to_nat num →
  NoDup arrivals.*1 →
  (∀ i p, (i, p) ∈ arrivals →
     nodes !! N.to_nat i = Some p ∧ slots !! N.to_nat i = Some None) →
  (∀ j, slots !! j = Some None → ∃ i, N.to_nat i = j ∧ i ∈ arrivals.*1) →
  (∀ j p, slots !! j = Some (Some p) → nodes !! j = Some p) →
  (∀ p, p ∈ nodes → is_Some (heap w !! p)) →
  composite_args_ w = front ++ [(key, slots)]
  ∨ (composite_args_ w = front ∧ slots = replicate (N.to_nat num) None) →
  ∃ composite,
    rs = replicate (length arrivals - 1) (error ZX_ERR_NEXT) ++ [ok (fresh_node w)]
    ∧ composite_args_ w' = front
    ∧ orphaned_nodes_ w' = orphaned_nodes_ w
    ∧ heap w' !! fresh_node w = Some composite
    ∧ name_ composite = "composite" ∧ parents_ composite = nodes
    ∧ children_ composite = []
    ∧ ∀ x, x ≠ fresh_node w →
           heap w' !! x = add_children (occurrences x nodes) (fresh_node w) <$> heap w !! x.
Proof.
  intros Hrun Hne -> Hnodes. revert key slots Hne.
  induction Hrun as [w|index node nd info w w1 r w2 arrivals rs w3
                       Hnd Hindex Hnum Hadd Hcall Hrest IH];
    intros key slots Hne Hlen Hdistinct Harr Hfree Hfilled Halive Hargs; [done|].
  clear Hne. rewrite fmap_cons in Hdistinct. apply NoDup_cons in Hdistinct as [Hfresh Hdistinct].
  simpl in Hfresh.
  destruct (Harr index node) as [Hnode Hslot]; [by left|].
  destruct (AddToCompositeArgs_given _ _ _ _ _ _ _ _ Hnum Hadd Hargs)
    as (url & Hheap1 & Horph1 & Hargs1).
  assert (composite_args_ w1 !! length front = Some (url, slots)) as Hit.
  { rewrite Hargs1, lookup_app_r, Nat.sub_diag by done. done. }
  remember (<[N.to_nat index := Some node]> slots) as slots' eqn:Eslots.
  assert (slots' !! N.to_nat index = Some (Some node)) as Hhere.
  { rewrite Eslots. apply list_lookup_insert_eq. by eapply lookup_lt_Some. }
  assert (∀ j, j ≠ N.to_nat index → slots' !! j = slots !! j) as Hother.
  { intros j Hj. rewrite Eslots. by apply list_lookup_insert_ne. }
  assert (∀ j p, slots' !! j = Some (Some p) → nodes !! j = Some p) as Hfilled'.
  { intros j p Hj. destruct (decide (j = N.to_nat index)) as [->|Hji].
    - rewrite Hhere in Hj. by simplify_eq.
    - rewrite Hother in Hj by done. by apply Hfilled. }
  destruct arrivals as [|[index2 node2] arrivals].
  - (* the last node: every slot locks *)
    assert (rs = [] ∧ w3 = w2) as [-> ->] by (by inversion Hrest).
    destruct (CreateCompositeNode_creates node info w w1 nd (length front) url slots index
                nodes Hnd Hadd Hheap1 Hit Hindex)
      as (w'' & composite & Hrun' & Hargs' & Horph' & Hc & Hname & Hparents & Hch & Hheap').
    { unfold CompositeArgs. rewrite <- Eslots. apply Forall2_same_length_lookup.
      split; [rewrite Eslots, length_insert; lia|].
      intros j weak p Hj Hp.
      assert (is_Some (heap w !! p)) as [pd Hpd]
        by (apply Halive; by eapply list_elem_of_lookup_2).
      destruct weak as [q|].
      - apply Hfilled' in Hj. assert (q = p) as -> by congruence.
        unfold lock. by rewrite Hpd.
      - destruct (decide (j = N.to_nat index)) as [->|Hji];
          [exfalso; clear -Hj Hhere; rewrite Hhere in Hj; discriminate|].
        rewrite Hother in Hj by done.
        destruct (Hfree j Hj) as (i & <- & Hi).
        apply list_elem_of_singleton in Hi. by subst i. }
    rewrite Hrun' in Hcall. injection Hcall as <- <-.
    exists composite. split_and!; try done.
    + rewrite Hargs', Hargs1. rewrite (delete_middle front []). apply app_nil_r.
    + congruence.
  - (* another node is to come: its slot is empty *)
    assert (index2 ≠ index) as Hne2.
    { intros ->. apply Hfresh. by left. }
    assert (N.to_nat index2 ≠ N.to_nat index) as Hne2' by lia.
    destruct (Harr index2 node2) as [_ Hslot2]; [right; by left|].
    assert (Exists (λ weak, lock weak w = None) slots') as Hex.
    { apply Exists_exists. exists None. split; [|done].
      apply (list_elem_of_lookup_2 _ (N.to_nat index2)). by rewrite Hother. }
    rewrite Eslots in Hex.
    pose proof (CreateCompositeNode_waits node info w w1 nd (length front) url slots index
                  Hnd Hadd Hheap1 Hit Hindex Hex) as Hwait.
    rewrite Hwait in Hcall. injection Hcall as <- <-.
    destruct (IH url slots') as (composite & Hrs & Hrest'); try done.
    + by rewrite Eslots, length_insert.
    + intros i p Hin. destruct (Harr i p) as [Hn Hs]; [by right|].
      split; [done|]. rewrite Hother; [done|].
      intros Heq. apply Hfresh. apply list_elem_of_fmap. exists (i, p).
      split; [simpl; lia|done].
    + intros j Hj. destruct (decide (j = N.to_nat index)) as [->|Hji];
        [exfalso; clear -Hj Hhere; rewrite Hhere in Hj; discriminate|].
      rewrite Hother in Hj by done. destruct (Hfree j Hj) as (i & <- & Hi).
      exists i. split; [done|]. rewrite fmap_cons in Hi.
      apply elem_of_cons in Hi as [Hi|Hi]; [|done]. simpl in Hi. by subst i.
    + intros p Hp. simpl. rewrite Hheap1. by apply Halive.
    + left. simpl. rewrite Hargs1, Eslots.
      rewrite insert_app_r_alt by done. by rewrite Nat.sub_diag.
    + exists composite. simpl in *. rewrite Hrs. simpl. rewrite Nat.sub_0_r.
      unfold fresh_node in *. simpl in *. rewrite Hheap1 in *. rewrite Horph1 in *. done.
Qed.

(** The nodes of a composite driver with the index of each. *)
Definition indexed (nodes : list ptr) : list (N * ptr) :=
  imap (λ i p, (N.of_nat i, p)) nodes.

Lemma elem_of_indexed (nodes : list ptr) (i : N) (p : ptr) :
  (i, p) ∈ indexed nodes ↔ nodes !! N.to_nat i = Some p.
Proof.
  unfold indexed. rewrite elem_of_lookup_imap. split.
  - intros (k & q & Heq & Hk). simplify_eq. by rewrite Nat2N.id.
  - intros Hi. exists (N.to_nat i), p. by rewrite N2Nat.id.
Qed.

Lemma indexed_NoDup (nodes : list ptr) : NoDup (indexed nodes).*1.
Proof.
  apply NoDup_alt. intros j k i Hj Hk. unfold indexed in *.
  rewrite list_lookup_fmap, list_lookup_imap in Hj, Hk.
  destruct (nodes !! j), (nodes !! k); simpl in *; simplify_eq. lia.
Qed.

(** X22 ([DriverRunner::CreateCompositeNode],
    [DriverRunner::AddToCompositeArgs], [Node::AddToParents]): the nodes of a
    composite driver are matched one after the other, in any order, and stay
    alive.  The first call of [CreateCompositeNode] is given a new pending
    set and the others are given that set.  Then every call but the last
    returns [ZX_ERR_NEXT]; the last one makes the node "composite", whose
    parents are the nodes in the order of their indices, not in the order in
    which they were matched.  Afterwards the pending sets and the orphans are
    what they were before.  That the later calls are given the set of the
    first is a condition here: in the code it depends on the key, the bytes
    at the URL up to the first NUL. *)
Theorem composite_in_any_order (num : N) (nodes : list ptr) (arrivals : list (N * ptr))
    (rs : list (status ptr)) (w w' : World) :
  composite_arrivals (length (composite_args_ w)) num arrivals w rs w' →
  nodes ≠ [] → length nodes = N.to_nat num →
  arrivals ≡ₚ indexed nodes →
  (∀ p, p ∈ nodes → is_Some (heap w !! p)) →
  ∃ composite,
    rs = replicate (length nodes - 1) (error ZX_ERR_NEXT) ++ [ok (fresh_node w)]
    ∧ heap w !! fresh_node w = None
    ∧ heap w' !! fresh_node w = Some composite
    ∧ name_ composite = "composite" ∧ parents_ composite = nodes
    ∧ composite_args_ w' = composite_args_ w
    ∧ orphaned_nodes_ w' = orphaned_nodes_ w
    ∧ ∀ x, x ≠ fresh_node w →
           heap w' !! x = add_children (occurrences x nodes) (fresh_node w) <$> heap w !! x.
Proof.
  intros Hrun Hne Hnum Hperm Halive.
  assert (length arrivals = length nodes) as Hlen.
  { rewrite Hperm. unfold indexed. apply length_imap. }
  assert (∀ i p, (i, p) ∈ arrivals ↔ nodes !! N.to_nat i = Some p) as Harr.
  { intros i p. rewrite Hperm. apply elem_of_indexed. }
  destruct (composite_arrivals_run _ num nodes (composite_args_ w) arrivals rs EmptyString
              (replicate (N.to_nat num) None) w w' Hrun)
    as (composite & Hrs & Hargs & Horph & Hc & Hname & Hparents & _ & Hrest).
  - intros ->. destruct nodes; [done|]. done.
  - done.
  - done.
  - by rewrite length_replicate.
  - rewrite Hperm. apply indexed_NoDup.
  - intros i p Hin. apply Harr in Hin. split; [done|].
    apply lookup_replicate_2. apply lookup_lt_Some in Hin. lia.
  - intros j Hj. apply lookup_replicate in Hj as [_ Hj].
    destruct (lookup_lt_is_Some_2 nodes j) as [p Hp]; [lia|].
    exists (N.of_nat j). split; [apply Nat2N.id|].
    apply list_elem_of_fmap. exists (N.of_nat j, p). split; [done|].
    apply Harr. by rewrite Nat2N.id.
  - intros j p Hj. by apply lookup_replicate in Hj as [? _].
  - done.
  - by right.
  - exists composite. rewrite Hlen in Hrs.
    split; [done|]. split; [apply fresh_node_free|]. done.
Qed.

(** What the index answers for the node at [index] of the composite driver
    "X" with three nodes. *)
Definition slot_of_three (index : N) : MatchedCompositeInfo :=
  mkMatchedCompositeInfo (Some index) (Some 3%N) (Some (mkMatchedDriverInfo (Some "X"))).

Definition world_X_three : World :=
  mkWorld (list_to_map
             [(1, hosted "root" [] [2; 3; 4] None [])%positive;
              (2, hosted "a" [1] [] None [])%positive;
              (3, hosted "b" [1] [] None [])%positive;
              (4, hosted "c" [1] [] None [])%positive])
    ∅ root_address [] [] ∅ [] 0%N [] [].

Lemma composite_in_any_order_witness :
  ∃ rs w' composite,
    composite_arrivals 0 3 [(2%N, 4%positive); (0%N, 2%positive); (1%N, 3%positive)]
      world_X_three rs w'
    ∧ rs = [error ZX_ERR_NEXT; error ZX_ERR_NEXT; ok 5%positive]
    ∧ heap w' !! 5%positive = Some composite
    ∧ parents_ composite = [2; 3; 4]%positive.
Proof.
  assert (∃ rs w', composite_arrivals 0 3
                     [(2%N, 4%positive); (0%N, 2%positive); (1%N, 3%positive)]
                     world_X_three rs w') as (rs & w' & Hrun).
  { eexists _, _.
    eapply (arrivals_next 0 3 2 4%positive _ (slot_of_three 2));
      [vm_compute; reflexivity|reflexivity|reflexivity|vm_compute; reflexivity
      |vm_compute; reflexivity|].
    eapply (arrivals_next 0 3 0 2%positive _ (slot_of_three 0));
      [vm_compute; reflexivity|reflexivity|reflexivity|vm_compute; reflexivity
      |vm_compute; reflexivity|].
    eapply (arrivals_next 0 3 1 3%positive _ (slot_of_three 1));
      [vm_compute; reflexivity|reflexivity|reflexivity|vm_compute; reflexivity
      |vm_compute; reflexivity|].
    apply arrivals_done. }
  destruct (composite_in_any_order 3 [2; 3; 4]%positive _ rs world_X_three w' Hrun)
    as (composite & Hrs & _ & Hc & _ & Hparents & _).
  - done.
  - done.
  - unfold indexed. simpl. etrans; [apply Permutation_cons_append|]. done.
  - intros p Hp.
    repeat (apply elem_of_cons in Hp as [->|Hp]; [eexists; vm_compute; reflexivity|]).
    by apply elem_of_nil in Hp.
  - exists rs, w', composite. split; [exact Hrun|]. split; [exact Hrs|].
    split; [exact Hc|exact Hparents].
Defined.


(** ** The links between the nodes *)

(** The lists of children and of parents agree: a node is among the children
    of another as often as that one is among its parents, what either list
    names is alive, and every node is reached from the root node along the
    lists of children. *)
Record linked (w : World) : Prop := mkLinked {
  linked_root : is_Some (heap w !! root_node_ w);
  linked_children : children_alive w;
  linked_parents :
    ∀ c cd p, heap w !! c = Some cd → p ∈ parents_ cd → is_Some (heap w !! p);
  linked_count :
    ∀ p pd c cd, heap w !! p = Some pd → heap w !! c = Some cd →
      occurrences c (children_ pd) = occurrences p (parents_ cd);
  linked_below : ∀ n, is_Some (heap w !! n) → below w (root_node_ w) n;
}.

Lemma occurrences_app (x : ptr) (l l' : list ptr) :
  occurrences x (l ++ l') = (occurrences x l + occurrences x l')%nat.
Proof. unfold occurrences. by rewrite filter_app, length_app. Qed.

Lemma occurrences_replicate (x c : ptr) (k : nat) :
  occurrences x (replicate k c) = if decide (c = x) then k else 0%nat.
Proof.
  unfold occurrences. induction k as [|k IH]; simpl.
  { by destruct (decide (c = x)). }
  rewrite filter_cons. destruct (decide (c = x)); simpl; by rewrite IH.
Qed.

Lemma occurrences_present (x : ptr) (ps : list ptr) : x ∈ ps → occurrences x ps ≠ 0%nat.
Proof.
  unfold occurrences. induction ps as [|p ps IH]; intros Hx; [by apply elem_of_nil in Hx|].
  rewrite filter_cons. destruct (decide (p = x)) as [|Hne]; [done|].
  apply elem_of_cons in Hx as [?|Hx]; [congruence|]. by apply IH.
Qed.

Lemma linked_same_heap (w w' : World) :
  heap w' = heap w → root_node_ w' = root_node_ w → linked w → linked w'.
Proof.
  intros Hheap Hroot [H1 H2 H3 H4 H5].
  assert (∀ n m, below w n m → below w' n m) as Hbelow.
  { intros n m. induction 1 as [|m md c _ IH Hm Hc]; [apply below_here|].
    eapply below_child; [exact IH| |exact Hc]. by rewrite Hheap. }
  split.
  - by rewrite Hroot, Hheap.
  - intros n nd c. rewrite Hheap. apply H2.
  - by rewrite Hheap.
  - by rewrite Hheap.
  - intros n Hn. rewrite Hroot. apply Hbelow, H5. by rewrite <- Hheap.
Qed.

(** A store grows by one node [c] without children, which is appended to the
    children of each of its parents, once for each time the parent is
    named. *)
Lemma grow_keeps_linked (w w' : World) (c : ptr) (cd : Node) :
  linked w → root_node_ w' = root_node_ w →
  heap w !! c = None → heap w' !! c = Some cd → children_ cd = [] →
  parents_ cd ≠ [] → (∀ p, p ∈ parents_ cd → is_Some (heap w !! p)) →
  (∀ x, x ≠ c →
     heap w' !! x = add_children (occurrences x (parents_ cd)) c <$> heap w !! x) →
  linked w'.
Proof.
  intros [Hroot Hchildren Hparents Hcount Hbelow] Hr Hfree Hc Hcs Hps Halive Hrest.
  assert (∀ x xd, heap w !! x = Some xd → x ≠ c) as Hold.
  { intros x xd Hx ->. congruence. }
  assert (∀ x xd, heap w !! x = Some xd →
            heap w' !! x = Some (add_children (occurrences x (parents_ cd)) c xd)) as Hkept.
  { intros x xd Hx. rewrite Hrest by by eapply Hold. by rewrite Hx. }
  assert (∀ x xd', x ≠ c → heap w' !! x = Some xd' →
            ∃ xd, heap w !! x = Some xd
                  ∧ xd' = add_children (occurrences x (parents_ cd)) c xd) as Hback.
  { intros x xd' Hx Hxd'. rewrite Hrest in Hxd' by done.
    destruct (heap w !! x) as [xd|]; simpl in Hxd'; [|done].
    injection Hxd' as <-. by exists xd. }
  assert (∀ x, is_Some (heap w !! x) → is_Some (heap w' !! x)) as Hstay.
  { intros x [xd Hx]. rewrite (Hkept _ _ Hx). by eexists. }
  assert (∀ n m, below w n m → below w' n m) as Hmono.
  { intros n m. induction 1 as [|m md x _ IH Hm Hx]; [apply below_here|].
    eapply below_child; [exact IH|exact (Hkept _ _ Hm)|].
    simpl. apply elem_of_app. by left. }
  split.
  - rewrite Hr. by apply Hstay.
  - intros n nd' x Hn Hx. destruct (decide (n = c)) as [->|Hnc].
    { assert (nd' = cd) as -> by congruence. rewrite Hcs in Hx.
      by apply elem_of_nil in Hx. }
    destruct (Hback n nd' Hnc Hn) as (nd & Hnd & ->). simpl in Hx.
    apply elem_of_app in Hx as [Hx|Hx].
    + apply Hstay. by eapply Hchildren.
    + apply elem_of_replicate in Hx as [-> _]. by rewrite Hc.
  - intros x xd' p Hx Hp. destruct (decide (x = c)) as [->|Hxc].
    { assert (xd' = cd) as -> by congruence. by apply Hstay, Halive. }
    destruct (Hback x xd' Hxc Hx) as (xd & Hxd & ->). simpl in Hp.
    apply Hstay. by eapply Hparents.
  - intros p pd' x xd' Hp Hx.
    destruct (decide (p = c)) as [->|Hpc], (decide (x = c)) as [->|Hxc].
    + assert (pd' = cd) as -> by congruence. assert (xd' = cd) as -> by congruence.
      rewrite Hcs. symmetry. apply occurrences_absent. intros Hin.
      destruct (Halive _ Hin) as [? ?]. congruence.
    + assert (pd' = cd) as -> by congruence.
      destruct (Hback x xd' Hxc Hx) as (xd & Hxd & ->). simpl.
      rewrite Hcs. symmetry. apply occurrences_absent. intros Hin.
      destruct (Hparents _ _ _ Hxd Hin) as [? ?]. congruence.
    + assert (xd' = cd) as -> by congruence.
      destruct (Hback p pd' Hpc Hp) as (pd & Hpd & ->). simpl.
      rewrite occurrences_app, occurrences_replicate, decide_True by done.
      rewrite occurrences_absent; [done|]. intros Hin.
      destruct (Hchildren _ _ _ Hpd Hin) as [? ?]. congruence.
    + destruct (Hback p pd' Hpc Hp) as (pd & Hpd & ->).
      destruct (Hback x xd' Hxc Hx) as (xd & Hxd & ->). simpl.
      rewrite occurrences_app, occurrences_replicate, decide_False by done.
      rewrite Nat.add_0_r. by eapply Hcount.
  - intros n Hn. rewrite Hr. destruct (decide (n = c)) as [->|Hnc].
    + destruct (parents_ cd) as [|p ps] eqn:Hpcd; [done|].
      destruct (Halive p) as [pd Hpd]; [by left|].
      eapply (below_child _ _ p).
      * apply Hmono, Hbelow. by eexists.
      * exact (Hkept _ _ Hpd).
      * simpl. apply elem_of_app. right. apply elem_of_replicate. split; [done|].
        apply occurrences_present. by left.
    + apply Hmono, Hbelow. destruct Hn as [nd' Hn].
      destruct (Hback n nd' Hnc Hn) as (nd & Hnd & _). by eexists.
Qed.

Lemma add_to_parents_root (c : ptr) (ps : list ptr) (w w' : World) :
  add_to_parents c ps w = Done w' → root_node_ w' = root_node_ w.
Proof.
  revert w. induction ps as [|p ps IH]; intros w H; simpl in H; [by simplify_eq|].
  apply bind_Done in H as (pd & _ & H). by apply IH in H.
Qed.

Lemma AddChild_root (this : ptr) (request : AddChildRequest) (w w' : World) (reply : Reply) :
  AddChild this request w = Done (reply, w') → root_node_ w' = root_node_ w.
Proof.
  intros H. destruct reply as [|e].
  2:{ by apply AddChild_error_keeps_world in H as ->. }
  unfold AddChild in H.
  apply bind_Done in H as (nd & Hnd & H).
  destruct (driver_binder_ nd) as [binder|]; [|by simplify_eq].
  destruct (args_name _) as [name|]; [|by simplify_eq].
  destruct (contains_char _ _); [by simplify_eq|].
  apply bind_Done in H as (found & _ & H).
  destruct found; [by simplify_eq|].
  apply bind_Done in H as (child & _ & H).
  destruct (check_offers _ _) as [|offers]; [by simplify_eq|].
  destruct (check_symbols _ _ _) as [|syms]; [by simplify_eq|].
  apply bind_Done in H as (w1 & Hattach & H). simplify_eq.
  unfold attach_child, AddToParents in Hattach.
  apply bind_Done in Hattach as (cd & _ & Hattach).
  apply add_to_parents_root in Hattach. rewrite Hattach.
  by destruct (request_node request).
Qed.

(** What a call of [CreateCompositeNode] which makes the composite node does
    to the store. *)
Lemma CreateCompositeNode_made (node : ptr) (matched : MatchedCompositeInfo)
    (w w' : World) (r : status ptr) :
  CreateCompositeNode node matched w = Done (r, w') →
  root_node_ w' = root_node_ w
  ∧ (heap w' = heap w
     ∨ ∃ composite,
         heap w' !! fresh_node w = Some composite
         ∧ children_ composite = [] ∧ parents_ composite ≠ []
         ∧ (∀ p, p ∈ parents_ composite → is_Some (heap w !! p))
         ∧ ∀ x, x ≠ fresh_node w →
                heap w' !! x
                = add_children (occurrences x (parents_ composite)) (fresh_node w)
                    <$> heap w !! x).
Proof.
  intros Hcall. pose proof Hcall as H. unfold CreateCompositeNode in H.
  apply bind_Done in H as (nd & Hnd & H). apply node_at_Done in Hnd.
  destruct (AddToCompositeArgs (name_ nd) matched w) as [[it|s] w1] eqn:Hadd.
  2:{ pose proof (AddToCompositeArgs_heap _ _ _ _ _ Hadd) as Hheap.
      unfold AddToCompositeArgs in Hadd. simplify_eq. split; [|by left].
      repeat case_match; by simplify_eq. }
  destruct (AddToCompositeArgs_ok _ _ _ _ _ Hadd)
    as (index & num & url & nodes & args & Hindex & Hnum & Hlt & Hurl & -> & Hit & Hlen).
  assert (@lookup nat (string * CompositeArgs) _ _ it
            (composite_args_ (with_composite_args args w)) = Some (url, nodes)) as Hit'
    by exact Hit.
  rewrite Hit', Hindex in H.
  destruct (lock_all _ _) as [parents|] eqn:Hlock.
  2:{ simplify_eq. split; [done|by left]. }
  pose proof H as Hroot.
  apply bind_Done in Hroot as (composite0 & _ & Hroot).
  apply bind_Done in Hroot as (w4 & Hw4 & Hroot).
  unfold AddToParents in Hw4. apply bind_Done in Hw4 as (cd & _ & Hw4).
  apply add_to_parents_root in Hw4. injection Hroot as _ <-.
  split; [by rewrite Hw4|]. right. apply mapM_Some in Hlock.
  assert (Forall2 (λ weak p, lock weak w = Some p) (<[N.to_nat index := Some node]> nodes)
            parents) as Hlocked.
  { eapply Forall2_impl; [exact Hlock|]. intros weak p Hw. simpl in Hw.
    rewrite <- Hw. symmetry. by apply lock_ext. }
  destruct (CreateCompositeNode_creates node matched w _ nd it url nodes index parents
              Hnd Hadd eq_refl Hit Hindex Hlocked)
    as (w'' & composite & Hrun' & _ & _ & Hc & Hname & Hparents & Hch & Hrest).
  rewrite Hrun' in Hcall. injection Hcall as _ <-.
  exists composite. rewrite Hparents. split_and!; [done|done| | |done].
  - apply Forall2_length in Hlocked. unfold CompositeArgs in *.
    rewrite length_insert in Hlocked. intros ->. simpl in Hlocked. lia.
  - intros p Hp. apply list_elem_of_lookup in Hp as [i Hi].
    destruct (Forall2_lookup_r _ _ _ _ _ Hlocked Hi) as (weak & _ & Hweak).
    by apply lock_Some in Hweak as [_ ?].
Qed.

Lemma new_DriverRunner_linked : linked new_DriverRunner.
Proof.
  split; simpl.
  - by eexists.
  - intros n nd c Hn Hc. simpl in Hn. apply lookup_singleton_Some in Hn as [_ <-].
    by apply elem_of_nil in Hc.
  - intros c cd p Hc Hp. apply lookup_singleton_Some in Hc as [_ <-].
    by apply elem_of_nil in Hp.
  - intros p pd c cd Hp Hc. apply lookup_singleton_Some in Hp as [_ <-].
    by apply lookup_singleton_Some in Hc as [_ <-].
  - intros n [nd Hn]. apply lookup_singleton_Some in Hn as [<- _]. apply below_here.
Qed.

Lemma AddChild_linked (this : ptr) (request : AddChildRequest) (w0 w0' : World)
    (reply : Reply) :
  AddChild this request w0 = Done (reply, w0') → linked w0 → linked w0'.
Proof.
  intros H Hw.
  - pose proof (AddChild_root _ _ _ _ _ H) as Hroot. destruct reply as [|e].
    2:{ by apply AddChild_error_keeps_world in H as ->. }
    pose proof H as H'.
    apply AddChild_attached in H as (nd & name & child & Hnd & _ & _ & Hparents & Hheap).
    apply AddChild_success in H' as (nd' & name' & child' & _ & _ & _ & Hch & Hheap').
    assert (this ≠ fresh_node w0) as Hne.
    { intros Heq. pose proof (fresh_node_free w0) as Hfree. rewrite <- Heq in Hfree.
      congruence. }
    assert (heap w0' !! fresh_node w0 = Some child) as Hc.
    { rewrite Hheap, lookup_insert_ne by done. apply lookup_insert_eq. }
    assert (child' = child) as ->.
    { rewrite Hheap', lookup_insert_ne, lookup_insert_eq in Hc by done. congruence. }
    apply (grow_keeps_linked w0 w0' (fresh_node w0) child); try done.
    + apply fresh_node_free.
    + by rewrite Hparents.
    + rewrite Hparents. intros p Hp. apply list_elem_of_singleton in Hp as ->. by eexists.
    + intros x Hx. rewrite Hheap, Hparents. destruct (decide (x = this)) as [->|Hxt].
      * rewrite lookup_insert_eq, Hnd. simpl. f_equal.
        unfold occurrences. rewrite filter_cons, decide_True by done. done.
      * rewrite !lookup_insert_ne by done.
        rewrite occurrences_absent; [|by intros ?%list_elem_of_singleton].
        destruct (heap w0 !! x); simpl; [|done]. by rewrite add_children_0.
Qed.

Lemma CreateCompositeNode_linked (node : ptr) (matched : MatchedCompositeInfo)
    (w0 w0' : World) (r : status ptr) :
  CreateCompositeNode node matched w0 = Done (r, w0') → linked w0 → linked w0'.
Proof.
  intros H Hw.
  - apply CreateCompositeNode_made in H as [Hroot [Hheap|(composite & Hc & Hch & Hps & Halive & Hrest)]].
    { by apply (linked_same_heap w0). }
    apply (grow_keeps_linked w0 w0' (fresh_node w0) composite); try done.
    apply fresh_node_free.
Qed.


(** ** [Inspect] on the stores that [AddChild] and [CreateCompositeNode] build *)

(** Every symbol of a node has a name. *)
Definition symbols_named (w : World) : Prop :=
  ∀ n nd symbol, heap w !! n = Some nd → symbol ∈ symbols_ nd →
    is_Some (symbol_name symbol).

Lemma check_symbols_named (symbols : list NodeSymbol) (names : gset string)
    (stored out : list NodeSymbol) :
  check_symbols symbols names stored = inr out →
  Forall (λ symbol, is_Some (symbol_name symbol)) stored →
  Forall (λ symbol, is_Some (symbol_name symbol)) out.
Proof.
  revert names stored. induction symbols as [|symbol symbols IH]; intros names stored H Hs.
  { simpl in H. by simplify_eq. }
  simpl in H. destruct (symbol_name symbol) as [name|]; [|done].
  destruct (symbol_address symbol) as [address|]; [|done].
  destruct (bool_decide (name ∈ names)); [done|].
  apply IH in H; [done|]. apply Forall_app. split; [done|].
  apply Forall_singleton. by eexists.
Qed.

Lemma add_to_parents_symbols (c : ptr) (ps : list ptr) (w w' : World) :
  add_to_parents c ps w = Done w' →
  ∀ x, symbols_ <$> heap w' !! x = symbols_ <$> heap w !! x.
Proof.
  revert w. induction ps as [|p ps IH]; intros w H x; simpl in H; [by simplify_eq|].
  apply bind_Done in H as (pd & Hpd & H). apply node_at_Done in Hpd.
  rewrite (IH _ H). unfold put_node. simpl.
  destruct (decide (p = x)) as [->|Hne].
  - by rewrite lookup_insert_eq, Hpd.
  - by rewrite lookup_insert_ne.
Qed.

Lemma AddChild_symbols (this : ptr) (request : AddChildRequest) (w w' : World)
    (reply : Reply) :
  AddChild this request w = Done (reply, w') → symbols_named w → symbols_named w'.
Proof.
  intros H Hw. destruct reply as [|e].
  2:{ by apply AddChild_error_keeps_world in H as ->. }
  unfold AddChild in H.
  apply bind_Done in H as (nd & Hnd & H).
  destruct (driver_binder_ nd) as [binder|]; [|by simplify_eq].
  destruct (args_name _) as [name|]; [|by simplify_eq].
  destruct (contains_char _ _); [by simplify_eq|].
  apply bind_Done in H as (found & _ & H).
  destruct found; [by simplify_eq|].
  apply bind_Done in H as (child & _ & H).
  destruct (check_offers _ _) as [|offers]; [by simplify_eq|].
  destruct (check_symbols _ _ _) as [|syms] eqn:Hsyms; [by simplify_eq|].
  apply bind_Done in H as (w1 & Hattach & H). simplify_eq.
  apply check_symbols_named in Hsyms; [|constructor].
  unfold attach_child, AddToParents in Hattach.
  apply bind_Done in Hattach as (cd & _ & Hattach).
  pose proof (add_to_parents_symbols _ _ _ _ Hattach) as Hsame.
  intros n nd' symbol Hn Hin.
  assert (symbols_ <$> heap w' !! n = Some (symbols_ nd')) as Hn' by (by rewrite Hn).
  rewrite Hsame in Hn'.
  assert (∀ child', symbols_ child' = syms →
            symbols_ <$> <[fresh_node w := child']> (heap w) !! n = Some (symbols_ nd') →
            is_Some (symbol_name symbol)) as Hput.
  { intros child' Hchild' Hl.
    destruct (decide (fresh_node w = n)) as [<-|Hne].
    - rewrite lookup_insert_eq in Hl. simpl in Hl. injection Hl as Hl.
      rewrite <- Hl, Hchild' in Hin. by eapply Forall_forall in Hsyms.
    - rewrite lookup_insert_ne in Hl by done.
      destruct (heap w !! n) as [nd0|] eqn:Hn0; simpl in Hl; [|done].
      injection Hl as Hl. rewrite <- Hl in Hin. by eapply Hw. }
  destruct (request_node request); simpl in Hn'; (eapply Hput; [|exact Hn']); done.
Qed.

Lemma CreateCompositeNode_symbols (node : ptr) (matched : MatchedCompositeInfo)
    (w w' : World) (r : status ptr) :
  CreateCompositeNode node matched w = Done (r, w') → symbols_named w → symbols_named w'.
Proof.
  intros H Hw. unfold CreateCompositeNode in H.
  apply bind_Done in H as (nd & Hnd & H).
  destruct (AddToCompositeArgs (name_ nd) matched w) as [[it|s] w1] eqn:Hadd.
  2:{ apply AddToCompositeArgs_heap in Hadd. simplify_eq.
      intros n nd' symbol. simpl. rewrite Hadd. apply Hw. }
  apply AddToCompositeArgs_heap in Hadd.
  destruct (composite_args_ w1 !! it) as [[url nodes]|]; [|done].
  destruct (node_index matched) as [index|]; [|done].
  destruct (lock_all _ _) as [parents|].
  2:{ simplify_eq. intros n nd' symbol. simpl. rewrite Hadd. apply Hw. }
  apply bind_Done in H as (composite & Hnew & H).
  apply bind_Done in H as (w4 & Hw4 & H). simplify_eq.
  unfold AddToParents in Hw4. apply bind_Done in Hw4 as (cd & _ & Hw4).
  pose proof (add_to_parents_symbols _ _ _ _ Hw4) as Hsame.
  assert (symbols_ composite = []) as Hnone.
  { unfold new_Node in Hnew. destruct (PrimaryParent parents); [|by simplify_eq].
    apply bind_Done in Hnew as (pd & _ & Hnew). by simplify_eq. }
  intros n nd' symbol Hn Hin.
  assert (symbols_ <$> heap w' !! n = Some (symbols_ nd')) as Hn' by (by rewrite Hn).
  rewrite Hsame in Hn'. unfold put_node in Hn'. simpl in Hn'. rewrite Hadd in Hn'.
  match type of Hn' with context [<[?c := _]> _] => destruct (decide (c = n)) as [<-|Hne] end.
  - rewrite lookup_insert_eq in Hn'. simpl in Hn'. injection Hn' as Hl.
    rewrite <- Hl, Hnone in Hin. by apply elem_of_nil in Hin.
  - rewrite lookup_insert_ne in Hn' by done.
    destruct (heap w !! n) as [nd0|] eqn:Hn0; simpl in Hn'; [|done].
    injection Hn' as Hl. rewrite <- Hl in Hin. by eapply Hw.
Qed.

(** *** The calls that leave the links alone *)

(** What the links and [Inspect] read of a node. *)
Definition links_of (nd : Node) : list ptr * list ptr * list NodeSymbol :=
  (parents_ nd, children_ nd, symbols_ nd).

Definition same_links (w w' : World) : Prop :=
  root_node_ w' = root_node_ w
  ∧ ∀ x, links_of <$> heap w' !! x = links_of <$> heap w !! x.

Lemma links_of_eq (a b : Node) :
  links_of a = links_of b →
  parents_ a = parents_ b ∧ children_ a = children_ b ∧ symbols_ a = symbols_ b.
Proof. unfold links_of. by intros [= -> -> ->]. Qed.

Lemma same_links_same (w w' : World) :
  root_node_ w' = root_node_ w → heap w' = heap w → same_links w w'.
Proof. intros Hr Hh. split; [done|]. intros x. by rewrite Hh. Qed.

Lemma same_links_refl (w : World) : same_links w w.
Proof. by apply same_links_same. Qed.

Lemma same_links_trans (a b c : World) : same_links a b → same_links b c → same_links a c.
Proof.
  intros [Hr1 Hl1] [Hr2 Hl2]. split; [congruence|]. intros x. by rewrite Hl2, Hl1.
Qed.

Lemma same_links_put_node (n : ptr) (nd nd' : Node) (w : World) :
  heap w !! n = Some nd → links_of nd' = links_of nd → same_links w (put_node n nd' w).
Proof.
  intros Hn Hl. split; [done|]. intros x. unfold put_node. simpl.
  destruct (decide (n = x)) as [<-|Hne].
  - rewrite lookup_insert_eq, Hn. simpl. by rewrite Hl.
  - by rewrite lookup_insert_ne.
Qed.

Lemma same_links_but_sources (w w' : World) : but_sources w w' → same_links w w'.
Proof.
  intros [Hw Hnodes]. split.
  - apply (f_equal root_node_) in Hw. by simpl in Hw.
  - intros x. specialize (Hnodes x).
    destruct Hnodes as [nd nd' [Hnd _]|]; [|done]. simpl. by rewrite <- Hnd.
Qed.

Lemma same_links_node (w w' : World) (x : ptr) (xd' : Node) :
  same_links w w' → heap w' !! x = Some xd' →
  ∃ xd, heap w !! x = Some xd ∧ links_of xd = links_of xd'.
Proof.
  intros [_ Hl] Hx. specialize (Hl x). rewrite Hx in Hl.
  destruct (heap w !! x) as [xd|]; simpl in Hl; [|done]. exists xd. split; [done|congruence].
Qed.

Lemma same_links_alive (w w' : World) (x : ptr) :
  same_links w w' → is_Some (heap w !! x) → is_Some (heap w' !! x).
Proof.
  intros [_ Hl] [xd Hx]. specialize (Hl x). rewrite Hx in Hl.
  destruct (heap w' !! x); [by eexists|done].
Qed.

Lemma linked_same_links (w w' : World) : same_links w w' → linked w → linked w'.
Proof.
  intros Hsame [Hroot Hchildren Hparents Hcount Hbelow].
  pose proof (same_links_node w w') as Hback.
  assert (∀ n m, below w n m → below w' n m) as Hmono.
  { intros n m. induction 1 as [|m md c _ IH Hm Hc]; [apply below_here|].
    destruct (same_links_alive w w' m Hsame) as [md' Hm']; [by eexists|].
    destruct (Hback m md' Hsame Hm') as (md0 & Hmd0 & Hl).
    assert (md0 = md) as -> by congruence.
    apply links_of_eq in Hl as (_ & Hl & _).
    eapply below_child; [exact IH|exact Hm'|]. by rewrite <- Hl. }
  split.
  - rewrite (proj1 Hsame). by eapply same_links_alive.
  - intros n nd' c Hn Hc. destruct (Hback n nd' Hsame Hn) as (nd & Hnd & Hl).
    apply links_of_eq in Hl as (_ & Hl & _).
    eapply same_links_alive; [done|]. eapply Hchildren; [exact Hnd|]. by rewrite Hl.
  - intros c cd' p Hc Hp. destruct (Hback c cd' Hsame Hc) as (cd & Hcd & Hl).
    apply links_of_eq in Hl as (Hl & _ & _).
    eapply same_links_alive; [done|]. eapply Hparents; [exact Hcd|]. by rewrite Hl.
  - intros p pd' c cd' Hp Hc.
    destruct (Hback p pd' Hsame Hp) as (pd & Hpd & Hlp).
    destruct (Hback c cd' Hsame Hc) as (cd & Hcd & Hlc).
    apply links_of_eq in Hlp as (_ & Hlp & _). apply links_of_eq in Hlc as (Hlc & _ & _).
    rewrite <- Hlp, <- Hlc. by eapply Hcount.
  - intros n [nd' Hn]. rewrite (proj1 Hsame). apply Hmono, Hbelow.
    destruct (Hback n nd' Hsame Hn) as (nd & Hnd & _). by eexists.
Qed.

Lemma symbols_named_same_links (w w' : World) :
  same_links w w' → symbols_named w → symbols_named w'.
Proof.
  intros Hsame Hw n nd' symbol Hn Hin.
  destruct (same_links_node w w' n nd' Hsame Hn) as (nd & Hnd & Hl).
  apply links_of_eq in Hl as (_ & _ & Hl). eapply Hw; [exact Hnd|]. by rewrite Hl.
Qed.

Lemma OnBind_links (n : ptr) (w w' : World) : OnBind n w = Done w' → same_links w w'.
Proof.
  unfold OnBind. intros H. apply bind_Done in H as (nd & _ & H).
  destruct (controller_ref_ nd); simplify_eq; by apply same_links_same.
Qed.

Lemma StartDriver_links (node : ptr) (url : string) (env : TokenEnv) (w w' : World)
    (r : status ()) :
  StartDriver node url env w = Done (r, w') → same_links w w'.
Proof.
  intros H. destruct (StartDriver_Done _ _ _ _ _ _ H) as (Hcreate & Hinfo & Hok).
  destruct (decide (event_create_status env = ZX_OK)) as [Hc|Hc];
    [|destruct (Hcreate Hc) as [_ ->]; apply same_links_refl].
  destruct (decide (event_info_status env = ZX_OK)) as [Hi|Hi];
    [|destruct (Hinfo Hc Hi) as [_ ->]; apply same_links_refl].
  destruct (Hok Hc Hi) as (_ & _ & _ & nd & w1 & name & offers & Hnd & Hbut & _ & ->).
  eapply same_links_trans; [|eapply same_links_trans;
                               [apply same_links_but_sources, Hbut|by apply same_links_same]].
  by apply (same_links_put_node node nd).
Qed.

Lemma StartDriverHost_links (env : HostEnv) (w w' : World) (r : status hptr) :
  StartDriverHost env w = Done (r, w') → same_links w w'.
Proof.
  unfold StartDriverHost. intros H.
  destruct (decide _); [simplify_eq; apply same_links_refl|].
  unfold CreateComponent in H. simpl in H.
  destruct (decide _); simplify_eq; by apply same_links_same.
Qed.

Lemma start_in_host_links (request : StartRequest) (env : StartEnv) (node : ptr)
    (w w' : World) (r : option zx_status_t) :
  start_in_host request env node w = Done (r, w') → same_links w w'.
Proof.
  unfold start_in_host. intros H.
  apply bind_Done in H as (nd & Hnd & H). apply node_at_Done in Hnd.
  destruct (decide _); [simplify_eq; apply same_links_refl|].
  apply bind_Done in H as (host & _ & H).
  apply bind_Done in H as ([start w2] & Hstart & H).
  assert (same_links (put_node node (set_node_ref (env_node_channel env) nd) w) w2) as Hq.
  { unfold DriverHostComponent_Start in Hstart.
    destruct (decide _); [simplify_eq; apply same_links_refl|].
    apply bind_Done in Hstart as (syms & _ & Hstart).
    destruct (decide _); simplify_eq; by apply same_links_same. }
  eapply same_links_trans;
    [by apply (same_links_put_node node nd (set_node_ref (env_node_channel env) nd))|].
  eapply same_links_trans; [exact Hq|].
  destruct start as [[]|s]; [|simplify_eq; apply same_links_refl].
  apply bind_Done in H as (nd2 & Hnd2 & H). apply node_at_Done in Hnd2. simplify_eq.
  eapply same_links_trans;
    [by apply (same_links_put_node node nd2
                 (set_driver_component (Some (env_driver_address env)) nd2))|].
  by apply same_links_same.
Qed.

Lemma Start_links (request : StartRequest) (env : StartEnv) (w w' : World)
    (r : option zx_status_t) :
  Start request env w = Done (r, w') → same_links w w'.
Proof.
  unfold Start. intros H.
  destruct (numbered_handles _) as [[|h [|h' handles]]|];
    try (simplify_eq; apply same_links_refl).
  destruct (_ || _); [simplify_eq; apply same_links_refl|].
  destruct (decide _); [simplify_eq; apply same_links_refl|].
  destruct (driver_args_ w !! _) as [node|]; [|simplify_eq; apply same_links_refl].
  destruct (decide _).
  - destruct (decide _); [simplify_eq; by apply same_links_same|].
    apply start_in_host_links in H. eapply same_links_trans; [|exact H].
    by apply same_links_same.
  - apply bind_Done in H as ([result w2] & Hhost & H).
    apply StartDriverHost_links in Hhost.
    eapply same_links_trans; [by apply same_links_same|].
    eapply same_links_trans; [exact Hhost|].
    destruct result as [host|s]; [|simplify_eq; apply same_links_refl].
    apply bind_Done in H as (nd & Hnd & H). apply node_at_Done in Hnd.
    apply start_in_host_links in H.
    eapply same_links_trans;
      [by apply (same_links_put_node node nd (set_driver_host host nd))|].
    eapply same_links_trans; [|exact H]. by apply same_links_same.
Qed.

Lemma bind_orphans_links (orphans : list ptr) (w w' : World) :
  bind_orphans orphans w = Done w' → same_links w w'.
Proof.
  revert w. induction orphans as [|n orphans IH]; intros w H; simpl in H.
  - simplify_eq. apply same_links_refl.
  - destruct (heap w !! n) as [nd0|]; [|by apply IH].
    apply bind_Done in H as ([args w1] & Hargs & H). apply IH in H.
    unfold CreateAddArgs in Hargs.
    apply bind_Done in Hargs as (nd & _ & Hargs).
    apply bind_Done in Hargs as ([offers w1'] & Hoffers & Hargs). simplify_eq.
    apply CreateOffers_Done in Hoffers as (_ & _ & _ & Hbut).
    eapply same_links_trans; [by apply same_links_but_sources|].
    eapply same_links_trans; [|exact H]. by apply same_links_same.
Qed.

(** The stores in which the links are consistent and the symbols have their
    names. *)
Definition well_linked (w : World) : Prop := linked w ∧ symbols_named w.

Lemma well_linked_same_links (w w' : World) :
  same_links w w' → well_linked w → well_linked w'.
Proof.
  intros Hsame [Hl Hs]. split;
    [by eapply linked_same_links|by eapply symbols_named_same_links].
Qed.

Lemma start_matched_links (node driver_node : ptr) (url : string) (env : TokenEnv)
    (w w' : World) :
  start_matched node driver_node url env w = Done w' → same_links w w'.
Proof.
  unfold start_matched. intros H.
  apply bind_Done in H as ([r w2] & Hs & H). apply StartDriver_links in Hs.
  apply OnBind_links in H. eapply same_links_trans; [exact Hs|].
  eapply same_links_trans; [|exact H].
  destruct (is_error r); [by apply same_links_same|apply same_links_refl].
Qed.

Lemma match_callback_well_linked (weak_node : ptr) (result : MatchResult) (env : TokenEnv)
    (w w' : World) :
  match_callback weak_node result env w = Done w' → well_linked w → well_linked w'.
Proof.
  unfold match_callback. intros H Hw.
  assert (∀ n, well_linked (orphaned n w)) as Horphaned.
  { intros n. eapply well_linked_same_links; [|exact Hw]. by apply same_links_same. }
  destruct (lock _ _) as [node|]; [|by simplify_eq].
  destruct result as [|s|[info|c|]]; try (by simplify_eq).
  - destruct (info_url info); [|by simplify_eq].
    apply start_matched_links in H. by eapply well_linked_same_links.
  - destruct (composite_driver_info c) as [info|]; [|by simplify_eq].
    destruct (info_url info); [|by simplify_eq].
    apply bind_Done in H as ([r w1] & Hc & H).
    assert (well_linked w1) as Hw1.
    { destruct Hw as [Hl Hs]. split;
        [by eapply CreateCompositeNode_linked|by eapply CreateCompositeNode_symbols]. }
    destruct r; [|by simplify_eq].
    apply start_matched_links in H. by eapply well_linked_same_links.
Qed.

(** A call of the runner or of a node that removes nothing. *)
Inductive building_step : World → World → Prop :=
| building_AddChild (this : ptr) (request : AddChildRequest) (w : World) (reply : Reply)
    (w' : World) :
    AddChild this request w = Done (reply, w') → building_step w w'
| building_CreateCompositeNode (node : ptr) (matched : MatchedCompositeInfo) (w : World)
    (r : status ptr) (w' : World) :
    CreateCompositeNode node matched w = Done (r, w') → building_step w w'
| building_StartDriver (node : ptr) (url : string) (env : TokenEnv) (w : World)
    (r : status ()) (w' : World) :
    StartDriver node url env w = Done (r, w') → building_step w w'
| building_StartDriverHost (env : HostEnv) (w : World) (r : status hptr) (w' : World) :
    StartDriverHost env w = Done (r, w') → building_step w w'
| building_Start (request : StartRequest) (env : StartEnv) (w : World)
    (r : option zx_status_t) (w' : World) :
    Start request env w = Done (r, w') → building_step w w'
| building_match (weak_node : ptr) (result : MatchResult) (env : TokenEnv) (w w' : World) :
    match_callback weak_node result env w = Done w' → building_step w w'
| building_base_drivers (result_ok : bool) (w w' : World) :
    base_drivers_callback result_ok w = Done w' → building_step w w'.

Lemma building_step_well_linked (w w' : World) :
  building_step w w' → well_linked w → well_linked w'.
Proof.
  intros [this request w0 reply w0' H|node matched w0 r w0' H|node url env w0 r w0' H
         |env w0 r w0' H|request env w0 r w0' H|weak_node result env w0 w0' H
         |result_ok w0 w0' H] Hw.
  - destruct Hw as [Hl Hs]. split; [by eapply AddChild_linked|by eapply AddChild_symbols].
  - destruct Hw as [Hl Hs].
    split; [by eapply CreateCompositeNode_linked|by eapply CreateCompositeNode_symbols].
  - apply StartDriver_links in H. by eapply well_linked_same_links.
  - apply StartDriverHost_links in H. by eapply well_linked_same_links.
  - apply Start_links in H. by eapply well_linked_same_links.
  - by eapply match_callback_well_linked.
  - unfold base_drivers_callback in H. destruct result_ok; [|by simplify_eq].
    apply bind_orphans_links in H. eapply well_linked_same_links; [|exact Hw].
    eapply same_links_trans; [|exact H]. by apply same_links_same.
Qed.

Lemma building_run_well_linked (w : World) :
  rtc building_step new_DriverRunner w → well_linked w.
Proof.
  revert w. apply (rtc_ind_r well_linked).
  - split; [apply new_DriverRunner_linked|].
    intros n nd symbol Hn Hin. simpl in Hn. apply lookup_singleton_Some in Hn as [_ <-].
    by apply elem_of_nil in Hin.
  - intros w w' _ Hstep Hw. by eapply building_step_well_linked.
Qed.

(** X23 ([Node::AddChild], [DriverRunner::CreateCompositeNode],
    [Node::AddToParents], [DriverRunner::StartDriver], [DriverRunner::Start],
    [DriverRunner::Bind], [DriverRunner::ScheduleBaseDriversBinding]): start
    from the new [DriverRunner] and make calls that remove nothing, in any
    order.  Then the lists of children and of parents agree: a node is among
    the children of another as often as that one is among its parents; the
    nodes that either list names are alive; and the nodes of the store are
    the nodes that are reached from the root node along the lists of
    children. *)
Theorem links_consistent (w : World) :
  rtc building_step new_DriverRunner w →
  (∀ p pd c cd, heap w !! p = Some pd → heap w !! c = Some cd →
     occurrences c (children_ pd) = occurrences p (parents_ cd))
  ∧ (∀ n nd x, heap w !! n = Some nd → x ∈ children_ nd ∨ x ∈ parents_ nd →
       is_Some (heap w !! x))
  ∧ (∀ n, is_Some (heap w !! n) ↔ below w (root_node_ w) n).
Proof.
  intros Hrun.
  destruct (building_run_well_linked w Hrun) as [[Hroot Hchildren Hparents Hcount Hbelow] _].
  split_and!; [done| |].
  - intros n nd x Hn [Hx|Hx]; [by eapply Hchildren|by eapply Hparents].
  - intros n. split; [apply Hbelow|].
    induction 1 as [|m md c _ IH Hm Hc]; [done|]. by eapply Hchildren.
Qed.

(** The root gets the children "a" and "b"; they fill the two slots of the
    composite driver "X". *)
Lemma composite_built :
  ∃ w, rtc building_step new_DriverRunner w
       ∧ parents_ <$> heap w !! 4%positive = Some [2; 3]%positive
       ∧ (edges w < 5)%nat.
Proof.
  eexists. split.
  - eapply rtc_l.
    { apply (building_AddChild root_address (add_unowned "a" 10%positive) _ ReplySuccess).
      vm_compute. reflexivity. }
    eapply rtc_l.
    { apply (building_AddChild root_address (add_unowned "b" 11%positive) _ ReplySuccess).
      vm_compute. reflexivity. }
    eapply rtc_l.
    { apply (building_CreateCompositeNode 2%positive (slot_of_X 0) _ (error ZX_ERR_NEXT)).
      vm_compute. reflexivity. }
    eapply rtc_l; [|apply rtc_refl].
    apply (building_CreateCompositeNode 3%positive (slot_of_X 1) _ (ok 4%positive)).
    vm_compute. reflexivity.
  - split; [vm_compute; reflexivity|vm_compute; lia].
Defined.

Lemma links_consistent_witness :
  ∃ w, rtc building_step new_DriverRunner w
       ∧ parents_ <$> heap w !! 4%positive = Some [2; 3]%positive
       ∧ (∀ p pd c cd, heap w !! p = Some pd → heap w !! c = Some cd →
            occurrences c (children_ pd) = occurrences p (parents_ cd))
       ∧ (∀ n nd x, heap w !! n = Some nd → x ∈ children_ nd ∨ x ∈ parents_ nd →
            is_Some (heap w !! x))
       ∧ (∀ n, is_Some (heap w !! n) ↔ below w (root_node_ w) n).
Proof.
  destruct composite_built as (w & Hrun & Hcomposite & _).
  exists w. split; [exact Hrun|]. split; [exact Hcomposite|].
  exact (links_consistent w Hrun).
Defined.

Lemma inspect_inv_start (w : World) (next : inode) (ops : list InspectOp) (i : inode) :
  inspect_inv w (root_node_ w) (mkInspectState [(i, root_node_ w)] ∅ next ops []).
Proof.
  split_and!; simpl.
  - apply NoDup_nil_2.
  - intros m. rewrite elem_of_empty. split; [done|]. by intros ?%elem_of_nil.
  - intros m [Hm|Hm]; [by apply elem_of_nil in Hm|].
    apply list_elem_of_singleton in Hm as ->. apply below_here.
  - right. by apply list_elem_of_singleton.
  - intros m md c Hm. by apply elem_of_nil in Hm.
Qed.

(** X24 ([InspectNode], [DriverRunner::Inspect], [Node::AddChild],
    [DriverRunner::CreateCompositeNode]): on every store that calls which
    remove nothing build from the new [DriverRunner], [Inspect] returns, after
    at most one round of the loop for the root and one for each entry of a
    list of children, and it has written every node of the store once. *)
Theorem Inspect_complete (fuel : nat) (w : World) :
  rtc building_step new_DriverRunner w → (edges w < fuel)%nat →
  ∃ st, Inspect fuel w = Done st
        ∧ NoDup (populated st).*2
        ∧ ∀ n, n ∈ (populated st).*2 ↔ is_Some (heap w !! n).
Proof.
  intros Hrun Hfuel.
  destruct (building_run_well_linked w Hrun) as [[Hroot Hchildren Hparents _ Hbelow] Hnamed].
  assert (inspectable w) as Hw.
  { split_and!; [done| |done]. intros n nd p Hn Hp. apply (Hparents n nd p Hn).
    unfold PrimaryParent in Hp. destruct (parents_ nd) as [|p0 l]; simpl in Hp; [done|].
    injection Hp as ->. by left. }
  destruct Hroot as [rd Hrd]. unfold Inspect, node_at. rewrite Hrd. simpl.
  destruct (InspectNode_ends w fuel
              (mkInspectState [(1%nat, root_node_ w)] ∅ 2%nat
                 [ICreateChild 0%nat (name_ rd) 1%nat] []) Hw) as [st Hst]; simpl.
  { by repeat constructor. }
  { rewrite pending_in_empty. lia. }
  exists st. split; [done|].
  apply (InspectNode_inv w (root_node_ w)) in Hst as [Hinv Hstack];
    [|apply inspect_inv_start].
  destruct Hinv as (Hnd & _ & Hreached & Hstart & Hclosed). rewrite Hstack in *.
  split; [done|]. intros n. split.
  - intros Hn. assert (below w (root_node_ w) n) as Hb by (apply Hreached; by left).
    clear Hn. induction Hb as [|m md c _ IH Hm Hc]; [by eexists|]. by eapply Hchildren.
  - intros Hn. apply Hbelow in Hn. induction Hn as [|m md c _ IH Hm Hc].
    + destruct Hstart as [?|Hr]; [done|]. by apply elem_of_nil in Hr.
    + destruct (Hclosed m md c IH Hm Hc) as [?|Hc']; [done|].
      by apply elem_of_nil in Hc'.
Qed.

Lemma Inspect_complete_witness :
  ∃ w st, rtc building_step new_DriverRunner w
          ∧ parents_ <$> heap w !! 4%positive = Some [2; 3]%positive
          ∧ Inspect 5 w = Done st
          ∧ NoDup (populated st).*2
          ∧ ∀ n, n ∈ (populated st).*2 ↔ is_Some (heap w !! n).
Proof.
  destruct composite_built as (w & Hrun & Hcomposite & Hfuel).
  destruct (Inspect_complete 5 w Hrun Hfuel) as (st & Hst & Hnd & Hall).
  exists w, st. split; [exact Hrun|]. split; [exact Hcomposite|].
  split; [exact Hst|]. split; [exact Hnd|exact Hall].
Defined.


(** ** The callback of [Bind] for a composite driver *)

Lemma add_to_parents_frame (c : ptr) (ps : list ptr) (w w' : World) :
  add_to_parents c ps w = Done w' →
  with_heap (heap w) w' = w
  ∧ ∀ x xd, heap w !! x = Some xd →
      ∃ xd', heap w' !! x = Some xd' ∧ controller_ref_ xd' = controller_ref_ xd.
Proof.
  revert w. induction ps as [|p ps IH]; intros w H; simpl in H.
  { simplify_eq. split; [by destruct w'|]. intros x xd Hx. by exists xd. }
  apply bind_Done in H as (pd & Hpd & H). apply node_at_Done in Hpd.
  apply IH in H as [Hw Hnodes]. split.
  - transitivity (with_heap (heap w) (with_heap (heap (put_node p (push_child c pd) w)) w'));
      [done|]. rewrite Hw. exact (with_heap_same w).
  - intros x xd Hx. destruct (decide (x = p)) as [->|Hne].
    + destruct (Hnodes p (push_child c pd)) as (xd' & Hxd' & Hctl).
      { unfold put_node. simpl. apply lookup_insert_eq. }
      exists xd'. split; [done|]. rewrite Hctl. by simplify_eq.
    + apply Hnodes. unfold put_node. simpl. by rewrite lookup_insert_ne.
Qed.

Lemma CreateCompositeNode_frame (node : ptr) (matched : MatchedCompositeInfo)
    (w w' : World) (r : status ptr) :
  CreateCompositeNode node matched w = Done (r, w') →
  trace w' = trace w ∧ driver_args_ w' = driver_args_ w
  ∧ (is_error r = false → orphaned_nodes_ w' = orphaned_nodes_ w)
  ∧ ∀ x xd, heap w !! x = Some xd →
      ∃ xd', heap w' !! x = Some xd' ∧ controller_ref_ xd' = controller_ref_ xd.
Proof.
  intros H. unfold CreateCompositeNode in H.
  apply bind_Done in H as (nd & Hnd & H).
  destruct (AddToCompositeArgs (name_ nd) matched w) as [[it|s] w1] eqn:Hadd.
  2:{ unfold AddToCompositeArgs in Hadd. simplify_eq. simpl.
      repeat case_match; simplify_eq; (split_and!; [done|done|done|]);
        intros x xd Hx; by exists xd. }
  destruct (AddToCompositeArgs_ok _ _ _ _ _ Hadd)
    as (index & num & url & nodes & args & Hindex & Hnum & Hlt & Hurl & -> & Hit & Hlen).
  assert (@lookup nat (string * CompositeArgs) _ _ it
            (composite_args_ (with_composite_args args w)) = Some (url, nodes)) as Hit'
    by exact Hit.
  rewrite Hit', Hindex in H.
  destruct (lock_all _ _) as [parents|].
  2:{ simplify_eq. simpl. split_and!; try done. intros x xd Hx. by exists xd. }
  apply bind_Done in H as (composite & _ & H).
  apply bind_Done in H as (w4 & Hw4 & H). simplify_eq.
  unfold AddToParents in Hw4. apply bind_Done in Hw4 as (cd & _ & Hw4).
  apply add_to_parents_frame in Hw4 as [Hw Hnodes].
  split_and!.
  - apply (f_equal trace) in Hw. by simpl in Hw.
  - apply (f_equal driver_args_) in Hw. by simpl in Hw.
  - intros _. apply (f_equal orphaned_nodes_) in Hw. by simpl in Hw.
  - intros x xd Hx. apply Hnodes. unfold put_node. simpl.
    rewrite lookup_insert_ne; [done|]. intros <-.
    pose proof (fresh_node_free w) as Hfree. unfold fresh_node in *. simpl in *. congruence.
Qed.

(** X25 ([DriverRunner::Bind], [DriverRunner::CreateCompositeNode],
    [DriverRunner::StartDriver], [Node::OnBind]): the callback of [Bind] when
    the index has matched a composite driver with a URL.  While
    [CreateCompositeNode] returns an error, also [ZX_ERR_NEXT] for a node
    that waits, the callback ends there: no driver is started and the
    controller of the node gets no [OnBind].  When the composite node is
    made, the driver is started for the composite node, not for the matched
    node: if [StartDriver] cannot make its token, it is the composite node
    that is put among the orphans; otherwise the token is registered for the
    composite node and the component is requested under the topological name
    of the composite node.  In both cases [OnBind] goes to the controller of
    the matched node. *)
Theorem match_callback_composite (node : ptr) (nd : Node) (matched : MatchedCompositeInfo)
    (driver_info : MatchedDriverInfo) (url : string) (env : TokenEnv) (w : World) :
  heap w !! node = Some nd →
  composite_driver_info matched = Some driver_info → info_url driver_info = Some url →
  let result := MatchResponse (IsCompositeDriver matched) in
  let notified :=
    match controller_ref_ nd with Some _ => [EvOnBind node] | None => [] end in
  (∀ s w1, CreateCompositeNode node matched w = Done (error s, w1) →
     match_callback node result env w = Done w1 ∧ trace w1 = trace w)
  ∧ (∀ c w1, CreateCompositeNode node matched w = Done (ok c, w1) →
       (event_create_status env ≠ ZX_OK ∨ event_info_status env ≠ ZX_OK →
          ∃ w', match_callback node result env w = Done w'
                ∧ orphaned_nodes_ w' = orphaned_nodes_ w ++ [c]
                ∧ heap w' = heap w1 ∧ driver_args_ w' = driver_args_ w
                ∧ trace w' = trace w ++ notified)
       ∧ (∀ w', event_create_status env = ZX_OK → event_info_status env = ZX_OK →
            match_callback node result env w = Done w' →
            orphaned_nodes_ w' = orphaned_nodes_ w
            ∧ driver_args_ w' = emplace (event_koid env) c (driver_args_ w)
            ∧ ∃ name offers collection,
                TopoName c w1 = Done name
                ∧ trace w' = trace w ++ EvCreateChild collection name url (Some offers)
                                        (Some (event_koid env)) :: notified)).
Proof.
  intros Hnd Hinfo Hurl result notified. subst result.
  assert (∀ r w1, CreateCompositeNode node matched w = Done (r, w1) →
            match_callback node (MatchResponse (IsCompositeDriver matched)) env w
            = match r with
              | error _ => Done w1
              | ok driver_node => start_matched node driver_node url env w1
              end) as Hcall.
  { intros r w1 Hc. unfold match_callback, lock. rewrite Hnd, Hinfo, Hurl, Hc. done. }
  split.
  { intros s w1 Hc. rewrite (Hcall _ _ Hc). split; [done|].
    by apply CreateCompositeNode_frame in Hc as [? _]. }
  intros c w1 Hc. rewrite (Hcall _ _ Hc).
  destruct (CreateCompositeNode_frame _ _ _ _ _ Hc) as (Htrace & Hargs & Horph & Hnodes).
  specialize (Horph eq_refl). destruct (Hnodes node nd Hnd) as (nd1 & Hnd1 & Hctl).
  unfold notified. rewrite <- Hctl, <- Htrace, <- Hargs, <- Horph. split.
  - intros Hfail. unfold start_matched.
    destruct (StartDriver_fails c url env w1 Hfail) as [s ->]. simpl.
    unfold OnBind, node_at. simpl. rewrite Hnd1. simpl.
    destruct (controller_ref_ nd1); eexists; (split; [reflexivity|]); simpl;
      rewrite ?app_nil_r; done.
  - intros w' Hcreate Hi H. unfold start_matched in H.
    apply bind_Done in H as ([r w2] & Hstart & H).
    destruct (StartDriver_Done _ _ _ _ _ _ Hstart) as (_ & _ & Hok).
    destruct (Hok Hcreate Hi)
      as (-> & _ & Hargs' & cd & w0 & name & offers & Hcd & Hbut & Hname & ->).
    simpl in H. unfold OnBind in H.
    apply bind_Done in H as (nd2 & Hnd2 & H). apply node_at_Done in Hnd2. simpl in Hnd2.
    assert (controller_ref_ nd2 = controller_ref_ nd1) as Hctl2.
    { destruct (but_sources_node _ _ node nd2 Hbut Hnd2) as (x & Hx & [Hsame _]).
      apply (f_equal controller_ref_) in Hsame. simpl in Hsame. rewrite Hsame.
      unfold put_node in Hx. simpl in Hx.
      destruct (decide (c = node)) as [->|Hne].
      - rewrite lookup_insert_eq in Hx. simplify_eq. done.
      - rewrite lookup_insert_ne in Hx by done. congruence. }
    assert (orphaned_nodes_ w0 = orphaned_nodes_ w1 ∧ trace w0 = trace w1)
      as [Horph0 Htrace0].
    { destruct Hbut as [Hw _]. apply (f_equal orphaned_nodes_) in Hw as Ho.
      apply (f_equal trace) in Hw as Ht. by simpl in *. }
    rewrite <- Hctl2.
    destruct (controller_ref_ nd2); simplify_eq; simpl;
      (split; [done|]); (split; [done|]); eexists name, offers, _;
      (split; [done|]);
      rewrite Htrace0; rewrite <- ?app_assoc; simpl; rewrite ?app_nil_r; reflexivity.
Qed.

Lemma match_callback_composite_witness :
  ∃ w', match_callback 3%positive (MatchResponse (IsCompositeDriver (slot_of_X 1)))
          (mkTokenEnv ZX_ERR_UNAVAILABLE ZX_OK 7%N) world_X_pending = Done w'
        ∧ orphaned_nodes_ w' = [4%positive] ∧ trace w' = [].
Proof.
  assert (∃ w1, CreateCompositeNode 3%positive (slot_of_X 1) world_X_pending
                = Done (ok 4%positive, w1)) as [w1 Hc]
    by (eexists; vm_compute; reflexivity).
  destruct (proj1 (proj2 (match_callback_composite 3%positive
                            (hosted "b" [1%positive] [] None []) (slot_of_X 1)
                            (mkMatchedDriverInfo (Some "X")) "X"
                            (mkTokenEnv ZX_ERR_UNAVAILABLE ZX_OK 7%N) world_X_pending
                            eq_refl eq_refl eq_refl) 4%positive w1 Hc))
    as (w' & Hrun & Horph & _ & _ & Htrace).
  - left. discriminate.
  - exists w'. split; [exact Hrun|]. split; [exact Horph|exact Htrace].
Defined.


(** ** [DriverComponent::StopComponent] and [on_fidl_error] *)

(** [CloseAndReset]: the epitaph goes out when the reference is there. *)
Definition CloseAndReset (ref : option channel) (w : World) : option channel * World :=
  match ref with
  | Some _ => (None, emit (EvClose ZX_OK) w)
  | None => (None, w)
  end.

Definition with_driver_ref (ref : option channel) (dc : DriverComponent) : DriverComponent :=
  mkDriverComponent (url_ dc) (node_ dc) ref (stop_in_progress_ dc).

Definition StopComponent (d : cptr) (w : World) : Outcome World :=
  dc ← driver_at d w;
  let '(ref, w1) := CloseAndReset (driver_ref_ dc) w in
  Done (put_driver d (with_driver_ref ref dc) w1).

(** [DriverComponent::on_fidl_error]: whatever the reason, which is only
    logged. *)
Definition on_fidl_error (d : cptr) (w : World) : Outcome World := StopComponent d w.

(** X26 ([CloseAndReset], [DriverComponent::StopComponent],
    [DriverComponent::on_fidl_error]): [StopComponent] on a driver component
    sends the epitaph [ZX_OK] on the controller when the component still
    holds it, and nothing otherwise; it touches no node, so the node stays
    bound to the component.  Afterwards the component holds no controller,
    and [on_fidl_error] or another [StopComponent] changes nothing: the
    epitaph is sent at most once. *)
Theorem StopComponent_once (d : cptr) (dc : DriverComponent) (w : World) :
  drivers_ w !! d = Some dc →
  ∃ w1, StopComponent d w = Done w1
        ∧ heap w1 = heap w
        ∧ trace w1 = trace w ++ match driver_ref_ dc with
                                | Some _ => [EvClose ZX_OK]
                                | None => []
                                end
        ∧ drivers_ w1 = <[d := with_driver_ref None dc]> (drivers_ w)
        ∧ on_fidl_error d w1 = Done w1.
Proof.
  intros Hd. unfold on_fidl_error, StopComponent, driver_at. rewrite Hd. simpl.
  assert (∀ v, drivers_ v !! d = Some (with_driver_ref None dc) →
            put_driver d (with_driver_ref None (with_driver_ref None dc)) v = v) as Hagain.
  { intros v Hv. unfold put_driver, with_driver_ref. simpl.
    rewrite insert_id by done. by destruct v. }
  destruct (driver_ref_ dc) as [ref|]; simpl; eexists; (split; [reflexivity|]); simpl;
    rewrite ?app_nil_r, lookup_insert_eq; simpl; split_and!; try done;
    f_equal; apply Hagain; simpl; apply lookup_insert_eq.
Qed.

(** The driver of "disk" with its controller. *)
Definition world_disk_controlled : World :=
  put_driver 9%positive (mkDriverComponent "fuchsia-boot:///disk" 2%positive
                           (Some 70%positive) false) world_disk_driver.

Lemma StopComponent_once_witness :
  ∃ w1, StopComponent 9%positive world_disk_controlled = Done w1
        ∧ trace w1 = [EvClose ZX_OK]
        ∧ on_fidl_error 9%positive w1 = Done w1.
Proof.
  destruct (StopComponent_once 9%positive
              (mkDriverComponent "fuchsia-boot:///disk" 2%positive (Some 70%positive) false)
              world_disk_controlled eq_refl) as (w1 & Hrun & _ & Htrace & _ & Hagain).
  exists w1. split; [exact Hrun|]. split; [exact Htrace|exact Hagain].
Defined.


(** ** The calls of the program which build the topology *)

(** The nodes which a pending set of a composite driver holds. *)
Definition living (nodes : CompositeArgs) : list ptr := omap (λ weak, weak) nodes.

Definition pending_nodes (w : World) : list ptr :=
  (composite_args_ w).*2 ≫= living.

(** The nodes which wait for a driver: those with a match request in flight,
    the orphans, and those in a pending set. *)
Definition pool (w : World) : list ptr :=
  (match_requests_ w).*1 ++ orphaned_nodes_ w ++ pending_nodes w.

(** One call which the program makes on the runner or on a node, and which
    returns.  [AddChild] is a request on the [Node] channel of the node: the
    node has a server bound ([node_ref_]), which [Start] binds for the node
    of a driver and [AddChild] for a child whose request has a [Node]
    channel; a child without one goes to [Bind].  The callback of [Bind]
    runs once, for a match request which has gone out, and
    [CreateCompositeNode] is called nowhere else.  No node is removed. *)
Inductive program_step : World → World → Prop :=
| program_StartRootDriver (url : string) (env : TokenEnv) (w : World) (r : status ())
    (w' : World) :
    StartRootDriver url env w = Done (r, w') → program_step w w'
| program_Start (request : StartRequest) (env : StartEnv) (w : World)
    (r : option zx_status_t) (w' : World) :
    Start request env w = Done (r, w') → program_step w w'
| program_AddChild (this : ptr) (nd : Node) (request : AddChildRequest) (w : World)
    (reply : Reply) (w' : World) :
    heap w !! this = Some nd → is_Some (node_ref_ nd) →
    AddChild this request w = Done (reply, w') → program_step w w'
| program_match (node : ptr) (args : NodeAddArgs) (before after : list (ptr * NodeAddArgs))
    (result : MatchResult) (env : TokenEnv) (w w' : World) :
    match_requests_ w = before ++ (node, args) :: after →
    match_callback node result env (with_match_requests (before ++ after) w) = Done w' →
    program_step w w'
| program_base_drivers (result_ok : bool) (w w' : World) :
    base_drivers_callback result_ok w = Done w' → program_step w w'.

(** The search for a source which starts at [p] finds one. *)
Definition anchored (w : World) (p : ptr) : Prop := ∃ s, nearest_source w p s.

(** A node which waits for a driver has parents, and neither children nor a
    server on a [Node] channel. *)
Definition bare (w : World) (p : ptr) : Prop :=
  ∃ pd, heap w !! p = Some pd ∧ children_ pd = [] ∧ node_ref_ pd = None
        ∧ parents_ pd ≠ [].

(** What the calls keep of the nodes. *)
Record sound (w : World) : Prop := mkSound {
  sound_root : ∃ rd, heap w !! root_node_ w = Some rd ∧ parents_ rd = [];
  sound_tidy : tidy w;
  sound_chain : ∀ n, is_Some (heap w !! n) → ∃ l, primary_chain w n l;
  sound_parents :
    ∀ n nd p, heap w !! n = Some nd → p ∈ parents_ nd → anchored w p;
  sound_offers : ∀ n nd, heap w !! n = Some nd → OfferUnknown ∉ offers_ nd;
}.

(** What the calls keep of the runner, with the nodes [ex] which a call has
    taken out of the pool and not yet put back. *)
Record served (ex : list ptr) (w : World) : Prop := mkServed {
  served_bound :
    ∀ n nd, heap w !! n = Some nd → is_Some (node_ref_ nd) → anchored w n;
  served_tokens :
    ∀ k m, driver_args_ w !! k = Some m → anchored w m ∧ m ∉ ex ++ pool w;
  served_distinct : NoDup (ex ++ pool w);
  served_bare : ∀ p, p ∈ ex ++ pool w → bare w p;
}.

(** The nodes of [w] are in [w'], with their names and parents, and with a
    collection if they had one. *)
Record node_grows (a b : Node) : Prop := mkNodeGrows {
  grows_name : name_ b = name_ a;
  grows_parents : parents_ b = parents_ a;
  grows_collection : collection_ a ≠ kNone → collection_ b ≠ kNone;
}.

Definition store_grows (w w' : World) : Prop :=
  ∀ x xd, heap w !! x = Some xd → ∃ xd', heap w' !! x = Some xd' ∧ node_grows xd xd'.

(** [w'] has the nodes of [w], with the same names, parents and children and
    the same kinds of offers; a node keeps a collection it has; the server on
    the [Node] channel changes in the nodes [B] at most. *)
Record node_steady (a b : Node) : Prop := mkNodeQuiet {
  steady_grows : node_grows a b;
  steady_children : children_ b = children_ a;
  steady_offers : OfferUnknown ∈ offers_ b → OfferUnknown ∈ offers_ a;
}.

Definition steady (B : ptr → Prop) (w w' : World) : Prop :=
  root_node_ w' = root_node_ w
  ∧ ∀ x, option_Forall2 (λ a b, node_steady a b ∧ (B x ∨ node_ref_ b = node_ref_ a))
           (heap w !! x) (heap w' !! x).

Definition nobody_bound : ptr → Prop := λ _, False.

Lemma node_grows_refl (a : Node) : node_grows a a.
Proof. by split. Qed.

Lemma node_steady_refl (a : Node) : node_steady a a.
Proof. split; [apply node_grows_refl|done|done]. Qed.

Lemma node_steady_trans (a b c : Node) : node_steady a b → node_steady b c → node_steady a c.
Proof.
  intros [[H1 H2 H3] H4 H5] [[G1 G2 G3] G4 G5]. split; [split|..]; try congruence; auto.
Qed.

Lemma steady_refl (B : ptr → Prop) (w : World) : steady B w w.
Proof.
  split; [done|]. intros x. destruct (heap w !! x); constructor.
  split; [apply node_steady_refl|by right].
Qed.

Lemma steady_same (B : ptr → Prop) (w w' : World) :
  root_node_ w' = root_node_ w → heap w' = heap w → steady B w w'.
Proof.
  intros Hr Hh. split; [done|]. intros x. rewrite Hh. destruct (heap w !! x); constructor.
  split; [apply node_steady_refl|by right].
Qed.

Lemma steady_trans (B : ptr → Prop) (a b c : World) :
  steady B a b → steady B b c → steady B a c.
Proof.
  intros [Hr1 H1] [Hr2 H2]. split; [congruence|]. intros x.
  specialize (H1 x). specialize (H2 x).
  destruct H1 as [na nb [Hq1 Hb1]|]; inversion H2 as [nb' nc [Hq2 Hb2]|]; subst;
    constructor.
  split; [by eapply node_steady_trans|].
  destruct Hb1 as [?|Hb1]; [by left|]. destruct Hb2 as [?|Hb2]; [by left|].
  right. congruence.
Qed.

Lemma steady_weaken (B B' : ptr → Prop) (w w' : World) :
  (∀ x, B x → B' x) → steady B w w' → steady B' w w'.
Proof.
  intros HB [Hr H]. split; [done|]. intros x. specialize (H x).
  destruct H as [a b [Hq Hb]|]; constructor. split; [done|].
  destruct Hb; [left; auto|by right].
Qed.

Lemma steady_put_node (B : ptr → Prop) (n : ptr) (nd nd' : Node) (w : World) :
  heap w !! n = Some nd → node_steady nd nd' → B n ∨ node_ref_ nd' = node_ref_ nd →
  steady B w (put_node n nd' w).
Proof.
  intros Hn Hq Hb. split; [done|]. intros x. unfold put_node. simpl.
  destruct (decide (n = x)) as [<-|Hne].
  - rewrite lookup_insert_eq, Hn. by constructor.
  - rewrite lookup_insert_ne by done. destruct (heap w !! x); constructor.
    split; [apply node_steady_refl|by right].
Qed.

Lemma steady_forth (B : ptr → Prop) (w w' : World) (x : ptr) (xd : Node) :
  steady B w w' → heap w !! x = Some xd →
  ∃ xd', heap w' !! x = Some xd' ∧ node_steady xd xd' ∧ (B x ∨ node_ref_ xd' = node_ref_ xd).
Proof.
  intros [_ H] Hx. specialize (H x). rewrite Hx in H.
  inversion H as [a b [Hq Hb]|]; subst. by eexists.
Qed.

Lemma steady_back (B : ptr → Prop) (w w' : World) (x : ptr) (xd' : Node) :
  steady B w w' → heap w' !! x = Some xd' →
  ∃ xd, heap w !! x = Some xd ∧ node_steady xd xd' ∧ (B x ∨ node_ref_ xd' = node_ref_ xd).
Proof.
  intros [_ H] Hx. specialize (H x). rewrite Hx in H.
  inversion H as [a b [Hq Hb]|]; subst. by eexists.
Qed.

Lemma steady_grows_store (B : ptr → Prop) (w w' : World) : steady B w w' → store_grows w w'.
Proof.
  intros Hq x xd Hx. destruct (steady_forth B w w' x xd Hq Hx) as (xd' & Hx' & [Hg _ _] & _).
  by exists xd'.
Qed.

Lemma but_sources_steady (B : ptr → Prop) (w w' : World) : but_sources w w' → steady B w w'.
Proof.
  intros [Hw Hn]. split.
  - apply (f_equal root_node_) in Hw. by simpl in Hw.
  - intros x. specialize (Hn x). destruct Hn as [a b [Hset Hoff]|]; constructor.
    assert (name_ b = name_ a ∧ parents_ b = parents_ a ∧ children_ b = children_ a
            ∧ collection_ b = collection_ a ∧ node_ref_ b = node_ref_ a)
      as (H1 & H2 & H3 & H4 & H5) by (rewrite <- Hset; done).
    split; [|by right]. split; [split; [done|done|congruence]|done|].
    intros Hin. apply (list_elem_of_fmap_2 without_source) in Hin. rewrite Hoff in Hin.
    apply list_elem_of_fmap in Hin as (o & Ho & Hin). by destruct o.
Qed.

Lemma anchored_grows (w w' : World) (p : ptr) :
  store_grows w w' → anchored w p → anchored w' p.
Proof.
  intros Hg [s Hs]. induction Hs as [s sd Hs Hc|p pd q s Hp Hc Hq _ IH].
  - destruct (Hg _ _ Hs) as (sd' & Hs' & [_ _ Hc']). exists s. eapply nearest_here; eauto.
  - destruct (Hg _ _ Hp) as (pd' & Hp' & [_ Hps' Hc']). destruct IH as [s' Hs'].
    destruct (decide (collection_ pd' = kNone)) as [Hnone|Hsome].
    + exists s'. eapply nearest_above; [exact Hp'|done| |exact Hs']. by rewrite Hps'.
    + exists p. by eapply nearest_here.
Qed.

Lemma anchored_alive (w : World) (p : ptr) : anchored w p → is_Some (heap w !! p).
Proof. intros [s Hs]. destruct Hs; by eexists. Qed.

Lemma store_grows_keeps (w w' : World) : store_grows w w' → keeps_names_and_parents w w'.
Proof.
  intros Hg x xd Hx. destruct (Hg _ _ Hx) as (xd' & Hx' & [H1 H2 _]). by exists xd'.
Qed.

(** A node with parents which are anchored is anchored. *)
Lemma anchored_below (w : World) (n : ptr) (nd : Node) :
  heap w !! n = Some nd → parents_ nd ≠ [] →
  (∀ p, p ∈ parents_ nd → anchored w p) → anchored w n.
Proof.
  intros Hn Hps Hanch. destruct (decide (collection_ nd = kNone)) as [Hnone|Hsome].
  - destruct (parents_ nd) as [|q ps] eqn:Hq; [done|].
    destruct (Hanch q) as [s Hs]; [by left|].
    exists s. eapply nearest_above; [exact Hn|done| |exact Hs]. by rewrite Hq.
  - exists n. by eapply nearest_here.
Qed.

Lemma tidy_steady (B : ptr → Prop) (w w' : World) : steady B w w' → tidy w → tidy w'.
Proof.
  intros Hq [Halive Hunique].
  assert (∀ x, is_Some (heap w !! x) → is_Some (heap w' !! x)) as Hstay.
  { intros x [xd Hx]. destruct (steady_forth B w w' x xd Hq Hx) as (xd' & -> & _). by eexists. }
  split.
  - intros n nd' c Hn Hc. destruct (steady_back B w w' n nd' Hq Hn) as (nd & Hnd & [_ Hcs _] & _).
    apply Hstay. eapply Halive; [exact Hnd|]. by rewrite <- Hcs.
  - intros n nd' Hn. destruct (steady_back B w w' n nd' Hq Hn) as (nd & Hnd & [_ Hcs _] & _).
    unfold child_names. rewrite Hcs.
    rewrite (child_names_same w w' (children_ nd)); [by apply (Hunique n)|].
    intros x Hx. destruct (Halive n nd x Hnd Hx) as [xd Hxd].
    destruct (steady_forth B w w' x xd Hq Hxd) as (xd' & Hxd' & [[Hname _ _] _ _] & _).
    rewrite Hxd, Hxd'. simpl. by rewrite Hname.
Qed.

Lemma sound_steady (B : ptr → Prop) (w w' : World) : steady B w w' → sound w → sound w'.
Proof.
  intros Hq [Hroot Htidy Hchain Hparents Hoffers].
  pose proof (steady_grows_store B w w' Hq) as Hg.
  split.
  - destruct Hroot as (rd & Hrd & Hps). rewrite (proj1 Hq).
    destruct (steady_forth B w w' _ rd Hq Hrd) as (rd' & Hrd' & [[_ Hps' _] _ _] & _).
    exists rd'. split; [done|congruence].
  - by eapply tidy_steady.
  - intros n [nd' Hn]. destruct (steady_back B w w' n nd' Hq Hn) as (nd & Hnd & _).
    destruct (Hchain n) as [l Hl]; [by eexists|]. exists l.
    by apply (primary_chain_kept w w' n l (store_grows_keeps w w' Hg)).
  - intros n nd' p Hn Hp.
    destruct (steady_back B w w' n nd' Hq Hn) as (nd & Hnd & [[_ Hps _] _ _] & _).
    apply (anchored_grows w w'); [done|]. eapply Hparents; [exact Hnd|]. by rewrite <- Hps.
  - intros n nd' Hn Hin.
    destruct (steady_back B w w' n nd' Hq Hn) as (nd & Hnd & [_ _ Hoff] & _).
    by apply (Hoffers n nd Hnd), Hoff.
Qed.

Lemma bare_steady (B : ptr → Prop) (w w' : World) (p : ptr) :
  steady B w w' → ¬ B p → bare w p → bare w' p.
Proof.
  intros Hq HB (pd & Hp & Hcs & Href & Hps).
  destruct (steady_forth B w w' p pd Hq Hp) as (pd' & Hp' & [[_ Hps' _] Hcs' _] & Hb).
  exists pd'. split; [done|]. split; [congruence|]. split; [|congruence].
  destruct Hb as [?|Hb]; [done|congruence].
Qed.

(** A call which is [steady] and leaves the pool as it is, up to the order. *)
Lemma served_steady (B : ptr → Prop) (ex ex' : list ptr) (w w' : World) :
  steady B w w' → served ex w →
  (∀ x, B x → anchored w x ∧ x ∉ ex ++ pool w) →
  ex' ++ pool w' ≡ₚ ex ++ pool w →
  (∀ k m, driver_args_ w' !! k = Some m → anchored w' m ∧ m ∉ ex ++ pool w) →
  served ex' w'.
Proof.
  intros Hq [Hbound Htokens Hdistinct Hbare] HB Hpool Hargs.
  pose proof (steady_grows_store B w w' Hq) as Hg.
  split.
  - intros n nd' Hn Href.
    destruct (steady_back B w w' n nd' Hq Hn) as (nd & Hnd & _ & Hb).
    apply (anchored_grows w w'); [done|].
    destruct Hb as [Hb|Hb]; [by apply HB|].
    apply (Hbound n nd Hnd). by rewrite <- Hb.
  - intros k m Hm. destruct (Hargs k m Hm) as [Ha Hout]. split; [done|].
    by rewrite Hpool.
  - by rewrite Hpool.
  - intros p Hp. rewrite Hpool in Hp. apply (bare_steady B w w'); [done| |by apply Hbare].
    intros Hb. by apply (HB p Hb).
Qed.
(** *** The calls which add no node *)

(** The runner's lists of waiting nodes and its start tokens are the same. *)
Definition same_runner (w w' : World) : Prop :=
  match_requests_ w' = match_requests_ w ∧ orphaned_nodes_ w' = orphaned_nodes_ w
  ∧ composite_args_ w' = composite_args_ w ∧ driver_args_ w' = driver_args_ w.

Lemma same_runner_refl (w : World) : same_runner w w.
Proof. done. Qed.

Lemma same_runner_trans (a b c : World) : same_runner a b → same_runner b c → same_runner a c.
Proof. intros (?&?&?&?) (?&?&?&?). repeat split; congruence. Qed.

Lemma pool_same (w w' : World) :
  match_requests_ w' = match_requests_ w → orphaned_nodes_ w' = orphaned_nodes_ w →
  composite_args_ w' = composite_args_ w → pool w' = pool w.
Proof. intros H1 H2 H3. unfold pool, pending_nodes. by rewrite H1, H2, H3. Qed.

Lemma same_runner_pool (w w' : World) : same_runner w w' → pool w' = pool w.
Proof. intros (H1 & H2 & H3 & _). by apply pool_same. Qed.

Lemma same_runner_with_heap (w w' : World) : with_heap (heap w) w' = w → same_runner w w'.
Proof.
  intros Hw. repeat split.
  - apply (f_equal match_requests_) in Hw. by simpl in Hw.
  - apply (f_equal orphaned_nodes_) in Hw. by simpl in Hw.
  - apply (f_equal composite_args_) in Hw. by simpl in Hw.
  - apply (f_equal driver_args_) in Hw. by simpl in Hw.
Qed.

Lemma emplace_lookup (k k' : koid) (n x : ptr) (m : gmap koid ptr) :
  emplace k n m !! k' = Some x → m !! k' = Some x ∨ x = n.
Proof.
  unfold emplace. destruct (m !! k) eqn:Hk; [by left|].
  destruct (decide (k = k')) as [<-|Hne].
  - rewrite lookup_insert_eq. intros [= ->]. by right.
  - rewrite lookup_insert_ne by done. by left.
Qed.

Lemma set_collection_steady (c : Collection) (nd : Node) :
  c ≠ kNone → node_steady nd (set_collection c nd).
Proof. intros Hc. split; [split|..]; done. Qed.

(** What [StartDriver] does to the nodes and to the runner. *)
Lemma StartDriver_steady (node : ptr) (url : string) (env : TokenEnv) (w w' : World)
    (r : status ()) :
  StartDriver node url env w = Done (r, w') →
  steady nobody_bound w w' ∧ pool w' = pool w
  ∧ ((is_error r = true ∧ w' = w)
     ∨ (r = ok ()
        ∧ driver_args_ w' = emplace (event_koid env) node (driver_args_ w)
        ∧ ∃ nd', heap w' !! node = Some nd' ∧ collection_ nd' ≠ kNone)).
Proof.
  intros H. destruct (StartDriver_Done _ _ _ _ _ _ H) as (Hcreate & Hinfo & Hok).
  destruct (decide (event_create_status env = ZX_OK)) as [Hc|Hc].
  2:{ destruct (Hcreate Hc) as [-> ->]. split; [apply steady_refl|]. split; [done|by left]. }
  destruct (decide (event_info_status env = ZX_OK)) as [Hi|Hi].
  2:{ destruct (Hinfo Hc Hi) as [-> ->]. split; [apply steady_refl|]. split; [done|by left]. }
  destruct (Hok Hc Hi) as (-> & Hcoll & Hargs & nd & w1 & name & offers & Hnd & Hbut & _ & ->).
  assert (∀ u : string, (if String.prefix kBootScheme u then kBoot else kPackage) ≠ kNone)
    as Hsome by (intros u; by destruct (String.prefix kBootScheme u)).
  split; [|split].
  - eapply steady_trans; [|eapply steady_trans; [apply but_sources_steady, Hbut|]].
    + apply (steady_put_node nobody_bound node nd); [done| |by right].
      apply set_collection_steady, Hsome.
    + by apply steady_same.
  - destruct Hbut as [Hw _].
    apply same_runner_with_heap in Hw. destruct Hw as (H1 & H2 & H3 & H4).
    by apply pool_same.
  - right. split; [done|]. split; [done|].
    destruct (heap _ !! node) as [nd'|]; [|done]. exists nd'. split; [done|].
    simpl in Hcoll. injection Hcoll as ->. apply Hsome.
Qed.

Lemma StartDriverHost_same (env : HostEnv) (w w' : World) (r : status hptr) :
  StartDriverHost env w = Done (r, w') →
  heap w' = heap w ∧ root_node_ w' = root_node_ w ∧ same_runner w w'.
Proof.
  unfold StartDriverHost. intros H.
  destruct (decide _); [by simplify_eq|].
  unfold CreateComponent in H. simpl in H.
  destruct (decide _); by simplify_eq.
Qed.

Lemma start_in_host_steady (request : StartRequest) (env : StartEnv) (node : ptr)
    (w w' : World) (r : option zx_status_t) :
  start_in_host request env node w = Done (r, w') →
  steady (λ x, x = node) w w' ∧ same_runner w w'.
Proof.
  unfold start_in_host. intros H.
  apply bind_Done in H as (nd & Hnd & H). apply node_at_Done in Hnd.
  destruct (decide _); [simplify_eq; split; [apply steady_refl|done]|].
  apply bind_Done in H as (host & _ & H).
  apply bind_Done in H as ([start w2] & Hstart & H).
  set (w1 := put_node node (set_node_ref (env_node_channel env) nd) w) in *.
  assert (heap w2 = heap w1 ∧ root_node_ w2 = root_node_ w1 ∧ same_runner w1 w2)
    as (Hheap & Hroot & Hsame).
  { unfold DriverHostComponent_Start in Hstart.
    destruct (decide _); [by simplify_eq|].
    apply bind_Done in Hstart as (syms & _ & Hstart).
    destruct (decide _); by simplify_eq. }
  assert (steady (λ x, x = node) w w2) as Hq.
  { eapply steady_trans; [|by apply steady_same].
    apply (steady_put_node _ node nd); [done| |by left].
    split; [split|..]; done. }
  assert (same_runner w w2) as Hs.
  { eapply same_runner_trans; [|exact Hsame]. done. }
  destruct start as [[]|s]; [|by simplify_eq].
  apply bind_Done in H as (nd2 & Hnd2 & H). apply node_at_Done in Hnd2. simplify_eq.
  split.
  - eapply steady_trans; [exact Hq|].
    eapply steady_trans.
    { apply (steady_put_node _ node nd2
               (set_driver_component (Some (env_driver_address env)) nd2)); [done| |by left].
      split; [split|..]; done. }
    by apply steady_same.
  - eapply same_runner_trans; [exact Hs|]. done.
Qed.

(** What [Start] does to the nodes and to the runner. *)
Lemma Start_steady (request : StartRequest) (env : StartEnv) (w w' : World)
    (r : option zx_status_t) :
  Start request env w = Done (r, w') →
  steady (λ x, ∃ k, driver_args_ w !! k = Some x) w w' ∧ pool w' = pool w
  ∧ ∀ k m, driver_args_ w' !! k = Some m → driver_args_ w !! k = Some m.
Proof.
  unfold Start. intros H.
  assert (steady (λ x, ∃ k, driver_args_ w !! k = Some x) w w ∧ pool w = pool w
          ∧ ∀ k m, driver_args_ w !! k = Some m → driver_args_ w !! k = Some m) as Hrefl.
  { split; [apply steady_refl|done]. }
  destruct (numbered_handles _) as [[|h [|h' handles]]|]; try (by simplify_eq).
  destruct (_ || _); [by simplify_eq|].
  destruct (decide _); [by simplify_eq|].
  destruct (driver_args_ w !! _) as [node|] eqn:Hnode; [|by simplify_eq].
  set (w1 := with_driver_args (delete (handle_koid (handle h)) (driver_args_ w)) w) in *.
  assert (∀ v, same_runner w1 v →
            pool v = pool w
            ∧ ∀ k m, driver_args_ v !! k = Some m → driver_args_ w !! k = Some m) as Hrest.
  { intros v Hv. split; [by rewrite (same_runner_pool w1 v Hv)|].
    intros k m Hm. destruct Hv as (_ & _ & _ & Hargs). rewrite Hargs in Hm. simpl in Hm.
    by apply lookup_delete_Some in Hm as [_ ?]. }
  assert (∀ v, steady (λ x, x = node) w1 v →
            steady (λ x, ∃ k, driver_args_ w !! k = Some x) w v) as Hsteady.
  { intros v Hv. eapply steady_trans; [by apply (steady_same _ w w1)|].
    eapply steady_weaken; [|exact Hv]. intros x ->. by eexists. }
  destruct (decide _).
  - destruct (decide _).
    + simplify_eq. split; [by apply steady_same|]. by apply Hrest.
    + apply start_in_host_steady in H as [Hq Hs]. split; [by apply Hsteady|by apply Hrest].
  - apply bind_Done in H as ([result w2] & Hhost & H).
    apply StartDriverHost_same in Hhost as (Hheap & Hroot & Hsame).
    destruct result as [host|s].
    2:{ simplify_eq. split; [by apply steady_same|]. by apply Hrest. }
    apply bind_Done in H as (nd & Hnd & H). apply node_at_Done in Hnd.
    apply start_in_host_steady in H as [Hq Hs]. split.
    + apply Hsteady. eapply steady_trans; [by apply (steady_same _ w1 w2)|].
      eapply steady_trans; [|exact Hq].
      eapply steady_trans.
      { apply (steady_put_node _ node nd (set_driver_host host nd)); [done| |by right].
        split; [split|..]; done. }
      by apply steady_same.
    + apply Hrest. eapply same_runner_trans; [exact Hsame|].
      eapply same_runner_trans; [|exact Hs]. done.
Qed.

Lemma OnBind_same (n : ptr) (w w' : World) :
  OnBind n w = Done w' → heap w' = heap w ∧ root_node_ w' = root_node_ w ∧ same_runner w w'.
Proof.
  unfold OnBind. intros H. apply bind_Done in H as (nd & _ & H).
  destruct (controller_ref_ nd); by simplify_eq.
Qed.

Lemma pool_orphaned (n : ptr) (w : World) : pool (orphaned n w) ≡ₚ n :: pool w.
Proof.
  unfold pool, orphaned. simpl. rewrite <- !app_assoc. simpl.
  by rewrite <- !Permutation_middle.
Qed.
Lemma served_drop (ex : list ptr) (w : World) : served ex w → served [] w.
Proof.
  intros [Hbound Htokens Hdistinct Hbare]. split; simpl.
  - done.
  - intros k m Hm. destruct (Htokens k m Hm) as [Ha Hout]. split; [done|].
    intros Hin. apply Hout, elem_of_app. by right.
  - by apply NoDup_app in Hdistinct as (_ & _ & ?).
  - intros p Hp. apply Hbare, elem_of_app. by right.
Qed.

(** A call which leaves the nodes and the tokens alone, and moves nodes
    between [ex] and the pool. *)
Lemma served_same_heap (ex ex' : list ptr) (w w' : World) :
  heap w' = heap w → root_node_ w' = root_node_ w → driver_args_ w' = driver_args_ w →
  ex' ++ pool w' ≡ₚ ex ++ pool w → served ex w → served ex' w'.
Proof.
  intros Hheap Hroot Hargs Hpool Hw.
  apply (served_steady nobody_bound ex ex' w w'); try done.
  - by apply steady_same.
  - intros k m Hm. rewrite Hargs in Hm. destruct (served_tokens ex w Hw k m Hm) as [Ha Hout].
    split; [|done]. apply (anchored_grows w w'); [|done].
    apply (steady_grows_store nobody_bound). by apply steady_same.
Qed.

Lemma sound_same_heap (w w' : World) :
  heap w' = heap w → root_node_ w' = root_node_ w → sound w → sound w'.
Proof. intros Hheap Hroot. apply (sound_steady nobody_bound). by apply steady_same. Qed.

Lemma served_orphaned (n : ptr) (w : World) : served [n] w → served [] (orphaned n w).
Proof.
  apply served_same_heap; try done. simpl. apply pool_orphaned.
Qed.

Lemma StartDriver_kept (ex : list ptr) (node : ptr) (url : string) (env : TokenEnv)
    (w w' : World) (r : status ()) :
  sound w → served ex w → node ∉ pool w →
  StartDriver node url env w = Done (r, w') →
  sound w' ∧ ((is_error r = true ∧ w' = w) ∨ (is_error r = false ∧ served [] w')).
Proof.
  intros Hsound Hserved Hout H.
  apply StartDriver_steady in H as (Hq & Hpool & [[Hr ->]|(-> & Hargs & nd' & Hnd' & Hcoll)]).
  { split; [done|by left]. }
  split; [by eapply sound_steady|]. right. split; [done|].
  apply served_drop in Hserved.
  apply (served_steady nobody_bound [] [] w w'); try done.
  - simpl. by rewrite Hpool.
  - intros k m Hm. rewrite Hargs in Hm. apply emplace_lookup in Hm as [Hm| ->].
    + destruct (served_tokens [] w Hserved k m Hm) as [Ha Hnot]. split; [|done].
      apply (anchored_grows w w'); [|done]. by apply (steady_grows_store nobody_bound).
    + split; [|done]. exists node. by eapply nearest_here.
Qed.

Lemma start_matched_kept (node driver_node : ptr) (url : string) (env : TokenEnv)
    (w w' : World) :
  sound w → served [driver_node] w →
  start_matched node driver_node url env w = Done w' →
  sound w' ∧ served [] w'.
Proof.
  intros Hsound Hserved H. unfold start_matched in H.
  apply bind_Done in H as ([r w1] & Hstart & H).
  apply OnBind_same in H as (Hheap & Hroot & Hsame).
  assert (driver_node ∉ pool w) as Hout.
  { pose proof (served_distinct _ _ Hserved) as Hnd. simpl in Hnd.
    by apply NoDup_cons in Hnd as [? _]. }
  destruct (StartDriver_kept [driver_node] _ _ _ _ _ _ Hsound Hserved Hout Hstart)
    as [Hsound1 [[Hr ->]|[Hr Hserved1]]]; rewrite Hr in *; cbv iota in Hheap, Hroot, Hsame.
  - split.
    { apply (sound_same_heap (orphaned driver_node w)); [done|done|].
      by apply (sound_same_heap w). }
    apply (served_same_heap [] [] (orphaned driver_node w)); try done.
    + by destruct Hsame as (_ & _ & _ & ?).
    + simpl. by rewrite (same_runner_pool _ _ Hsame).
    + by apply served_orphaned.
  - split; [by apply (sound_same_heap w1)|].
    apply (served_same_heap [] [] w1); try done.
    + by destruct Hsame as (_ & _ & _ & ?).
    + simpl. by rewrite (same_runner_pool _ _ Hsame).
Qed.

Lemma Start_kept (request : StartRequest) (env : StartEnv) (w w' : World)
    (r : option zx_status_t) :
  sound w → served [] w → Start request env w = Done (r, w') → sound w' ∧ served [] w'.
Proof.
  intros Hsound Hserved H. apply Start_steady in H as (Hq & Hpool & Hargs).
  split; [by eapply sound_steady|].
  eapply (served_steady _ [] [] w w'); try done.
  - intros x [k Hk]. by apply (served_tokens [] w Hserved k).
  - simpl. by rewrite Hpool.
  - intros k m Hm. apply Hargs in Hm.
    destruct (served_tokens [] w Hserved k m Hm) as [Ha Hnot]. split; [|done].
    apply (anchored_grows w w'); [|done]. by eapply steady_grows_store.
Qed.

Lemma root_not_in_pool (ex : list ptr) (w : World) :
  sound w → served ex w → root_node_ w ∉ ex ++ pool w.
Proof.
  intros Hsound Hserved Hin.
  destruct (sound_root w Hsound) as (rd & Hrd & Hps).
  destruct (served_bare ex w Hserved _ Hin) as (pd & Hpd & _ & _ & Hne). congruence.
Qed.

Lemma StartRootDriver_kept (url : string) (env : TokenEnv) (w w' : World) (r : status ()) :
  sound w → served [] w → StartRootDriver url env w = Done (r, w') →
  sound w' ∧ served [] w'.
Proof.
  intros Hsound Hserved H. unfold StartRootDriver in H.
  destruct (StartDriver_kept [] _ _ _ _ _ _ Hsound Hserved
              (root_not_in_pool [] w Hsound Hserved) H)
    as [Hsound' [[_ ->]|[_ Hserved']]]; done.
Qed.
(** *** The calls which add a node *)

(** A store grows by one node [c] without children, which is appended to the
    children of each of its parents. *)
Lemma sound_grow (w w' : World) (c : ptr) (cd : Node) :
  sound w → root_node_ w' = root_node_ w →
  heap w !! c = None → heap w' !! c = Some cd → children_ cd = [] →
  parents_ cd ≠ [] → NoDup (parents_ cd) →
  (∀ p, p ∈ parents_ cd → anchored w p) →
  (∀ p pd, p ∈ parents_ cd → heap w !! p = Some pd → name_ cd ∉ child_names w pd) →
  OfferUnknown ∉ offers_ cd →
  (∀ x, x ≠ c →
     heap w' !! x = add_children (occurrences x (parents_ cd)) c <$> heap w !! x) →
  sound w' ∧ store_grows w w'.
Proof.
  intros [Hroot Htidy Hchain Hparents Hoffers] Hr Hfree Hc Hcs Hps Hdistinct Hanch Hnames
    Hknown Hrest.
  assert (∀ x xd, heap w !! x = Some xd → x ≠ c) as Hold.
  { intros x xd Hx ->. congruence. }
  assert (∀ x xd, heap w !! x = Some xd →
            heap w' !! x = Some (add_children (occurrences x (parents_ cd)) c xd)) as Hkept.
  { intros x xd Hx. rewrite Hrest by by eapply Hold. by rewrite Hx. }
  assert (∀ x xd', x ≠ c → heap w' !! x = Some xd' →
            ∃ xd, heap w !! x = Some xd
                  ∧ xd' = add_children (occurrences x (parents_ cd)) c xd) as Hback.
  { intros x xd' Hx Hxd'. rewrite Hrest in Hxd' by done.
    destruct (heap w !! x) as [xd|]; simpl in Hxd'; [|done].
    injection Hxd' as <-. by exists xd. }
  assert (store_grows w w') as Hg.
  { intros x xd Hx. eexists. split; [by apply Hkept|]. by split. }
  split; [|done]. split.
  - destruct Hroot as (rd & Hrd & Hrps). rewrite Hr. eexists. split; [by apply Hkept|done].
  - apply (grow_keeps_tidy w w' c cd (λ x, occurrences x (parents_ cd))); try done.
    intros x xd Hx. split; [by apply occurrences_NoDup|].
    intros Hk. apply (Hnames x); [|done]. by apply occurrences_elem.
  - intros n [nd' Hn]. destruct (decide (n = c)) as [->|Hnc].
    + assert (nd' = cd) as -> by congruence.
      destruct (parents_ cd) as [|p ps] eqn:Hpcd; [done|].
      destruct (Hchain p) as [l Hl]; [apply anchored_alive, Hanch; by left|].
      exists (c :: l). eapply chain_step; [exact Hn|exact Hpcd|].
      by apply (primary_chain_kept w w' p l (store_grows_keeps w w' Hg)).
    + destruct (Hback n nd' Hnc Hn) as (nd & Hnd & _).
      destruct (Hchain n) as [l Hl]; [by eexists|]. exists l.
      by apply (primary_chain_kept w w' n l (store_grows_keeps w w' Hg)).
  - intros n nd' p Hn Hp. apply (anchored_grows w w'); [done|].
    destruct (decide (n = c)) as [->|Hnc].
    + assert (nd' = cd) as -> by congruence. by apply Hanch.
    + destruct (Hback n nd' Hnc Hn) as (nd & Hnd & ->). by eapply Hparents.
  - intros n nd' Hn. destruct (decide (n = c)) as [->|Hnc].
    + by assert (nd' = cd) as -> by congruence.
    + destruct (Hback n nd' Hnc Hn) as (nd & Hnd & ->). simpl. by eapply Hoffers.
Qed.

Lemma served_grow (ex ex' : list ptr) (w w' : World) (c : ptr) (cd : Node) :
  served ex w → store_grows w w' →
  heap w !! c = None → heap w' !! c = Some cd → children_ cd = [] → parents_ cd ≠ [] →
  (∀ p, p ∈ parents_ cd → anchored w p) →
  (∀ x, x ≠ c →
     heap w' !! x = add_children (occurrences x (parents_ cd)) c <$> heap w !! x) →
  driver_args_ w' = driver_args_ w →
  NoDup (ex' ++ pool w') →
  (∀ p, p ∈ ex' ++ pool w' →
     (p = c ∧ node_ref_ cd = None) ∨ (p ∈ ex ++ pool w ∧ p ∉ parents_ cd)) →
  served ex' w'.
Proof.
  intros [Hbound Htokens Hdistinct Hbare] Hg Hfree Hc Hcs Hps Hanch Hrest Hargs Hnd Hpool.
  assert (∀ x xd', x ≠ c → heap w' !! x = Some xd' →
            ∃ xd, heap w !! x = Some xd
                  ∧ xd' = add_children (occurrences x (parents_ cd)) c xd) as Hback.
  { intros x xd' Hx Hxd'. rewrite Hrest in Hxd' by done.
    destruct (heap w !! x) as [xd|]; simpl in Hxd'; [|done].
    injection Hxd' as <-. by exists xd. }
  split.
  - intros n nd' Hn Href. destruct (decide (n = c)) as [->|Hnc].
    + assert (nd' = cd) as -> by congruence.
      apply (anchored_below w' c cd); [done|done|].
      intros p Hp. apply (anchored_grows w w'); [done|by apply Hanch].
    + destruct (Hback n nd' Hnc Hn) as (nd & Hndw & ->).
      apply (anchored_grows w w'); [done|]. by apply (Hbound n nd).
  - intros k m Hm. rewrite Hargs in Hm. destruct (Htokens k m Hm) as [Ha Hout].
    split; [by apply (anchored_grows w w')|].
    intros Hin. destruct (Hpool m Hin) as [[-> _]|[Hin' _]]; [|done].
    destruct (anchored_alive w c Ha) as [? ?]. congruence.
  - done.
  - intros p Hp. destruct (Hpool p Hp) as [[-> Href]|[Hin Hnot]].
    + by exists cd.
    + destruct (Hbare p Hin) as (pd & Hpd & Hpcs & Hpref & Hpps).
      exists pd. split; [|done].
      rewrite Hrest by (intros ->; congruence).
      rewrite Hpd. simpl. rewrite occurrences_absent by done. by rewrite add_children_0.
Qed.

Lemma check_offers_known (offers stored r : list Offer) :
  check_offers offers stored = inr r → OfferUnknown ∉ stored → OfferUnknown ∉ r.
Proof.
  revert stored. induction offers as [|o offers IH]; intros stored H Hs; simpl in H.
  - by simplify_eq.
  - destruct (negb _) eqn:Hname; [done|].
    destruct (value_or (VisitOffer o (λ decl, has (source decl) || has (target decl))) false);
      [done|].
    assert (o ≠ OfferUnknown) as Hknown by (by intros ->).
    apply IH in H; [done|]. intros Hin. apply elem_of_app in Hin as [Hin|Hin]; [done|].
    by apply list_elem_of_singleton in Hin as <-.
Qed.

(** What a successful [AddChild] returns. *)
Lemma AddChild_grown (this : ptr) (request : AddChildRequest) (w w' : World) :
  AddChild this request w = Done (ReplySuccess, w') →
  ∃ nd child,
    heap w !! this = Some nd
    ∧ name_among (name_ child) (children_ nd) w = Done false
    ∧ parents_ child = [this] ∧ children_ child = []
    ∧ node_ref_ child = request_node request
    ∧ (OfferUnknown ∉ offers_ child)
    ∧ w' = put_node this (push_child (fresh_node w) nd)
             (match request_node request with
              | Some _ => put_node (fresh_node w) child w
              | None =>
                  Bind (fresh_node w) (request_args request) (put_node (fresh_node w) child w)
              end).
Proof.
  unfold AddChild. intros H.
  apply bind_Done in H as (nd & Hnd & H). apply node_at_Done in Hnd.
  destruct (driver_binder_ nd) as [binder|]; [|by simplify_eq].
  destruct (args_name _) as [name|]; [|by simplify_eq].
  destruct (contains_char _ _); [by simplify_eq|].
  apply bind_Done in H as (found & Hfound & H).
  destruct found; [by simplify_eq|].
  apply bind_Done in H as (child & Hchild & H).
  destruct (new_Node_host name this [] (Some binder) w nd Hnd)
    as (child' & Hnew & _ & Hname & Hparents & Hch).
  assert (node_ref_ child' = None) as Hnoref.
  { unfold new_Node in Hnew. simpl in Hnew.
    rewrite (proj2 (node_at_Done _ _ _) Hnd) in Hnew. simpl in Hnew.
    by injection Hnew as <-. }
  rewrite Hnew in Hchild. simplify_eq.
  destruct (check_offers _ _) as [|offers] eqn:Hoffers; [by simplify_eq|].
  destruct (check_symbols _ _ _) as [|syms]; [by simplify_eq|].
  apply bind_Done in H as (w1 & Hattach & H). simplify_eq.
  rewrite (attach_child_Done this request _ nd w Hnd) in Hattach by done.
  apply check_offers_known in Hoffers; [|by intros ?%elem_of_nil].
  exists nd. simplify_eq.
  destruct (request_node request) as [node|]; eexists; (split; [done|]);
    refine (conj _ (conj _ (conj _ (conj _ (conj _ eq_refl))))); done.
Qed.

Lemma pool_Bind (n : ptr) (args : NodeAddArgs) (w : World) :
  pool (Bind n args w) ≡ₚ n :: pool w.
Proof.
  unfold pool, Bind. simpl. rewrite fmap_app. simpl. rewrite <- !app_assoc. simpl.
  by rewrite <- !Permutation_middle.
Qed.

Lemma AddChild_kept (this : ptr) (nd : Node) (request : AddChildRequest) (w w' : World)
    (reply : Reply) :
  sound w → served [] w → heap w !! this = Some nd → is_Some (node_ref_ nd) →
  AddChild this request w = Done (reply, w') → sound w' ∧ served [] w'.
Proof.
  intros Hsound Hserved Hthis Href H. destruct reply as [|e].
  2:{ by apply AddChild_error_keeps_world in H as ->. }
  apply AddChild_grown in H
    as (nd' & child & Hnd & Hname & Hps & Hcs & Hcref & Hknown & Hw').
  assert (nd' = nd) as -> by congruence.
  set (c := fresh_node w) in *.
  assert (heap w !! c = None) as Hfree by apply fresh_node_free.
  assert (this ≠ c) as Hne by (intros ->; congruence).
  assert (anchored w this) as Hanch by (by apply (served_bound [] w Hserved this nd)).
  assert (this ∉ pool w) as Hout.
  { intros Hin. destruct (served_bare [] w Hserved this Hin) as (pd & Hpd & _ & Hnone & _).
    assert (pd = nd) as -> by congruence. rewrite Hnone in Href. by destruct Href. }
  assert (c ∉ pool w) as Hcout.
  { intros Hin. destruct (served_bare [] w Hserved c Hin) as (pd & Hpd & _). congruence. }
  assert (heap w' = <[this := push_child c nd]> (<[c := child]> (heap w))
          ∧ root_node_ w' = root_node_ w ∧ driver_args_ w' = driver_args_ w
          ∧ pool w' ≡ₚ match request_node request with
                       | Some _ => pool w
                       | None => c :: pool w
                       end) as (Hheap & Hroot & Hargs & Hpool).
  { rewrite Hw'. destruct (request_node request); (split; [done|]); (split; [done|]);
      (split; [done|]); [done|].
    etransitivity; [|apply (pool_Bind c (request_args request) w)]. done. }
  assert (heap w' !! c = Some child) as Hc.
  { rewrite Hheap, lookup_insert_ne by done. apply lookup_insert_eq. }
  assert (∀ x, x ≠ c →
            heap w' !! x = add_children (occurrences x (parents_ child)) c <$> heap w !! x)
    as Hrest.
  { intros x Hx. rewrite Hheap, Hps. destruct (decide (x = this)) as [->|Hxt].
    - rewrite lookup_insert_eq, Hthis. simpl. f_equal.
      unfold occurrences. by rewrite filter_cons, decide_True.
    - rewrite !lookup_insert_ne by done.
      rewrite occurrences_absent; [|by intros ?%list_elem_of_singleton].
      destruct (heap w !! x); simpl; [|done]. by rewrite add_children_0. }
  destruct (sound_grow w w' c child) as [Hsound' Hg]; try done.
  - by rewrite Hps.
  - rewrite Hps. apply NoDup_singleton.
  - rewrite Hps. by intros p ->%list_elem_of_singleton.
  - rewrite Hps. intros p pd ->%list_elem_of_singleton Hpd Hin.
    assert (pd = nd) as -> by congruence.
    apply list_elem_of_omap in Hin as (y & Hy & Hyname).
    destruct (heap w !! y) as [yd|] eqn:Hyd; simpl in Hyname; [|done].
    eapply name_among_false; [exact Hname|exact Hy|exact Hyd|]. congruence.
  - split; [done|].
    apply (served_grow [] [] w w' c child); try done.
    + by rewrite Hps.
    + rewrite Hps. by intros p ->%list_elem_of_singleton.
    + simpl. rewrite Hpool. destruct (request_node request).
      * apply (served_distinct [] w Hserved).
      * apply NoDup_cons. split; [done|apply (served_distinct [] w Hserved)].
    + simpl. intros p Hp. rewrite Hpool in Hp. rewrite Hps.
      destruct (request_node request) as [node|].
      * right. split; [done|]. intros ->%list_elem_of_singleton. done.
      * apply elem_of_cons in Hp as [->|Hp]; [by left|].
        right. split; [done|]. intros ->%list_elem_of_singleton. done.
Qed.
(** *** The pending sets *)

Lemma living_replicate (k : nat) : living (replicate k None) = [].
Proof. induction k as [|k IH]; [done|]. simpl. exact IH. Qed.

Lemma living_insert (nodes : CompositeArgs) (i : nat) (n : ptr) :
  nodes !! i = Some None → living (<[i := Some n]> nodes) ≡ₚ n :: living nodes.
Proof.
  revert i. induction nodes as [|weak nodes IH]; intros [|i] Hi; simpl in Hi; try done.
  - by simplify_eq.
  - unfold living in *. simpl. destruct weak as [p|]; simpl; [|by apply IH].
    rewrite (IH i Hi). apply Permutation_swap.
Qed.

Lemma living_Some (slots : CompositeArgs) (parents : list ptr) :
  Forall2 (λ weak p, weak = Some p) slots parents → living slots = parents.
Proof.
  induction 1 as [|weak p slots parents -> _ IH]; [done|].
  change (living (Some p :: slots)) with (p :: living slots). by rewrite IH.
Qed.

Lemma elem_of_living (nodes : CompositeArgs) (p : ptr) :
  p ∈ living nodes ↔ Some p ∈ nodes.
Proof.
  unfold living. rewrite list_elem_of_omap. split.
  - by intros (weak & Hin & ->).
  - intros Hin. by exists (Some p).
Qed.

Lemma slots_lookup (args : list (string * CompositeArgs)) (it : nat) (url : string)
    (nodes : CompositeArgs) :
  args !! it = Some (url, nodes) →
  args.*2 ≫= living ≡ₚ living nodes ++ ((delete it args).*2 ≫= living).
Proof.
  revert it. induction args as [|[key set] args IH]; intros [|it] Hit; simpl in Hit;
    try done.
  - by simplify_eq.
  - csimpl. rewrite (IH it Hit). rewrite !app_assoc. f_equiv. apply Permutation_app_comm.
Qed.

Lemma slots_insert (args : list (string * CompositeArgs)) (it : nat) (url : string)
    (nodes : CompositeArgs) (i : nat) (n : ptr) :
  args !! it = Some (url, nodes) → nodes !! i = Some None →
  (<[it := (url, <[i := Some n]> nodes)]> args).*2 ≫= living
  ≡ₚ n :: (args.*2 ≫= living).
Proof.
  intros Hit Hi.
  rewrite (slots_lookup (<[it := _]> args) it url (<[i := Some n]> nodes)).
  2:{ apply list_lookup_insert_eq. by eapply lookup_lt_Some. }
  rewrite delete_insert_same, (living_insert nodes i n Hi).
  by rewrite (slots_lookup args it url nodes Hit).
Qed.

Lemma new_Node_fields (name : string) (ps : list ptr) (binder : option DriverBinder)
    (w : World) (nd : Node) :
  new_Node name ps binder w = Done nd →
  name_ nd = name ∧ parents_ nd = ps ∧ children_ nd = [] ∧ node_ref_ nd = None
  ∧ offers_ nd = [].
Proof.
  unfold new_Node. intros H. destruct (PrimaryParent ps).
  - apply bind_Done in H as (pd & _ & H). by simplify_eq.
  - by simplify_eq.
Qed.

(** The ways in which [CreateCompositeNode] returns. *)
Lemma CreateCompositeNode_cases (node : ptr) (matched : MatchedCompositeInfo)
    (w w' : World) (r : status ptr) :
  CreateCompositeNode node matched w = Done (r, w') →
  (is_error r = true ∧ w' = orphaned node w)
  ∨ ∃ index it url nodes args,
      args !! it = Some (url, nodes)
      ∧ (N.to_nat index < length nodes)%nat
      ∧ expired (slot_at index nodes) w = true
      ∧ args.*2 ≫= living = pending_nodes w
      ∧ ((is_error r = true
          ∧ w' = with_composite_args
                   (<[it := (url, <[N.to_nat index := Some node]> nodes)]> args) w)
         ∨ ∃ parents composite,
             Forall2 (λ weak p, lock weak w = Some p)
               (<[N.to_nat index := Some node]> nodes) parents
             ∧ r = ok (fresh_node w)
             ∧ with_heap (heap w) w' = with_composite_args (delete it args) w
             ∧ heap w' !! fresh_node w = Some composite
             ∧ name_ composite = "composite" ∧ parents_ composite = parents
             ∧ children_ composite = [] ∧ node_ref_ composite = None
             ∧ offers_ composite = []
             ∧ ∀ x, x ≠ fresh_node w →
                    heap w' !! x
                    = add_children (occurrences x parents) (fresh_node w) <$> heap w !! x).
Proof.
  intros H. unfold CreateCompositeNode in H.
  apply bind_Done in H as (nd & Hnd & H). apply node_at_Done in Hnd.
  destruct (AddToCompositeArgs (name_ nd) matched w) as [[it|s] w1] eqn:Hadd.
  2:{ left. apply AddToCompositeArgs_error in Hadd as [_ ->]. by simplify_eq. }
  right.
  destruct (AddToCompositeArgs_ok_free _ _ _ _ _ Hadd)
    as (index & num & url & nodes & Hindex & Hnum & Hurl & Hit & Hlen & Hlt & Hfree & _ & Hw1).
  assert (@lookup nat (string * CompositeArgs) _ _ it (composite_args_ w1)
          = Some (url, nodes)) as Hit' by exact Hit.
  rewrite Hit', Hindex in H.
  destruct (lock_all _ _) as [parents|] eqn:Hlock.
  all: exists index, it, url, nodes, (composite_args_ w1).
  all: assert (w1 = with_composite_args (composite_args_ w1) w) as Hw1'
         by (destruct Hw1 as [->|(_ & _ & ->)]; [by destruct w|done]).
  all: split; [done|]; split; [lia|]; split; [done|]; split;
         [destruct Hw1 as [->|(_ & -> & ->)]; [done|]; simpl;
          rewrite fmap_app, bind_app; simpl; rewrite living_replicate; simpl;
          by rewrite !app_nil_r|].
  2:{ left. injection H as <- <-. split; [done|].
      by destruct Hw1 as [->|(_ & _ & ->)]. }
  right. apply mapM_Some in Hlock.
  assert (heap w1 = heap w) as Hheap1 by (by rewrite Hw1').
  assert (Forall2 (λ weak p, lock weak w = Some p)
            (<[N.to_nat index := Some node]> nodes) parents) as Hlocked.
  { eapply Forall2_impl; [exact Hlock|]. intros weak p Hw. simpl in Hw.
    rewrite <- Hw. symmetry. by apply lock_ext. }
  assert (∀ p, p ∈ parents → is_Some (heap w !! p)) as Halive.
  { intros p Hp. apply list_elem_of_lookup in Hp as [i Hi].
    destruct (Forall2_lookup_r _ _ _ _ _ Hlocked Hi) as (weak & _ & Hweak).
    by apply lock_Some in Hweak as [_ ?]. }
  apply bind_Done in H as (composite & Hnew & H).
  apply bind_Done in H as (w4 & Hadd4 & H). injection H as <- <-.
  apply new_Node_fields in Hnew as (Hname & Hparents & Hcs & Href & Hoffers).
  match type of Hadd4 with
  | AddToParents (fresh_node ?v) _ = _ => set (w3 := v) in *
  end.
  assert (heap w3 = heap w) as Hheap3 by exact Hheap1.
  assert (fresh_node w3 = fresh_node w) as Hfresh.
  { unfold fresh_node. by rewrite Hheap3. }
  rewrite Hfresh in Hadd4.
  unfold AddToParents in Hadd4.
  apply bind_Done in Hadd4 as (cd & Hcd & Hadd4). apply node_at_Done in Hcd.
  unfold put_node in Hcd. simpl in Hcd. rewrite lookup_insert_eq in Hcd.
  injection Hcd as <-. rewrite Hparents in Hadd4.
  assert (fresh_node w ∉ parents) as Hnotin.
  { intros Hin. destruct (Halive _ Hin) as [x Hx]. by rewrite fresh_node_free in Hx. }
  destruct (add_to_parents_lookup (fresh_node w) parents
              (put_node (fresh_node w) composite w3)) as (h & Hrun & Hh).
  { intros p Hp. unfold put_node. simpl. rewrite Hheap1.
    rewrite lookup_insert_ne by (intros Heq; apply Hnotin; by rewrite Heq).
    by apply Halive. }
  rewrite Hrun in Hadd4. injection Hadd4 as <-.
  assert (heap (put_node (fresh_node w) composite w3)
          = <[fresh_node w := composite]> (heap w)) as Hput
    by (unfold put_node; simpl; by rewrite Hheap1).
  exists parents, composite. split; [done|]. split; [f_equal; exact Hfresh|]. split.
  { subst w3. simpl. rewrite delete_insert_same. clear Hit Hit' Hadd Hw1' Hrun.
    by destruct Hw1 as [->|(_ & _ & ->)]. }
  split.
  { simpl. rewrite Hh, Hput, lookup_insert_eq. simpl. f_equal.
    rewrite occurrences_absent by done. apply add_children_0. }
  split_and!; try done.
  intros x Hx. simpl. rewrite Hh, Hput. by rewrite lookup_insert_ne.
Qed.

Lemma bare_anchored (w : World) (p : ptr) : sound w → bare w p → anchored w p.
Proof.
  intros Hsound (pd & Hpd & _ & _ & Hps).
  apply (anchored_below w p pd); [done|done|].
  intros q Hq. by apply (sound_parents w Hsound p pd).
Qed.

(** A slot which is free holds nothing, when the nodes of the pending sets
    are alive. *)
Lemma free_slot_empty (ex : list ptr) (w : World) (args : list (string * CompositeArgs))
    (it : nat) (url : string) (nodes : CompositeArgs) (index : N) :
  served ex w → args.*2 ≫= living = pending_nodes w →
  args !! it = Some (url, nodes) → (N.to_nat index < length nodes)%nat →
  expired (slot_at index nodes) w = true →
  nodes !! N.to_nat index = Some None.
Proof.
  intros Hserved Hargs Hit Hlt Hfree.
  destruct (lookup_lt_is_Some_2 nodes (N.to_nat index) Hlt) as [weak Hweak].
  transitivity (Some weak); [exact Hweak|]. f_equal. destruct weak as [p|]; [|done]. exfalso.
  assert (p ∈ pool w) as Hin.
  { unfold pool. rewrite !elem_of_app. right. right. rewrite <- Hargs.
    apply list_elem_of_bind. exists nodes. split.
    - apply elem_of_living. by eapply list_elem_of_lookup_2.
    - apply list_elem_of_fmap. exists (url, nodes). split; [done|].
      by eapply list_elem_of_lookup_2. }
  destruct (served_bare ex w Hserved p) as (pd & Hpd & _).
  { apply elem_of_app. by right. }
  unfold expired, slot_at, lock in Hfree. unfold CompositeArgs in *.
  rewrite Hweak in Hfree. simpl in Hfree. by rewrite Hpd in Hfree.
Qed.

(** [CreateCompositeNode], for a node which has been taken out of the pool:
    the node goes back to the pool, or the composite node is new and its
    parents have left the pool. *)
Lemma CreateCompositeNode_kept (node : ptr) (matched : MatchedCompositeInfo)
    (w w' : World) (r : status ptr) :
  sound w → served [node] w →
  CreateCompositeNode node matched w = Done (r, w') →
  sound w' ∧ match r with
             | ok c => served [c] w'
             | error _ => served [] w'
             end.
Proof.
  intros Hsound Hserved H.
  apply CreateCompositeNode_cases in H
    as [[Hr ->]|(index & it & url & nodes & args & Hit & Hlt & Hfree & Hargs & H)].
  { destruct r as [c|s]; [done|]. split; [by apply (sound_same_heap w)|].
    by apply served_orphaned. }
  pose proof (free_slot_empty [node] w args it url nodes index Hserved Hargs Hit Hlt Hfree)
    as Hempty.
  pose proof (slots_insert args it url nodes (N.to_nat index) node Hit Hempty) as Hslots.
  rewrite Hargs in Hslots.
  destruct H as [[Hr ->]|H].
  { destruct r as [c|s]; [done|]. split; [by apply (sound_same_heap w)|].
    apply (served_same_heap [node] [] w); try done.
    simpl. unfold pool at 1. simpl. unfold pending_nodes at 1. simpl.
    rewrite Hslots. unfold pool. by rewrite <- !Permutation_middle. }
  destruct H as (parents & composite & Hlocked & -> & Hw' & Hc & Hname & Hparents & Hcs
                 & Href & Hoffers & Hrest).
  set (c := fresh_node w) in *.
  assert (Forall2 (λ weak p, weak = Some p) (<[N.to_nat index := Some node]> nodes) parents)
    as Hsome.
  { eapply Forall2_impl; [exact Hlocked|]. intros weak p Hw. by apply lock_Some in Hw as [? _]. }
  apply living_Some in Hsome.
  assert (match_requests_ w' = match_requests_ w ∧ orphaned_nodes_ w' = orphaned_nodes_ w
          ∧ composite_args_ w' = delete it args ∧ driver_args_ w' = driver_args_ w
          ∧ root_node_ w' = root_node_ w) as (Hreq & Horph & Hcomp & Hargs' & Hroot).
  { repeat split.
    - apply (f_equal match_requests_) in Hw'. by simpl in Hw'.
    - apply (f_equal orphaned_nodes_) in Hw'. by simpl in Hw'.
    - apply (f_equal composite_args_) in Hw'. by simpl in Hw'.
    - apply (f_equal driver_args_) in Hw'. by simpl in Hw'.
    - apply (f_equal root_node_) in Hw'. by simpl in Hw'. }
  assert (parents ++ pool w' ≡ₚ [node] ++ pool w) as Hpool.
  { unfold pool. rewrite Hreq, Horph. rewrite <- Hargs.
    rewrite (slots_lookup args it url nodes Hit).
    unfold pending_nodes. rewrite Hcomp. rewrite <- Hsome.
    rewrite (living_insert nodes (N.to_nat index) node Hempty). simpl. f_equiv.
    rewrite (Permutation_app_comm (living nodes)). rewrite <- !app_assoc.
    do 2 f_equiv. apply Permutation_app_comm. }
  pose proof (served_distinct _ _ Hserved) as Hdistinct. rewrite <- Hpool in Hdistinct.
  apply NoDup_app in Hdistinct as (Hnd_parents & Hdisjoint & Hnd_pool).
  assert (∀ p, p ∈ parents → bare w p) as Hbare.
  { intros p Hp. apply (served_bare _ _ Hserved). rewrite <- Hpool.
    apply elem_of_app. by left. }
  assert (heap w !! c = None) as Hfree_c by apply fresh_node_free.
  assert (parents ≠ []) as Hne.
  { intros ->. pose proof (living_insert nodes (N.to_nat index) node Hempty) as Hperm.
    apply Permutation_length in Hperm. apply (f_equal length) in Hsome.
    discriminate (eq_trans (eq_sym Hperm) Hsome). }
  destruct (sound_grow w w' c composite) as [Hsound' Hg]; try done.
  - by rewrite Hparents.
  - by rewrite Hparents.
  - rewrite Hparents. intros p Hp. by apply bare_anchored, Hbare.
  - rewrite Hparents. intros p pd Hp Hpd Hin.
    destruct (Hbare p Hp) as (pd' & Hpd' & Hpcs & _).
    assert (pd' = pd) as -> by congruence.
    unfold child_names in Hin. rewrite Hpcs in Hin. by apply elem_of_nil in Hin.
  - rewrite Hoffers. by intros ?%elem_of_nil.
  - by rewrite Hparents.
  - split; [done|].
    apply (served_grow [node] [c] w w' c composite); try done.
    + by rewrite Hparents.
    + rewrite Hparents. intros p Hp. by apply bare_anchored, Hbare.
    + by rewrite Hparents.
    + simpl. apply NoDup_cons. split; [|done].
      intros Hin. destruct (served_bare _ _ Hserved c) as (cd & Hcd & _); [|congruence].
      rewrite <- Hpool. apply elem_of_app. by right.
    + simpl. intros p Hp. apply elem_of_cons in Hp as [->|Hp]; [by left|].
      right. rewrite Hparents. split.
      * change (p ∈ [node] ++ pool w). rewrite <- Hpool. apply elem_of_app. by right.
      * intros Hin. by apply (Hdisjoint p).
Qed.
(** *** The callbacks *)

Lemma match_callback_kept (node : ptr) (result : MatchResult) (env : TokenEnv)
    (w w' : World) :
  sound w → served [node] w → match_callback node result env w = Done w' →
  sound w' ∧ served [] w'.
Proof.
  intros Hsound Hserved H. unfold match_callback in H.
  destruct (lock (Some node) w) as [n|] eqn:Hlock.
  2:{ simplify_eq. split; [done|by eapply served_drop]. }
  apply lock_Some in Hlock as [[= <-] _].
  assert (sound (orphaned node w) ∧ served [] (orphaned node w)) as Horphaned.
  { split; [by apply (sound_same_heap w)|by apply served_orphaned]. }
  destruct result as [|s|[info|c|]]; try (by simplify_eq).
  - destruct (info_url info); [|by simplify_eq]. by eapply start_matched_kept.
  - destruct (composite_driver_info c) as [info|]; [|by simplify_eq].
    destruct (info_url info); [|by simplify_eq].
    apply bind_Done in H as ([r w1] & Hc & H).
    destruct (CreateCompositeNode_kept _ _ _ _ _ Hsound Hserved Hc) as [Hsound1 Hserved1].
    destruct r as [driver_node|e]; [|by simplify_eq].
    by eapply start_matched_kept.
Qed.

Lemma CreateAddArgs_steady (n : ptr) (w w' : World) (args : NodeAddArgs) :
  CreateAddArgs n w = Done (args, w') → but_sources w w'.
Proof.
  unfold CreateAddArgs. intros H.
  apply bind_Done in H as (nd & _ & H).
  apply bind_Done in H as ([offers w1] & Hoffers & H). simplify_eq.
  by apply CreateOffers_Done in Hoffers as (_ & _ & _ & Hbut).
Qed.

(** *** The calls return *)

Lemma nearest_source_collection (w : World) (p s : ptr) :
  nearest_source w p s → ∃ sd, heap w !! s = Some sd ∧ collection_ sd ≠ kNone.
Proof. induction 1 as [s sd Hs Hc|]; [by exists sd|done]. Qed.

(** With fuel for the whole chain of primary parents, the search returns the
    nearest node with a collection. *)
Lemma find_source_Done (w : World) (p s : ptr) (l : list ptr) (fuel : nat) :
  nearest_source w p s → primary_chain w p l → (length l ≤ fuel)%nat →
  find_source fuel (Some p) w = Done s.
Proof.
  intros Hs. revert l fuel.
  induction Hs as [s sd Hs Hc|p pd q s Hp Hc Hq _ IH]; intros l fuel Hl Hfuel.
  - destruct (primary_chain_head _ _ _ Hl) as [l' ->].
    destruct fuel as [|fuel]; [simpl in Hfuel; lia|]. simpl.
    rewrite (proj2 (node_at_Done _ _ _) Hs). simpl. by rewrite decide_False.
  - inversion Hl as [? pd' Hp' Hps|? pd' q' ps l' Hp' Hps Hl']; subst;
      assert (pd' = pd) as -> by congruence.
    { by rewrite Hps in Hq. }
    rewrite Hps in Hq. injection Hq as ->.
    destruct fuel as [|fuel]; [simpl in Hfuel; lia|]. simpl.
    rewrite (proj2 (node_at_Done _ _ _) Hp). simpl. rewrite decide_True by done.
    rewrite Hps. simpl. apply (IH l'); [done|]. simpl in Hfuel. lia.
Qed.

Lemma sound_TopoName (w : World) (n : ptr) :
  sound w → is_Some (heap w !! n) → ∃ name, TopoName n w = Done name.
Proof.
  intros Hsound Hn. destruct (sound_chain w Hsound n Hn) as [l Hl].
  eexists. apply TopoName_iff_chain. by exists l.
Qed.

Lemma sound_set_offers (w : World) (o : ptr) (od : Node) (os : list Offer) :
  sound w → heap w !! o = Some od →
  without_source <$> os = without_source <$> offers_ od →
  sound (put_node o (set_offers os od) w).
Proof.
  intros Hsound Ho Hos. apply (sound_steady nobody_bound w); [|done].
  by apply but_sources_steady, but_sources_set_offers.
Qed.

Lemma create_offers_loop_returns (n : ptr) (ps : list ptr) (acc : list Offer) (w : World)
    (nd : Node) :
  sound w → heap w !! n = Some nd → ps ⊆ parents_ nd →
  ∃ r, create_offers_loop n ps (acc, w) = Done r.
Proof.
  revert acc w nd. induction ps as [|p ps IH]; intros acc w nd Hsound Hn Hps.
  { by eexists. }
  assert (p ∈ parents_ nd) as Hp by (apply Hps; by left).
  destruct (sound_parents w Hsound n nd p Hn Hp) as [s Hs].
  destruct (sound_chain w Hsound p) as [l Hl]; [apply anchored_alive; by exists s|].
  destruct (nearest_source_collection w p s Hs) as (sd & Hsd & _).
  destruct (sound_TopoName w s Hsound) as [name Hname]; [by eexists|].
  assert (∃ od, heap w !! (if decide (length (parents_ nd) = 1%nat) then n else p) = Some od)
    as [od Hod].
  { destruct (decide _); [by exists nd|]. apply anchored_alive. by exists s. }
  cbn [create_offers_loop]. unfold create_offers_of.
  rewrite (find_source_Done w p s l (walk_fuel w) Hs Hl).
  2:{ unfold walk_fuel. pose proof (primary_chain_length _ _ _ Hl). lia. }
  cbn [mbind Outcome_bind]. rewrite (proj2 (node_at_Done _ _ _) Hn).
  cbn [mbind Outcome_bind]. rewrite (proj2 (node_at_Done _ _ _) Hod).
  cbn [mbind Outcome_bind]. rewrite (assign_sources_Done s sd name w _ Hsd Hname).
  cbn [mbind Outcome_bind].
  set (os := (λ o, VisitOffer_mut o _) <$> offers_ od).
  assert (without_source <$> os = without_source <$> offers_ od) as Hos.
  { unfold os. rewrite <- list_fmap_compose. apply list_fmap_ext.
    intros i o _. by destruct o. }
  set (owner := if decide (length (parents_ nd) = 1%nat) then n else p) in *.
  assert (∃ nd', heap (put_node owner (set_offers os od) w) !! n = Some nd'
                 ∧ parents_ nd' = parents_ nd) as (nd' & Hn' & Hps').
  { unfold put_node. simpl. destruct (decide (owner = n)) as [Heq|Hne].
    - rewrite Heq, lookup_insert_eq. eexists. split; [done|]. simpl. congruence.
    - rewrite lookup_insert_ne by done. by exists nd. }
  apply (IH _ _ nd'); [by apply sound_set_offers|done|].
  rewrite Hps'. intros q Hq. apply Hps. by right.
Qed.

Lemma CreateOffers_returns (n : ptr) (w : World) :
  sound w → is_Some (heap w !! n) → ∃ offers w', CreateOffers n w = Done (offers, w').
Proof.
  intros Hsound [nd Hn]. unfold CreateOffers.
  rewrite (proj2 (node_at_Done _ _ _) Hn). cbn [mbind Outcome_bind].
  destruct (create_offers_loop_returns n (parents_ nd) [] w nd Hsound Hn) as [[offers w'] Hr];
    [done|].
  by exists offers, w'.
Qed.










(** One round of the loop of the callback of [ScheduleBaseDriversBinding]. *)
Lemma bind_orphan_step (n : ptr) (orphans : list ptr) (w : World) :
  sound w → served (n :: orphans) w →
  ∃ args w1, lock (Some n) w = Some n ∧ CreateAddArgs n w = Done (args, w1)
             ∧ sound (Bind n args w1) ∧ served orphans (Bind n args w1).
Proof.
  intros Hsound Hserved.
  destruct (served_bare _ _ Hserved n) as (nd & Hnd & _); [by left|].
  assert (∃ args w1, CreateAddArgs n w = Done (args, w1)) as (args & w1 & Hargs).
  { unfold CreateAddArgs. rewrite (proj2 (node_at_Done _ _ _) Hnd). cbn [mbind Outcome_bind].
    destruct (CreateOffers_returns n w Hsound) as (offers & w1 & ->); [by eexists|].
    by eexists _, _. }
  exists args, w1. split; [by apply lock_Some|]. split; [done|].
  apply CreateAddArgs_steady in Hargs.
  pose proof (but_sources_steady nobody_bound w w1 Hargs) as Hq.
  destruct Hargs as [Hw _]. pose proof (same_runner_with_heap _ _ Hw) as Hsame.
  split.
  - apply (sound_same_heap w1); [done|done|]. by eapply sound_steady.
  - apply (served_steady nobody_bound (n :: orphans) orphans w (Bind n args w1)); try done.
    + rewrite (pool_Bind n args w1), (same_runner_pool _ _ Hsame).
      simpl. by rewrite <- Permutation_middle.
    + intros k m Hm. simpl in Hm. destruct Hsame as (_ & _ & _ & Hda). rewrite Hda in Hm.
      destruct (served_tokens _ _ Hserved k m Hm) as [Ha Hout]. split; [|done].
      apply (anchored_grows w); [|done].
      apply (steady_grows_store nobody_bound). exact Hq.
Qed.

Lemma bind_orphans_runs (orphans : list ptr) (w : World) :
  sound w → served orphans w →
  ∃ w', bind_orphans orphans w = Done w' ∧ sound w' ∧ served [] w'.
Proof.
  revert w. induction orphans as [|n orphans IH]; intros w Hsound Hserved.
  { by exists w. }
  destruct (bind_orphan_step n orphans w Hsound Hserved)
    as (args & w1 & Hlock & Hargs & Hsound1 & Hserved1).
  destruct (IH _ Hsound1 Hserved1) as (w' & Hrun & Hw').
  exists w'. split; [|done]. simpl. unfold lock in Hlock.
  destruct (heap w !! n); [|done]. rewrite Hargs. exact Hrun.
Qed.

Lemma base_drivers_callback_runs (result_ok : bool) (w : World) :
  sound w → served [] w →
  ∃ w', base_drivers_callback result_ok w = Done w' ∧ sound w' ∧ served [] w'.
Proof.
  intros Hsound Hserved. unfold base_drivers_callback.
  destruct result_ok; [|by exists w].
  apply bind_orphans_runs; [by apply (sound_same_heap w)|].
  apply (served_same_heap [] (orphaned_nodes_ w) w); try done.
  unfold pool. simpl. rewrite !app_assoc. f_equiv; [apply Permutation_app_comm|done].
Qed.
Lemma new_DriverRunner_sound : sound new_DriverRunner ∧ served [] new_DriverRunner.
Proof.
  split; split; simpl.
  - eexists. split; [apply lookup_insert_eq|done].
  - apply new_DriverRunner_tidy.
  - intros n [nd Hn]. apply lookup_singleton_Some in Hn as [<- <-].
    exists [root_address]. eapply chain_root; [apply lookup_insert_eq|done].
  - intros n nd p Hn Hp. apply lookup_singleton_Some in Hn as [_ <-].
    by apply elem_of_nil in Hp.
  - intros n nd Hn. apply lookup_singleton_Some in Hn as [_ <-]. by intros ?%elem_of_nil.
  - intros n nd Hn Href. apply lookup_singleton_Some in Hn as [_ <-]. by destruct Href.
  - intros k m Hm. by rewrite lookup_empty in Hm.
  - apply NoDup_nil_2.
  - intros p Hp. by apply elem_of_nil in Hp.
Qed.

Lemma program_step_kept (w w' : World) :
  program_step w w' → sound w ∧ served [] w → sound w' ∧ served [] w'.
Proof.
  intros [url env w0 r w0' H|request env w0 r w0' H|this nd request w0 reply w0' Hthis Href H
         |node args before after result env w0 w0' Hreq H|result_ok w0 w0' H]
    [Hsound Hserved].
  - by eapply StartRootDriver_kept.
  - by eapply Start_kept.
  - by eapply AddChild_kept.
  - apply (match_callback_kept node result env (with_match_requests (before ++ after) w0));
      [by apply (sound_same_heap w0)| |exact H].
    apply (served_same_heap [] [node] w0); try done.
    unfold pool. simpl. rewrite Hreq, !fmap_app. simpl.
    rewrite <- !app_assoc. simpl. by rewrite <- Permutation_middle.
  - destruct (base_drivers_callback_runs result_ok w0 Hsound Hserved) as (w1 & Hrun & Hw1).
    rewrite Hrun in H. by simplify_eq.
Qed.

Lemma program_run_kept (w : World) :
  rtc program_step new_DriverRunner w → sound w ∧ served [] w.
Proof.
  revert w. apply (rtc_ind_r (λ w, sound w ∧ served [] w)).
  - apply new_DriverRunner_sound.
  - intros w w' _ Hstep Hw. by eapply program_step_kept.
Qed.
(** *** A run of the program *)

(** What [Remove] reads of a node. *)
Definition shape (nd : Node) : list ptr * list ptr * option cptr :=
  (children_ nd, parents_ nd, driver_component_ nd).

Definition token_eight : TokenEnv := mkTokenEnv ZX_OK ZX_OK 8%N.

(** The root driver is started and adds the children "a" and "b"; the driver
    index matches both to the composite driver "X", and the composite node is
    made.  Its driver has been requested from the realm and has not started
    yet. *)
Lemma program_composite :
  ∃ w, rtc program_step new_DriverRunner w
       ∧ root_node_ w = 1%positive
       ∧ shape <$> heap w !! 1%positive = Some ([2; 3]%positive, [], Some 50%positive)
       ∧ shape <$> heap w !! 2%positive = Some ([4%positive], [1%positive], None)
       ∧ shape <$> heap w !! 3%positive = Some ([4%positive], [1%positive], None)
       ∧ shape <$> heap w !! 4%positive = Some ([], [2; 3]%positive, None)
       ∧ node_ <$> drivers_ w !! 50%positive = Some 1%positive.
Proof.
  eexists. split.
  - eapply rtc_l.
    { apply (program_StartRootDriver boot_url token_seven _ (ok ())).
      vm_compute. reflexivity. }
    eapply rtc_l.
    { apply (program_Start root_request quiet_env _ None). vm_compute. reflexivity. }
    eapply rtc_l.
    { eapply (program_AddChild root_address _ (add_unowned "a" 10%positive) _ ReplySuccess);
        [vm_compute; reflexivity|by eexists|vm_compute; reflexivity]. }
    eapply rtc_l.
    { eapply (program_AddChild root_address _ (add_unowned "b" 11%positive) _ ReplySuccess);
        [vm_compute; reflexivity|by eexists|vm_compute; reflexivity]. }
    eapply rtc_l.
    { eapply (program_match 2%positive _ [] _
                (MatchResponse (IsCompositeDriver (slot_of_X 0))) token_eight);
        [vm_compute; reflexivity|vm_compute; reflexivity]. }
    eapply rtc_l; [|apply rtc_refl].
    eapply (program_match 3%positive _ [] _
              (MatchResponse (IsCompositeDriver (slot_of_X 1))) token_eight);
      [vm_compute; reflexivity|vm_compute; reflexivity].
  - repeat split; vm_compute; reflexivity.
Defined.
(** C6.  Start from the new [DriverRunner] and let the program make its
    calls, in any order: the root driver is requested, drivers are started,
    drivers add children to their nodes, the driver index answers match
    requests (which is where composite nodes are made), base drivers are
    bound.  Then every child in a list of children is a node, and no two
    children of a node have the same name.  A node which fills a slot of a
    composite driver went to [Bind] and so has no [Node] channel: it has no
    children when the node "composite" is appended, and it fills one slot. *)
Theorem sibling_names_never_clash (w : World) :
  rtc program_step new_DriverRunner w → children_alive w ∧ sibling_names_unique w.
Proof. intros Hrun. by destruct (program_run_kept w Hrun) as [[_ Htidy _ _ _] _]. Qed.

Lemma sibling_names_never_clash_witness :
  ∃ w, rtc program_step new_DriverRunner w
       ∧ shape <$> heap w !! 4%positive = Some ([], [2; 3]%positive, None)
       ∧ children_alive w ∧ sibling_names_unique w.
Proof.
  destruct program_composite as (w & Hrun & _ & _ & _ & _ & Hcomposite & _).
  exists w. split; [exact Hrun|]. split; [exact Hcomposite|].
  exact (sibling_names_never_clash w Hrun).
Defined.





(** C3, at the input where it fails.  The program has built the store of
    [program_composite]: the root has a driver and the children "a" and "b",
    which are the parents of the composite node, and the composite node has
    no driver yet.  Now the driver of the root goes away, and its destructor
    calls [Remove] on the root.  The loop over the children of the root calls
    [Remove] on "a", with its iterator advanced to "b"; "a" asks the composite
    node to remove itself; the composite node has neither children nor driver,
    erases itself from "a" and from "b" and calls [Remove] on both, as it
    does for every parent of a composite node.  That is a second call on "a",
    from within the first, and it completes the removal of "a" while the first
    call is still in its loop; and the call on "b" erases "b" from the
    children of the root, the element the iterator of the root's loop stands
    at.  The loop goes on with that iterator: the call has no defined result,
    whatever the fuel. *)
Theorem Remove_reentry_undefined :
  ∃ w d,
    rtc program_step new_DriverRunner w
    ∧ driver_component_ <$> heap w !! root_node_ w = Some (Some d)
    ∧ node_ <$> drivers_ w !! d = Some (root_node_ w)
    ∧ ∀ fuel,
        DriverComponent_destroy (S (S (S (S (S fuel))))) d w = Undefined IteratorInvalidated.
Proof.
  destruct program_composite as (w & Hrun & Hroot & Hr & Ha & Hb & Hc & Hd).
  exists w, 50%positive. rewrite Hroot. split; [exact Hrun|].
  destruct (heap w !! 1%positive) as [rd|] eqn:Hrd; [|discriminate Hr].
  destruct (heap w !! 2%positive) as [ad|] eqn:Had; [|discriminate Ha].
  destruct (heap w !! 3%positive) as [bd|] eqn:Hbd; [|discriminate Hb].
  destruct (heap w !! 4%positive) as [cd|] eqn:Hcd; [|discriminate Hc].
  destruct (drivers_ w !! 50%positive) as [dc|] eqn:Hdc; [|discriminate Hd].
  unfold shape in Hr, Ha, Hb, Hc. simpl in Hr, Ha, Hb, Hc, Hd.
  injection Hr as Hrcs Hrps Hrdc. injection Ha as Hacs Haps Hadc.
  injection Hb as Hbcs Hbps Hbdc. injection Hc as Hccs Hcps Hcdc.
  injection Hd as Hnode.
  split.
  { refine (eq_trans (f_equal (fmap driver_component_) Hrd) _). simpl. by rewrite Hrdc. }
  split.
  { refine (eq_trans (f_equal (fmap node_) Hdc) _). simpl. by rewrite Hnode. }
  intros fuel. unfold DriverComponent_destroy.
  rewrite (proj2 (driver_at_Done _ _ _) Hdc). cbn [mbind Outcome_bind]. rewrite Hnode.
  rewrite (proj2 (node_at_Done _ _ _) Hrd). cbn [mbind Outcome_bind].
  rewrite (Remove_loses_iterator fuel 1%positive 2%positive 3%positive 4%positive
             (set_driver_component None rd) ad bd cd); try done.
  all: unfold put_node; simpl;
    repeat (rewrite lookup_insert_eq || rewrite lookup_insert_ne by done); done.
Qed.
